(** * Section matching and change classification engine

    A shallow embedding of [scripts/semantic_utils.py],
    [scripts/compare_sections.py], [scripts/meaning_block.py],
    [scripts/parse_sections.py] and [scripts/generate_ai_summary.py] of the
    document comparison tool, together
    with the parts of the Python standard library they rely on ([str]
    methods, the regular expressions, [difflib.SequenceMatcher]).

    Conventions of the embedding.
    - Python [str] values are [string]s of 7-bit characters; character
      classes ([isspace], [isalpha], [\d], [\w], [lower]) are the ASCII
      restrictions of the Unicode ones.
    - Python [float] scores are exact rationals ([Q]); the decimal literals of
      the source denote their decimal values and no rounding takes place
      except where the source calls [round].
    - Python exceptions are values of [exn]; a computation that may raise
      lives in [result].  Dictionary indexing [d[k]] and true division [/] are
      the two operations of the source that can raise.
    - The process-wide counter [_change_id_gen] is threaded explicitly.
    - The optional embedding backend is a parameter of the engine.
    - A mapping holds its section records by value; [compare_sections]
      writes the key ["section"] into them, which [stamp] does record by
      record.  The loop is also modelled on a store of record objects
      ([stamp_in_place]); the two agree when no object sits under two
      different keys. *)

From Stdlib Require Import String Ascii List ZArith QArith Qround Lia Lqa Bool Arith
  PeanoNat Permutation Sorted DecimalString DecimalNat FinFun.
Import ListNotations.

Set Implicit Arguments.
Close Scope Q_scope.
Open Scope nat_scope.

(* ====================================================================== *)
(** * Exceptions *)

Inductive exn : Type :=
| KeyError (key : string)
| ZeroDivisionError.

Inductive result (A : Type) : Type :=
| Ok (a : A)
| Raise (e : exn).

Arguments Ok {A} a.
Arguments Raise {A} e.

Definition bind {A B : Type} (c : result A) (k : A -> result B) : result B :=
  match c with
  | Ok a => k a
  | Raise e => Raise e
  end.

Notation "x <- c ;; k" := (bind c (fun x => k))
  (at level 61, c at next level, right associativity).
Notation "' pat <- c ;; k" := (bind c (fun x => match x with pat => k end))
  (at level 61, pat pattern, c at next level, right associativity).

(** [for x in xs: out.append(f x)] where [f] may raise. *)
Fixpoint mapM {A B : Type} (f : A -> result B) (xs : list A) : result (list B) :=
  match xs with
  | [] => Ok []
  | x :: xs' => y <- f x ;; ys <- mapM f xs' ;; Ok (y :: ys)
  end.

(** [for x in xs: acc = f acc x] where [f] may raise. *)
Fixpoint foldM {A S : Type} (f : S -> A -> result S) (xs : list A) (acc : S)
  : result S :=
  match xs with
  | [] => Ok acc
  | x :: xs' => acc' <- f acc x ;; foldM f xs' acc'
  end.

(** Python's [x / y] on numbers. *)
Definition pydiv (x y : Q) : result Q :=
  if Qeq_bool y 0 then Raise ZeroDivisionError else Ok (x / y)%Q.

(* ====================================================================== *)
(** * Python strings *)

Module Py.

Definition chars : string -> list ascii := list_ascii_of_string.
Definition str : list ascii -> string := string_of_list_ascii.

Definition code (c : ascii) : nat := nat_of_ascii c.

Definition in_range (lo hi : nat) (c : ascii) : bool :=
  (lo <=? code c) && (code c <=? hi).

(** [str.isspace] and the class [\s]: TAB..CR, FS..US and SPACE. *)
Definition isspace (c : ascii) : bool := in_range 9 13 c || in_range 28 32 c.
Definition isdigit (c : ascii) : bool := in_range 48 57 c.
Definition isupper (c : ascii) : bool := in_range 65 90 c.
Definition islower (c : ascii) : bool := in_range 97 122 c.
Definition isalpha (c : ascii) : bool := isupper c || islower c.
Definition isalnum (c : ascii) : bool := isalpha c || isdigit c.
(** The class [\w]. *)
Definition isword (c : ascii) : bool := isalnum c || (code c =? 95).

Definition lower_char (c : ascii) : ascii :=
  if isupper c then ascii_of_nat (code c + 32) else c.

Definition lower_chars (s : list ascii) : list ascii := map lower_char s.

Fixpoint lstrip_chars (s : list ascii) : list ascii :=
  match s with
  | c :: s' => if isspace c then lstrip_chars s' else s
  | [] => []
  end.

Definition rstrip_chars (s : list ascii) : list ascii :=
  rev (lstrip_chars (rev s)).

Definition strip_chars (s : list ascii) : list ascii :=
  rstrip_chars (lstrip_chars s).

Fixpoint prefixb (p s : list ascii) : bool :=
  match p, s with
  | [], _ => true
  | _ :: _, [] => false
  | x :: p', y :: s' => Ascii.eqb x y && prefixb p' s'
  end.

(** [needle in hay]. *)
Fixpoint contains_chars (needle hay : list ascii) : bool :=
  prefixb needle hay ||
  match hay with
  | [] => false
  | _ :: hay' => contains_chars needle hay'
  end.

(** [s.split()]: the maximal runs of non-space characters. *)
Fixpoint split_chars (cur : list ascii) (s : list ascii) : list (list ascii) :=
  match s with
  | [] => match cur with [] => [] | _ => [rev cur] end
  | c :: s' =>
      if isspace c
      then match cur with
           | [] => split_chars [] s'
           | _ => rev cur :: split_chars [] s'
           end
      else split_chars (c :: cur) s'
  end.

Definition lower (s : string) : string := str (lower_chars (chars s)).
Definition strip (s : string) : string := str (strip_chars (chars s)).
Definition contains (needle hay : string) : bool :=
  contains_chars (chars needle) (chars hay).
Definition split (s : string) : list string :=
  map str (split_chars [] (chars s)).
Definition len (s : string) : nat := String.length s.

(** [sum(p(ch) for ch in s)] and [s.count(c)]. *)
Definition count_if (p : ascii -> bool) (s : string) : nat :=
  List.length (filter p (chars s)).

(** [sep.join(xs)]. *)
Fixpoint join (sep : string) (xs : list string) : string :=
  match xs with
  | [] => EmptyString
  | [x] => x
  | x :: xs' => (x ++ sep ++ join sep xs')%string
  end.

(** [not s] on a string. *)
Definition is_empty (s : string) : bool :=
  match s with EmptyString => true | _ => false end.

(** [a or b] on strings. *)
Definition or_else (a b : string) : string := if is_empty a then b else a.

(** [any(t in s for t in terms)]. *)
Definition any_in (terms : list string) (s : string) : bool :=
  existsb (fun t => contains t s) terms.

(** Sets of strings, kept as duplicate-free lists. *)
Definition mem (x : string) (xs : list string) : bool :=
  existsb (String.eqb x) xs.

Fixpoint set_of (xs : list string) : list string :=
  match xs with
  | [] => []
  | x :: xs' => let r := set_of xs' in if mem x r then r else x :: r
  end.

Definition set_diff (xs ys : list string) : list string :=
  filter (fun x => negb (mem x ys)) xs.
Definition set_inter (xs ys : list string) : list string :=
  filter (fun x => mem x ys) xs.
Definition set_union (xs ys : list string) : list string :=
  xs ++ set_diff ys xs.
Definition set_symdiff (xs ys : list string) : list string :=
  set_diff xs ys ++ set_diff ys xs.
Definition set_eqb (xs ys : list string) : bool :=
  forallb (fun x => mem x ys) xs && forallb (fun y => mem y xs) ys.

(** [sorted(xs, key=key)] and [sorted(xs, key=key, reverse=True)]: both are
    stable, elements with equal keys keep their relative order.  [le k1 k2]
    decides [k1 <= k2] on keys. *)
Section Sorting.
Variables (A K : Type) (key : A -> K) (le : K -> K -> bool).

Fixpoint insert_asc (x : A) (l : list A) : list A :=
  match l with
  | [] => [x]
  | y :: l' =>
      if le (key x) (key y) then x :: l else y :: insert_asc x l'
  end.

Fixpoint sorted_by (l : list A) : list A :=
  match l with
  | [] => []
  | x :: l' => insert_asc x (sorted_by l')
  end.

Fixpoint insert_desc (x : A) (l : list A) : list A :=
  match l with
  | [] => [x]
  | y :: l' =>
      if le (key y) (key x) then x :: l else y :: insert_desc x l'
  end.

Fixpoint sorted_by_reverse (l : list A) : list A :=
  match l with
  | [] => []
  | x :: l' => insert_desc x (sorted_by_reverse l')
  end.
End Sorting.

(** [sorted(xs)] on strings. *)
Definition sorted_strings (xs : list string) : list string :=
  sorted_by (fun x => x) String.leb xs.

End Py.

(* ====================================================================== *)
(** * Regular expressions

    A backtracking matcher with the priorities of Python's [re]: greedy
    repetition, leftmost alternative first.  Only the constructs of the
    patterns of the source are present; repetition is over a character class,
    as in all of them. *)

Module Re.

Inductive re : Type :=
| Eps
| Cls (p : ascii -> bool)
| Lit (s : string)
| Seq (r1 r2 : re)
| Alt (r1 r2 : re)
| Opt (r : re)
| Plus (p : ascii -> bool)
| Star (p : ascii -> bool)
| WordB.

(** [\b]: exactly one of the two neighbours is a word character. *)
Definition at_boundary (prev : option ascii) (s : list ascii) : bool :=
  let w o := match o with Some c => Py.isword c | None => false end in
  xorb (w prev) (w (hd_error s)).

Definition char_eq (icase : bool) (x y : ascii) : bool :=
  if icase then Ascii.eqb (Py.lower_char x) (Py.lower_char y)
  else Ascii.eqb x y.

Section Matcher.
(** [re.I] *)
Variable icase : bool.
Variable R : Type.

(** A continuation receives the last consumed character and the rest. *)
Definition cont : Type := option ascii -> list ascii -> option R.

Fixpoint lit (l : list ascii) (k : cont) (prev : option ascii)
  (s : list ascii) : option R :=
  match l with
  | [] => k prev s
  | x :: l' =>
      match s with
      | c :: s' => if char_eq icase x c then lit l' k (Some c) s' else None
      | [] => None
      end
  end.

(** One or more characters of [p], longest first. *)
Fixpoint plus (p : ascii -> bool) (k : cont) (s : list ascii) : option R :=
  match s with
  | c :: s' =>
      if p c
      then match plus p k s' with
           | Some r => Some r
           | None => k (Some c) s'
           end
      else None
  | [] => None
  end.

Fixpoint run (r : re) (k : cont) (prev : option ascii) (s : list ascii)
  : option R :=
  match r with
  | Eps => k prev s
  | Cls p =>
      match s with
      | c :: s' => if p c then k (Some c) s' else None
      | [] => None
      end
  | Lit l => lit (Py.chars l) k prev s
  | Seq r1 r2 => run r1 (run r2 k) prev s
  | Alt r1 r2 =>
      match run r1 k prev s with
      | Some x => Some x
      | None => run r2 k prev s
      end
  | Opt r1 =>
      match run r1 k prev s with
      | Some x => Some x
      | None => k prev s
      end
  | Plus p => plus p k s
  | Star p =>
      match plus p k s with
      | Some x => Some x
      | None => k prev s
      end
  | WordB => if at_boundary prev s then k prev s else None
  end.
End Matcher.

(** [pattern.match] at one position: the length of the match. *)
Definition match_len (icase : bool) (r : re) (prev : option ascii)
  (s : list ascii) : option nat :=
  run icase r (fun _ rest => Some (List.length s - List.length rest)) prev s.

(** The non-overlapping matches found by a left-to-right scan.  [skip] counts
    the characters of the current match still to be passed.  No pattern of
    the source matches the empty string; an empty match is passed over. *)
Inductive piece : Type :=
| Matched (m : list ascii)
| Other (c : ascii).

Fixpoint scan (icase : bool) (r : re) (skip : nat) (prev : option ascii)
  (s : list ascii) : list piece :=
  match s with
  | [] => []
  | c :: s' =>
      match skip with
      | S n => scan icase r n (Some c) s'
      | O =>
          match match_len icase r prev s with
          | Some (S n) => Matched (firstn (S n) s) :: scan icase r n (Some c) s'
          | _ => Other c :: scan icase r 0 (Some c) s'
          end
      end
  end.

Definition pieces (icase : bool) (r : re) (s : string) : list piece :=
  scan icase r 0 None (Py.chars s).

(** [pattern.findall(s)] for a pattern without capturing groups. *)
Definition findall (icase : bool) (r : re) (s : string) : list string :=
  flat_map (fun p => match p with Matched m => [Py.str m] | Other _ => [] end)
    (pieces icase r s).

(** [pattern.sub(repl, s)]. *)
Definition sub (icase : bool) (r : re) (repl : string) (s : string) : string :=
  Py.str (flat_map (fun p => match p with
                             | Matched _ => Py.chars repl
                             | Other c => [c]
                             end) (pieces icase r s)).

(** [bool(pattern.search(s))]. *)
Definition search (icase : bool) (r : re) (s : string) : bool :=
  existsb (fun p => match p with Matched _ => true | Other _ => false end)
    (pieces icase r s).

End Re.

(* ====================================================================== *)
(** * [difflib.SequenceMatcher(None, a, b)]

    The matcher is built with [isjunk=None] and the default [autojunk=True]:
    there are no junk elements, and when [b] has 200 elements or more, the
    elements that occur more than [len(b) // 100 + 1] times are "popular" and
    are dropped from the index [b2j]. *)

Module Difflib.

Definition block : Type := (nat * nat * nat)%type.

Definition size (m : block) : nat := snd m.

Section SequenceMatcher.
Variables a b : list ascii.

Definition at_a (i : nat) : ascii := nth i a zero.
Definition at_b (j : nat) : ascii := nth j b zero.

(** The positions of [c] in [b], in increasing order. *)
Definition indices_of (c : ascii) : list nat :=
  map fst (filter (fun p => Ascii.eqb (snd p) c)
                  (combine (seq 0 (List.length b)) b)).

Definition popular (c : ascii) : bool :=
  let n := List.length b in
  (200 <=? n) && (n / 100 + 1 <? List.length (indices_of c)).

(** [b2j.get(c, [])] once [__chain_b] has purged the popular elements. *)
Definition b2j_get (c : ascii) : list nat :=
  if popular c then [] else indices_of c.

(** [j2len.get(j, 0)] *)
Definition j2len_get (j2len : list (nat * nat)) (j : nat) : nat :=
  match find (fun p => fst p =? j) j2len with
  | Some p => snd p
  | None => 0
  end.

(** [j2len.get(j - 1, 0)]: no key is negative. *)
Definition j2len_get_pred (j2len : list (nat * nat)) (j : nat) : nat :=
  match j with
  | O => 0
  | S j' => j2len_get j2len j'
  end.

(** The inner loop of [find_longest_match], over the positions [js] of
    [a[i]] in [b]. *)
Fixpoint scan_row (i blo bhi : nat) (j2len : list (nat * nat))
  (js : list nat) (newj2len : list (nat * nat)) (best : block)
  : list (nat * nat) * block :=
  match js with
  | [] => (newj2len, best)
  | j :: js' =>
      if j <? blo then scan_row i blo bhi j2len js' newj2len best
      else if bhi <=? j then (newj2len, best)
      else
        let k := j2len_get_pred j2len j + 1 in
        let best' := if size best <? k then (i + 1 - k, j + 1 - k, k)
                     else best in
        scan_row i blo bhi j2len js' ((j, k) :: newj2len) best'
  end.

(** The outer loop, over [i] in [range(alo, ahi)]. *)
Fixpoint scan_rows (rows : list nat) (blo bhi : nat)
  (j2len : list (nat * nat)) (best : block) : block :=
  match rows with
  | [] => best
  | i :: rows' =>
      let '(newj2len, best') :=
        scan_row i blo bhi j2len (b2j_get (at_a i)) [] best in
      scan_rows rows' blo bhi newj2len best'
  end.

(** [while besti > alo and bestj > blo and a[besti-1] == b[bestj-1]] *)
Fixpoint extend_back (alo blo besti bestj bestsize : nat) {struct besti}
  : block :=
  match besti with
  | O => (besti, bestj, bestsize)
  | S besti' =>
      if (alo <? besti) && (blo <? bestj)
         && Ascii.eqb (at_a besti') (at_b (bestj - 1))
      then extend_back alo blo besti' (bestj - 1) (bestsize + 1)
      else (besti, bestj, bestsize)
  end.

(** [while besti+bestsize < ahi and bestj+bestsize < bhi and
    a[besti+bestsize] == b[bestj+bestsize]]; [room] is
    [ahi - (besti + bestsize)], the most the loop can run. *)
Fixpoint extend_fwd (room ahi bhi besti bestj bestsize : nat) {struct room}
  : block :=
  match room with
  | O => (besti, bestj, bestsize)
  | S room' =>
      if (besti + bestsize <? ahi) && (bestj + bestsize <? bhi)
         && Ascii.eqb (at_a (besti + bestsize)) (at_b (bestj + bestsize))
      then extend_fwd room' ahi bhi besti bestj (bestsize + 1)
      else (besti, bestj, bestsize)
  end.

(** [find_longest_match(alo, ahi, blo, bhi)].  The two loops that extend
    the match over junk do nothing, the junk set being empty. *)
Definition find_longest_match (alo ahi blo bhi : nat) : block :=
  let '(besti, bestj, bestsize) :=
    scan_rows (seq alo (ahi - alo)) blo bhi [] (alo, blo, 0) in
  let '(besti, bestj, bestsize) :=
    extend_back alo blo besti bestj bestsize in
  extend_fwd (ahi - (besti + bestsize)) ahi bhi besti bestj bestsize.

Definition rect : Type := (nat * nat * nat * nat)%type.

(** The work-list loop of [get_matching_blocks]; [queue.pop()] takes the
    entry pushed last, here the head.  Every entry handled either is
    dropped or is replaced by strictly narrower ones, so that
    [2 * len(a) + 1] rounds empty the queue. *)
Fixpoint blocks_loop (fuel : nat) (queue : list rect) (acc : list block)
  : list block :=
  match queue with
  | [] => acc
  | (alo, ahi, blo, bhi) :: queue' =>
      match fuel with
      | O => acc
      | S fuel' =>
          let '(i, j, k) := find_longest_match alo ahi blo bhi in
          if k =? 0 then blocks_loop fuel' queue' acc
          else
            let q1 := if (alo <? i) && (blo <? j)
                      then (alo, i, blo, j) :: queue' else queue' in
            let q2 := if (i + k <? ahi) && (j + k <? bhi)
                      then (i + k, ahi, j + k, bhi) :: q1 else q1 in
            blocks_loop fuel' q2 ((i, j, k) :: acc)
      end
  end.

(** [get_matching_blocks()], before the blocks are sorted, adjacent ones
    merged and the empty sentinel appended; none of that changes the sum
    of the sizes, which is all [ratio] reads. *)
Definition get_matching_blocks : list block :=
  let la := List.length a in
  let lb := List.length b in
  blocks_loop (2 * la + 1) [(0, la, 0, lb)] [].

Definition matches : nat := list_sum (map size get_matching_blocks).

(** [_calculate_ratio(matches, length)] *)
Definition _calculate_ratio (m length : nat) : result Q :=
  if negb (length =? 0)
  then pydiv (2 * inject_Z (Z.of_nat m))%Q (inject_Z (Z.of_nat length))
  else Ok 1%Q.

(** [ratio()] *)
Definition ratio : result Q :=
  _calculate_ratio matches (List.length a + List.length b).
End SequenceMatcher.

End Difflib.

(* ====================================================================== *)
(** * Numbers *)

Definition Qnat (n : nat) : Q := inject_Z (Z.of_nat n).

(** [x >= y], [x < y], [x > y] on floats. *)
Definition Qgeb (x y : Q) : bool := Qle_bool y x.
Definition Qltb (x y : Q) : bool := negb (Qle_bool y x).
Definition Qgtb (x y : Q) : bool := negb (Qle_bool x y).

(** [max(x, y)] and [min(x, y)]: the first argument wins a tie. *)
Definition pymax (x y : Q) : Q := if Qgtb y x then y else x.
Definition pymin (x y : Q) : Q := if Qltb y x then y else x.

(** [round(x, 3)]: to the nearest multiple of [0.001], ties to even. *)
Definition round3 (x : Q) : Q :=
  let y := (x * 1000)%Q in
  let n := Qnum y in
  let d := Z.pos (Qden y) in
  let q := (n / d)%Z in
  let r := (n mod d)%Z in
  let up :=
    match (2 * r ?= d)%Z with
    | Lt => false
    | Gt => true
    | Eq => Z.odd q
    end in
  Qred (((if up then q + 1 else q)%Z # 1) / 1000)%Q.

(* ====================================================================== *)
(** * scripts/semantic_utils.py *)

Module SemanticUtils.

Local Open Scope string_scope.

(** [TOKEN_RE = re.compile(r"[a-z0-9]+")] *)
Definition TOKEN_RE : Re.re := Re.Plus (fun c => Py.islower c || Py.isdigit c).
(** [SPACE_RE = re.compile(r"\s+")] *)
Definition SPACE_RE : Re.re := Re.Plus Py.isspace.

(** The arguments are strings: [text or ""] is the identity on them.  Where
    the source passes a value that may be [None], the call site of the
    embedding reads it as the empty string first. *)
Definition normalize_text (text : string) : string :=
  let text := Py.strip (Py.lower text) in
  Re.sub false SPACE_RE " " text.

Definition tokenize (text : string) : list string :=
  Re.findall false TOKEN_RE (normalize_text text).

Definition is_nil {A : Type} (l : list A) : bool :=
  match l with [] => true | _ => false end.

Definition jaccard_similarity (text_a text_b : string) : result Q :=
  let a := Py.set_of (tokenize text_a) in
  let b := Py.set_of (tokenize text_b) in
  if is_nil a && is_nil b then Ok 1%Q
  else if is_nil a || is_nil b then Ok 0%Q
  else pydiv (Qnat (List.length (Py.set_inter a b)))
             (Qnat (List.length (Py.set_union a b))).

Definition lexical_similarity (text_a text_b : string) : result Q :=
  let a := normalize_text text_a in
  let b := normalize_text text_b in
  if Py.is_empty a && Py.is_empty b then Ok 1%Q
  else if Py.is_empty a || Py.is_empty b then Ok 0%Q
  else
    ratio <- Difflib.ratio (Py.chars a) (Py.chars b) ;;
    jac <- jaccard_similarity a b ;;
    Ok (0.55 * ratio + 0.45 * jac)%Q.

Section Embedding.
(** [_get_embedder()]: [None] when [ENABLE_EMBEDDINGS] is not ["1"] or the
    model cannot be loaded; otherwise the model, read here as the function
    that gives the dot product of the two encodings, or nothing when
    [encode] raises. *)
Variable embedder : option (string -> string -> option Q).

Definition _embedding_similarity (text_a text_b : string) : option Q :=
  match embedder with
  | None => None
  | Some model =>
      match model text_a text_b with
      | Some score => Some (pymax 0 (pymin 1 score))
      | None => None
      end
  end.

Definition semantic_similarity (text_a text_b : string) : result Q :=
  let text_a := Py.strip text_a in
  let text_b := Py.strip text_b in
  if Py.is_empty text_a && Py.is_empty text_b then Ok 1%Q
  else if Py.is_empty text_a || Py.is_empty text_b then Ok 0%Q
  else
    let emb_score := _embedding_similarity text_a text_b in
    lex_score <- lexical_similarity text_a text_b ;;
    match emb_score with
    | None => Ok lex_score
    | Some emb_score => Ok (0.75 * emb_score + 0.25 * lex_score)%Q
    end.
End Embedding.

End SemanticUtils.

(* ====================================================================== *)
(** * scripts/compare_sections.py *)

(** A value stored in a section record. *)
Inductive pyval : Type :=
| PyNone
| PyStr (s : string).

(** A section record: a dictionary read at the keys ["heading"], ["body"],
    ["meaning"] and ["section"]; a key may be absent. *)
Module Sec.
Record t : Type := mk
  { heading : option pyval;
    body : option pyval;
    meaning : option pyval;
    section : option pyval }.

(** [d[\"section\"] = v] *)
Definition set_section (d : t) (v : string) : t :=
  mk (heading d) (body d) (meaning d) (Some (PyStr v)).

(** [bool(d)]: the dictionary has a key. *)
Definition nonempty (d : t) : bool :=
  match heading d, body d, meaning d, section d with
  | None, None, None, None => false
  | _, _, _, _ => true
  end.
End Sec.

(** The two sets of [numeric_delta]. *)
Record delta : Type := mk_delta
  { added : list string;
    removed : list string }.

(** A change record. *)
Module Change.
Record t : Type := mk
  { change_id : string;
    type : string;
    subtype : string;
    severity : string;
    old_section : string;
    new_section : string;
    description : string;
    why_it_is_a_change : string;
    section : string;
    section_old : string;
    section_new : string;
    topic : string;
    change_type : string;
    old_text : string;
    new_text : string;
    similarity_score : Q;
    numeric_delta : delta }.
End Change.

(** The keyword arguments of [compare_sections]. *)
Record config : Type := mk_config
  { match_threshold : Q;
    heading_fallback_threshold : Q;
    relocation_threshold : Q;
    strict_mode : bool;
    include_non_true : bool }.

Definition default_config : config :=
  mk_config 0.58 0.82 0.78 true false.

(** A mapping from section identifiers to section records, in insertion
    order. *)
Definition sections : Type := list (string * Sec.t).

Module CompareSections.

Import SemanticUtils.
Local Open Scope string_scope.

(** [NUMBER_PATTERN = re.compile(r"\b\d+(?::\d{2})?(?:\.\d+)?\b")] *)
Definition number_body : Re.re :=
  Re.Seq (Re.Plus Py.isdigit)
    (Re.Seq (Re.Opt (Re.Seq (Re.Lit ":")
                       (Re.Seq (Re.Cls Py.isdigit) (Re.Cls Py.isdigit))))
            (Re.Opt (Re.Seq (Re.Lit ".") (Re.Plus Py.isdigit)))).

Definition NUMBER_PATTERN : Re.re :=
  Re.Seq Re.WordB (Re.Seq number_body Re.WordB).

Definition SPACE_RE : Re.re := Re.Plus Py.isspace.

(** [x y?] *)
Definition opt_last (stem last : string) : Re.re :=
  Re.Seq (Re.Lit stem) (Re.Opt (Re.Lit last)).

(** [(hours?|hrs?|days?|landings?|sectors?|minutes?|mins?|kg|auw)] *)
Definition unit_group : Re.re :=
  Re.Alt (opt_last "hour" "s")
    (Re.Alt (opt_last "hr" "s")
      (Re.Alt (opt_last "day" "s")
        (Re.Alt (opt_last "landing" "s")
          (Re.Alt (opt_last "sector" "s")
            (Re.Alt (opt_last "minute" "s")
              (Re.Alt (opt_last "min" "s")
                (Re.Alt (Re.Lit "kg") (Re.Lit "auw")))))))).

(** [TIME_OR_UNIT_PATTERN], compiled with [re.I]. *)
Definition TIME_OR_UNIT_PATTERN : Re.re :=
  Re.Seq Re.WordB
    (Re.Seq number_body
      (Re.Seq (Re.Star Py.isspace) (Re.Seq (Re.Opt unit_group) Re.WordB))).

Definition REGULATORY_TERMS : list string :=
  ["shall"; "must"; "required"; "limit"; "maximum"; "minimum"; "rest";
   "flight"; "duty"; "crew"; "operator"; "standby"; "landing"; "applicable";
   "applicability"; "fdtl"; "dgca"; "not exceed"].

Definition SCOPE_TERMS : list string :=
  ["applicable"; "applicability"; "all operators"; "scheduled";
   "non-scheduled"; "general aviation"; "private"; "public sector";
   "state governments"; "except"; "only"].

Definition OPS_NUMERIC_TERMS : list string :=
  ["flight time"; "flight duty"; "fdp"; "rest"; "standby"; "weekly rest";
   "landings"; "sectors"; "wocl"; "applicable"; "auw"; "maximum"; "minimum";
   "not exceed"].

Definition NOISE_PHRASES : list string :=
  ["table of contents"; "page"; "issue"; "dated"; "effective"; "dgca - car";
   "car -"].

(** [v or ""] for a value that is a string or [None]. *)
Definition or_empty (v : pyval) : string :=
  match v with
  | PyStr s => s
  | PyNone => ""
  end.

(** [d.get(key)] and [d.get(key, "")] *)
Definition get (field : option pyval) : pyval :=
  match field with Some v => v | None => PyNone end.
Definition get_or_empty (field : option pyval) : pyval :=
  match field with Some v => v | None => PyStr "" end.

(** [bool(v)] *)
Definition truthy (v : pyval) : bool :=
  match v with
  | PyStr s => negb (Py.is_empty s)
  | PyNone => false
  end.

(** [x or y] *)
Definition py_or (x y : pyval) : pyval := if truthy x then x else y.

Definition pyval_eqb (x y : pyval) : bool :=
  match x, y with
  | PyNone, PyNone => true
  | PyStr s, PyStr s' => String.eqb s s'
  | _, _ => false
  end.

(** [f"{a} {b}"] *)
Definition spaced (a b : string) : string := a ++ " " ++ b.

Definition _normalize (text : string) : string :=
  Re.sub false SPACE_RE " " (Py.lower (Py.strip text)).

Definition _comparison_text (section : Sec.t) : string :=
  Py.strip
    (or_empty
       (py_or (get (Sec.meaning section))
          (py_or (get (Sec.body section))
             (py_or (get (Sec.heading section)) (PyStr ""))))).

(** [section.get("heading", "")], read by [normalize_text] as a string. *)
Definition heading_of (section : Sec.t) : string :=
  or_empty (get_or_empty (Sec.heading section)).
Definition body_of (section : Sec.t) : string :=
  or_empty (get_or_empty (Sec.body section)).

Definition _extract_numbers (text : string) : list string :=
  Py.set_of (Re.findall false NUMBER_PATTERN text).

Definition _remove_numbers (text : string) : string :=
  Re.sub false NUMBER_PATTERN " " text.

Definition _numeric_delta (old_text new_text : string)
  : list string * list string :=
  let old_nums := _extract_numbers old_text in
  let new_nums := _extract_numbers new_text in
  (Py.sorted_strings (Py.set_diff new_nums old_nums),
   Py.sorted_strings (Py.set_diff old_nums new_nums)).

Definition _contains_regulatory_signal (text : string) : bool :=
  let low := _normalize text in
  Py.any_in REGULATORY_TERMS low.

Definition _contains_scope_signal (text : string) : bool :=
  let low := _normalize text in
  Py.any_in SCOPE_TERMS low.

Definition _is_substantive_rule (text : string) : bool :=
  let low := _normalize text in
  if (Py.len low <? 45)%nat then false
  else if (List.length (Py.split low) <? 8)%nat then false
  else _contains_regulatory_signal low
       || Re.search true TIME_OR_UNIT_PATTERN low.

Definition _looks_like_noise (text : string) : bool :=
  if Py.is_empty text then true
  else
    let low := _normalize text in
    if (Py.len low <? 8)%nat then true
    else if Py.any_in NOISE_PHRASES low
            && negb (_contains_regulatory_signal low) then true
    else
      let letters := Py.count_if Py.isalpha low in
      let digits := Py.count_if Py.isdigit low in
      if (letters =? 0)%nat then true
      else
        let symbols :=
          Py.len low - letters - digits
          - Py.count_if (Ascii.eqb " "%char) low in
        if Qgtb (Qnat symbols) (Qnat letters * 0.7)%Q then true
        else if ((letters <? 6) && (0 <? digits))%nat then true
        else false.

Definition _is_operational_numeric_change (old_text new_text : string) : bool :=
  let old_nums := _extract_numbers old_text in
  let new_nums := _extract_numbers new_text in
  if Py.set_eqb old_nums new_nums then false
  else
    let combined := _normalize (spaced old_text new_text) in
    if forallb (fun x => Py.contains "." x && negb (Py.contains ":" x))
         (Py.set_symdiff old_nums new_nums)
       && Py.any_in ["para"; "sub para"; "section"; "table"] combined
    then false
    else
      let has_ops_context := Py.any_in OPS_NUMERIC_TERMS combined in
      let has_unit_or_time := Re.search true TIME_OR_UNIT_PATTERN combined in
      has_ops_context && has_unit_or_time.

Definition _severity_from_text (change_type subtype old_text new_text : string)
  : string :=
  let combined := Py.lower (spaced old_text new_text) in
  if String.eqb change_type "NOISE" then "MINOR"
  else if Py.mem subtype ["Numeric limit changed"; "Applicability changed"]
  then "CRITICAL"
  else if Py.mem subtype ["Rule removed"; "New rule added"]
  then (if _is_substantive_rule (spaced old_text new_text)
        then "CRITICAL" else "MODERATE")
  else if Py.any_in ["shall not"; "must"; "not exceed"; "maximum"; "minimum"]
            combined
  then "CRITICAL"
  else if String.eqb change_type "TRUE_CHANGE" then "MODERATE"
  else "MINOR".

(** [f"C{n:04d}"] *)
Definition zfill4 (digits : string) : string :=
  Py.str (repeat "0"%char (4 - Py.len digits)) ++ digits.

Definition format_change_id (n : nat) : string :=
  "C" ++ zfill4 (NilEmpty.string_of_uint (Nat.to_uint n)).

Section Engine.
Variable embedder : option (string -> string -> option Q).

Definition _pair_score (old_sec new_sec : Sec.t) : result Q :=
  let old_heading := heading_of old_sec in
  let new_heading := heading_of new_sec in
  let old_text := _comparison_text old_sec in
  let new_text := _comparison_text new_sec in
  heading_score <- lexical_similarity old_heading new_heading ;;
  meaning_score <- semantic_similarity embedder old_text new_text ;;
  body_score <- lexical_similarity (body_of old_sec) (body_of new_sec) ;;
  Ok (0.25 * heading_score + 0.65 * meaning_score + 0.10 * body_score)%Q.

(** The state of the loop of [_best_persistence_match]:
    [best_id, best_sem, best_head, best_combo]. *)
Definition best : Type := (option string * Q * Q * Q)%type.

Definition _best_persistence_match (section : Sec.t) (candidates : sections)
  : result best :=
  let base_text := _comparison_text section in
  let base_heading := heading_of section in
  foldM
    (fun (st : best) (item : string * Sec.t) =>
       let '(best_id, best_sem, best_head, best_combo) := st in
       let '(cid, cand) := item in
       let cand_text := _comparison_text cand in
       let cand_heading := heading_of cand in
       sem <- semantic_similarity embedder base_text cand_text ;;
       head <- lexical_similarity base_heading cand_heading ;;
       let combo := (0.75 * sem + 0.25 * head)%Q in
       if Qgtb combo best_combo
       then Ok (Some cid, sem, head, combo)
       else Ok st)
    candidates
    (None, (-1)%Q, (-1)%Q, (-1)%Q).

(** [old_sec.get("section", "") if old_sec else ""] *)
Definition section_of (sec : option Sec.t) : string :=
  match sec with
  | Some d =>
      if Sec.nonempty d then or_empty (get_or_empty (Sec.section d)) else ""
  | None => ""
  end.

(** [x or {}] *)
Definition empty_dict : Sec.t := Sec.mk None None None None.
Definition dict_or (x : option Sec.t) (y : Sec.t) : Sec.t :=
  match x with
  | Some d => if Sec.nonempty d then d else y
  | None => y
  end.

(** [_build_change]; [gen] is the state of [_change_id_gen], the next
    number it yields. *)
Definition _build_change (gen : nat) (old_sec new_sec : option Sec.t)
  (ctype severity subtype description why : string) (score : Q)
  : Change.t * nat :=
  let old_section := section_of old_sec in
  let new_section := section_of new_sec in
  let old_text := _comparison_text (dict_or old_sec empty_dict) in
  let new_text := _comparison_text (dict_or new_sec empty_dict) in
  let topic := heading_of (dict_or new_sec (dict_or old_sec empty_dict)) in
  let '(added, removed) := _numeric_delta old_text new_text in
  (Change.mk
     (format_change_id gen)
     ctype
     subtype
     severity
     old_section
     new_section
     description
     why
     (Py.or_else new_section old_section)
     old_section
     new_section
     (Py.or_else topic (Py.or_else old_section new_section))
     subtype
     old_text
     new_text
     (round3 score)
     (mk_delta added removed),
   S gen).

Definition old_id_differs (old_sec new_sec : Sec.t) : bool :=
  negb (pyval_eqb (get (Sec.section old_sec)) (get (Sec.section new_sec))).

(** [_classify_matched_change]: the record, or [None], and the state of
    the generator. *)
Definition _classify_matched_change (gen : nat) (old_sec new_sec : Sec.t)
  (score : Q) (unchanged_threshold : Q) : result (option Change.t * nat) :=
  let old_text := _comparison_text old_sec in
  let new_text := _comparison_text new_sec in
  let old_norm := _normalize old_text in
  let new_norm := _normalize new_text in
  heading_sim <- lexical_similarity (heading_of old_sec) (heading_of new_sec) ;;
  text_sim <- semantic_similarity embedder old_text new_text ;;
  let build ctype severity subtype description why :=
    let '(c, gen') :=
      _build_change gen (Some old_sec) (Some new_sec) ctype severity subtype
        description why score in
    Ok (Some c, gen') in
  if String.eqb old_norm new_norm || Qgeb score unchanged_threshold then
    if old_id_differs old_sec new_sec then
      build "STRUCTURAL_CHANGE" "MINOR" "STRUCTURAL_MOVE"
        "Section was renumbered/moved."
        "Rule text is materially the same; only numbering/location changed."
    else Ok (None, gen)
  else if _looks_like_noise old_text && _looks_like_noise new_text then
    build "NOISE" "MINOR" "OCR/Parsing artifact"
      "Detected non-regulatory noisy text."
      "Both sides look like OCR/header/footer artifacts."
  else if Qltb heading_sim 0.90 && Qgeb text_sim 0.93 then
    build "STRUCTURAL_CHANGE" "MINOR" "Heading changes"
      "Heading wording/format changed with same rule content."
      "Body meaning is effectively unchanged."
  else if old_id_differs old_sec new_sec && Qgeb text_sim 0.90 then
    build "STRUCTURAL_CHANGE" "MINOR" "STRUCTURAL_MOVE"
      "Content moved/renumbered."
      "High semantic equivalence indicates identical rule relocated."
  else
    let scope_rule :=
      if (_contains_scope_signal old_text || _contains_scope_signal new_text)
         && Qltb text_sim 0.84
      then
        let subtype := "Applicability changed" in
        let sev := _severity_from_text "TRUE_CHANGE" subtype old_text new_text in
        build "TRUE_CHANGE" sev subtype
          "Applicability/scope language changed."
          "Operator categories or scope boundaries materially differ."
      else if (_contains_regulatory_signal old_text
               || _contains_regulatory_signal new_text)
              && (Qltb text_sim 0.66
                  && (_is_substantive_rule old_text
                      || _is_substantive_rule new_text))
      then
        let subtype := "Operational requirement changed" in
        let sev := _severity_from_text "TRUE_CHANGE" subtype old_text new_text in
        build "TRUE_CHANGE" sev subtype
          "Operational requirement text changed."
          "Pilot/operator action could change due to semantic requirement difference."
      else
        build "SEMANTIC_MINOR" "MINOR" "Clarification without rule change"
          "Wording/clarity changes detected."
          "Difference appears non-operational or uncertain." in
    if _is_operational_numeric_change old_text new_text then
      no_num_sim <- semantic_similarity embedder (_remove_numbers old_text)
                      (_remove_numbers new_text) ;;
      if Qgeb no_num_sim 0.84 then
        let subtype := "Numeric limit changed" in
        let sev := _severity_from_text "TRUE_CHANGE" subtype old_text new_text in
        build "TRUE_CHANGE" sev subtype
          "Numeric operational limit changed."
          "Operational context is same while enforceable numeric values differ."
      else scope_rule
    else scope_rule.

(** [d[key]] *)
Fixpoint getitem (d : sections) (key : string) : result Sec.t :=
  match d with
  | [] => Raise (KeyError key)
  | (k, v) :: d' => if String.eqb k key then Ok v else getitem d' key
  end.

(** [best_id is not None and (combo >= relocation_threshold or sem >= 0.80
    or head >= 0.88)] *)
Definition relocated (b : best) (relocation_threshold : Q) : option string :=
  let '(best_id, sem, head, combo) := b in
  match best_id with
  | Some id =>
      if Qgeb combo relocation_threshold || Qgeb sem 0.80 || Qgeb head 0.88
      then Some id else None
  | None => None
  end.

(** [combo if best_id else 0.0] *)
Definition combo_if_id (b : best) : Q :=
  let '(best_id, _, _, combo) := b in
  match best_id with
  | Some id => if Py.is_empty id then 0%Q else combo
  | None => 0%Q
  end.

Definition combo_of (b : best) : Q := snd b.

Definition _classify_unmatched_old (gen : nat) (old_sec : Sec.t)
  (new_sections : sections) (relocation_threshold : Q)
  : result (Change.t * nat) :=
  let old_text := _comparison_text old_sec in
  if _looks_like_noise old_text then
    Ok (_build_change gen (Some old_sec) None "NOISE" "MINOR"
          "Non-regulatory text"
          "Removed noisy/non-regulatory segment."
          "Text resembles metadata/header/footer/OCR noise." 0%Q)
  else
    b <- _best_persistence_match old_sec new_sections ;;
    match relocated b relocation_threshold with
    | Some best_id =>
        target <- getitem new_sections best_id ;;
        Ok (_build_change gen (Some old_sec) (Some target)
              "STRUCTURAL_CHANGE" "MINOR" "MOVED_RULE"
              "Rule moved/renumbered with same meaning."
              "Semantically equivalent rule exists elsewhere in new document."
              (combo_of b))
    | None =>
        if negb (_is_substantive_rule old_text) then
          Ok (_build_change gen (Some old_sec) None "SEMANTIC_MINOR" "MINOR"
                "Possible structural split/merge"
                "Small unmatched fragment likely due to structure changes."
                "No strong evidence of operational requirement removal."
                (combo_if_id b))
        else
          let subtype := "Rule removed" in
          let sev := _severity_from_text "TRUE_CHANGE" subtype old_text "" in
          Ok (_build_change gen (Some old_sec) None "TRUE_CHANGE" sev subtype
                "A previously present rule is missing in new document."
                "No semantically equivalent rule found across the new document."
                0%Q)
    end.

Definition _classify_unmatched_new (gen : nat) (new_sec : Sec.t)
  (old_sections : sections) (relocation_threshold : Q)
  : result (Change.t * nat) :=
  let new_text := _comparison_text new_sec in
  if _looks_like_noise new_text then
    Ok (_build_change gen None (Some new_sec) "NOISE" "MINOR"
          "Non-regulatory text"
          "Added noisy/non-regulatory segment."
          "Text resembles metadata/header/footer/OCR noise." 0%Q)
  else
    b <- _best_persistence_match new_sec old_sections ;;
    match relocated b relocation_threshold with
    | Some best_id =>
        source <- getitem old_sections best_id ;;
        Ok (_build_change gen (Some source) (Some new_sec)
              "STRUCTURAL_CHANGE" "MINOR" "MOVED_RULE"
              "Rule moved/renumbered with same meaning."
              "Semantically equivalent rule exists elsewhere in old document."
              (combo_of b))
    | None =>
        if negb (_is_substantive_rule new_text) then
          Ok (_build_change gen None (Some new_sec) "SEMANTIC_MINOR" "MINOR"
                "Possible structural split/merge"
                "Small unmatched fragment likely due to structure changes."
                "No strong evidence of operational requirement addition."
                (combo_if_id b))
        else
          let subtype := "New rule added" in
          let sev := _severity_from_text "TRUE_CHANGE" subtype "" new_text in
          Ok (_build_change gen None (Some new_sec) "TRUE_CHANGE" sev subtype
                "A new rule appears in the updated document."
                "No semantically equivalent predecessor found across the old document."
                0%Q)
    end.

(** The in-place relabelling shared by the two validator passes that
    downgrade a record. *)
Definition downgrade (ch : Change.t) (description why : string) : Change.t :=
  Change.mk
    (Change.change_id ch)
    "SEMANTIC_MINOR"
    "Clarification without rule change"
    "MINOR"
    (Change.old_section ch)
    (Change.new_section ch)
    description
    why
    (Change.section ch)
    (Change.section_old ch)
    (Change.section_new ch)
    (Change.topic ch)
    "Clarification without rule change"
    (Change.old_text ch)
    (Change.new_text ch)
    (Change.similarity_score ch)
    (Change.numeric_delta ch).

Definition is_true_change (ch : Change.t) : bool :=
  String.eqb (Change.type ch) "TRUE_CHANGE".

Definition operational_impact_step (ch : Change.t) : result Change.t :=
  if negb (is_true_change ch) then Ok ch
  else
    let subtype := Change.subtype ch in
    let old_text := Change.old_text ch in
    let new_text := Change.new_text ch in
    if Py.mem subtype ["Numeric limit changed"; "Applicability changed"]
    then Ok ch
    else if Py.mem subtype ["Rule removed"; "New rule added"]
            && _is_substantive_rule (spaced old_text new_text)
    then Ok ch
    else
      sim <- semantic_similarity embedder old_text new_text ;;
      if Qltb sim 0.64
         && (_is_substantive_rule old_text || _is_substantive_rule new_text)
      then Ok ch
      else
        Ok (downgrade ch
              "Difference appears non-operational after validation pass."
              "Second-pass filter: no clear operator action change detected.").

Definition _operational_impact_pass (changes : list Change.t)
  : result (list Change.t) :=
  mapM operational_impact_step changes.

(** [",".join(sorted({s for s in [x, y] if s}))] *)
Definition join_ids (x y : string) : string :=
  Py.join ","
    (Py.sorted_strings
       (Py.set_of (filter (fun s => negb (Py.is_empty s)) [x; y]))).

(** The assignments made to [ex] when [ch] is merged into it. *)
Definition merge (ex ch : Change.t) : Change.t :=
  let old_section := join_ids (Change.old_section ex) (Change.old_section ch) in
  let new_section := join_ids (Change.new_section ex) (Change.new_section ch) in
  Change.mk
    (Change.change_id ex)
    (Change.type ex)
    (Change.subtype ex)
    (Change.severity ex)
    old_section
    new_section
    (Change.description ex)
    (Change.why_it_is_a_change ex)
    (Py.or_else new_section old_section)
    old_section
    new_section
    (Change.topic ex)
    (Change.change_type ex)
    (Change.old_text ex)
    (Change.new_text ex)
    (pymax (Change.similarity_score ex) (Change.similarity_score ch))
    (Change.numeric_delta ex).

(** The inner loop of [_dedupe_by_topic]: the list with [ch] merged into
    the first record that takes it, or [None] when none does. *)
Fixpoint merge_into (ch : Change.t) (deduped : list Change.t)
  : result (option (list Change.t)) :=
  match deduped with
  | [] => Ok None
  | ex :: rest =>
      let topic_a := _normalize (Change.topic ch) in
      let topic_b := _normalize (Change.topic ex) in
      let same_type :=
        String.eqb (Change.type ex) (Change.type ch)
        && String.eqb (Change.subtype ex) (Change.subtype ch) in
      topic_sim <- lexical_similarity topic_a topic_b ;;
      text_sim <- semantic_similarity embedder
                    (spaced (Change.old_text ch) (Change.new_text ch))
                    (spaced (Change.old_text ex) (Change.new_text ex)) ;;
      if same_type && (Qgeb topic_sim 0.92 || Qgeb text_sim 0.94)
      then Ok (Some (merge ex ch :: rest))
      else
        r <- merge_into ch rest ;;
        Ok (option_map (cons ex) r)
  end.

Definition _dedupe_by_topic (changes : list Change.t)
  : result (list Change.t) :=
  foldM
    (fun deduped ch =>
       r <- merge_into ch deduped ;;
       match r with
       | Some deduped' => Ok deduped'
       | None => Ok (deduped ++ [ch])%list
       end)
    changes [].

Definition _true_change_confidence (ch : Change.t) : Q :=
  let subtype := Change.subtype ch in
  let text := spaced (Change.old_text ch) (Change.new_text ch) in
  let sim := Change.similarity_score ch in
  if String.eqb subtype "Numeric limit changed" then 1%Q
  else if String.eqb subtype "Applicability changed" then 0.95%Q
  else
    let score := 0.40%Q in
    let score := if _is_substantive_rule text then (score + 0.25)%Q else score in
    let score := if _contains_regulatory_signal text then (score + 0.20)%Q
                 else score in
    let score := if Re.search true TIME_OR_UNIT_PATTERN text
                 then (score + 0.10)%Q else score in
    let score := (score + pymax 0 (0.1 - sim * 0.05))%Q in
    pymin 1 score.

Definition _cap_over_detection (changes : list Change.t)
  (max_true_changes : nat) : list Change.t :=
  let true_changes := filter is_true_change changes in
  if (List.length true_changes <=? 50)%nat then changes
  else
    let ranked :=
      Py.sorted_by_reverse _true_change_confidence Qle_bool true_changes in
    let keep_ids :=
      Py.set_of (map Change.change_id (firstn max_true_changes ranked)) in
    map
      (fun ch =>
         if negb (is_true_change ch) then ch
         else if Py.mem (Change.change_id ch) keep_ids then ch
         else
           downgrade ch "Auto-tightened due to high TRUE_CHANGE volume."
             "Low confidence compared with stronger operational changes.")
      changes.

(** The filter that ends [_validate_changes]. *)
Definition visible (strict_mode include_non_true : bool) (ch : Change.t)
  : bool :=
  let ctype := Change.type ch in
  if String.eqb ctype "NOISE" then false
  else if strict_mode && negb include_non_true
          && negb (String.eqb ctype "TRUE_CHANGE") then false
  else true.

Definition _validate_changes (changes : list Change.t)
  (strict_mode include_non_true : bool) : result (list Change.t) :=
  validated <- _operational_impact_pass changes ;;
  validated <- _dedupe_by_topic validated ;;
  let validated := _cap_over_detection validated 35 in
  Ok (filter (visible strict_mode include_non_true) validated).

(** ** [compare_sections] *)

Definition keys (d : sections) : list string := map fst d.

(** [for oid in old_ids: old_sections[oid]["section"] = oid]; the records
    of a mapping are distinct objects. *)
Definition stamp (d : sections) : sections :=
  map (fun item => (fst item, Sec.set_section (snd item) (fst item))) d.

Definition scored : Type := (Q * string * string)%type.

(** The pairs [(score, oid, nid)] in the order of the two nested loops. *)
Definition score_pairs (old_sections new_sections : sections)
  : result (list scored) :=
  mapM
    (fun p =>
       let '(oid, nid) := p in
       old_sec <- getitem old_sections oid ;;
       new_sec <- getitem new_sections nid ;;
       score <- _pair_score old_sec new_sec ;;
       Ok (score, oid, nid))
    (list_prod (keys old_sections) (keys new_sections)).

(** [scored_pairs.sort(reverse=True, key=lambda x: x[0])] *)
Definition sort_pairs (pairs : list scored) : list scored :=
  Py.sorted_by_reverse (fun x : scored => fst (fst x)) Qle_bool pairs.

(** [matched_old], [matched_new] and [matches]. *)
Record matching : Type := mk_matching
  { matched_old : list string;
    matched_new : list string;
    matches : list (string * string * Q) }.

(** The two greedy loops; [effective] is the score that is recorded. *)
Fixpoint greedy (threshold : Q) (effective : Q -> Q) (pairs : list scored)
  (m : matching) : matching :=
  match pairs with
  | [] => m
  | (score, oid, nid) :: rest =>
      if Qltb score threshold then m
      else if Py.mem oid (matched_old m) || Py.mem nid (matched_new m)
      then greedy threshold effective rest m
      else
        greedy threshold effective rest
          (mk_matching (oid :: matched_old m) (nid :: matched_new m)
             (matches m ++ [(oid, nid, effective score)])%list)
  end.

Definition unmatched (ids matched : list string) : list string :=
  filter (fun id => negb (Py.mem id matched)) ids.

(** The pairs [(hs, oid, nid)] of the heading fallback. *)
Definition heading_pairs (old_sections new_sections : sections)
  (m : matching) : result (list scored) :=
  mapM
    (fun p =>
       let '(oid, nid) := p in
       old_sec <- getitem old_sections oid ;;
       new_sec <- getitem new_sections nid ;;
       hs <- lexical_similarity (heading_of old_sec) (heading_of new_sec) ;;
       Ok (hs, oid, nid))
    (list_prod (unmatched (keys old_sections) (matched_old m))
               (unmatched (keys new_sections) (matched_new m))).

(** The matching stage: both passes. *)
Definition match_sections (cfg : config) (old_sections new_sections : sections)
  : result matching :=
  scored_pairs <- score_pairs old_sections new_sections ;;
  let m :=
    greedy (match_threshold cfg) (fun score => score)
      (sort_pairs scored_pairs) (mk_matching [] [] []) in
  pairs <- heading_pairs old_sections new_sections m ;;
  Ok (greedy (heading_fallback_threshold cfg) (fun hs => (hs * 0.92)%Q)
        (sort_pairs pairs) m).

(** The three classification loops; the state is [changes] and the
    generator. *)
Definition classify_matches (old_sections new_sections : sections)
  (ms : list (string * string * Q)) (st : list Change.t * nat)
  : result (list Change.t * nat) :=
  foldM
    (fun (st : list Change.t * nat) (mt : string * string * Q) =>
       let '(changes, gen) := st in
       let '(oid, nid, score) := mt in
       old_sec <- getitem old_sections oid ;;
       new_sec <- getitem new_sections nid ;;
       r <- _classify_matched_change gen old_sec new_sec score 0.95 ;;
       match r with
       | (Some c, gen') => Ok ((changes ++ [c])%list, gen')
       | (None, gen') => Ok (changes, gen')
       end)
    ms st.

Definition classify_unmatched
  (classify : nat -> Sec.t -> sections -> Q -> result (Change.t * nat))
  (cfg : config) (own other : sections) (ids : list string)
  (st : list Change.t * nat) : result (list Change.t * nat) :=
  foldM
    (fun (st : list Change.t * nat) (id : string) =>
       let '(changes, gen) := st in
       sec <- getitem own id ;;
       r <- classify gen sec other (relocation_threshold cfg) ;;
       Ok ((changes ++ [fst r])%list, snd r))
    ids st.

Definition classify_all (cfg : config) (old_sections new_sections : sections)
  (m : matching) (gen : nat) : result (list Change.t * nat) :=
  st <- classify_matches old_sections new_sections (matches m) ([], gen) ;;
  st <- classify_unmatched _classify_unmatched_old cfg old_sections
          new_sections (unmatched (keys old_sections) (matched_old m)) st ;;
  classify_unmatched _classify_unmatched_new cfg new_sections old_sections
    (unmatched (keys new_sections) (matched_new m)) st.

(** [severity_rank.get(c.get("severity"), 3)] *)
Definition severity_rank (severity : string) : nat :=
  if String.eqb severity "CRITICAL" then 0
  else if String.eqb severity "MODERATE" then 1
  else if String.eqb severity "MINOR" then 2
  else 3.

Definition sort_key (c : Change.t) : nat * string :=
  (severity_rank (Change.severity c), Change.change_id c).

(** [k1 <= k2] on the tuples of [sort_key]. *)
Definition key_le (k1 k2 : nat * string) : bool :=
  (fst k1 <? fst k2)%nat
  || ((fst k1 =? fst k2)%nat && String.leb (snd k1) (snd k2)).

(** What a call leaves behind: the list it returns, the state of
    [_change_id_gen], and the two mappings, whose records now carry their
    identifier. *)
Record outcome : Type := mk_outcome
  { returned : list Change.t;
    gen_after : nat;
    old_after : sections;
    new_after : sections }.

Definition compare_sections (cfg : config) (old_sections new_sections : sections)
  (gen : nat) : result outcome :=
  let old_sections := stamp old_sections in
  let new_sections := stamp new_sections in
  m <- match_sections cfg old_sections new_sections ;;
  st <- classify_all cfg old_sections new_sections m gen ;;
  changes <- _validate_changes (fst st) (strict_mode cfg)
               (include_non_true cfg) ;;
  Ok (mk_outcome (Py.sorted_by sort_key key_le changes) (snd st)
        old_sections new_sections).
End Engine.

End CompareSections.

(* ====================================================================== *)
(** * Vocabulary of the statements *)

Import CompareSections SemanticUtils.

(** The call returns normally and its value satisfies [P]. *)
Definition returns {A : Type} (c : result A) (P : A -> Prop) : Prop :=
  match c with
  | Ok a => P a
  | Raise _ => False
  end.

(** The engine run without the embedding backend ([ENABLE_EMBEDDINGS] unset). *)
Definition offline : option (string -> string -> option Q) := None.

Definition in_unit (q : Q) : Prop := (0 <= q /\ q <= 1)%Q.

(** The scenario of the flight duty period limit. *)
Definition plain (heading body : string) : Sec.t :=
  Sec.mk (Some (PyStr heading)) (Some (PyStr body)) None None.

Definition fdp_old : sections :=
  [("6.1"%string,
    plain "Flight duty period limit"
          "The flight duty period shall not exceed 13 hours.")].

Definition fdp_new : sections :=
  [("6.1"%string,
    plain "Flight duty period limit"
          "The flight duty period shall not exceed 11 hours.")].

(** The scenario of the page marker. *)
Definition page_old : sections := [("1"%string, plain "PAGE 4" "")].

(** ** Quantities of the matcher's loops *)

(** The block lies in the rectangle searched. *)
Definition within (alo ahi blo bhi : nat) (m : Difflib.block) : Prop :=
  let '(i, j, k) := m in
  alo <= i /\ i + k <= ahi /\ blo <= j /\ j + k <= bhi.

(** Every entry of the table [j2len] of row [i - 1] is a run that fits
    between the corner of the rectangle and its own column. *)
Definition table_ok (alo blo i : nat) (j2len : list (nat * nat)) : Prop :=
  forall j,
    Difflib.j2len_get j2len j <= i - alo
    /\ Difflib.j2len_get j2len j <= j + 1 - blo.

Definition rect_ok (r : Difflib.rect) : Prop :=
  let '(alo, ahi, blo, bhi) := r in alo <= ahi /\ blo <= bhi.
Definition width_a (r : Difflib.rect) : nat :=
  let '(alo, ahi, _, _) := r in ahi - alo.
Definition width_b (r : Difflib.rect) : nat :=
  let '(_, _, blo, bhi) := r in bhi - blo.
Definition total (f : Difflib.rect -> nat) (q : list Difflib.rect) : nat :=
  list_sum (map f q).
(** The rounds the work list can still take. *)
Definition work (q : list Difflib.rect) : nat :=
  total (fun r => 2 * width_a r + 1) q.
Definition sizes (l : list Difflib.block) : nat :=
  list_sum (map Difflib.size l).

(** The queue after one round of [blocks_loop] on the entry [r]. *)
Definition pushed (a b : list ascii) (r : Difflib.rect)
  (queue' : list Difflib.rect) : list Difflib.rect :=
  let '(alo, ahi, blo, bhi) := r in
  let '(i, j, k) := Difflib.find_longest_match a b alo ahi blo bhi in
  let q1 := if (alo <? i) && (blo <? j)
            then (alo, i, blo, j) :: queue' else queue' in
  if (i + k <? ahi) && (j + k <? bhi)
  then (i + k, ahi, j + k, bhi) :: q1 else q1.

(** The length of the run of matching, not popular elements that ends at
    [a[i]] and [a[j]]: the entry that the scan of [a] against itself stores
    at column [j] of row [i]. *)
Fixpoint run_len (a : list ascii) (i j : nat) {struct i} : nat :=
  let hit := Ascii.eqb (Difflib.at_a a i) (Difflib.at_a a j)
             && negb (Difflib.popular a (Difflib.at_a a i))
             && (i <? List.length a) && (j <? List.length a) in
  match i with
  | O => if hit then 1 else 0
  | S i' =>
      if hit then S (match j with O => 0 | S j' => run_len a i' j' end) else 0
  end.

(** The table left by the row before row [i]. *)
Definition prev_row (a : list ascii) (i j : nat) : nat :=
  match i with
  | O => 0
  | S i' => run_len a i' j
  end.

Definition diagonal (m : Difflib.block) : Prop := fst (fst m) = snd (fst m).

Definition graded (c : Change.t) : Prop :=
  (Change.type c = "TRUE_CHANGE"%string
   /\ (Change.severity c = "CRITICAL"%string \/ Change.severity c = "MODERATE"%string))
  \/ ((Change.type c = "NOISE"%string \/ Change.type c = "STRUCTURAL_CHANGE"%string
       \/ Change.type c = "SEMANTIC_MINOR"%string)
      /\ Change.severity c = "MINOR"%string).

(** What [_build_change] makes of its arguments. *)
Definition made (gen : nat) (ctype severity subtype : string) (c : Change.t)
  : Prop :=
  Change.change_id c = format_change_id gen
  /\ Change.type c = ctype
  /\ Change.severity c = severity
  /\ Change.subtype c = subtype.

(** [l] is [l'] with some elements left out. *)
Inductive subseq {A : Type} : list A -> list A -> Prop :=
| subseq_nil : subseq [] []
| subseq_skip x l l' : subseq l l' -> subseq l (x :: l')
| subseq_take x l l' : subseq l l' -> subseq (x :: l) (x :: l').

(** The postcondition of a classifier that always builds a record. *)
Definition built (gen : nat) (r : Change.t * nat) : Prop :=
  snd r = S gen
  /\ Change.change_id (fst r) = format_change_id gen
  /\ graded (fst r).

Definition maybe_built (gen : nat) (r : option Change.t * nat) : Prop :=
  match fst r with
  | Some c => built gen (c, snd r)
  | None => snd r = gen
  end.

(** The candidate kept by [_best_persistence_match] is a key. *)
Definition best_in (cands : sections) (b : best) : Prop :=
  match fst (fst (fst b)) with
  | Some id => In id (keys cands)
  | None => True
  end.

(** A validator pass leaves a record alone or downgrades a true change. *)
Definition kept_or_downgraded (before after : Change.t) : Prop :=
  after = before
  \/ (Change.type before = "TRUE_CHANGE"%string
      /\ exists description why, after = downgrade before description why).

(** [merge] keeps the identity and the grade of the record merged into. *)
Definition same_identity (before after : Change.t) : Prop :=
  Change.change_id after = Change.change_id before
  /\ Change.type after = Change.type before
  /\ Change.subtype after = Change.subtype before
  /\ Change.severity after = Change.severity before.

(** The records that survive deduplication are some of the records given,
    in their order, each with its identity. *)
Definition survivors (changes out : list Change.t) : Prop :=
  exists kept, subseq kept changes /\ Forall2 same_identity kept out.

Definition count_true (l : list Change.t) : nat :=
  List.length (filter is_true_change l).

(** What the volume cap may do to one record. *)
Definition kept_or_capped (before after : Change.t) : Prop :=
  after = before
  \/ (Change.type before = "TRUE_CHANGE"%string
      /\ Change.change_id after = Change.change_id before
      /\ Change.type after = "SEMANTIC_MINOR"%string
      /\ Change.subtype after = "Clarification without rule change"%string
      /\ Change.severity after = "MINOR"%string).

Definition old_of (t : string * string * Q) : string := fst (fst t).
Definition new_of (t : string * string * Q) : string := snd (fst t).

(** The state of the greedy loops: the two sets and the pairs agree, and no
    identifier was taken twice. *)
Definition matching_ok (old_ids new_ids : list string) (m : matching) : Prop :=
  NoDup (matched_old m) /\ NoDup (matched_new m)
  /\ map old_of (matches m) = rev (matched_old m)
  /\ map new_of (matches m) = rev (matched_new m)
  /\ incl (matched_old m) old_ids /\ incl (matched_new m) new_ids.

Definition pair_in (old_ids new_ids : list string) (x : scored) : Prop :=
  In (snd (fst x)) old_ids /\ In (snd x) new_ids.

(** An entry of [scored_pairs] and the pair of identifiers it comes from. *)
Definition scored_from (emb : option (string -> string -> option Q))
  (old_sections new_sections : sections)
  (p : string * string) (x : scored) : Prop :=
  snd (fst x) = fst p /\ snd x = snd p
  /\ exists o n,
       getitem old_sections (fst p) = Ok o
       /\ getitem new_sections (snd p) = Ok n
       /\ _pair_score emb o n = Ok (fst (fst x))
       /\ in_unit (fst (fst x)).

Definition heading_from (old_sections new_sections : sections)
  (p : string * string) (x : scored) : Prop :=
  snd (fst x) = fst p /\ snd x = snd p
  /\ exists o n,
       getitem old_sections (fst p) = Ok o
       /\ getitem new_sections (snd p) = Ok n
       /\ lexical_similarity (heading_of o) (heading_of n) = Ok (fst (fst x))
       /\ in_unit (fst (fst x)).

(** The state of the classification loops started at [gen]: every record is
    graded and the identifiers are the numbers from [gen] on, in order. *)
Definition classified (gen : nat) (st : list Change.t * nat) : Prop :=
  Forall graded (fst st)
  /\ map Change.change_id (fst st) =
     map format_change_id (seq gen (List.length (fst st)))
  /\ snd st = gen + List.length (fst st).

(** What [_validate_changes] returns, pass by pass. *)
Definition validated (changes : list Change.t) (strict include : bool)
  (out : list Change.t) : Prop :=
  exists v1 v2,
    Forall2 kept_or_downgraded changes v1
    /\ survivors v1 v2
    /\ out = filter (visible strict include) (_cap_over_detection v2 35).

(** The anatomy of a call of [compare_sections]. *)
Definition anatomy (emb : option (string -> string -> option Q))
  (cfg : config) (old_sections new_sections : sections)
  (gen : nat) (o : outcome) : Prop :=
  exists m st changes,
    match_sections emb cfg (stamp old_sections) (stamp new_sections) = Ok m
    /\ matching_ok (keys (stamp old_sections)) (keys (stamp new_sections)) m
    /\ classify_all emb cfg (stamp old_sections) (stamp new_sections) m gen
       = Ok st
    /\ classified gen st
    /\ validated (fst st) (strict_mode cfg) (include_non_true cfg) changes
    /\ o = mk_outcome (Py.sorted_by sort_key key_le changes) (snd st)
             (stamp old_sections) (stamp new_sections).

(** The order of the final sort on two records. *)
Definition in_order (c1 c2 : Change.t) : Prop :=
  key_le (sort_key c1) (sort_key c2) = true.

(** A record that the final filter lets through. *)
Definition shown (cfg : config) (c : Change.t) : Prop :=
  Change.type c <> "NOISE"%string
  /\ (Change.type c = "TRUE_CHANGE"%string
      \/ strict_mode cfg = false \/ include_non_true cfg = true).

(** The lists of records a call of [compare_sections] goes through: as
    classified, and after each of the three validator passes. *)
Definition stages (emb : option (string -> string -> option Q)) (cfg : config)
  (old_sections new_sections : sections) (gen : nat)
  : result (list Change.t * list Change.t * list Change.t * list Change.t) :=
  let old_sections := stamp old_sections in
  let new_sections := stamp new_sections in
  m <- match_sections emb cfg old_sections new_sections ;;
  st <- classify_all emb cfg old_sections new_sections m gen ;;
  v1 <- _operational_impact_pass emb (fst st) ;;
  v2 <- _dedupe_by_topic emb v1 ;;
  Ok (fst st, v1, v2, _cap_over_detection v2 35).

Definition all_graded
  (s : list Change.t * list Change.t * list Change.t * list Change.t) : Prop :=
  let '(classified, impact, deduped, capped) := s in
  Forall graded classified /\ Forall graded impact
  /\ Forall graded deduped /\ Forall graded capped.

(** The identifiers that [compare_sections] goes on to classify as
    unmatched. *)
Definition unmatched_old_ids (old_sections : sections) (m : matching)
  : list string :=
  unmatched (keys old_sections) (matched_old m).
Definition unmatched_new_ids (new_sections : sections) (m : matching)
  : list string :=
  unmatched (keys new_sections) (matched_new m).

(** The result of the matching stage is a partial one-to-one pairing. *)
Definition one_to_one (old_sections new_sections : sections) (m : matching)
  : Prop :=
  NoDup (map old_of (matches m))
  /\ NoDup (map new_of (matches m))
  /\ (forall id, In id (matched_old m) <-> In id (map old_of (matches m)))
  /\ (forall id, In id (matched_new m) <-> In id (map new_of (matches m)))
  /\ (forall id, In id (unmatched_old_ids old_sections m) <->
                 In id (keys old_sections)
                 /\ ~ In id (map old_of (matches m)))
  /\ (forall id, In id (unmatched_new_ids new_sections m) <->
                 In id (keys new_sections)
                 /\ ~ In id (map new_of (matches m)))
  /\ (forall mt, In mt (matches m) ->
                 In (old_of mt) (keys old_sections)
                 /\ In (new_of mt) (keys new_sections)).

(** Reads a change identifier back: the number after the letter. *)
Definition parse_change_id (id : string) : option nat :=
  match id with
  | String c digits =>
      if Ascii.eqb c "C"%char
      then option_map Nat.of_uint (NilEmpty.uint_of_string digits)
      else None
  | EmptyString => None
  end.

(** A list of strings without repetition, decided. *)
Fixpoint distinct (l : list string) : bool :=
  match l with
  | [] => true
  | x :: l' => negb (Py.mem x l') && distinct l'
  end.

(** Fifty-one true changes, numbered from 1. *)
Definition rule_removed (n : nat) : Change.t :=
  Change.mk (format_change_id n) "TRUE_CHANGE" "Rule removed" "CRITICAL"
    "1" "" "A previously present rule is missing in new document."
    "No semantically equivalent rule found across the new document."
    "1" "1" "" "Rest" "Rule removed"
    "Crew members shall complete a minimum of 10 hours rest before standby."
    "" 0%Q (mk_delta [] ["10"%string]).

Definition fifty_one : list Change.t := map rule_removed (seq 1 51).

(** The record of the flight duty period scenario, numbered [gen]. *)
Definition fdp_change (gen : nat) : Change.t :=
  Change.mk (format_change_id gen) "TRUE_CHANGE" "Numeric limit changed"
    "CRITICAL" "6.1" "6.1" "Numeric operational limit changed."
    "Operational context is same while enforceable numeric values differ."
    "6.1" "6.1" "6.1" "Flight duty period limit" "Numeric limit changed"
    "The flight duty period shall not exceed 13 hours."
    "The flight duty period shall not exceed 11 hours."
    (Qred 0.924) (mk_delta ["11"%string] ["13"%string]).

(** A field that is absent, [None] or the empty string. *)
Definition blank (field : option pyval) : Prop :=
  field = None \/ field = Some PyNone \/ field = Some (PyStr "").

(** The text a field is read as. *)
Definition text_of (field : option pyval) : string := or_empty (get field).

(** The records classified in turn for the identifiers [ids] of [own], one
    each: the record of the first with the generator at [gen], the record of
    the next with the generator one further, and so on. *)
Fixpoint classified_in_turn
  (classify : nat -> Sec.t -> sections -> Q -> result (Change.t * nat))
  (own other : sections) (thr : Q) (gen : nat) (ids : list string)
  (cs : list Change.t) {struct ids} : Prop :=
  match ids, cs with
  | [], [] => True
  | id :: ids', c :: cs' =>
      (exists s, getitem own id = Ok s
                 /\ classify gen s other thr = Ok (c, S gen))
      /\ classified_in_turn classify own other thr (S gen) ids' cs'
  | _, _ => False
  end.

(** What a call returns when every section of [own] is processed as
    unmatched and nothing else is: the validated and sorted list of the
    records that the classifier of unmatched sections makes of the sections
    of [own], in the order of the keys, with one identifier drawn for
    each. *)
Definition processed_as_unmatched
  (emb : option (string -> string -> option Q)) (cfg : config)
  (classify : nat -> Sec.t -> sections -> Q -> result (Change.t * nat))
  (own : sections) (gen : nat) (o : outcome) : Prop :=
  exists cs v,
    classified_in_turn classify own [] (relocation_threshold cfg) gen
      (keys own) cs
    /\ _validate_changes emb cs (strict_mode cfg) (include_non_true cfg) = Ok v
    /\ returned o = Py.sorted_by sort_key key_le v
    /\ gen_after o = gen + List.length own.

(** A string that is empty once the white space around it is stripped. *)
Definition is_blank (s : string) : bool := Py.is_empty (Py.strip s).

Definition score_of (x : scored) : Q := fst (fst x).
Definition oid_of (x : scored) : string := snd (fst x).
Definition nid_of (x : scored) : string := snd x.

(** A score that is the greatest a pair can have. *)
Definition top (x : scored) : bool := Qle_bool 1 (score_of x).

(** An entry scored for the pair [p]: at most 1, and 1 for a section paired
    with itself. *)
Definition self_scored (p : string * string) (x : scored) : Prop :=
  oid_of x = fst p /\ nid_of x = snd p
  /\ (score_of x <= 1)%Q
  /\ (fst p = snd p -> (1 <= score_of x)%Q).

(** The state of a greedy loop that has paired sections with themselves
    only, among them every section of [done]. *)
Definition paired_with_self (done : list string) (m : matching) : Prop :=
  matched_old m = matched_new m
  /\ incl done (matched_old m)
  /\ Forall (fun mt => old_of mt = new_of mt) (matches m).

(** A record that does not report a change of substance between identical
    mappings. *)
Definition harmless (c : Change.t) : Prop :=
  Change.type c <> "TRUE_CHANGE"%string
  /\ (Change.type c = "STRUCTURAL_CHANGE"%string ->
      Change.old_section c = Change.new_section c).

(** Three sections with the same text, and the same mapping with its keys
    in another order. *)
Definition rest_rule : Sec.t :=
  plain "Rest period" "Crew shall have 10 hours rest.".

Definition rest_old : sections :=
  [("1"%string, rest_rule); ("2"%string, rest_rule); ("3"%string, rest_rule)].

Definition rest_new : sections :=
  [("3"%string, rest_rule); ("1"%string, rest_rule); ("2"%string, rest_rule)].

(** The record returned for them. *)
Definition rest_moved : Change.t :=
  Change.mk "C0000" "STRUCTURAL_CHANGE" "STRUCTURAL_MOVE" "MINOR"
    "1,2,3" "1,3,2" "Section was renumbered/moved."
    "Rule text is materially the same; only numbering/location changed."
    "1,3,2" "1,2,3" "1,3,2" "Rest period" "STRUCTURAL_MOVE"
    "Crew shall have 10 hours rest." "Crew shall have 10 hours rest."
    1%Q (mk_delta [] []).

(** The identifiers of the records a call returns: taken from the generator
    during the call, and no two the same. *)
Definition fresh_ids (gen : nat) (o : outcome) : Prop :=
  gen <= gen_after o
  /\ NoDup (map Change.change_id (returned o))
  /\ Forall (fun c => exists n, gen <= n < gen_after o
                                /\ Change.change_id c = format_change_id n)
            (returned o)
  /\ List.length (returned o) <= gen_after o - gen.

(** ** The section records as objects

    [compare_sections] writes into the records it is given.  In [stamp] a
    mapping holds its records by value.  Here a mapping holds references
    into a store of record objects, so that one object can sit under
    several keys, or in both mappings. *)
Definition store : Type := nat -> Sec.t.

(** A mapping from section identifiers to references, in insertion order. *)
Definition refs : Type := list (string * nat).

(** [obj[\"section\"] = k] for the object at [a]. *)
Definition write_section (h : store) (a : nat) (k : string) : store :=
  fun a' => if Nat.eqb a' a then Sec.set_section (h a') k else h a'.

(** [for oid in ids: mapping[oid][\"section\"] = oid] *)
Definition stamp_refs (m : refs) (h : store) : store :=
  fold_left (fun h item => write_section h (snd item) (fst item)) m h.

(** The two loops at the head of [compare_sections]. *)
Definition stamp_in_place (old_sections new_sections : refs) (h : store)
  : store :=
  stamp_refs new_sections (stamp_refs old_sections h).

(** The mapping read through the store. *)
Definition deref (h : store) (m : refs) : sections :=
  map (fun item => (fst item, h (snd item))) m.

(** The key of the last entry of [m] that refers to the object at [a]. *)
Fixpoint last_key (m : refs) (a : nat) : option string :=
  match m with
  | [] => None
  | (k, a') :: m' =>
      match last_key m' a with
      | Some k' => Some k'
      | None => if Nat.eqb a a' then Some k else None
      end
  end.

(** No object sits under two different keys. *)
Definition unshared (m : refs) : Prop :=
  forall k k' a, In (k, a) m -> In (k', a) m -> k = k'.

(** What the validator can make of a record: it keeps the identifier, and
    either keeps type, subtype and severity or turns a TRUE_CHANGE into a
    minor clarification. *)
Definition settled_from (before after : Change.t) : Prop :=
  Change.change_id after = Change.change_id before
  /\ ((Change.type after = Change.type before
       /\ Change.subtype after = Change.subtype before
       /\ Change.severity after = Change.severity before)
      \/ (Change.type before = "TRUE_CHANGE"%string
          /\ Change.type after = "SEMANTIC_MINOR"%string
          /\ Change.subtype after = "Clarification without rule change"%string
          /\ Change.severity after = "MINOR"%string)).

(** A pair [(oid, nid, score)] accepted by the matching stage: [score] is
    the pair score of the two sections, which is at least [match_threshold],
    or 0.92 times the heading score of the two sections, which is at least
    [heading_fallback_threshold]. *)
Definition accepted (emb : option (string -> string -> option Q))
  (cfg : config) (old_sections new_sections : sections)
  (mt : string * string * Q) : Prop :=
  exists o n,
    getitem old_sections (old_of mt) = Ok o
    /\ getitem new_sections (new_of mt) = Ok n
    /\ in_unit (snd mt)
    /\ ((_pair_score emb o n = Ok (snd mt)
         /\ (match_threshold cfg <= snd mt)%Q)
        \/ exists hs,
             lexical_similarity (heading_of o) (heading_of n) = Ok hs
             /\ snd mt = (hs * 0.92)%Q
             /\ (heading_fallback_threshold cfg <= hs)%Q).

(** The score [combo] that [_best_persistence_match] gives a candidate. *)
Definition combo_with (emb : option (string -> string -> option Q))
  (section cand : Sec.t) : result Q :=
  sem <- semantic_similarity emb (_comparison_text section)
           (_comparison_text cand) ;;
  head <- lexical_similarity (heading_of section) (heading_of cand) ;;
  Ok (0.75 * sem + 0.25 * head)%Q.

(** The state of the loop of [_best_persistence_match] once the candidates
    [done] have been seen: the best of them, which none of them beats. *)
Definition best_of (emb : option (string -> string -> option Q))
  (section : Sec.t) (done : sections) (b : best) : Prop :=
  match fst (fst (fst b)) with
  | None => done = [] /\ b = (None, (-1)%Q, (-1)%Q, (-1)%Q)
  | Some id =>
      exists cand,
        In (id, cand) done
        /\ semantic_similarity emb (_comparison_text section)
             (_comparison_text cand) = Ok (snd (fst (fst b)))
        /\ lexical_similarity (heading_of section) (heading_of cand)
           = Ok (snd (fst b))
        /\ combo_with emb section cand = Ok (snd b)
        /\ Forall (fun item =>
                     returns (combo_with emb section (snd item))
                       (fun c => (c <= snd b)%Q))
                  done
  end.

(** The configuration [cfg] with the two flags set. *)
Definition with_flags (cfg : config) (strict include : bool) : config :=
  mk_config (match_threshold cfg) (heading_fallback_threshold cfg)
    (relocation_threshold cfg) strict include.

(** The length of the run of [p] characters that [s] starts with. *)
Fixpoint span (p : ascii -> bool) (s : list ascii) : nat :=
  match s with
  | c :: s' => if p c then S (span p s') else 0
  | [] => 0
  end.

(** Every run of white space replaced by one space; [in_run] tells that
    the character before was white space. *)
Fixpoint squeeze (in_run : bool) (s : list ascii) : list ascii :=
  match s with
  | [] => []
  | c :: s' =>
      if Py.isspace c
      then if in_run then squeeze true s' else " "%char :: squeeze true s'
      else c :: squeeze false s'
  end.

(** The only white space is single spaces, none at the start when
    [after_space] is set. *)
Fixpoint single_spaced (after_space : bool) (s : list ascii) : bool :=
  match s with
  | [] => true
  | c :: s' =>
      if Py.isspace c
      then Ascii.eqb c " "%char && negb after_space && single_spaced true s'
      else single_spaced false s'
  end.

(** A text in the normal form of [normalize_text]: no upper-case letter, no
    white space at either end, and single spaces as the only white space. *)
Definition normal (s : string) : Prop :=
  Py.lower s = s /\ Py.strip s = s
  /\ single_spaced true (Py.chars s) = true.

(** What [sub] writes for the pieces of a scan. *)
Definition written (repl : string) (ps : list Re.piece) : list ascii :=
  flat_map (fun p => match p with
                     | Re.Matched _ => Py.chars repl
                     | Re.Other c => [c]
                     end) ps.

(* ====================================================================== *)
(** * More of Python's strings and regular expressions

    What [scripts/meaning_block.py] and [scripts/parse_sections.py] use
    besides the above. *)

Module PyText.

(** The line boundaries of [str.splitlines] among the 7-bit characters:
    LF, VT, FF, CR, FS, GS and RS. *)
Definition is_linebreak (c : ascii) : bool :=
  Py.in_range 10 13 c || Py.in_range 28 30 c.

(** [s.splitlines()]: CR LF is one boundary, and a boundary at the end
    of the text opens no further line. *)
Fixpoint splitlines_chars (cur : list ascii) (s : list ascii)
  : list (list ascii) :=
  match s with
  | [] => match cur with [] => [] | _ => [rev cur] end
  | c :: s' =>
      if is_linebreak c then
        rev cur ::
        match s' with
        | d :: s'' =>
            if (Py.code c =? 13) && (Py.code d =? 10)
            then splitlines_chars [] s''
            else splitlines_chars [] s'
        | [] => []
        end
      else splitlines_chars (c :: cur) s'
  end.

Definition splitlines (s : string) : list string :=
  map Py.str (splitlines_chars [] (Py.chars s)).

(** [s.startswith(p)] *)
Definition startswith (s p : string) : bool :=
  Py.prefixb (Py.chars p) (Py.chars s).

Fixpoint drop_while (p : ascii -> bool) (s : list ascii) : list ascii :=
  match s with
  | c :: s' => if p c then drop_while p s' else s
  | [] => []
  end.

(** [s.rstrip(chars)], the characters given by their class. *)
Definition rstrip_of (p : ascii -> bool) (s : string) : string :=
  Py.str (rev (drop_while p (rev (Py.chars s)))).

(** [s[:n]] *)
Definition prefix (n : nat) (s : string) : string :=
  Py.str (firstn n (Py.chars s)).

(** [str(n)] for a natural number. *)
Definition of_nat (n : nat) : string :=
  NilEmpty.string_of_uint (Nat.to_uint n).

End PyText.

Module ReMore.

(** [$]: the end of the text, or the line feed that ends it. *)
Definition at_end (rest : list ascii) : bool :=
  match rest with
  | [] => true
  | [c] => Py.code c =? 10
  | _ => false
  end.

(** [.]: any character but the line feed. *)
Definition dot (c : ascii) : bool := negb (Py.code c =? 10).

Section Groups.
Variable icase : bool.
Variable R : Type.

(** The group r"(?:r)*", greedy: one more round of [r] is tried before the rest of
    the pattern.  A round must consume a character; [fuel] bounds the
    rounds, and the length of the text is enough. *)
Fixpoint star (r : Re.re) (fuel : nat) (k : Re.cont R)
  (prev : option ascii) (s : list ascii) : option R :=
  match fuel with
  | O => k prev s
  | S fuel' =>
      match
        Re.run icase r
          (fun prev' s' =>
             if List.length s' <? List.length s
             then star r fuel' k prev' s'
             else None)
          prev s
      with
      | Some x => Some x
      | None => k prev s
      end
  end.

(** r"\d+(?:\.\d+)*" followed by [k]. *)
Definition dotted_number (k : Re.cont R) : Re.cont R :=
  fun prev s =>
    Re.run icase (Re.Plus Py.isdigit)
      (star (Re.Seq (Re.Lit ".") (Re.Plus Py.isdigit)) (List.length s) k)
      prev s.
End Groups.

(** [bool(pattern.match(s))] for the pattern [^ m $], [m] given as a
    matcher that takes what follows it. *)
Definition matches_to_end
  (m : Re.cont unit -> Re.cont unit) (s : string) : bool :=
  match m (fun _ rest => if at_end rest then Some tt else None)
          None (Py.chars s) with
  | Some _ => true
  | None => false
  end.

(** [re.split(pattern, s)] for a pattern without groups that matches no
    empty string; [m prev s] is the length of the match at a position. *)
Fixpoint split_chars (m : option ascii -> list ascii -> option nat)
  (cur : list ascii) (skip : nat) (prev : option ascii) (s : list ascii)
  : list (list ascii) :=
  match s with
  | [] => [rev cur]
  | c :: s' =>
      match skip with
      | S n => split_chars m cur n (Some c) s'
      | O =>
          match m prev s with
          | Some (S n) => rev cur :: split_chars m [] n (Some c) s'
          | _ => split_chars m (c :: cur) 0 (Some c) s'
          end
      end
  end.

Definition split (m : option ascii -> list ascii -> option nat) (s : string)
  : list string :=
  map Py.str (split_chars m [] 0 None (Py.chars s)).

End ReMore.

(* ====================================================================== *)
(** * scripts/meaning_block.py *)

Module MeaningBlock.

Local Open Scope string_scope.

(** [MODAL_PATTERN], compiled with [re.I]:
    r"\b(shall|must|may|required|not exceed|maximum|minimum)\b" *)
Definition MODAL_PATTERN : Re.re :=
  Re.Seq Re.WordB
    (Re.Seq
       (Re.Alt (Re.Lit "shall")
         (Re.Alt (Re.Lit "must")
           (Re.Alt (Re.Lit "may")
             (Re.Alt (Re.Lit "required")
               (Re.Alt (Re.Lit "not exceed")
                 (Re.Alt (Re.Lit "maximum") (Re.Lit "minimum")))))))
       Re.WordB).

(** [(hours?|hrs?|days?|landings?|minutes?|mins?)] *)
Definition unit_group : Re.re :=
  Re.Alt (opt_last "hour" "s")
    (Re.Alt (opt_last "hr" "s")
      (Re.Alt (opt_last "day" "s")
        (Re.Alt (opt_last "landing" "s")
          (Re.Alt (opt_last "minute" "s") (opt_last "min" "s"))))).

(** [NUMBER_PATTERN], compiled with [re.I]:
    r"\b\d+(?::\d{2})?(?:\.\d+)?\s*(hours?|hrs?|days?|landings?|minutes?|mins?)?\b" *)
Definition NUMBER_PATTERN : Re.re :=
  Re.Seq Re.WordB
    (Re.Seq number_body
      (Re.Seq (Re.Star Py.isspace) (Re.Seq (Re.Opt unit_group) Re.WordB))).

(** The lines that [clean_text] keeps. *)
Definition kept_line (l : string) : bool :=
  if Py.is_empty l then false
  else
    let low := Py.lower l in
    if Py.contains "table of contents" low then false
    else if PyText.startswith low "page " then false
    else if PyText.startswith low "dgca"
            && (Py.contains "car" low || Py.contains "issue" low)
    then false
    else true.

Definition clean_text (text : string) : string :=
  Py.join " " (filter kept_line (map Py.strip (PyText.splitlines text))).

(** r"(?<=[.!?])\s+" at one position. *)
Definition sentence_break (prev : option ascii) (s : list ascii)
  : option nat :=
  match prev with
  | Some p =>
      if Ascii.eqb p "." || Ascii.eqb p "!" || Ascii.eqb p "?"
      then Re.match_len false (Re.Plus Py.isspace) prev s
      else None
  | None => None
  end.

Section Sentences.
(** The module-level [nlp]: the spaCy pipeline when it could be loaded,
    read as the function that gives the texts of the sentences of a text,
    and [None] otherwise. *)
Variable nlp : option (string -> list string).

Definition split_sentences (text : string) : list string :=
  if Py.is_empty text then []
  else
    let sents :=
      match nlp with
      | Some sentences => sentences text
      | None => ReMore.split sentence_break text
      end in
    filter (fun s => negb (Py.is_empty s)) (map Py.strip sents).

Definition important (sentence : string) : bool :=
  Re.search true MODAL_PATTERN sentence
  || Re.search true NUMBER_PATTERN sentence.

(** The arguments are strings: [body_text or ""] is the identity. *)
Definition build_meaning_block (heading body_text : string) : string :=
  let cleaned := clean_text body_text in
  let cleaned :=
    if Py.is_empty heading then cleaned
    else Py.strip (Py.strip heading ++ ". " ++ cleaned) in
  let important_sentences := filter important (split_sentences cleaned) in
  match important_sentences with
  | [] => PyText.prefix 1200 cleaned
  | _ => Py.join " " (firstn 8 important_sentences)
  end.
End Sentences.

End MeaningBlock.

(* ====================================================================== *)
(** * scripts/parse_sections.py *)

Module ParseSections.

Local Open Scope string_scope.

(** r"(?:[.)])?\s+" *)
Definition after_id : Re.re :=
  Re.Seq (Re.Opt (Re.Cls (fun c => Ascii.eqb c "." || Ascii.eqb c ")")))
         (Re.Plus Py.isspace).

(** [SECTION_PATTERN.match(line)]: a dotted number (the group [id]), an
    optional [.] or [)], white space, and the rest of the line (the group
    [title]), up to the end of the text.  The two groups of the match. *)
Definition section_match (line : string) : option (string * string) :=
  let s := Py.chars line in
  ReMore.dotted_number false
    (fun prev1 rest1 =>
       Re.run false after_id
         (fun prev2 rest2 =>
            Re.run false (Re.Plus ReMore.dot)
              (fun _ rest3 =>
                 if ReMore.at_end rest3
                 then Some
                        (Py.str (firstn (List.length s - List.length rest1) s),
                         Py.str (firstn (List.length rest2 - List.length rest3)
                                   rest2))
                 else None)
              prev2 rest2)
         prev1 rest1)
    None s.

(** The class r"[A-Z0-9\s,\-:/()&']". *)
Definition caps_char (c : ascii) : bool :=
  Py.isupper c || Py.isdigit c || Py.isspace c
  || existsb (Ascii.eqb c) (Py.chars ",-:/()&'").

(** [ALL_CAPS_PATTERN], r"^[A-Z][A-Z0-9\s,\-:/()&']{4,}$" *)
Definition ALL_CAPS_PATTERN : Re.re :=
  Re.Seq (Re.Cls Py.isupper)
    (Re.Seq (Re.Cls caps_char)
      (Re.Seq (Re.Cls caps_char)
        (Re.Seq (Re.Cls caps_char)
          (Re.Seq (Re.Cls caps_char) (Re.Star caps_char))))).

(** [TOC_LINE_PATTERN], r"^\d+(?:\.\d+)*\s+.+\.{3,}\s+\d+\s*$": what
    follows the dotted number. *)
Definition toc_tail : Re.re :=
  Re.Seq (Re.Plus Py.isspace)
    (Re.Seq (Re.Plus ReMore.dot)
      (Re.Seq (Re.Lit "...")
        (Re.Seq (Re.Star (fun c => Ascii.eqb c "."))
          (Re.Seq (Re.Plus Py.isspace)
            (Re.Seq (Re.Plus Py.isdigit) (Re.Star Py.isspace)))))).

(** [PAGE_ONLY_PATTERN], r"^page\s+\d+\s*$" compiled with [re.I] *)
Definition PAGE_ONLY_PATTERN : Re.re :=
  Re.Seq (Re.Lit "page")
    (Re.Seq (Re.Plus Py.isspace)
      (Re.Seq (Re.Plus Py.isdigit) (Re.Star Py.isspace))).

Definition all_caps_match (line : string) : bool :=
  ReMore.matches_to_end (Re.run false ALL_CAPS_PATTERN) line.

Definition toc_line_match (line : string) : bool :=
  ReMore.matches_to_end
    (fun k => ReMore.dotted_number false (Re.run false toc_tail k)) line.

Definition page_only_match (line : string) : bool :=
  ReMore.matches_to_end (Re.run true PAGE_ONLY_PATTERN) line.

Definition _normalize_line (line : string) : string :=
  Py.strip (Re.sub false (Re.Plus Py.isspace) " " line).

Definition _is_noise (line : string) : bool :=
  if Py.is_empty line then true
  else
    let low := Py.lower line in
    if page_only_match line then true
    else if toc_line_match line then true
    else if Py.contains "table of contents" low then true
    else if PyText.startswith low "dgca"
            && (Py.contains "car" low || Py.contains "issue" low
                || Py.contains "dated" low)
    then true
    else false.

Definition _looks_like_heading_title (title : string) : bool :=
  if Py.is_empty title then false
  else if negb (Re.search false (Re.Cls Py.isalpha) title) then false
  else if (220 <? Py.len title)%nat then false
  else true.

(** [x.rstrip(" .")] *)
Definition rstrip_heading (x : string) : string :=
  PyText.rstrip_of (fun c => Ascii.eqb c " " || Ascii.eqb c ".") x.

(** [sections[key] = value]: a key that is present keeps its place. *)
Fixpoint setitem (d : sections) (key : string) (value : Sec.t) : sections :=
  match d with
  | [] => [(key, value)]
  | (k, v) :: d' =>
      if String.eqb k key then (k, value) :: d'
      else (k, v) :: setitem d' key value
  end.

(** The variables of the loop of [parse_sections]. *)
Record state : Type := mk_state
  { parsed : sections;
    current_section_id : option string;
    current_heading : option string;
    current_body : list string;
    synthetic_counter : nat }.

(** [bool(x)] for a value that is [None] or a string. *)
Definition truthy (x : option string) : bool :=
  match x with
  | Some s => negb (Py.is_empty s)
  | None => false
  end.

Section Parser.
Variable nlp : option (string -> list string).

(** [if current_section_id and current_heading: sections[...] = {...}] *)
Definition flush (st : state) : sections :=
  match current_section_id st, current_heading st with
  | Some id, Some heading =>
      if truthy (Some id) && truthy (Some heading) then
        let body := Py.strip (Py.join " " (current_body st)) in
        let meaning := MeaningBlock.build_meaning_block nlp heading body in
        setitem (parsed st) id
          (Sec.mk (Some (PyStr heading)) (Some (PyStr body))
             (Some (PyStr meaning)) (Some (PyStr id)))
      else parsed st
  | _, _ => parsed st
  end.

(** The heading that a line opens: the new identifier and heading, and
    the counter. *)
Definition heading_of_line (line : string) (counter : nat)
  : option (string * string * nat) :=
  let numbered :=
    match section_match line with
    | Some (section_id, title) =>
        let title := Py.strip title in
        if _looks_like_heading_title title
        then Some (section_id, rstrip_heading title)
        else None
    | None => None
    end in
  match numbered with
  | Some (id, heading) => Some (id, heading, counter)
  | None =>
      if all_caps_match line
      then Some ("H" ++ PyText.of_nat (S counter), rstrip_heading line,
                 S counter)
      else None
  end.

(** One round of the loop. *)
Definition step (st : state) (raw_line : string) : state :=
  let line := _normalize_line raw_line in
  if _is_noise line then st
  else
    match heading_of_line line (synthetic_counter st) with
    | Some (new_section_id, new_heading, counter) =>
        mk_state (flush st) (Some new_section_id) (Some new_heading) []
          counter
    | None =>
        if truthy (current_section_id st)
        then mk_state (parsed st) (current_section_id st)
               (current_heading st) (current_body st ++ [line])%list
               (synthetic_counter st)
        else st
    end.

Definition parse_sections (text : string) : sections :=
  flush (fold_left step (PyText.splitlines text)
           (mk_state [] None None [] 0)).
End Parser.

End ParseSections.

(** ** Vocabulary of the parser *)

(** A record as [parse_sections] stores it under the key [fst item]. *)
Definition parsed_record (nlp : option (string -> list string))
  (item : string * Sec.t) : Prop :=
  exists heading body,
    snd item
    = Sec.mk (Some (PyStr heading)) (Some (PyStr body))
        (Some (PyStr (MeaningBlock.build_meaning_block nlp heading body)))
        (Some (PyStr (fst item)))
    /\ fst item <> ""%string
    /\ heading <> ""%string
    /\ ParseSections.rstrip_heading heading = heading
    /\ Py.strip body = body.

(** The invariant of the loop of [parse_sections]. *)
Definition parser_ok (nlp : option (string -> list string))
  (st : ParseSections.state) : Prop :=
  Forall (parsed_record nlp) (ParseSections.parsed st)
  /\ NoDup (keys (ParseSections.parsed st))
  /\ (forall h, ParseSections.current_heading st = Some h ->
                ParseSections.rstrip_heading h = h).

(** ** Vocabulary of the matcher *)

(** Every character that the pattern [r] can consume satisfies [P]. *)
Fixpoint over (icase : bool) (P : ascii -> Prop) (r : Re.re) : Prop :=
  match r with
  | Re.Eps => True
  | Re.WordB => True
  | Re.Cls p => forall c, p c = true -> P c
  | Re.Plus p => forall c, p c = true -> P c
  | Re.Star p => forall c, p c = true -> P c
  | Re.Lit l =>
      forall x c, In x (Py.chars l) -> Re.char_eq icase x c = true -> P c
  | Re.Seq a b => over icase P a /\ over icase P b
  | Re.Alt a b => over icase P a /\ over icase P b
  | Re.Opt a => over icase P a
  end.

(** The continuation [k] was entered after the characters [m] of [s],
    all satisfying [P], and gave [x]. *)
Definition entered {R : Type} (P : ascii -> Prop) (k : Re.cont R)
  (s : list ascii) (x : R) : Prop :=
  exists m rest prev, s = (m ++ rest)%list /\ Forall P m
                      /\ k prev rest = Some x.

(** A character of a section number. *)
Definition number_char (c : ascii) : Prop :=
  Py.isdigit c = true \/ c = "."%char.

(** A section number: a digit, then digits and full stops. *)
Definition dotted (id : string) : Prop :=
  exists c m, Py.chars id = c :: m /\ Py.isdigit c = true
              /\ Forall number_char m.

(** An identifier of [parse_sections]: a section number, or [H] and the
    rank of an unnumbered heading among the first [bound] lines. *)
Definition section_key (bound : nat) (id : string) : Prop :=
  dotted id
  \/ exists n, 1 <= n <= bound /\ id = ("H" ++ PyText.of_nat n)%string.

(** The invariant on identifiers of the loop of [parse_sections], [seen]
    lines in. *)
Definition keys_ok (seen : nat) (st : ParseSections.state) : Prop :=
  Forall (section_key seen) (keys (ParseSections.parsed st))
  /\ (forall id, ParseSections.current_section_id st = Some id ->
                 section_key seen id)
  /\ ParseSections.synthetic_counter st <= seen
  /\ List.length (ParseSections.parsed st)
     + match ParseSections.current_section_id st with
       | Some _ => 1
       | None => 0
       end <= seen.

(** A character of the separator between the two groups. *)
Definition separator_char (c : ascii) : Prop :=
  Py.isspace c = true \/ c = "."%char \/ c = ")"%char.

(** A text without white space at either end, as a list of characters. *)
Definition trimmed (l : list ascii) : Prop :=
  Py.lstrip_chars l = l /\ Py.lstrip_chars (rev l) = rev l.

(** A parsed record is compared by its meaning block. *)
Definition compared_by_meaning (nlp : option (string -> list string))
  (item : string * Sec.t) : Prop :=
  exists heading body,
    heading_of (snd item) = heading
    /\ body_of (snd item) = body
    /\ MeaningBlock.build_meaning_block nlp heading body <> ""%string
    /\ _comparison_text (snd item)
       = Py.strip (MeaningBlock.build_meaning_block nlp heading body).

(** A piece of a scan whose match, if it is one, is not empty and is made
    of characters that satisfy [P]. *)
Definition piece_over (P : ascii -> Prop) (p : Re.piece) : Prop :=
  match p with
  | Re.Matched m => m <> [] /\ Forall P m
  | Re.Other _ => True
  end.

(** A match that is not empty and is made of characters of [P]. *)
Definition word_over (P : ascii -> Prop) (w : string) : Prop :=
  w <> ""%string /\ Forall P (Py.chars w).

(** The characters of a token and of a number. *)
Definition token_char (c : ascii) : Prop :=
  Py.islower c = true \/ Py.isdigit c = true.
Definition numeral_char (c : ascii) : Prop :=
  Py.isdigit c = true \/ c = ":"%char \/ c = "."%char.

(** ** Vocabulary of the deduplication *)

(** What the inner loop of [_dedupe_by_topic] reads of a record. *)
Definition topic_key (c : Change.t)
  : string * string * string * string * string :=
  (Change.type c, Change.subtype c, Change.topic c, Change.old_text c,
   Change.new_text c).

(** The test of the inner loop: the record [ex] takes [ch]. *)
Definition takes (emb : option (string -> string -> option Q))
  (ex ch : Change.t) : result bool :=
  topic_sim <- lexical_similarity (_normalize (Change.topic ch))
                 (_normalize (Change.topic ex)) ;;
  text_sim <- semantic_similarity emb
                (spaced (Change.old_text ch) (Change.new_text ch))
                (spaced (Change.old_text ex) (Change.new_text ex)) ;;
  Ok (String.eqb (Change.type ex) (Change.type ch)
      && String.eqb (Change.subtype ex) (Change.subtype ch)
      && (Qgeb topic_sim 0.92 || Qgeb text_sim 0.94)).

(** No record of [before] or of the list takes a later record of the
    list. *)
Fixpoint separated_from (emb : option (string -> string -> option Q))
  (before l : list Change.t) : Prop :=
  match l with
  | [] => True
  | c :: l' =>
      Forall (fun ex => takes emb ex c = Ok false) before
      /\ separated_from emb (before ++ [c]) l'
  end.

(* ====================================================================== *)
(** * scripts/generate_ai_summary.py *)

Module GenerateAiSummary.

Local Open Scope string_scope.

Definition SPACE_RE : Re.re := Re.Plus Py.isspace.

(** [NUM_RE], r"\b\d+(?::\d{2})?(?:\.\d+)?\b" *)
Definition NUM_RE : Re.re :=
  Re.Seq Re.WordB (Re.Seq number_body Re.WordB).

(** The arguments are strings: [text or ""] is the identity. *)
Definition _clean (text : string) : string :=
  Re.sub false SPACE_RE " " (Py.strip text).

Definition _lower (text : string) : string := Py.lower (_clean text).

Definition _extract_numbers (text : string) : list string :=
  Re.findall false NUM_RE text.

(** [_first_sentence(text, max_words)]; the split is at r"(?<=[.!?])\s+",
    the pattern of [meaning_block.py]. *)
Definition _first_sentence (text : string) (max_words : nat) : string :=
  let txt := _clean text in
  if Py.is_empty txt then ""
  else
    let parts := ReMore.split MeaningBlock.sentence_break txt in
    let sent := match parts with
                | p :: _ => p
                | [] => txt
                end in
    let words := Py.split sent in
    if (max_words <? List.length words)%nat
    then Py.join " " (firstn max_words words) ++ "..."
    else sent.

Definition _context_label (text : string) : string :=
  let low := _lower text in
  if Py.contains "flight duty" low || Py.contains "fdp" low
  then "flight duty period"
  else if Py.contains "flight time" low then "flight time"
  else if Py.contains "rest" low && Py.contains "standby" low
  then "rest after standby"
  else if Py.contains "rest" low then "rest requirement"
  else if Py.contains "standby" low then "standby limit"
  else if Py.contains "applicable" low || Py.contains "applicability" low
          || Py.contains "operators" low
  then "applicability"
  else "operational requirement".

(** [c.upper()] for one 7-bit character. *)
Definition upper_char (c : ascii) : ascii :=
  if Py.islower c then ascii_of_nat (Py.code c - 32) else c.

Definition _sentence_case (text : string) : string :=
  let text := _clean text in
  match text with
  | EmptyString => text
  | String c rest => String (upper_char c) rest
  end.

(** [bool(xs)] for a list. *)
Definition nonempty {A : Type} (xs : list A) : bool :=
  match xs with
  | [] => false
  | _ => true
  end.

Definition _numeric_summary (old_text new_text : string) : string :=
  let old_nums := _extract_numbers old_text in
  let new_nums := _extract_numbers new_text in
  let old_set := Py.set_of old_nums in
  let new_set := Py.set_of new_nums in
  let removed := filter (fun n => negb (Py.mem n new_set)) old_nums in
  let added := filter (fun n => negb (Py.mem n old_set)) new_nums in
  let ctx := _context_label (spaced old_text new_text) in
  if nonempty removed && nonempty added
  then "The " ++ ctx ++ " has changed from " ++ Py.join ", " removed
       ++ " to " ++ Py.join ", " added ++ "."
  else if nonempty added && negb (nonempty removed)
  then "The " ++ ctx ++ " now includes " ++ Py.join ", " added
       ++ ", which was not specified earlier."
  else if nonempty removed && negb (nonempty added)
  then "The " ++ ctx ++ " no longer includes " ++ Py.join ", " removed
       ++ "."
  else "Operational numeric limits were revised.".

Definition _applicability_summary (old_text new_text : string) : string :=
  let old_sent := _first_sentence old_text 30 in
  let new_sent := _first_sentence new_text 30 in
  if negb (Py.is_empty old_sent) && negb (Py.is_empty new_sent)
  then "Applicability has been revised. "
       ++ "Earlier: " ++ old_sent ++ " Now: " ++ new_sent
  else "Applicability scope has changed for operators or operations covered by this rule.".

Definition _added_summary (new_text : string) : string :=
  let sent := _first_sentence new_text 30 in
  if negb (Py.is_empty sent)
  then "A new operational requirement has been added: " ++ sent
  else "A new operational requirement has been added.".

Definition _removed_summary (old_text : string) : string :=
  let sent := _first_sentence old_text 30 in
  if negb (Py.is_empty sent)
  then "This operational requirement has been removed: " ++ sent
  else "An existing operational requirement has been removed.".

Definition _modified_summary (old_text new_text : string) : string :=
  let ctx := _context_label (spaced old_text new_text) in
  let old_sent := _first_sentence old_text 30 in
  let new_sent := _first_sentence new_text 30 in
  if negb (Py.is_empty old_sent) && negb (Py.is_empty new_sent)
  then "The " ++ ctx ++ " has been revised. "
       ++ "Earlier: " ++ old_sent ++ " Now: " ++ new_sent
  else "The " ++ ctx ++ " has been revised with operational impact.".

Definition generate_change_summary (old_text new_text subtype : string)
  : string :=
  let old_text := _clean old_text in
  let new_text := _clean new_text in
  let subtype := _clean subtype in
  let summary :=
    if String.eqb subtype "Numeric limit changed"
    then _numeric_summary old_text new_text
    else if String.eqb subtype "Applicability changed"
    then _applicability_summary old_text new_text
    else if String.eqb subtype "New rule added"
    then _added_summary new_text
    else if String.eqb subtype "Rule removed"
    then _removed_summary old_text
    else _modified_summary old_text new_text in
  _sentence_case summary.

Definition generate_summary (text : string) : string :=
  let text := _clean text in
  if Py.is_empty text
  then "No substantive text available for summary."
  else _first_sentence text 30.

End GenerateAiSummary.

(** A summary sentence: it starts with a capital letter and is in the form
    that [_clean] gives a text. *)
Definition sentence (s : string) : Prop :=
  exists c rest, s = String c rest /\ Py.isupper c = true
                 /\ GenerateAiSummary._clean s = s.

(** A text that starts with a capital letter. *)
Definition capitalised (s : string) : Prop :=
  exists c rest, s = String c rest /\ Py.isupper c = true.

(** The block is a match: the two sequences agree on it. *)
Definition genuine (a b : list ascii) (m : Difflib.block) : Prop :=
  let '(i, j, k) := m in
  forall t, t < k -> Difflib.at_a a (i + t) = Difflib.at_b b (j + t).

(** Every entry of the table [j2len] of row [i - 1] is the length of a run
    on which the two sequences agree and that ends at row [i - 1] and at its
    own column. *)
Definition table_true (a b : list ascii) (i : nat) (j2len : list (nat * nat))
  : Prop :=
  forall j t,
    t < Difflib.j2len_get j2len j ->
    Difflib.at_a a (i - Difflib.j2len_get j2len j + t)
    = Difflib.at_b b (j + 1 - Difflib.j2len_get j2len j + t).

(** The two sequences agree on the rectangle, which is as wide as high. *)
Definition same_on (a b : list ascii) (r : Difflib.rect) : Prop :=
  let '(alo, ahi, blo, bhi) := r in
  ahi - alo = bhi - blo
  /\ forall t, t < ahi - alo ->
               Difflib.at_a a (alo + t) = Difflib.at_b b (blo + t).

(** What the pair score reads of a section: the normal forms of its
    heading, of its comparison text and of its body. *)
Definition signature (s : Sec.t) : string * string * string :=
  (normalize_text (heading_of s), normalize_text (_comparison_text s),
   normalize_text (body_of s)).

(** The two mappings hold the same sections: the same keys, each once, and
    under each key records with the same heading, body and meaning; the
    order of the keys is free.  (The key ["section"] is left out of the
    comparison: [compare_sections] writes it first.) *)
Definition same_sections (d d' : sections) : Prop :=
  NoDup (keys d) /\ Permutation (stamp d) (stamp d').

(** No two sections of the mapping have the same signature. *)
Definition all_distinct (d : sections) : Prop :=
  forall k k' v v',
    In (k, v) d -> In (k', v') d -> signature v = signature v' -> k = k'.

(** A record that reports a section as renumbered, and nothing else. *)
Definition only_moved (c : Change.t) : Prop :=
  Change.type c = "STRUCTURAL_CHANGE"%string
  /\ Change.subtype c = "STRUCTURAL_MOVE"%string
  /\ Change.severity c = "MINOR"%string.

(** The signature of the section under a key. *)
Definition signature_at (d : sections) (k : string)
  : option (string * string * string) :=
  match getitem d k with
  | Ok v => Some (signature v)
  | Raise _ => None
  end.

(* ====================================================================== *)
(** * The exception monad *)

Lemma bind_ok {A B : Type} (c : result A) (k : A -> result B) (b : B) :
  bind c k = Ok b -> exists a, c = Ok a /\ k a = Ok b.
Proof.
  destruct c as [a|e]; simpl; intros H; [eauto | discriminate].
Qed.

Lemma returns_bind {A B : Type} (c : result A) (k : A -> result B)
  (P : A -> Prop) (Q' : B -> Prop) :
  returns c P -> (forall a, P a -> returns (k a) Q') -> returns (bind c k) Q'.
Proof.
  destruct c as [a|e]; simpl; [auto | tauto].
Qed.

Lemma returns_weaken {A : Type} (c : result A) (P P' : A -> Prop) :
  returns c P -> (forall a, P a -> P' a) -> returns c P'.
Proof.
  destruct c; simpl; auto.
Qed.

Lemma returns_ok {A : Type} (c : result A) (P : A -> Prop) :
  returns c P -> exists a, c = Ok a /\ P a.
Proof.
  destruct c; simpl; [eauto | tauto].
Qed.

Lemma returns_and {A : Type} (c : result A) (P P' : A -> Prop) :
  returns c P -> returns c P' -> returns c (fun a => P a /\ P' a).
Proof.
  destruct c; simpl; auto.
Qed.

Lemma returns_mapM {A B : Type} (f : A -> result B) (P : A -> Prop)
  (R : A -> B -> Prop) (xs : list A) :
  Forall P xs ->
  (forall x, P x -> returns (f x) (R x)) ->
  returns (mapM f xs) (Forall2 R xs).
Proof.
  intros HP Hf. induction HP as [|x xs Hx _ IH]; simpl.
  - constructor.
  - eapply returns_bind; [apply Hf, Hx|]. intros y Hy.
    eapply returns_bind; [apply IH|]. intros ys Hys. simpl.
    constructor; assumption.
Qed.

Lemma returns_foldM {A S : Type} (f : S -> A -> result S) (P : A -> Prop)
  (I : S -> Prop) (xs : list A) :
  Forall P xs ->
  (forall s x, I s -> P x -> returns (f s x) I) ->
  forall s, I s -> returns (foldM f xs s) I.
Proof.
  intros HP Hf. induction HP as [|x xs Hx _ IH]; simpl; intros s Hs.
  - assumption.
  - eapply returns_bind; [apply Hf; eassumption|]. intros s' Hs'.
    apply IH, Hs'.
Qed.

(* ====================================================================== *)
(** * The sequence matcher *)


Section DifflibBounds.
Import Difflib.
Variables a b : list ascii.



Lemma j2len_get_cons j k l j' :
  j2len_get ((j, k) :: l) j' = if j =? j' then k else j2len_get l j'.
Proof.
  unfold j2len_get. simpl. destruct (j =? j'); reflexivity.
Qed.

Lemma scan_row_within alo ahi blo bhi i j2len :
  alo <= i -> i < ahi -> table_ok alo blo i j2len ->
  forall js newj2len best,
    table_ok alo blo (S i) newj2len ->
    within alo ahi blo bhi best ->
    table_ok alo blo (S i) (fst (scan_row i blo bhi j2len js newj2len best))
    /\ within alo ahi blo bhi (snd (scan_row i blo bhi j2len js newj2len best)).
Proof.
  intros Hlo Hhi Htab. induction js as [|j js IH]; intros newj2len best Hnew Hbest.
  - simpl. auto.
  - simpl. destruct (j <? blo) eqn:Ejb; [apply IH; assumption|].
    destruct (bhi <=? j) eqn:Ebj; [simpl; auto|].
    apply Nat.ltb_ge in Ejb. apply Nat.leb_gt in Ebj.
    assert (Hk : j2len_get_pred j2len j + 1 <= S i - alo
                 /\ j2len_get_pred j2len j + 1 <= j + 1 - blo).
    { destruct j as [|j']; unfold j2len_get_pred.
      - lia.
      - destruct (Htab j') as [H1 H2]. lia. }
    apply IH.
    + intros j'. rewrite j2len_get_cons.
      destruct (j =? j') eqn:E.
      * apply Nat.eqb_eq in E. subst j'. exact Hk.
      * apply Hnew.
    + destruct (size best <? j2len_get_pred j2len j + 1); [|assumption].
      unfold within. lia.
Qed.

Lemma table_ok_nil alo blo i : table_ok alo blo i [].
Proof. intros j. unfold j2len_get. simpl. lia. Qed.

Lemma scan_rows_within alo ahi blo bhi :
  forall n i j2len best,
    alo <= i -> i + n <= ahi ->
    table_ok alo blo i j2len ->
    within alo ahi blo bhi best ->
    within alo ahi blo bhi (scan_rows a b (seq i n) blo bhi j2len best).
Proof.
  induction n as [|n IH]; intros i j2len best Hlo Hhi Htab Hbest; simpl.
  - assumption.
  - destruct (scan_row i blo bhi j2len (b2j_get b (at_a a i)) [] best)
      as [nj best'] eqn:E.
    pose proof (@scan_row_within alo ahi blo bhi i j2len Hlo ltac:(lia) Htab
                  (b2j_get b (at_a a i)) [] best
                  (table_ok_nil alo blo (S i)) Hbest) as H.
    rewrite E in H. simpl in H. destruct H as [H1 H2].
    apply IH; try assumption; lia.
Qed.

Lemma extend_back_within alo ahi blo bhi :
  forall besti bestj bestsize,
    within alo ahi blo bhi (besti, bestj, bestsize) ->
    within alo ahi blo bhi (extend_back a b alo blo besti bestj bestsize).
Proof.
  induction besti as [|besti IH]; intros bestj bestsize H; simpl.
  - assumption.
  - destruct ((alo <? S besti) && (blo <? bestj)
              && Ascii.eqb (at_a a besti) (at_b b (bestj - 1))) eqn:E;
      [|assumption].
    apply andb_prop in E. destruct E as [E _].
    apply andb_prop in E. destruct E as [E1 E2].
    apply Nat.ltb_lt in E1, E2.
    apply IH. unfold within in *. lia.
Qed.

Lemma extend_fwd_within alo ahi blo bhi :
  forall room besti bestj bestsize,
    within alo ahi blo bhi (besti, bestj, bestsize) ->
    within alo ahi blo bhi (extend_fwd a b room ahi bhi besti bestj bestsize).
Proof.
  induction room as [|room IH]; intros besti bestj bestsize H; simpl.
  - assumption.
  - destruct ((besti + bestsize <? ahi) && (bestj + bestsize <? bhi)
              && Ascii.eqb (at_a a (besti + bestsize))
                           (at_b b (bestj + bestsize))) eqn:E;
      [|assumption].
    apply andb_prop in E. destruct E as [E _].
    apply andb_prop in E. destruct E as [E1 E2].
    apply Nat.ltb_lt in E1, E2.
    apply IH. unfold within in *. lia.
Qed.

Lemma find_longest_match_within alo ahi blo bhi :
  alo <= ahi -> blo <= bhi ->
  within alo ahi blo bhi (find_longest_match a b alo ahi blo bhi).
Proof.
  intros Ha Hb. unfold find_longest_match.
  pose proof (@scan_rows_within alo ahi blo bhi (ahi - alo) alo [] (alo, blo, 0)
                (le_n _) ltac:(lia) (table_ok_nil _ _ _)
                ltac:(unfold within; lia)) as H.
  destruct (scan_rows a b (seq alo (ahi - alo)) blo bhi [] (alo, blo, 0))
    as [[bi bj] bs].
  apply extend_back_within in H.
  destruct (extend_back a b alo blo bi bj bs) as [[bi' bj'] bs'].
  apply extend_fwd_within. assumption.
Qed.


Lemma total_cons f r q : total f (r :: q) = f r + total f q.
Proof. reflexivity. Qed.

Lemma work_cons r q : work (r :: q) = 2 * width_a r + 1 + work q.
Proof. reflexivity. Qed.


Lemma blocks_loop_step fuel r queue' acc :
  blocks_loop a b (S fuel) (r :: queue') acc =
  let '(alo, ahi, blo, bhi) := r in
  let m := find_longest_match a b alo ahi blo bhi in
  if size m =? 0 then blocks_loop a b fuel queue' acc
  else blocks_loop a b fuel (pushed a b r queue') (m :: acc).
Proof.
  destruct r as [[[alo ahi] blo] bhi]. simpl. unfold pushed.
  destruct (find_longest_match a b alo ahi blo bhi) as [[i j] k]. simpl.
  destruct (k =? 0); reflexivity.
Qed.

Lemma pushed_facts r queue' :
  rect_ok r -> Forall rect_ok queue' ->
  let m := let '(alo, ahi, blo, bhi) := r in
           find_longest_match a b alo ahi blo bhi in
  Forall rect_ok (pushed a b r queue')
  /\ size m + total width_a (pushed a b r queue') <= total width_a (r :: queue')
  /\ size m + total width_b (pushed a b r queue') <= total width_b (r :: queue')
  /\ (size m <> 0 -> work (pushed a b r queue') < work (r :: queue')).
Proof.
  destruct r as [[[alo ahi] blo] bhi]. intros [Ha Hb] Hq. simpl.
  pose proof (find_longest_match_within Ha Hb) as H.
  unfold pushed.
  destruct (find_longest_match a b alo ahi blo bhi) as [[i j] k].
  unfold within in H. destruct H as (H1 & H2 & H3 & H4).
  unfold work, total. simpl.
  destruct ((alo <? i) && (blo <? j)) eqn:E1;
    destruct ((i + k <? ahi) && (j + k <? bhi)) eqn:E2; simpl;
    repeat split;
    repeat match goal with
      | |- Forall _ (_ :: _) => constructor
      | |- rect_ok _ => unfold rect_ok; lia
      end;
    try assumption; try lia.
Qed.

Lemma blocks_loop_sizes :
  forall fuel queue acc,
    Forall rect_ok queue ->
    sizes (blocks_loop a b fuel queue acc) <= sizes acc + total width_a queue
    /\ sizes (blocks_loop a b fuel queue acc) <= sizes acc + total width_b queue.
Proof.
  induction fuel as [|fuel IH]; intros queue acc Hq.
  - destruct queue as [|[[[alo ahi] blo] bhi] queue']; simpl; lia.
  - destruct queue as [|r queue']; [simpl; lia|].
    rewrite blocks_loop_step.
    inversion Hq as [|? ? Hr Hq']; subst.
    pose proof (pushed_facts r Hr Hq') as H. cbv zeta in H.
    destruct r as [[[alo ahi] blo] bhi].
    destruct H as (F & A & B & _).
    set (m := find_longest_match a b alo ahi blo bhi) in *.
    cbv zeta. destruct (size m =? 0) eqn:E.
    + specialize (IH queue' acc Hq'). unfold total in *. simpl in *. lia.
    + specialize (IH (pushed a b (alo, ahi, blo, bhi) queue') (m :: acc) F).
      unfold sizes in *. simpl in *. lia.
Qed.

(** Enough fuel: from [work queue] rounds on, more fuel changes nothing. *)
Lemma blocks_loop_fuel :
  forall fuel queue acc,
    Forall rect_ok queue -> work queue <= fuel ->
    forall fuel', fuel <= fuel' ->
      blocks_loop a b fuel' queue acc = blocks_loop a b fuel queue acc.
Proof.
  induction fuel as [|fuel IH]; intros queue acc Hq Hw fuel' Hf.
  - destruct queue as [|[[[alo ahi] blo] bhi] queue'].
    + destruct fuel'; reflexivity.
    + rewrite work_cons in Hw. lia.
  - destruct queue as [|r queue']; [destruct fuel'; reflexivity|].
    destruct fuel' as [|fuel']; [lia|].
    rewrite !blocks_loop_step.
    inversion Hq as [|? ? Hr Hq']; subst.
    pose proof (pushed_facts r Hr Hq') as H. cbv zeta in H.
    destruct r as [[[alo ahi] blo] bhi].
    destruct H as (F & _ & _ & W).
    set (m := find_longest_match a b alo ahi blo bhi) in *.
    cbv zeta. destruct (size m =? 0) eqn:E.
    + rewrite work_cons in Hw. apply IH; try assumption; lia.
    + apply Nat.eqb_neq in E. specialize (W E).
      apply IH; try assumption; lia.
Qed.

Lemma get_matching_blocks_fuel fuel :
  2 * List.length a + 1 <= fuel ->
  blocks_loop a b fuel [(0, List.length a, 0, List.length b)] [] =
  get_matching_blocks a b.
Proof.
  intros H. unfold get_matching_blocks.
  apply blocks_loop_fuel; try assumption.
  - constructor; [unfold rect_ok; lia | constructor].
  - rewrite work_cons. unfold work, total, width_a. cbn [list_sum map fold_right]. lia.
Qed.

Lemma matches_le :
  matches a b <= List.length a /\ matches a b <= List.length b.
Proof.
  unfold matches, get_matching_blocks.
  pose proof (@blocks_loop_sizes (2 * List.length a + 1)
                [(0, List.length a, 0, List.length b)] []
                ltac:(constructor; [unfold rect_ok; lia | constructor])) as H.
  rewrite !total_cons in H. unfold sizes, total, width_a, width_b in H.
  cbn [list_sum map fold_right] in H. lia.
Qed.
End DifflibBounds.

Section Indices.
Import Difflib.
Variable b : list ascii.

Lemma indices_from_spec (c : ascii) :
  forall (l : list ascii) (s j : nat),
    In j (map fst (filter (fun p => Ascii.eqb (snd p) c)
                          (combine (seq s (List.length l)) l)))
    <-> s <= j /\ j < s + List.length l /\ nth (j - s) l zero = c.
Proof.
  induction l as [|x l IH]; intros s j; simpl.
  - split; [tauto | lia].
  - destruct (Ascii.eqb x c) eqn:E; simpl; rewrite IH.
    + apply Ascii.eqb_eq in E. split.
      * intros [H | (H1 & H2 & H3)].
        -- subst j. rewrite Nat.sub_diag. repeat split; try lia. assumption.
        -- repeat split; try lia.
           replace (j - s) with (S (j - S s)) by lia. assumption.
      * intros (H1 & H2 & H3).
        destruct (Nat.eq_dec s j) as [->|N]; [left; reflexivity | right].
        repeat split; try lia.
        replace (j - s) with (S (j - S s)) in H3 by lia. assumption.
    + apply Ascii.eqb_neq in E. split.
      * intros (H1 & H2 & H3). repeat split; try lia.
        replace (j - s) with (S (j - S s)) by lia. assumption.
      * intros (H1 & H2 & H3).
        destruct (Nat.eq_dec s j) as [->|N].
        -- rewrite Nat.sub_diag in H3. contradiction.
        -- repeat split; try lia.
           replace (j - s) with (S (j - S s)) in H3 by lia. assumption.
Qed.

Lemma indices_from_sorted (c : ascii) :
  forall (l : list ascii) (s : nat),
    StronglySorted lt (map fst (filter (fun p => Ascii.eqb (snd p) c)
                                       (combine (seq s (List.length l)) l))).
Proof.
  induction l as [|x l IH]; intros s; simpl.
  - constructor.
  - destruct (Ascii.eqb x c); simpl; [|apply IH].
    constructor; [apply IH|].
    apply Forall_forall. intros j Hj. apply indices_from_spec in Hj. lia.
Qed.

Lemma indices_of_spec c j :
  In j (indices_of b c) <-> j < List.length b /\ at_b b j = c.
Proof.
  unfold indices_of, at_b. rewrite indices_from_spec.
  rewrite Nat.sub_0_r. simpl. intuition lia.
Qed.

Lemma indices_of_sorted c : StronglySorted lt (indices_of b c).
Proof. apply indices_from_sorted. Qed.
End Indices.

Section Diagonal.
Import Difflib.
Variable a : list ascii.
Local Abbreviation n := (List.length a).


Lemma run_len_eq i j :
  run_len a i j =
  if Ascii.eqb (at_a a i) (at_a a j) && negb (popular a (at_a a i))
     && (i <? n) && (j <? n)
  then S (match i, j with S i', S j' => run_len a i' j' | _, _ => 0 end)
  else 0.
Proof. destruct i; simpl; destruct j; reflexivity. Qed.

Lemma run_len_sym : forall i j, run_len a i j = run_len a j i.
Proof.
  induction i as [|i IH]; intros j; rewrite (run_len_eq _ j), (run_len_eq j).
  - destruct (Ascii.eqb (at_a a 0) (at_a a j)) eqn:E.
    + apply Ascii.eqb_eq in E. rewrite <- E, Ascii.eqb_refl. simpl.
      destruct (negb (popular a (at_a a 0))), (0 <? n), (j <? n), j; reflexivity.
    + rewrite Ascii.eqb_sym, E. reflexivity.
  - destruct (Ascii.eqb (at_a a (S i)) (at_a a j)) eqn:E.
    + apply Ascii.eqb_eq in E. rewrite <- E, Ascii.eqb_refl. simpl.
      destruct (negb (popular a (at_a a (S i)))), (S i <? n), (j <? n), j;
        try reflexivity.
      simpl. rewrite IH. reflexivity.
    + rewrite Ascii.eqb_sym, E. reflexivity.
Qed.

Lemma run_len_diag : forall i j, run_len a i j <= run_len a i i.
Proof.
  induction i as [|i IH]; intros j; rewrite (run_len_eq _ j), (run_len_eq _ 0) || rewrite (run_len_eq _ j), (run_len_eq _ (S i)).
  - rewrite Ascii.eqb_refl.
    destruct (Ascii.eqb (at_a a 0) (at_a a j)); simpl; [|lia].
    destruct (negb (popular a (at_a a 0))), (0 <? n), (j <? n); simpl; lia.
  - rewrite Ascii.eqb_refl.
    destruct (Ascii.eqb (at_a a (S i)) (at_a a j)); simpl; [|lia].
    destruct (negb (popular a (at_a a (S i)))), (S i <? n), (j <? n); simpl;
      try lia.
    destruct j; [lia|]. specialize (IH j). lia.
Qed.

Lemma run_len_pos i j :
  run_len a i j <> 0 ->
  at_a a i = at_a a j /\ popular a (at_a a i) = false /\ i < n /\ j < n.
Proof.
  rewrite run_len_eq.
  destruct (Ascii.eqb (at_a a i) (at_a a j)) eqn:E1; simpl; [|congruence].
  destruct (popular a (at_a a i)) eqn:E2; simpl; [congruence|].
  destruct (i <? n) eqn:E3; simpl; [|congruence].
  destruct (j <? n) eqn:E4; simpl; [|congruence].
  intros _. apply Ascii.eqb_eq in E1. apply Nat.ltb_lt in E3, E4. auto.
Qed.


Lemma scan_row_diagonal i j2len :
  i < n -> popular a (at_a a i) = false ->
  (forall j, j2len_get j2len j = prev_row a i j) ->
  forall js lo newj2len best,
    StronglySorted lt js ->
    (forall j, In j js <-> lo <= j /\ j < n /\ at_a a j = at_a a i) ->
    diagonal best ->
    (forall i' j', i' < i -> run_len a i' j' <= size best) ->
    (forall j', j' < lo -> run_len a i j' <= size best) ->
    (forall j, j2len_get newj2len j = if j <? lo then run_len a i j else 0) ->
    let r := scan_row i 0 n j2len js newj2len best in
    diagonal (snd r)
    /\ (forall i' j', i' <= i -> run_len a i' j' <= size (snd r))
    /\ (forall j, j2len_get (fst r) j = run_len a i j).
Proof.
  intros Hi Hpop Hprev.
  induction js as [|j js IH]; intros lo newj2len best Hs Hjs Hd Hrows Hcols Hnew.
  - simpl. split; [assumption|]. 
    assert (Hall : forall j', run_len a i j' <= size best /\
                              j2len_get newj2len j' = run_len a i j').
    { intros j'. rewrite Hnew. destruct (j' <? lo) eqn:E.
      - apply Nat.ltb_lt in E. split; [apply Hcols, E | reflexivity].
      - apply Nat.ltb_ge in E.
        destruct (Nat.eq_dec (run_len a i j') 0) as [Z|NZ]; [lia|].
        apply run_len_pos in NZ. destruct NZ as (N1 & N2 & N3 & N4).
        exfalso. apply (proj2 (Hjs j')). auto. }
    split.
    + intros i' j' Hle. destruct (Nat.eq_dec i' i) as [->|Ne].
      * apply Hall.
      * apply Hrows. lia.
    + intros j'. apply Hall.
  - assert (Hj : lo <= j /\ j < n /\ at_a a j = at_a a i)
      by (apply Hjs; left; reflexivity).
    destruct Hj as (Hj1 & Hj2 & Hj3).
    inversion Hs as [|? ? Hs' Hlt]; subst.
    assert (Hk : j2len_get_pred j2len j + 1 = run_len a i j).
    { rewrite (run_len_eq i j). rewrite Hj3, Ascii.eqb_refl, Hpop. simpl.
      destruct (Nat.ltb_spec i n); [|lia]. destruct (Nat.ltb_spec j n); [|lia].
      simpl. destruct j as [|j']; simpl.
      - destruct i; reflexivity.
      - rewrite Hprev. destruct i; simpl; lia. }
    assert (Hgap : forall j', lo <= j' -> j' < j -> run_len a i j' = 0).
    { intros j' H1 H2.
      destruct (Nat.eq_dec (run_len a i j') 0) as [Z|NZ]; [assumption|].
      apply run_len_pos in NZ. destruct NZ as (N1 & N2 & N3 & N4).
      assert (Hin : In j' (j :: js)) by (apply Hjs; auto).
      destruct Hin as [->|Hin]; [lia|].
      rewrite Forall_forall in Hlt. specialize (Hlt _ Hin). lia. }
    simpl. destruct (Nat.ltb_spec j 0); [lia|].
    destruct (Nat.leb_spec n j); [lia|].
    rewrite Hk.
    apply (IH (S j)); try assumption.
    + intros j'. split.
      * intros Hin. assert (H' : In j' (j :: js)) by (right; assumption).
        apply Hjs in H'. rewrite Forall_forall in Hlt.
        specialize (Hlt _ Hin). intuition lia.
      * intros (H1 & H2 & H3).
        assert (H' : In j' (j :: js)) by (apply Hjs; intuition lia).
        destruct H' as [->|H']; [lia | assumption].
    + destruct (Nat.ltb_spec (size best) (run_len a i j)) as [Hup|Hno];
        [|assumption].
      (* an update can only happen on the diagonal *)
      destruct (Nat.lt_trichotomy j i) as [Hlt'|[->|Hgt]].
      * specialize (Hrows j i Hlt'). rewrite run_len_sym in Hrows. lia.
      * reflexivity.
      * assert (i < lo).
        { destruct (Nat.lt_ge_cases i lo) as [|Hge]; [assumption|].
          assert (Hin : In i (j :: js)) by (apply Hjs; auto).
          destruct Hin as [->|Hin]; [lia|].
          rewrite Forall_forall in Hlt. specialize (Hlt _ Hin). lia. }
        pose proof (run_len_diag i j). specialize (Hcols i ltac:(assumption)).
        lia.
    + intros i' j' Hlt'. specialize (Hrows i' j' Hlt').
      destruct (size best <? run_len a i j) eqn:E; [|assumption].
      apply Nat.ltb_lt in E. simpl. lia.
    + intros j' Hlt'.
      assert (Hold : run_len a i j' <= Nat.max (size best) (run_len a i j)).
      { destruct (Nat.lt_ge_cases j' lo) as [H1|H1].
        - specialize (Hcols j' H1). lia.
        - destruct (Nat.eq_dec j' j) as [->|Ne]; [lia|].
          rewrite (Hgap j'); lia. }
      destruct (size best <? run_len a i j) eqn:E.
      * apply Nat.ltb_lt in E. simpl. lia.
      * apply Nat.ltb_ge in E. lia.
    + intros j'. unfold j2len_get. simpl.
      destruct (Nat.eqb_spec j j') as [->|Ne].
      * simpl. destruct (Nat.ltb_spec j' (S j')); [reflexivity | lia].
      * fold (j2len_get newj2len j'). rewrite Hnew.
        destruct (Nat.ltb_spec j' lo), (Nat.ltb_spec j' (S j)); try reflexivity;
          try lia.
        symmetry. apply Hgap; lia.
Qed.

Lemma scan_rows_diagonal :
  forall k i j2len best,
    i + k <= n ->
    (forall j, j2len_get j2len j = prev_row a i j) ->
    diagonal best ->
    (forall i' j', i' < i -> run_len a i' j' <= size best) ->
    diagonal (scan_rows a a (seq i k) 0 n j2len best).
Proof.
  induction k as [|k IH]; intros i j2len best Hn Hprev Hd Hrows; simpl.
  - assumption.
  - unfold b2j_get. destruct (popular a (at_a a i)) eqn:Hpop.
    + simpl. apply IH; try assumption; try lia.
      * intros j. unfold j2len_get. simpl. rewrite run_len_eq, Hpop.
        rewrite andb_false_r. reflexivity.
      * intros i' j' Hlt. destruct (Nat.eq_dec i' i) as [->|Ne].
        -- rewrite run_len_eq, Hpop, andb_false_r. simpl. lia.
        -- apply Hrows. lia.
    + pose proof (@scan_row_diagonal i j2len ltac:(lia) Hpop Hprev
                    (indices_of a (at_a a i)) 0 [] best
                    (indices_of_sorted a (at_a a i))) as H.
      cbv zeta in H.
      destruct (scan_row i 0 n j2len (indices_of a (at_a a i)) [] best)
        as [nj best'] eqn:E.
      simpl in H. destruct H as (H1 & H2 & H3); try assumption.
      * intros j. rewrite indices_of_spec. unfold at_b, at_a. fold n.
        intuition lia.
      * intros j' Hlt. lia.
      * intros j. reflexivity.
      * apply IH; try assumption; try lia.
        intros i' j' Hlt. apply H2. lia.
Qed.

Lemma extend_back_diagonal :
  forall besti bestsize,
    extend_back a a 0 0 besti besti bestsize = (0, 0, bestsize + besti).
Proof.
  induction besti as [|besti IH]; intros bestsize; simpl.
  - rewrite Nat.add_0_r. reflexivity.
  - rewrite Nat.sub_0_r. unfold at_b, at_a. rewrite Ascii.eqb_refl. simpl.
    rewrite IH. f_equal. lia.
Qed.

Lemma extend_fwd_diagonal :
  forall room bestsize,
    bestsize + room = n ->
    extend_fwd a a room n n 0 0 bestsize = (0, 0, n).
Proof.
  induction room as [|room IH]; intros bestsize H; simpl.
  - rewrite Nat.add_0_r in H. rewrite H. reflexivity.
  - destruct (Nat.ltb_spec bestsize n); [|lia].
    unfold at_b, at_a. rewrite Ascii.eqb_refl. simpl.
    apply IH. lia.
Qed.

Lemma find_longest_match_self : find_longest_match a a 0 n 0 n = (0, 0, n).
Proof.
  unfold find_longest_match.
  pose proof (@scan_rows_within a a 0 n 0 n (n - 0) 0 [] (0, 0, 0)
                (le_n _) ltac:(lia) (table_ok_nil _ _ _)
                ltac:(unfold within; lia)) as Hw.
  pose proof (@scan_rows_diagonal (n - 0) 0 [] (0, 0, 0) ltac:(lia)
                ltac:(intros j; reflexivity) eq_refl
                ltac:(intros; lia)) as Hd.
  destruct (scan_rows a a (seq 0 (n - 0)) 0 n [] (0, 0, 0)) as [[bi bj] bs].
  unfold diagonal in Hd. simpl in Hd. subst bj.
  unfold within in Hw.
  rewrite extend_back_diagonal. apply extend_fwd_diagonal. lia.
Qed.

Lemma matches_self : matches a a = n.
Proof.
  unfold matches, get_matching_blocks. fold n.
  replace (2 * n + 1) with (S (2 * n)) by lia.
  cbn [blocks_loop]. rewrite find_longest_match_self.
  assert (Hnil : forall fuel acc, blocks_loop a a fuel [] acc = acc)
    by (intros [|fuel] acc; reflexivity).
  destruct (Nat.eqb_spec n 0) as [Z|NZ].
  - rewrite Hnil. simpl. lia.
  - rewrite !Nat.ltb_irrefl. cbn [andb]. rewrite Hnil. simpl. lia.
Qed.
End Diagonal.

(* ====================================================================== *)
(** * The similarity scores *)

Lemma Qnat_pos n : 0 < n -> (0 < Qnat n)%Q.
Proof.
  intros H. unfold Qnat. change 0%Q with (inject_Z 0). rewrite <- Zlt_Qlt. lia.
Qed.

Lemma Qnat_le m n : m <= n -> (Qnat m <= Qnat n)%Q.
Proof. intros H. unfold Qnat. rewrite <- Zle_Qle. lia. Qed.

Lemma Qnat_nonneg n : (0 <= Qnat n)%Q.
Proof. apply (Qnat_le (Nat.le_0_l n)). Qed.

Lemma Qnat_add m n : (Qnat (m + n) == Qnat m + Qnat n)%Q.
Proof. unfold Qnat. rewrite Nat2Z.inj_add, inject_Z_plus. reflexivity. Qed.

Lemma pydiv_unit (x y : Q) :
  (0 <= x)%Q -> (x <= y)%Q -> (0 < y)%Q -> returns (pydiv x y) in_unit.
Proof.
  intros H0 H1 H2. unfold pydiv.
  destruct (Qeq_bool y 0) eqn:E.
  - apply Qeq_bool_eq in E. lra.
  - simpl. split.
    + apply Qle_shift_div_l; [assumption | lra].
    + apply Qle_shift_div_r; [assumption | lra].
Qed.

Lemma pydiv_one (x y : Q) :
  (x == y)%Q -> (0 < y)%Q -> returns (pydiv x y) (fun q => q == 1)%Q.
Proof.
  intros H1 H2. unfold pydiv.
  destruct (Qeq_bool y 0) eqn:E.
  - apply Qeq_bool_eq in E. lra.
  - simpl. rewrite H1. unfold Qdiv. apply Qmult_inv_r. lra.
Qed.

Lemma ratio_unit a b : returns (Difflib.ratio a b) in_unit.
Proof.
  unfold Difflib.ratio, Difflib._calculate_ratio.
  destruct (Nat.eqb_spec (List.length a + List.length b) 0) as [Z|NZ]; simpl.
  - unfold in_unit. lra.
  - destruct (matches_le a b) as [Ha Hb].
    apply pydiv_unit.
    + pose proof (Qnat_nonneg (Difflib.matches a b)). unfold Qnat in *. lra.
    + pose proof (@Qnat_le (Difflib.matches a b + Difflib.matches a b)
                    (List.length a + List.length b) ltac:(lia)) as H.
      rewrite Qnat_add in H. unfold Qnat in *. lra.
    + apply Qnat_pos. lia.
Qed.

Lemma ratio_self a : a <> [] -> returns (Difflib.ratio a a) (fun q => q == 1)%Q.
Proof.
  intros Ha. unfold Difflib.ratio, Difflib._calculate_ratio.
  rewrite matches_self.
  destruct a as [|c a']; [congruence|].
  destruct (Nat.eqb_spec (List.length (c :: a') + List.length (c :: a')) 0)
    as [Z|NZ]; [simpl in Z; lia|].
  cbn [negb]. apply pydiv_one.
  - pose proof (Qnat_add (List.length (c :: a')) (List.length (c :: a'))) as H.
    unfold Qnat in H. rewrite H. lra.
  - apply Qnat_pos. simpl. lia.
Qed.

Lemma mem_In x xs : Py.mem x xs = true <-> In x xs.
Proof.
  unfold Py.mem. rewrite existsb_exists. split.
  - intros (y & Hy & E). apply String.eqb_eq in E. subst. assumption.
  - intros H. exists x. split; [assumption | apply String.eqb_refl].
Qed.

Lemma set_inter_self xs : Py.set_inter xs xs = xs.
Proof.
  unfold Py.set_inter. apply forallb_filter_id.
  apply forallb_forall. intros x Hx. apply mem_In, Hx.
Qed.

Lemma set_diff_self xs : Py.set_diff xs xs = [].
Proof.
  unfold Py.set_diff.
  assert (H : forall ys, (forall y, In y ys -> In y xs) ->
                         filter (fun x => negb (Py.mem x xs)) ys = []).
  { induction ys as [|y ys IH]; intros Hs; simpl; [reflexivity|].
    rewrite (proj2 (mem_In y xs)) by (apply Hs; left; reflexivity). simpl.
    apply IH. intros z Hz. apply Hs. right. assumption. }
  apply H. auto.
Qed.

Lemma jaccard_unit a b : returns (jaccard_similarity a b) in_unit.
Proof.
  unfold jaccard_similarity.
  set (x := Py.set_of (tokenize a)). set (y := Py.set_of (tokenize b)).
  destruct x as [|x0 x']; destruct y as [|y0 y']; simpl is_nil; cbn [andb orb];
    try (simpl; unfold in_unit; lra).
  apply pydiv_unit.
  - apply Qnat_nonneg.
  - apply Qnat_le. unfold Py.set_inter, Py.set_union.
    rewrite length_app. 
    pose proof (filter_length_le (fun z => Py.mem z (y0 :: y')) (x0 :: x')). lia.
  - apply Qnat_pos. unfold Py.set_union. rewrite length_app. simpl. lia.
Qed.

Lemma jaccard_self a : returns (jaccard_similarity a a) (fun q => q == 1)%Q.
Proof.
  unfold jaccard_similarity.
  set (x := Py.set_of (tokenize a)).
  destruct x as [|x0 x'] eqn:E; simpl is_nil; cbn [andb orb]; [simpl; lra|].
  apply pydiv_one.
  - unfold Py.set_union. rewrite set_inter_self, set_diff_self, app_nil_r.
    reflexivity.
  - apply Qnat_pos. unfold Py.set_union. rewrite length_app. simpl. lia.
Qed.

Lemma lexical_unit a b : returns (lexical_similarity a b) in_unit.
Proof.
  unfold lexical_similarity.
  destruct (Py.is_empty (normalize_text a) && Py.is_empty (normalize_text b));
    [cbn [returns]; unfold in_unit; lra|].
  destruct (Py.is_empty (normalize_text a) || Py.is_empty (normalize_text b));
    [cbn [returns]; unfold in_unit; lra|].
  eapply returns_bind; [apply ratio_unit|]. intros r Hr.
  eapply returns_bind; [apply jaccard_unit|]. intros j Hj.
  cbn [returns]. unfold in_unit in *. lra.
Qed.

Lemma chars_nonempty s : Py.is_empty s = false -> Py.chars s <> [].
Proof. destruct s; simpl; [discriminate | congruence]. Qed.

Lemma lexical_self a : returns (lexical_similarity a a) (fun q => q == 1)%Q.
Proof.
  unfold lexical_similarity.
  destruct (Py.is_empty (normalize_text a)) eqn:E; cbn [andb orb returns];
    [lra|].
  eapply returns_bind; [apply ratio_self, chars_nonempty, E|]. intros r Hr.
  eapply returns_bind; [apply jaccard_self|]. intros j Hj.
  cbn [returns] in *. lra.
Qed.

Lemma pymin_le x y : (pymin x y <= x)%Q.
Proof.
  unfold pymin, Qltb. destruct (Qle_bool x y) eqn:E; simpl; [lra|].
  destruct (Qlt_le_dec y x) as [H|H]; [lra|].
  apply Qle_bool_iff in H. congruence.
Qed.

Lemma pymax_ge x y : (x <= pymax x y)%Q.
Proof.
  unfold pymax, Qgtb. destruct (Qle_bool y x) eqn:E; simpl; [lra|].
  destruct (Qlt_le_dec x y) as [H|H]; [lra|].
  apply Qle_bool_iff in H. congruence.
Qed.

Lemma pymax_cases x y : pymax x y = x \/ pymax x y = y.
Proof. unfold pymax. destruct (Qgtb y x); auto. Qed.

Lemma embedding_unit emb a b q :
  _embedding_similarity emb a b = Some q -> in_unit q.
Proof.
  unfold _embedding_similarity. destruct emb as [model|]; [|discriminate].
  destruct (model a b) as [s|]; [|discriminate].
  intros H. injection H as <-. split; [apply pymax_ge|].
  destruct (pymax_cases 0 (pymin 1 s)) as [-> | ->]; [lra | apply pymin_le].
Qed.

Lemma semantic_unit emb a b : returns (semantic_similarity emb a b) in_unit.
Proof.
  unfold semantic_similarity.
  destruct (Py.is_empty (Py.strip a) && Py.is_empty (Py.strip b));
    [cbn [returns]; unfold in_unit; lra|].
  destruct (Py.is_empty (Py.strip a) || Py.is_empty (Py.strip b));
    [cbn [returns]; unfold in_unit; lra|].
  eapply returns_bind; [apply lexical_unit|]. intros l Hl.
  destruct (_embedding_similarity emb (Py.strip a) (Py.strip b)) as [e|] eqn:E.
  - apply embedding_unit in E. cbn [returns]. unfold in_unit in *. lra.
  - cbn [returns]. assumption.
Qed.

Lemma semantic_self a :
  returns (semantic_similarity offline a a) (fun q => q == 1)%Q.
Proof.
  unfold semantic_similarity.
  destruct (Py.is_empty (Py.strip a)); cbn [andb orb returns]; [lra|].
  eapply returns_bind; [apply lexical_self|]. intros l Hl.
  unfold offline. cbn [_embedding_similarity returns]. assumption.
Qed.

Lemma pair_score_unit emb s t : returns (_pair_score emb s t) in_unit.
Proof.
  unfold _pair_score.
  eapply returns_bind; [apply lexical_unit|]. intros h Hh.
  eapply returns_bind; [apply semantic_unit|]. intros m Hm.
  eapply returns_bind; [apply lexical_unit|]. intros b Hb.
  cbn [returns]. unfold in_unit in *. lra.
Qed.

Lemma pair_score_self s :
  returns (_pair_score offline s s) (fun q => q == 1)%Q.
Proof.
  unfold _pair_score.
  eapply returns_bind; [apply lexical_self|]. intros h Hh.
  eapply returns_bind; [apply semantic_self|]. intros m Hm.
  eapply returns_bind; [apply lexical_self|]. intros b Hb.
  cbn [returns] in *. lra.
Qed.

Lemma build_change_made gen o n ct sev sub d w sc :
  exists c, _build_change gen o n ct sev sub d w sc = (c, S gen)
            /\ made gen ct sev sub c.
Proof.
  unfold _build_change.
  destruct (_numeric_delta _ _) as [added removed].
  eexists. split; [reflexivity|]. repeat split.
Qed.

Lemma severity_of_true_change sub o n :
  _severity_from_text "TRUE_CHANGE"%string sub o n = "CRITICAL"%string
  \/ _severity_from_text "TRUE_CHANGE"%string sub o n = "MODERATE"%string.
Proof.
  unfold _severity_from_text.
  change (String.eqb "TRUE_CHANGE"%string "NOISE"%string) with false.
  change (String.eqb "TRUE_CHANGE"%string "TRUE_CHANGE"%string) with true.
  cbv iota.
  destruct (Py.mem sub _); [left; reflexivity|].
  destruct (Py.mem sub _).
  - destruct (_is_substantive_rule _); [left | right]; reflexivity.
  - destruct (Py.any_in _ _); [left | right]; reflexivity.
Qed.

Lemma subseq_In {A : Type} (l l' : list A) x : subseq l l' -> In x l -> In x l'.
Proof.
  induction 1; simpl; intuition.
Qed.

Lemma subseq_NoDup {A : Type} (l l' : list A) :
  subseq l l' -> NoDup l' -> NoDup l.
Proof.
  induction 1 as [|x l l' H IH|x l l' H IH]; intros N.
  - constructor.
  - inversion N; auto.
  - inversion N as [|? ? Hx N']; subst. constructor; [|auto].
    intros Hin. apply Hx. eapply subseq_In; eassumption.
Qed.

Lemma subseq_map {A B : Type} (f : A -> B) (l l' : list A) :
  subseq l l' -> subseq (map f l) (map f l').
Proof. induction 1; simpl; constructor; assumption. Qed.

Lemma subseq_Forall {A : Type} (P : A -> Prop) (l l' : list A) :
  subseq l l' -> Forall P l' -> Forall P l.
Proof.
  induction 1; intros F; inversion F; subst; auto.
Qed.

Lemma subseq_refl {A : Type} (l : list A) : subseq l l.
Proof. induction l; constructor; assumption. Qed.

Section Stages.
Variable emb : option (string -> string -> option Q).

Lemma built_intro gen o n ct sev sub d w sc :
  (ct = "TRUE_CHANGE"%string /\ (sev = "CRITICAL"%string \/ sev = "MODERATE"%string))
  \/ ((ct = "NOISE"%string \/ ct = "STRUCTURAL_CHANGE"%string \/ ct = "SEMANTIC_MINOR"%string)
      /\ sev = "MINOR"%string) ->
  built gen (_build_change gen o n ct sev sub d w sc).
Proof.
  intros H. destruct (build_change_made gen o n ct sev sub d w sc)
    as (c & E & I & T & S' & _).
  rewrite E. unfold built, graded. cbn [fst snd]. rewrite T, S'. auto.
Qed.

Lemma maybe_built_intro gen o n ct sev sub d w sc :
  (ct = "TRUE_CHANGE"%string /\ (sev = "CRITICAL"%string \/ sev = "MODERATE"%string))
  \/ ((ct = "NOISE"%string \/ ct = "STRUCTURAL_CHANGE"%string \/ ct = "SEMANTIC_MINOR"%string)
      /\ sev = "MINOR"%string) ->
  returns (let '(c, gen') := _build_change gen o n ct sev sub d w sc in
           Ok (Some c, gen')) (maybe_built gen).
Proof.
  intros H. pose proof (@built_intro gen o n ct sev sub d w sc H) as B.
  destruct (_build_change gen o n ct sev sub d w sc) as [c g'].
  exact B.
Qed.

Ltac grade :=
  lazymatch goal with
  | |- ("TRUE_CHANGE"%string = _ /\ _) \/ _ =>
      left; split; [reflexivity | apply severity_of_true_change]
  | _ => right; split; [auto | reflexivity]
  end.

Lemma classify_matched_returns gen o n score thr :
  returns (_classify_matched_change emb gen o n score thr) (maybe_built gen).
Proof.
  unfold _classify_matched_change.
  eapply returns_bind; [apply lexical_unit|]. intros h _.
  eapply returns_bind; [apply semantic_unit|]. intros t _.
  destruct (String.eqb _ _ || Qgeb score thr).
  { destruct (old_id_differs o n); [apply maybe_built_intro; grade|].
    reflexivity. }
  destruct (_looks_like_noise _ && _looks_like_noise _);
    [apply maybe_built_intro; grade|].
  destruct (Qltb h 0.90 && Qgeb t 0.93); [apply maybe_built_intro; grade|].
  destruct (old_id_differs o n && Qgeb t 0.90);
    [apply maybe_built_intro; grade|].
  assert (R : returns
    (if (_contains_scope_signal (_comparison_text o)
         || _contains_scope_signal (_comparison_text n)) && Qltb t 0.84
     then
       let '(c, gen') :=
         _build_change gen (Some o) (Some n) "TRUE_CHANGE"%string
           (_severity_from_text "TRUE_CHANGE"%string "Applicability changed"%string
              (_comparison_text o) (_comparison_text n))
           "Applicability changed"%string "Applicability/scope language changed."%string
           "Operator categories or scope boundaries materially differ."%string score in
       Ok (Some c, gen')
     else if (_contains_regulatory_signal (_comparison_text o)
              || _contains_regulatory_signal (_comparison_text n))
             && (Qltb t 0.66
                 && (_is_substantive_rule (_comparison_text o)
                     || _is_substantive_rule (_comparison_text n)))
     then
       let '(c, gen') :=
         _build_change gen (Some o) (Some n) "TRUE_CHANGE"%string
           (_severity_from_text "TRUE_CHANGE"%string "Operational requirement changed"%string
              (_comparison_text o) (_comparison_text n))
           "Operational requirement changed"%string
           "Operational requirement text changed."%string
           "Pilot/operator action could change due to semantic requirement difference."%string
           score in
       Ok (Some c, gen')
     else
       let '(c, gen') :=
         _build_change gen (Some o) (Some n) "SEMANTIC_MINOR"%string "MINOR"%string
           "Clarification without rule change"%string
           "Wording/clarity changes detected."%string
           "Difference appears non-operational or uncertain."%string score in
       Ok (Some c, gen')) (maybe_built gen)).
  { destruct (_ && Qltb t 0.84); [apply maybe_built_intro; grade|].
    destruct (_ && (Qltb t 0.66 && _)); apply maybe_built_intro; grade. }
  destruct (_is_operational_numeric_change _ _); [|exact R].
  eapply returns_bind; [apply semantic_unit|]. intros s _.
  destruct (Qgeb s 0.84); [apply maybe_built_intro; grade | exact R].
Qed.

Lemma getitem_in (d : sections) (k : string) :
  In k (keys d) -> exists v, getitem d k = Ok v /\ In (k, v) d.
Proof.
  induction d as [|[k' v'] d IH]; simpl; [tauto|].
  intros H. destruct (String.eqb_spec k' k) as [->|Ne].
  - eauto.
  - destruct H as [H|H]; [congruence|].
    destruct (IH H) as (v & E & I). eauto.
Qed.

Lemma getitem_returns (d : sections) (k : string) :
  In k (keys d) -> returns (getitem d k) (fun v => In (k, v) d).
Proof.
  intros H. destruct (getitem_in d k H) as (v & E & I). rewrite E. exact I.
Qed.

Lemma best_persistence_returns s cands :
  returns (_best_persistence_match emb s cands) (best_in cands).
Proof.
  unfold _best_persistence_match.
  apply returns_foldM with (P := fun item => In (fst item) (keys cands)).
  - apply Forall_forall. intros [k v] H. apply in_map with (f := fst) in H.
    exact H.
  - intros [[[bid bs] bh] bc] [cid cand] I H.
    eapply returns_bind; [apply semantic_unit|]. intros sem _.
    eapply returns_bind; [apply lexical_unit|]. intros head _.
    destruct (Qgtb _ bc); [exact H | exact I].
  - exact I.
Qed.

Lemma relocated_in cands b thr id :
  best_in cands b -> relocated b thr = Some id -> In id (keys cands).
Proof.
  destruct b as [[[bid bs] bh] bc]. unfold best_in, relocated. simpl.
  destruct bid as [id'|]; [|discriminate].
  destruct (_ || _); [|discriminate]. intros H E. injection E as <-. exact H.
Qed.

Lemma classify_unmatched_old_returns gen o news thr :
  returns (_classify_unmatched_old emb gen o news thr) (built gen).
Proof.
  unfold _classify_unmatched_old.
  destruct (_looks_like_noise _); [apply built_intro; grade|].
  eapply returns_bind; [apply best_persistence_returns|]. intros b Hb.
  destruct (relocated b thr) as [id|] eqn:E.
  - eapply returns_bind;
      [apply getitem_returns, (relocated_in _ _ _ Hb E)|].
    intros target _. apply built_intro; grade.
  - destruct (negb _); apply built_intro; grade.
Qed.

Lemma classify_unmatched_new_returns gen n olds thr :
  returns (_classify_unmatched_new emb gen n olds thr) (built gen).
Proof.
  unfold _classify_unmatched_new.
  destruct (_looks_like_noise _); [apply built_intro; grade|].
  eapply returns_bind; [apply best_persistence_returns|]. intros b Hb.
  destruct (relocated b thr) as [id|] eqn:E.
  - eapply returns_bind;
      [apply getitem_returns, (relocated_in _ _ _ Hb E)|].
    intros source _. apply built_intro; grade.
  - destruct (negb _); apply built_intro; grade.
Qed.

Lemma operational_impact_step_returns ch :
  returns (operational_impact_step emb ch) (kept_or_downgraded ch).
Proof.
  unfold operational_impact_step.
  destruct (negb (is_true_change ch)) eqn:T; [left; reflexivity|].
  destruct (Py.mem _ _); [left; reflexivity|].
  destruct (Py.mem _ _ && _); [left; reflexivity|].
  eapply returns_bind; [apply semantic_unit|]. intros sim _.
  destruct (Qltb sim 0.64 && _); [left; reflexivity|].
  right. split; [|eauto].
  apply negb_false_iff in T. apply String.eqb_eq in T. exact T.
Qed.

Lemma operational_impact_pass_returns changes :
  returns (_operational_impact_pass emb changes)
    (Forall2 kept_or_downgraded changes).
Proof.
  unfold _operational_impact_pass.
  apply returns_mapM with (P := fun _ => True).
  - apply Forall_forall. auto.
  - intros x _. apply operational_impact_step_returns.
Qed.

Lemma kept_or_downgraded_graded before after :
  kept_or_downgraded before after -> graded before -> graded after.
Proof.
  intros [->|(T & d & w & ->)] G; [exact G|].
  right. split; [right; right|]; reflexivity.
Qed.

Lemma kept_or_downgraded_id before after :
  kept_or_downgraded before after ->
  Change.change_id after = Change.change_id before.
Proof. intros [->|(T & d & w & ->)]; reflexivity. Qed.

Lemma merge_into_returns ch deduped :
  returns (merge_into emb ch deduped)
    (fun r => match r with
              | Some deduped' => Forall2 same_identity deduped deduped'
              | None => True
              end).
Proof.
  induction deduped as [|ex rest IH]; cbn [merge_into]; [exact I|].
  eapply returns_bind; [apply lexical_unit|]. intros ts _.
  eapply returns_bind; [apply semantic_unit|]. intros xs _.
  destruct (_ && (_ || _)).
  - cbn [returns]. constructor; [repeat split|].
    clear. induction rest; constructor; [repeat split | assumption].
  - eapply returns_bind; [apply IH|].
    intros [d'|] H; cbn [returns option_map]; [|exact I].
    constructor; [repeat split | exact H].
Qed.

Lemma same_identity_trans x y z :
  same_identity x y -> same_identity y z -> same_identity x z.
Proof.
  unfold same_identity. intros (A1 & A2 & A3 & A4) (B1 & B2 & B3 & B4).
  repeat split; congruence.
Qed.

Lemma same_identity_refl x : same_identity x x.
Proof. repeat split. Qed.

Lemma Forall2_same_identity_trans l1 :
  forall l2 l3,
    Forall2 same_identity l1 l2 -> Forall2 same_identity l2 l3 ->
    Forall2 same_identity l1 l3.
Proof.
  induction l1 as [|x l1 IH]; intros l2 l3 H12 H23.
  - inversion H12; subst. inversion H23; subst. constructor.
  - inversion H12; subst. inversion H23; subst.
    constructor; [eapply same_identity_trans; eassumption | eauto].
Qed.

Lemma Forall2_same_identity_refl l : Forall2 same_identity l l.
Proof. induction l; constructor; [apply same_identity_refl | assumption]. Qed.

Lemma dedupe_fold_returns changes :
  forall deduped,
    returns
      (foldM
         (fun deduped ch =>
            r <- merge_into emb ch deduped ;;
            match r with
            | Some deduped' => Ok deduped'
            | None => Ok (deduped ++ [ch])%list
            end)
         changes deduped)
      (fun out => exists kept,
           subseq kept changes
           /\ Forall2 same_identity (deduped ++ kept)%list out).
Proof.
  induction changes as [|ch rest IH]; intros deduped; cbn [foldM].
  - cbn [returns]. exists []. split; [constructor|].
    rewrite app_nil_r. apply Forall2_same_identity_refl.
  - eapply returns_bind; [eapply returns_bind; [apply merge_into_returns|]|].
    + intros r Hr. instantiate (1 := fun d' =>
        Forall2 same_identity deduped d' \/ d' = (deduped ++ [ch])%list).
      destruct r as [d'|]; cbn [returns]; auto.
    + intros d' [H| ->].
      * eapply returns_weaken; [apply IH|]. intros out (kept & S1 & F).
        exists kept. split; [constructor; exact S1|].
        eapply Forall2_same_identity_trans; [|exact F].
        apply Forall2_app; [exact H | apply Forall2_same_identity_refl].
      * eapply returns_weaken; [apply IH|]. intros out (kept & S1 & F).
        exists (ch :: kept). split; [constructor; exact S1|].
        rewrite <- app_assoc in F. exact F.
Qed.

Lemma dedupe_returns changes :
  returns (_dedupe_by_topic emb changes) (survivors changes).
Proof.
  unfold _dedupe_by_topic. eapply returns_weaken; [apply dedupe_fold_returns|].
  intros out (kept & S1 & F). exists kept. auto.
Qed.

Lemma same_identity_graded x y : same_identity x y -> graded x -> graded y.
Proof.
  unfold same_identity, graded. intros (_ & T & _ & S') G.
  rewrite T, S'. exact G.
Qed.

Lemma survivors_graded changes out :
  survivors changes out -> Forall graded changes -> Forall graded out.
Proof.
  intros (kept & S1 & F) G. apply (subseq_Forall S1) in G. clear S1.
  induction F as [|x y l l' H F' IH]; [constructor|].
  inversion G as [|? ? Gx Gl]; subst.
  constructor; [exact (same_identity_graded H Gx) | exact (IH Gl)].
Qed.

Lemma survivors_ids changes out :
  survivors changes out ->
  subseq (map Change.change_id out) (map Change.change_id changes).
Proof.
  intros (kept & S1 & F).
  assert (E : map Change.change_id out = map Change.change_id kept).
  { clear S1. induction F as [|x y l l' H F' IH]; [reflexivity|].
    cbn [map]. destruct H as (H & _). rewrite H, IH. reflexivity. }
  rewrite E. apply subseq_map, S1.
Qed.
End Stages.

Lemma set_of_length xs : List.length (Py.set_of xs) <= List.length xs.
Proof.
  induction xs as [|x xs IH]; simpl; [lia|].
  destruct (Py.mem x (Py.set_of xs)); simpl; lia.
Qed.

Lemma is_true_change_iff c :
  is_true_change c = true <-> Change.type c = "TRUE_CHANGE"%string.
Proof. unfold is_true_change. apply String.eqb_eq. Qed.

Section Cap.
Variable changes : list Change.t.
Variable max_true_changes : nat.

Lemma cap_pointwise : 
  Forall2 kept_or_capped changes (_cap_over_detection changes max_true_changes).
Proof.
  unfold _cap_over_detection.
  destruct (List.length (filter is_true_change changes) <=? 50).
  - clear. induction changes; constructor; [left; reflexivity | assumption].
  - set (keep := Py.set_of _). clearbody keep.
    induction changes as [|c l IH]; cbn [map]; constructor; [|exact IH].
    destruct (negb (is_true_change c)) eqn:T; [left; reflexivity|].
    destruct (Py.mem _ keep); [left; reflexivity|].
    right. apply negb_false_iff, is_true_change_iff in T.
    repeat split. exact T.
Qed.

Lemma cap_small :
  count_true changes <= 50 ->
  _cap_over_detection changes max_true_changes = changes.
Proof.
  unfold _cap_over_detection, count_true. intros H.
  apply Nat.leb_le in H. rewrite H. reflexivity.
Qed.

Lemma cap_large :
  NoDup (map Change.change_id changes) ->
  50 < count_true changes ->
  count_true (_cap_over_detection changes max_true_changes) <= max_true_changes.
Proof.
  unfold _cap_over_detection, count_true. intros N H.
  apply Nat.leb_gt in H. rewrite H.
  set (ranked := Py.sorted_by_reverse _ _ _).
  set (keep := Py.set_of _).
  assert (K : List.length keep <= max_true_changes).
  { unfold keep. etransitivity; [apply set_of_length|].
    rewrite length_map. apply firstn_le_length. }
  clearbody keep. clear ranked H.
  set (f := fun ch : Change.t => _).
  assert (E : forall l,
             map Change.change_id (filter is_true_change (map f l)) =
             filter (fun id => Py.mem id keep)
               (map Change.change_id (filter is_true_change l))).
  { induction l as [|c l IH]; [reflexivity|].
    cbn [map filter].
    destruct (is_true_change c) eqn:T.
    - destruct (Py.mem (Change.change_id c) keep) eqn:M.
      + assert (Fc : f c = c) by (unfold f; rewrite T, M; reflexivity).
        rewrite Fc, T. cbn [map filter]. rewrite M, IH. reflexivity.
      + assert (Fc : is_true_change (f c) = false)
          by (unfold f; rewrite T, M; reflexivity).
        rewrite Fc. cbn [map filter]. rewrite M. exact IH.
    - assert (Fc : f c = c) by (unfold f; rewrite T; reflexivity).
      rewrite Fc, T. exact IH. }
  rewrite <- (length_map Change.change_id), E.
  etransitivity; [|exact K].
  apply NoDup_incl_length.
  - apply NoDup_filter.
    assert (S1 : subseq (map Change.change_id (filter is_true_change changes))
                        (map Change.change_id changes)).
    { apply subseq_map. clear. induction changes as [|c l IH]; simpl;
        [constructor|]. destruct (is_true_change c); constructor; exact IH. }
    exact (subseq_NoDup S1 N).
  - intros id Hid. apply filter_In in Hid. destruct Hid as [_ M].
    apply mem_In. exact M.
Qed.
End Cap.

Section SortFacts.
Variables (A K : Type) (key : A -> K) (le : K -> K -> bool).

Lemma insert_desc_perm x l :
  Permutation (Py.insert_desc key le x l) (x :: l).
Proof.
  induction l as [|y l IH]; simpl; [reflexivity|].
  destruct (le (key y) (key x)); [reflexivity|].
  rewrite IH. apply perm_swap.
Qed.

Lemma sorted_by_reverse_perm l :
  Permutation (Py.sorted_by_reverse key le l) l.
Proof.
  induction l as [|x l IH]; simpl; [reflexivity|].
  rewrite insert_desc_perm, IH. reflexivity.
Qed.

Lemma insert_asc_perm x l :
  Permutation (Py.insert_asc key le x l) (x :: l).
Proof.
  induction l as [|y l IH]; simpl; [reflexivity|].
  destruct (le (key x) (key y)); [reflexivity|].
  rewrite IH. apply perm_swap.
Qed.

Lemma sorted_by_perm l : Permutation (Py.sorted_by key le l) l.
Proof.
  induction l as [|x l IH]; simpl; [reflexivity|].
  rewrite insert_asc_perm, IH. reflexivity.
Qed.

Hypothesis le_total : forall k1 k2, le k1 k2 = true \/ le k2 k1 = true.

Lemma insert_asc_sorted x l :
  Sorted (fun a b => le (key a) (key b) = true) l ->
  Sorted (fun a b => le (key a) (key b) = true) (Py.insert_asc key le x l).
Proof.
  induction l as [|y l IH]; intros S; simpl.
  - repeat constructor.
  - destruct (le (key x) (key y)) eqn:E.
    + constructor; [exact S | constructor; exact E].
    + inversion S as [|? ? S' H]; subst.
      constructor; [apply IH, S'|].
      destruct l as [|z l]; simpl.
      * constructor. destruct (le_total (key x) (key y)); congruence.
      * destruct (le (key x) (key z)).
        -- constructor. destruct (le_total (key x) (key y)); congruence.
        -- inversion H; subst. constructor. assumption.
Qed.

Lemma sorted_by_sorted l :
  Sorted (fun a b => le (key a) (key b) = true) (Py.sorted_by key le l).
Proof.
  induction l as [|x l IH]; simpl; [constructor | apply insert_asc_sorted, IH].
Qed.
End SortFacts.

Lemma mem_false x xs : Py.mem x xs = false -> ~ In x xs.
Proof.
  intros H I. apply mem_In in I. congruence.
Qed.

Lemma greedy_ok old_ids new_ids thr eff pairs :
  Forall (pair_in old_ids new_ids) pairs ->
  forall m, matching_ok old_ids new_ids m ->
            matching_ok old_ids new_ids (greedy thr eff pairs m).
Proof.
  induction 1 as [|[[score oid] nid] rest [Ho Hn] _ IH]; intros m M;
    cbn [greedy]; [exact M|].
  destruct (Qltb score thr); [exact M|].
  destruct (Py.mem oid (matched_old m) || Py.mem nid (matched_new m)) eqn:E;
    [apply IH, M|].
  apply orb_false_iff in E. destruct E as [E1 E2].
  apply mem_false in E1, E2.
  destruct M as (N1 & N2 & M1 & M2 & I1 & I2).
  apply IH. unfold matching_ok. cbn [matched_old matched_new matches].
  repeat split.
  - constructor; assumption.
  - constructor; assumption.
  - rewrite map_app, M1. reflexivity.
  - rewrite map_app, M2. reflexivity.
  - intros x [<-|Hx]; [exact Ho | apply I1, Hx].
  - intros x [<-|Hx]; [exact Hn | apply I2, Hx].
Qed.

Lemma matching_ok_empty old_ids new_ids :
  matching_ok old_ids new_ids (mk_matching [] [] []).
Proof.
  unfold matching_ok. cbn. repeat split; try constructor; intros x [].
Qed.

Lemma unmatched_In ids matched id :
  In id (unmatched ids matched) <-> In id ids /\ ~ In id matched.
Proof.
  unfold unmatched. rewrite filter_In. split; intros [H1 H2]; split; auto.
  - apply negb_true_iff in H2. apply mem_false, H2.
  - apply negb_true_iff. destruct (Py.mem id matched) eqn:E; [|reflexivity].
    apply mem_In in E. contradiction.
Qed.

Lemma returns_eq {A : Type} (c : result A) (P : A -> Prop) :
  returns c P -> returns c (fun a => c = Ok a /\ P a).
Proof. destruct c; simpl; auto. Qed.

Section Matching.
Variable emb : option (string -> string -> option Q).

Lemma score_pairs_returns old_sections new_sections :
  returns (score_pairs emb old_sections new_sections)
    (Forall2 (scored_from emb old_sections new_sections)
       (list_prod (keys old_sections) (keys new_sections))).
Proof.
  unfold score_pairs.
  apply returns_mapM with
    (P := fun p => In (fst p) (keys old_sections)
                   /\ In (snd p) (keys new_sections)).
  - apply Forall_forall. intros [oid nid] H. apply in_prod_iff in H. exact H.
  - intros [oid nid] [Ho Hn]. cbn [fst snd] in *.
    destruct (getitem_in _ _ Ho) as (o & Eo & _).
    destruct (getitem_in _ _ Hn) as (n & En & _).
    rewrite Eo, En. cbn [bind].
    destruct (returns_ok _ _ (returns_eq _ _ (pair_score_unit emb o n)))
      as (q & Eq & _ & U).
    rewrite Eq. cbn [bind returns]. unfold scored_from. cbn [fst snd].
    repeat split. exists o, n. auto.
Qed.

Lemma heading_pairs_returns old_sections new_sections m :
  returns (heading_pairs old_sections new_sections m)
    (Forall2 (heading_from old_sections new_sections)
       (list_prod (unmatched (keys old_sections) (matched_old m))
                  (unmatched (keys new_sections) (matched_new m)))).
Proof.
  unfold heading_pairs.
  apply returns_mapM with
    (P := fun p => In (fst p) (keys old_sections)
                   /\ In (snd p) (keys new_sections)).
  - apply Forall_forall. intros [oid nid] H. apply in_prod_iff in H.
    destruct H as [H1 H2]. apply unmatched_In in H1, H2. tauto.
  - intros [oid nid] [Ho Hn]. cbn [fst snd] in *.
    destruct (getitem_in _ _ Ho) as (o & Eo & _).
    destruct (getitem_in _ _ Hn) as (n & En & _).
    rewrite Eo, En. cbn [bind].
    destruct (returns_ok _ _ (returns_eq _ _
                (lexical_unit (heading_of o) (heading_of n))))
      as (q & Eq & _ & U).
    rewrite Eq. cbn [bind returns]. unfold heading_from. cbn [fst snd].
    repeat split. exists o, n. auto.
Qed.

Lemma scored_pairs_in old_ids new_ids (R : string * string -> scored -> Prop)
  ps xs :
  (forall p x, R p x -> snd (fst x) = fst p /\ snd x = snd p) ->
  Forall (fun p => In (fst p) old_ids /\ In (snd p) new_ids) ps ->
  Forall2 R ps xs ->
  Forall (pair_in old_ids new_ids) (sort_pairs xs).
Proof.
  intros HR HP F.
  assert (H : Forall (pair_in old_ids new_ids) xs).
  { induction F as [|p x ps xs Hpx F IH]; [constructor|].
    inversion HP; subst. constructor; [|auto].
    destruct (HR _ _ Hpx) as [E1 E2]. unfold pair_in. rewrite E1, E2.
    assumption. }
  rewrite Forall_forall in *. intros x Hx. apply H.
  eapply Permutation_in; [apply sorted_by_reverse_perm | exact Hx].
Qed.

Lemma match_sections_returns cfg old_sections new_sections :
  returns (match_sections emb cfg old_sections new_sections)
    (matching_ok (keys old_sections) (keys new_sections)).
Proof.
  unfold match_sections.
  eapply returns_bind; [apply score_pairs_returns|]. intros sp Hsp.
  eapply returns_bind; [apply heading_pairs_returns|]. intros hp Hhp.
  cbn [returns].
  apply greedy_ok.
  - eapply scored_pairs_in; [| |exact Hhp].
    + intros p x (E1 & E2 & _). auto.
    + apply Forall_forall. intros [oid nid] H. apply in_prod_iff in H.
      destruct H as [H1 H2]. apply unmatched_In in H1, H2. tauto.
  - apply greedy_ok; [|apply matching_ok_empty].
    eapply scored_pairs_in; [| |exact Hsp].
    + intros p x (E1 & E2 & _). auto.
    + apply Forall_forall. intros [oid nid] H. apply in_prod_iff in H.
      exact H.
Qed.
End Matching.

Lemma classified_append gen cs g c g' :
  classified gen (cs, g) -> built g (c, g') ->
  classified gen ((cs ++ [c])%list, g').
Proof.
  unfold classified, built. cbn [fst snd].
  intros (G & I & E) (E' & I' & G'). subst g g'.
  repeat split.
  - apply Forall_app. split; [exact G | constructor; [exact G' | constructor]].
  - rewrite length_app. cbn [List.length].
    rewrite Nat.add_1_r, seq_S, !map_app, I. cbn [map]. rewrite I'.
    reflexivity.
  - rewrite length_app. cbn [List.length]. lia.
Qed.

Section Pipeline.
Variable emb : option (string -> string -> option Q).

Lemma classify_matches_returns old_sections new_sections ms gen st :
  Forall (fun mt => In (old_of mt) (keys old_sections)
                    /\ In (new_of mt) (keys new_sections)) ms ->
  classified gen st ->
  returns (classify_matches emb old_sections new_sections ms st)
    (classified gen).
Proof.
  intros F C. unfold classify_matches.
  eapply returns_foldM; [exact F| |exact C].
  intros [cs g] [[oid nid] score] Hc [Ho Hn]. cbn [old_of new_of fst snd] in *.
  eapply returns_bind; [apply getitem_returns, Ho|]. intros o _.
  eapply returns_bind; [apply getitem_returns, Hn|]. intros n _.
  eapply returns_bind; [apply classify_matched_returns|].
  intros [[c|] g'] B; unfold maybe_built in B; cbn [fst snd] in B;
    cbn [returns].
  - eapply classified_append; eassumption.
  - subst g'. exact Hc.
Qed.

Lemma classify_unmatched_returns
  (classify : nat -> Sec.t -> sections -> Q -> result (Change.t * nat))
  cfg own other ids gen st :
  (forall g s, returns (classify g s other (relocation_threshold cfg)) (built g)) ->
  Forall (fun id => In id (keys own)) ids ->
  classified gen st ->
  returns (classify_unmatched classify cfg own other ids st) (classified gen).
Proof.
  intros Hc F C. unfold classify_unmatched.
  eapply returns_foldM; [exact F| |exact C].
  intros [cs g] id Hst Hid.
  eapply returns_bind; [apply getitem_returns, Hid|]. intros s _.
  eapply returns_bind; [apply Hc|]. intros [c g'] B. cbn [returns fst snd].
  eapply classified_append; eassumption.
Qed.

Lemma classified_start gen : classified gen ([], gen).
Proof.
  unfold classified. cbn. repeat split; [constructor | lia].
Qed.

Lemma classify_all_returns cfg old_sections new_sections m gen :
  matching_ok (keys old_sections) (keys new_sections) m ->
  returns (classify_all emb cfg old_sections new_sections m gen)
    (classified gen).
Proof.
  intros (N1 & N2 & M1 & M2 & I1 & I2). unfold classify_all.
  eapply returns_bind.
  { apply classify_matches_returns; [|apply classified_start].
    apply Forall_forall. intros mt Hmt. split.
    - apply I1, in_rev. rewrite <- M1. apply in_map, Hmt.
    - apply I2, in_rev. rewrite <- M2. apply in_map, Hmt. }
  intros st1 C1.
  eapply returns_bind.
  { apply classify_unmatched_returns; [| |exact C1].
    - intros g s. apply classify_unmatched_old_returns.
    - apply Forall_forall. intros id H. apply unmatched_In in H. tauto. }
  intros st2 C2.
  apply classify_unmatched_returns; [| |exact C2].
  - intros g s. apply classify_unmatched_new_returns.
  - apply Forall_forall. intros id H. apply unmatched_In in H. tauto.
Qed.

Lemma validate_returns changes strict include :
  returns (_validate_changes emb changes strict include)
    (validated changes strict include).
Proof.
  unfold _validate_changes.
  eapply returns_bind; [apply operational_impact_pass_returns|].
  intros v1 H1.
  eapply returns_bind; [apply dedupe_returns|]. intros v2 H2.
  cbn [returns]. exists v1, v2. auto.
Qed.

Lemma compare_sections_returns cfg old_sections new_sections gen :
  returns (compare_sections emb cfg old_sections new_sections gen)
    (anatomy emb cfg old_sections new_sections gen).
Proof.
  unfold compare_sections.
  destruct (returns_ok _ _ (returns_eq _ _
              (match_sections_returns emb cfg (stamp old_sections)
                 (stamp new_sections)))) as (m & Em & _ & Hm).
  rewrite Em. cbn [bind].
  destruct (returns_ok _ _ (returns_eq _ _
              (@classify_all_returns cfg _ _ m gen Hm))) as (st & Es & _ & Hs).
  rewrite Es. cbn [bind].
  eapply returns_bind; [apply validate_returns|]. intros changes Hv.
  cbn [returns]. exists m, st, changes. auto 10.
Qed.
End Pipeline.

Lemma key_le_total k1 k2 : key_le k1 k2 = true \/ key_le k2 k1 = true.
Proof.
  unfold key_le. destruct k1 as [r1 s1], k2 as [r2 s2]. cbn [fst snd].
  destruct (Nat.lt_trichotomy r1 r2) as [H|[H|H]].
  - left. apply Nat.ltb_lt in H. rewrite H. reflexivity.
  - subst r2. rewrite Nat.ltb_irrefl, Nat.eqb_refl. cbn [orb andb].
    apply String.leb_total.
  - right. apply Nat.ltb_lt in H. rewrite H. reflexivity.
Qed.

Lemma filter_visible_shown cfg l :
  Forall (shown cfg)
    (filter (visible (strict_mode cfg) (include_non_true cfg)) l).
Proof.
  apply Forall_forall. intros c H. apply filter_In in H. destruct H as [_ V].
  unfold visible in V. unfold shown.
  destruct (String.eqb_spec (Change.type c) "NOISE"%string) as [E|N];
    [discriminate|].
  split; [exact N|].
  destruct (strict_mode cfg); [|auto].
  destruct (include_non_true cfg); [auto|].
  cbn [andb negb] in V.
  destruct (String.eqb_spec (Change.type c) "TRUE_CHANGE"%string) as [E|N'];
    [auto | discriminate].
Qed.

(** C9: the list returned by [compare_sections] is sorted by the key
    (severity rank, change id): each record and the next are in order, the
    order being lexicographic on the key, with CRITICAL ranked 0, MODERATE 1,
    MINOR 2 and any other severity 3. *)
Theorem output_sorted_by_severity_then_id
  (emb : option (string -> string -> option Q)) (cfg : config)
  (old_sections new_sections : sections) (gen : nat) :
  returns (compare_sections emb cfg old_sections new_sections gen)
    (fun o => Sorted in_order (returned o))
  /\ severity_rank "CRITICAL" = 0
  /\ severity_rank "MODERATE" = 1
  /\ severity_rank "MINOR" = 2
  /\ (forall s : string,
        s <> "CRITICAL"%string -> s <> "MODERATE"%string ->
        s <> "MINOR"%string -> severity_rank s = 3)
  /\ (forall c1 c2,
        in_order c1 c2 <->
        severity_rank (Change.severity c1) < severity_rank (Change.severity c2)
        \/ (severity_rank (Change.severity c1)
            = severity_rank (Change.severity c2)
            /\ String.leb (Change.change_id c1) (Change.change_id c2) = true)).
Proof.
  split; [|split; [reflexivity|split; [reflexivity|split; [reflexivity|split]]]].
  - eapply returns_weaken; [apply compare_sections_returns|].
    intros o (m & st & changes & _ & _ & _ & _ & _ & ->).
    cbn [returned]. apply sorted_by_sorted. apply key_le_total.
  - intros s H1 H2 H3. unfold severity_rank.
    destruct (String.eqb_spec s "CRITICAL"%string); [contradiction|].
    destruct (String.eqb_spec s "MODERATE"%string); [contradiction|].
    destruct (String.eqb_spec s "MINOR"%string); [contradiction|].
    reflexivity.
  - intros c1 c2. unfold in_order, key_le, sort_key. cbn [fst snd].
    rewrite orb_true_iff, andb_true_iff, Nat.ltb_lt, Nat.eqb_eq. tauto.
Qed.

(** C7: the list returned by [compare_sections] holds no NOISE record, and a
    record that is not a TRUE_CHANGE is there only when [strict_mode] is off
    or [include_non_true] is on; an unmatched section whose text is noise is
    classified NOISE, and for the section "PAGE 4" with no counterpart that
    record is made (it takes an identifier) and the call returns nothing. *)
Theorem noise_is_dropped
  (emb : option (string -> string -> option Q)) (cfg : config)
  (old_sections new_sections : sections) (gen : nat) :
  returns (compare_sections emb cfg old_sections new_sections gen)
    (fun o => Forall (shown cfg) (returned o))
  /\ (forall sec others thr,
        _looks_like_noise (_comparison_text sec) = true ->
        (exists c, _classify_unmatched_old emb gen sec others thr = Ok (c, S gen)
                   /\ Change.type c = "NOISE"%string)
        /\ (exists c, _classify_unmatched_new emb gen sec others thr
                      = Ok (c, S gen)
                      /\ Change.type c = "NOISE"%string))
  /\ _looks_like_noise
       (_comparison_text (Sec.set_section (plain "PAGE 4" "") "1")) = true
  /\ compare_sections emb cfg page_old [] gen
     = Ok (mk_outcome [] (S gen) (stamp page_old) []).
Proof.
  split; [|split; [|split]].
  - eapply returns_weaken; [apply compare_sections_returns|].
    intros o (m & st & changes & _ & _ & _ & _ & (v1 & v2 & _ & _ & ->) & ->).
    cbn [returned]. rewrite Forall_forall. intros c Hc.
    apply (Permutation_in _ (sorted_by_perm sort_key key_le _)) in Hc.
    revert c Hc. rewrite <- Forall_forall. apply filter_visible_shown.
  - intros sec others thr N. split.
    + unfold _classify_unmatched_old. rewrite N.
      destruct (build_change_made gen (Some sec) None "NOISE" "MINOR"
                  "Non-regulatory text" "Removed noisy/non-regulatory segment."
                  "Text resembles metadata/header/footer/OCR noise." 0%Q)
        as (c & E & _ & T & _).
      exists c. rewrite E. auto.
    + unfold _classify_unmatched_new. rewrite N.
      destruct (build_change_made gen None (Some sec) "NOISE" "MINOR"
                  "Non-regulatory text" "Added noisy/non-regulatory segment."
                  "Text resembles metadata/header/footer/OCR noise." 0%Q)
        as (c & E & _ & T & _).
      exists c. rewrite E. auto.
  - vm_compute. reflexivity.
  - destruct cfg as [mt ht rt sm inc]. vm_compute. reflexivity.
Qed.

Lemma impact_graded l l' :
  Forall2 kept_or_downgraded l l' -> Forall graded l -> Forall graded l'.
Proof.
  induction 1 as [|x y l l' H F IH]; intros G; [constructor|].
  inversion G as [|? ? Gx Gl]; subst.
  constructor; [exact (kept_or_downgraded_graded H Gx) | exact (IH Gl)].
Qed.

Lemma kept_or_capped_graded before after :
  kept_or_capped before after -> graded before -> graded after.
Proof.
  intros [->|(_ & _ & T & _ & S')] G; [exact G|].
  right. split; [right; right; exact T | exact S'].
Qed.

Lemma cap_graded l n : Forall graded l -> Forall graded (_cap_over_detection l n).
Proof.
  intros G. pose proof (cap_pointwise l n) as F.
  induction F as [|x y l0 l' H F IH]; [constructor|].
  inversion G as [|? ? Gx Gl]; subst.
  constructor; [exact (kept_or_capped_graded H Gx) | exact (IH Gl)].
Qed.

(** The lists of [stages] are those a call of [compare_sections] goes
    through: the call returns exactly when [stages] does, and what it
    returns is the last of the four lists, filtered and sorted. *)
Lemma compare_sections_stages emb cfg old_sections new_sections gen :
  match compare_sections emb cfg old_sections new_sections gen,
        stages emb cfg old_sections new_sections gen with
  | Ok o, Ok (_, _, _, capped) =>
      returned o
      = Py.sorted_by sort_key key_le
          (filter (visible (strict_mode cfg) (include_non_true cfg)) capped)
  | Raise e, Raise e' => e = e'
  | _, _ => False
  end.
Proof.
  unfold compare_sections, stages, _validate_changes.
  destruct (match_sections emb cfg (stamp old_sections) (stamp new_sections))
    as [m|e]; cbn [bind]; [|reflexivity].
  destruct (classify_all emb cfg (stamp old_sections) (stamp new_sections)
              m gen) as [st|e]; cbn [bind]; [|reflexivity].
  destruct (_operational_impact_pass emb (fst st)) as [v1|e]; cbn [bind];
    [|reflexivity].
  destruct (_dedupe_by_topic emb v1) as [v2|e]; cbn [bind]; reflexivity.
Qed.

(** C10: a record is graded when its type is TRUE_CHANGE and its severity
    CRITICAL or MODERATE, or its type is NOISE, STRUCTURAL_CHANGE or
    SEMANTIC_MINOR and its severity MINOR.  Each classifier returns a graded
    record, each validator pass keeps records graded, and so the records of a
    call of [compare_sections] are graded at every stage. *)
Theorem severity_follows_type
  (emb : option (string -> string -> option Q)) (cfg : config)
  (old_sections new_sections : sections) (gen : nat) :
  returns (stages emb cfg old_sections new_sections gen) all_graded
  /\ (forall o n score thr,
        returns (_classify_matched_change emb gen o n score thr)
          (fun r => match fst r with Some c => graded c | None => True end))
  /\ (forall sec others thr,
        returns (_classify_unmatched_old emb gen sec others thr)
          (fun r => graded (fst r)))
  /\ (forall sec others thr,
        returns (_classify_unmatched_new emb gen sec others thr)
          (fun r => graded (fst r)))
  /\ (forall l, Forall graded l ->
                returns (_operational_impact_pass emb l) (Forall graded))
  /\ (forall l, Forall graded l ->
                returns (_dedupe_by_topic emb l) (Forall graded))
  /\ (forall l n, Forall graded l -> Forall graded (_cap_over_detection l n)).
Proof.
  repeat split.
  - unfold stages.
    eapply returns_bind; [apply match_sections_returns|]. intros m Hm.
    eapply returns_bind; [apply classify_all_returns, Hm|].
    intros st (G & _ & _).
    eapply returns_bind; [apply operational_impact_pass_returns|].
    intros v1 H1.
    eapply returns_bind; [apply dedupe_returns|]. intros v2 H2.
    cbn [returns]. unfold all_graded.
    pose proof (impact_graded H1 G) as G1.
    pose proof (survivors_graded H2 G1) as G2.
    repeat split; try assumption. apply cap_graded, G2.
  - intros o n score thr.
    eapply returns_weaken; [apply classify_matched_returns|].
    intros [[c|] g] B; [|exact I]. exact (proj2 (proj2 B)).
  - intros sec others thr.
    eapply returns_weaken; [apply classify_unmatched_old_returns|].
    intros r B. exact (proj2 (proj2 B)).
  - intros sec others thr.
    eapply returns_weaken; [apply classify_unmatched_new_returns|].
    intros r B. exact (proj2 (proj2 B)).
  - intros l G.
    eapply returns_weaken; [apply operational_impact_pass_returns|].
    intros v H. exact (impact_graded H G).
  - intros l G. eapply returns_weaken; [apply dedupe_returns|].
    intros v H. exact (survivors_graded H G).
  - intros l n G. apply cap_graded, G.
Qed.

Lemma matching_ok_one_to_one old_sections new_sections m :
  matching_ok (keys old_sections) (keys new_sections) m ->
  one_to_one old_sections new_sections m.
Proof.
  intros (N1 & N2 & M1 & M2 & I1 & I2). unfold one_to_one.
  rewrite M1, M2.
  assert (R : forall (l : list string) id, In id l <-> In id (rev l))
    by (intros; apply in_rev).
  repeat split.
  - apply NoDup_rev, N1.
  - apply NoDup_rev, N2.
  - apply R.
  - apply R.
  - apply R.
  - apply R.
  - apply unmatched_In in H. tauto.
  - apply unmatched_In in H. rewrite <- R. tauto.
  - intros [H1 H2]. apply unmatched_In. rewrite <- R in H2. tauto.
  - apply unmatched_In in H. tauto.
  - apply unmatched_In in H. rewrite <- R. tauto.
  - intros [H1 H2]. apply unmatched_In. rewrite <- R in H2. tauto.
  - apply I1, in_rev. rewrite <- M1. apply in_map, H.
  - apply I2, in_rev. rewrite <- M2. apply in_map, H.
Qed.

(** C5: after the two greedy passes of the matching stage, no old identifier
    and no new identifier is in two matched pairs, the sets [matched_old] and
    [matched_new] are the identifiers of the pairs, and the identifiers then
    processed as unmatched are the keys that are in no pair.  Either greedy
    loop keeps this from any state that has it. *)
Theorem matching_is_one_to_one
  (emb : option (string -> string -> option Q)) (cfg : config)
  (old_sections new_sections : sections) :
  returns (match_sections emb cfg old_sections new_sections)
    (one_to_one old_sections new_sections)
  /\ (forall threshold effective pairs m,
        Forall (pair_in (keys old_sections) (keys new_sections)) pairs ->
        matching_ok (keys old_sections) (keys new_sections) m ->
        one_to_one old_sections new_sections
          (greedy threshold effective pairs m)).
Proof.
  split.
  - eapply returns_weaken; [apply match_sections_returns|].
    intros m. apply matching_ok_one_to_one.
  - intros threshold effective pairs m F M.
    apply matching_ok_one_to_one, greedy_ok; assumption.
Qed.

Lemma distinct_NoDup l : distinct l = true -> NoDup l.
Proof.
  induction l as [|x l IH]; simpl; intros H; [constructor|].
  apply andb_prop in H. destruct H as [H1 H2].
  constructor; [|apply IH, H2].
  apply negb_true_iff in H1. apply mem_false, H1.
Qed.

Lemma uint_of_zeros k u :
  option_map Nat.of_uint
    (NilEmpty.uint_of_string
       (Py.str (repeat "0"%char k) ++ NilEmpty.string_of_uint u))
  = Some (Nat.of_uint u).
Proof.
  induction k as [|k IH].
  - cbn [repeat Py.str string_of_list_ascii String.append].
    rewrite NilEmpty.usu. reflexivity.
  - cbn [repeat Py.str string_of_list_ascii String.append
           NilEmpty.uint_of_string].
    change (string_of_list_ascii (repeat "0"%char k))
      with (Py.str (repeat "0"%char k)).
    destruct (NilEmpty.uint_of_string
                (Py.str (repeat "0"%char k) ++ NilEmpty.string_of_uint u))
      as [d|]; [|discriminate].
    cbn [option_map] in *. injection IH as IH.
    cbn. f_equal. exact IH.
Qed.

Lemma parse_format n : parse_change_id (format_change_id n) = Some n.
Proof.
  unfold format_change_id, zfill4.
  cbn [String.append parse_change_id]. rewrite Ascii.eqb_refl.
  rewrite uint_of_zeros, Unsigned.of_to. reflexivity.
Qed.

Lemma format_change_id_inj n m :
  format_change_id n = format_change_id m -> n = m.
Proof.
  intros H. apply (f_equal parse_change_id) in H.
  rewrite !parse_format in H. congruence.
Qed.

Lemma impact_ids l l' :
  Forall2 kept_or_downgraded l l' ->
  map Change.change_id l' = map Change.change_id l.
Proof.
  induction 1 as [|x y l l' H F IH]; [reflexivity|].
  cbn [map]. rewrite (kept_or_downgraded_id H), IH. reflexivity.
Qed.

(** The records that reach the volume cap have distinct identifiers. *)
Lemma ids_distinct_before_cap emb cfg old_sections new_sections gen :
  returns (stages emb cfg old_sections new_sections gen)
    (fun s => NoDup (map Change.change_id (snd (fst s)))).
Proof.
  unfold stages.
  eapply returns_bind; [apply match_sections_returns|]. intros m Hm.
  eapply returns_bind; [apply classify_all_returns, Hm|].
  intros st (_ & I & _).
  eapply returns_bind; [apply operational_impact_pass_returns|].
  intros v1 H1.
  eapply returns_bind; [apply dedupe_returns|]. intros v2 H2.
  cbn [returns fst snd].
  apply (subseq_NoDup (survivors_ids H2)).
  rewrite (impact_ids H1), I.
  apply Injective_map_NoDup; [|apply seq_NoDup].
  intros x y. apply format_change_id_inj.
Qed.

(** C4: on a list whose records have distinct identifiers (as those of
    [compare_sections] have), the volume cap leaves each record as it is or
    turns a TRUE_CHANGE into SEMANTIC_MINOR / "Clarification without rule
    change" / MINOR; with more than 50 TRUE_CHANGE records going in, at most
    35 come out; with 50 or fewer, the list is returned as it is. *)
Theorem volume_cap (changes : list Change.t) :
  NoDup (map Change.change_id changes) ->
  Forall2 kept_or_capped changes (_cap_over_detection changes 35)
  /\ (50 < count_true changes ->
      count_true (_cap_over_detection changes 35) <= 35)
  /\ (count_true changes <= 50 -> _cap_over_detection changes 35 = changes).
Proof.
  intros N. split; [apply cap_pointwise|]. split.
  - apply cap_large, N.
  - apply cap_small.
Qed.

Lemma volume_cap_witness :
  50 < count_true fifty_one
  /\ Forall2 kept_or_capped fifty_one (_cap_over_detection fifty_one 35)
  /\ (50 < count_true fifty_one ->
      count_true (_cap_over_detection fifty_one 35) <= 35)
  /\ (count_true fifty_one <= 50 -> _cap_over_detection fifty_one 35 = fifty_one).
Proof.
  split.
  - vm_compute. repeat constructor.
  - apply (volume_cap fifty_one). apply distinct_NoDup.
    vm_compute. reflexivity.
Defined.

(** C1: for the two one-section mappings of the flight duty period limit,
    13 hours against 11 hours, [compare_sections] with the default
    configuration returns one record: a TRUE_CHANGE, "Numeric limit changed",
    CRITICAL, with numeric delta removed 13 and added 11. *)
Theorem flight_duty_limit_scenario (gen : nat) :
  compare_sections offline default_config fdp_old fdp_new gen
  = Ok (mk_outcome [fdp_change gen] (S gen) (stamp fdp_old) (stamp fdp_new))
  /\ Change.type (fdp_change gen) = "TRUE_CHANGE"%string
  /\ Change.subtype (fdp_change gen) = "Numeric limit changed"%string
  /\ Change.severity (fdp_change gen) = "CRITICAL"%string
  /\ removed (Change.numeric_delta (fdp_change gen)) = ["13"%string]
  /\ added (Change.numeric_delta (fdp_change gen)) = ["11"%string].
Proof.
  split; [vm_compute; reflexivity | repeat split].
Qed.

Lemma stamp_idempotent d : stamp (stamp d) = stamp d.
Proof.
  unfold stamp. rewrite map_map. apply map_ext. intros [k v]. reflexivity.
Qed.

Lemma compare_sections_stamped emb cfg old_sections new_sections gen :
  compare_sections emb cfg (stamp old_sections) (stamp new_sections) gen
  = compare_sections emb cfg old_sections new_sections gen.
Proof.
  unfold compare_sections. rewrite !stamp_idempotent. reflexivity.
Qed.

(** C3: with the embedding backend off, a second call of [compare_sections]
    on the same two mappings, as the first call left them, with the same
    configuration and the generator of change identifiers reset, returns
    what the first call returned, identifiers included; the generator is what
    a call leaves changed: the scenario run at 1 is numbered C0001, run again
    from where that call left the generator it is numbered C0002. *)
Theorem two_runs_agree (cfg : config) (old_sections new_sections : sections)
  (gen : nat) :
  returns (compare_sections offline cfg old_sections new_sections gen)
    (fun first =>
       compare_sections offline cfg (old_after first) (new_after first) gen
       = Ok first
       /\ compare_sections offline cfg old_sections new_sections gen = Ok first)
  /\ returns (compare_sections offline default_config fdp_old fdp_new 1)
       (fun first =>
          map Change.change_id (returned first) = ["C0001"%string]
          /\ returns (compare_sections offline default_config
                        (old_after first) (new_after first) (gen_after first))
               (fun second =>
                  map Change.change_id (returned second) = ["C0002"%string])).
Proof.
  split.
  - destruct (returns_ok _ _ (returns_eq _ _
                (compare_sections_returns offline cfg old_sections new_sections
                   gen))) as (o & E & _ & A).
    rewrite E. cbn [returns]. split; [|reflexivity].
    destruct A as (m & st & changes & _ & _ & _ & _ & _ & ->).
    cbn [old_after new_after]. rewrite compare_sections_stamped. exact E.
  - vm_compute. split; reflexivity.
Qed.

Lemma list_prod_nil_r {A B : Type} (l : list A) : list_prod l (@nil B) = [].
Proof. induction l; simpl; auto. Qed.

Lemma unmatched_nil ids : unmatched ids [] = ids.
Proof.
  unfold unmatched. induction ids as [|x l IH]; [reflexivity|].
  cbn [filter Py.mem existsb negb]. f_equal. exact IH.
Qed.

Lemma keys_stamp d : keys (stamp d) = keys d.
Proof.
  unfold keys, stamp. rewrite map_map. apply map_ext. intros [k v]. reflexivity.
Qed.

Lemma match_sections_no_new emb cfg old_sections :
  match_sections emb cfg old_sections [] = Ok (mk_matching [] [] []).
Proof.
  unfold match_sections, score_pairs, heading_pairs.
  cbn [keys map]. rewrite list_prod_nil_r. cbn [mapM bind sort_pairs
    Py.sorted_by_reverse greedy matched_old matched_new].
  cbn [unmatched filter]. rewrite list_prod_nil_r. reflexivity.
Qed.

Lemma match_sections_no_old emb cfg new_sections :
  match_sections emb cfg [] new_sections = Ok (mk_matching [] [] []).
Proof. reflexivity. Qed.

Lemma classify_unmatched_in_turn
  (classify : nat -> Sec.t -> sections -> Q -> result (Change.t * nat))
  cfg own other :
  (forall g s, returns (classify g s other (relocation_threshold cfg)) (built g)) ->
  forall ids, Forall (fun id => In id (keys own)) ids ->
  forall cs g0,
    returns (classify_unmatched classify cfg own other ids (cs, g0))
      (fun st => exists cs',
           st = ((cs ++ cs')%list, g0 + List.length ids)
           /\ classified_in_turn classify own other (relocation_threshold cfg)
                g0 ids cs').
Proof.
  intros Hc ids F. unfold classify_unmatched.
  induction F as [|id ids Hid _ IH]; intros cs g0; cbn [foldM].
  - cbn [returns]. exists []. rewrite app_nil_r, Nat.add_0_r.
    split; [reflexivity | exact I].
  - destruct (getitem_in _ _ Hid) as (s & Es & _). rewrite Es. cbn [bind].
    destruct (returns_ok _ _ (returns_eq _ _ (Hc g0 s)))
      as ([c g'] & Ec & _ & B).
    rewrite Ec. cbn [bind fst snd].
    destruct B as (B & _). cbn [snd] in B. subst g'.
    eapply returns_weaken; [apply IH|].
    intros st (cs' & E & Each). exists (c :: cs'). split.
    + rewrite E, <- app_assoc. cbn [List.length app]. f_equal. lia.
    + cbn [classified_in_turn]. split; [|exact Each].
      exists s. split; [exact Es | exact Ec].
Qed.

Lemma length_stamp d : List.length (stamp d) = List.length d.
Proof. unfold stamp. apply length_map. Qed.

Lemma length_keys d : List.length (keys d) = List.length d.
Proof. unfold keys. apply length_map. Qed.

Lemma compare_sections_no_new emb cfg old_sections gen :
  returns (compare_sections emb cfg old_sections [] gen)
    (processed_as_unmatched emb cfg (_classify_unmatched_old emb)
       (stamp old_sections) gen).
Proof.
  unfold compare_sections. change (stamp []) with (@nil (string * Sec.t)).
  rewrite match_sections_no_new. cbn [bind]. unfold classify_all.
  cbn [matches matched_old matched_new classify_matches foldM bind keys map
       unmatched filter].
  change (map fst (stamp old_sections)) with (keys (stamp old_sections)).
  fold (unmatched (keys (stamp old_sections)) []).
  rewrite unmatched_nil.
  destruct (returns_ok _ _ (returns_eq _ _
              (@classify_unmatched_in_turn (_classify_unmatched_old emb) cfg
                 (stamp old_sections) []
                 (fun g s => classify_unmatched_old_returns emb g s [] _)
                 (keys (stamp old_sections))
                 (proj2 (Forall_forall _ _) (fun x H => H)) [] gen)))
    as (st & Est & _ & cs & -> & Turn).
  rewrite Est. cbn [bind classify_unmatched foldM fst snd app].
  destruct (returns_ok _ _ (returns_eq _ _
              (validate_returns emb cs (strict_mode cfg)
                 (include_non_true cfg)))) as (v & Ev & _ & _).
  rewrite Ev. cbn [bind returns].
  exists cs, v. cbn [returned gen_after].
  rewrite length_keys. auto.
Qed.

Lemma compare_sections_no_old emb cfg new_sections gen :
  returns (compare_sections emb cfg [] new_sections gen)
    (processed_as_unmatched emb cfg (_classify_unmatched_new emb)
       (stamp new_sections) gen).
Proof.
  unfold compare_sections. change (stamp []) with (@nil (string * Sec.t)).
  rewrite match_sections_no_old. cbn [bind]. unfold classify_all.
  cbn [matches matched_old matched_new classify_matches foldM bind keys map
       unmatched filter].
  unfold classify_unmatched at 1. cbn [foldM bind].
  change (map fst (stamp new_sections)) with (keys (stamp new_sections)).
  fold (unmatched (keys (stamp new_sections)) []).
  rewrite unmatched_nil.
  destruct (returns_ok _ _ (returns_eq _ _
              (@classify_unmatched_in_turn (_classify_unmatched_new emb) cfg
                 (stamp new_sections) []
                 (fun g s => classify_unmatched_new_returns emb g s [] _)
                 (keys (stamp new_sections))
                 (proj2 (Forall_forall _ _) (fun x H => H)) [] gen)))
    as (st & Est & _ & cs & -> & Turn).
  rewrite Est. cbn [bind fst snd app].
  destruct (returns_ok _ _ (returns_eq _ _
              (validate_returns emb cs (strict_mode cfg)
                 (include_non_true cfg)))) as (v & Ev & _ & _).
  rewrite Ev. cbn [bind returns].
  exists cs, v. cbn [returned gen_after].
  rewrite length_keys. auto.
Qed.

Lemma blank_iff field : blank field <-> text_of field = ""%string.
Proof.
  unfold blank, text_of. destruct field as [[|s]|]; cbn; split; intros H;
    auto; try (destruct H as [H|[H|H]]; try discriminate; congruence).
  subst s. auto.
Qed.

(** C8: [compare_sections] returns, without raising, whatever the two
    mappings and their records hold; two empty mappings give the empty list;
    when one mapping is empty nothing is matched and every section of the
    other is processed as unmatched: the call returns the validated and
    sorted list of the records that [_classify_unmatched_old], or
    [_classify_unmatched_new], makes of these sections, one for each in the
    order of the keys, and draws one identifier for each; and in a section
    record a heading, body or meaning that is absent, [None] or empty is
    read as the empty string. *)
Theorem compare_sections_total
  (emb : option (string -> string -> option Q)) (cfg : config)
  (old_sections new_sections : sections) (gen : nat) :
  (exists o, compare_sections emb cfg old_sections new_sections gen = Ok o)
  /\ compare_sections emb cfg [] [] gen = Ok (mk_outcome [] gen [] [])
  /\ match_sections emb cfg (stamp old_sections) (stamp [])
     = Ok (mk_matching [] [] [])
  /\ returns (compare_sections emb cfg old_sections [] gen)
       (processed_as_unmatched emb cfg (_classify_unmatched_old emb)
          (stamp old_sections) gen)
  /\ match_sections emb cfg (stamp []) (stamp new_sections)
     = Ok (mk_matching [] [] [])
  /\ returns (compare_sections emb cfg [] new_sections gen)
       (processed_as_unmatched emb cfg (_classify_unmatched_new emb)
          (stamp new_sections) gen)
  /\ (forall sec : Sec.t,
        heading_of sec = text_of (Sec.heading sec)
        /\ body_of sec = text_of (Sec.body sec)
        /\ _comparison_text sec
           = Py.strip
               (Py.or_else (text_of (Sec.meaning sec))
                  (Py.or_else (text_of (Sec.body sec))
                     (text_of (Sec.heading sec)))))
  /\ (forall field, blank field <-> text_of field = ""%string).
Proof.
  split; [|split; [|split; [|split; [|split; [|split; [|split]]]]]].
  - destruct (returns_ok _ _
                (compare_sections_returns emb cfg old_sections new_sections gen))
      as (o & E & _).
    exists o. exact E.
  - destruct cfg. vm_compute. reflexivity.
  - apply match_sections_no_new.
  - apply compare_sections_no_new.
  - reflexivity.
  - apply compare_sections_no_old.
  - intros [h b m s]. unfold heading_of, body_of, _comparison_text, text_of.
    cbn [Sec.heading Sec.body Sec.meaning].
    repeat split.
    + destruct h as [[|x]|]; reflexivity.
    + destruct b as [[|x]|]; reflexivity.
    + destruct m as [[|[|c x]]|], b as [[|[|c' x']]|], h as [[|[|c'' x'']]|];
        reflexivity.
  - apply blank_iff.
Qed.

Lemma chars_str l : Py.chars (Py.str l) = l.
Proof. apply list_ascii_of_string_of_list_ascii. Qed.

Lemma str_chars s : Py.str (Py.chars s) = s.
Proof. apply string_of_list_ascii_of_string. Qed.

Lemma is_empty_str l : Py.is_empty (Py.str l) = is_nil l.
Proof. destruct l; reflexivity. Qed.

Lemma isspace_lower c : Py.isspace (Py.lower_char c) = Py.isspace c.
Proof.
  destruct c as [[] [] [] [] [] [] [] []]; vm_compute; reflexivity.
Qed.

Lemma lstrip_lower l :
  Py.lstrip_chars (Py.lower_chars l) = Py.lower_chars (Py.lstrip_chars l).
Proof.
  induction l as [|c l IH]; [reflexivity|].
  cbn [Py.lower_chars map Py.lstrip_chars]. rewrite isspace_lower.
  destruct (Py.isspace c); [exact IH | reflexivity].
Qed.

Lemma strip_lower l :
  Py.strip_chars (Py.lower_chars l) = Py.lower_chars (Py.strip_chars l).
Proof.
  unfold Py.strip_chars, Py.rstrip_chars.
  rewrite lstrip_lower. unfold Py.lower_chars at 1.
  rewrite <- map_rev. fold (Py.lower_chars (rev (Py.lstrip_chars l))).
  rewrite lstrip_lower. unfold Py.lower_chars. rewrite map_rev. reflexivity.
Qed.

Lemma lstrip_app_nonspace y c :
  Py.isspace c = false ->
  Py.lstrip_chars (y ++ [c]) = Py.lstrip_chars y ++ [c].
Proof.
  intros H. induction y as [|x y IH]; cbn [app Py.lstrip_chars].
  - rewrite H. reflexivity.
  - destruct (Py.isspace x); [exact IH | reflexivity].
Qed.

Lemma rstrip_cons_nonspace c t :
  Py.isspace c = false -> Py.rstrip_chars (c :: t) = c :: Py.rstrip_chars t.
Proof.
  intros H. unfold Py.rstrip_chars. cbn [rev].
  rewrite lstrip_app_nonspace by exact H.
  rewrite rev_app_distr. reflexivity.
Qed.

Lemma lstrip_idempotent l :
  Py.lstrip_chars (Py.lstrip_chars l) = Py.lstrip_chars l.
Proof.
  induction l as [|c l IH]; [reflexivity|].
  cbn [Py.lstrip_chars]. destruct (Py.isspace c) eqn:E; [exact IH|].
  cbn [Py.lstrip_chars]. rewrite E. reflexivity.
Qed.

Lemma lstrip_head l :
  Py.lstrip_chars l = []
  \/ exists c t, Py.lstrip_chars l = c :: t /\ Py.isspace c = false.
Proof.
  induction l as [|c l IH]; [left; reflexivity|].
  cbn [Py.lstrip_chars]. destruct (Py.isspace c) eqn:E; [exact IH|].
  right. eauto.
Qed.

Lemma rstrip_idempotent l :
  Py.rstrip_chars (Py.rstrip_chars l) = Py.rstrip_chars l.
Proof.
  unfold Py.rstrip_chars. rewrite rev_involutive, lstrip_idempotent.
  reflexivity.
Qed.

Lemma strip_idempotent l :
  Py.strip_chars (Py.strip_chars l) = Py.strip_chars l.
Proof.
  unfold Py.strip_chars.
  destruct (lstrip_head l) as [E|(c & t & E & Hc)]; rewrite E.
  - reflexivity.
  - rewrite (@rstrip_cons_nonspace c t Hc). cbn [Py.lstrip_chars]. rewrite Hc.
    rewrite <- (@rstrip_cons_nonspace c t Hc). apply rstrip_idempotent.
Qed.

Lemma is_nil_map {A B : Type} (f : A -> B) l : is_nil (map f l) = is_nil l.
Proof. destruct l; reflexivity. Qed.

Lemma sub_is_empty r repl s :
  Py.is_empty repl = false ->
  Py.is_empty (Re.sub false r repl s) = Py.is_empty s.
Proof.
  intros H. unfold Re.sub, Re.pieces. rewrite is_empty_str.
  destruct repl as [|x repl]; [discriminate|].
  destruct s as [|c s]; [reflexivity|].
  cbn [Py.chars list_ascii_of_string Re.scan Py.is_empty].
  destruct (Re.match_len _ _ _ _) as [[|n]|]; reflexivity.
Qed.

Lemma normalize_text_empty s :
  Py.is_empty (normalize_text s) = is_blank s.
Proof.
  unfold normalize_text, is_blank. rewrite sub_is_empty by reflexivity.
  unfold Py.strip, Py.lower. rewrite chars_str, strip_lower, !is_empty_str.
  apply is_nil_map.
Qed.

Lemma normalize_text_strip s : normalize_text (Py.strip s) = normalize_text s.
Proof.
  unfold normalize_text. f_equal.
  unfold Py.strip, Py.lower. rewrite !chars_str.
  rewrite !strip_lower, strip_idempotent. reflexivity.
Qed.

Lemma lexical_strip a b :
  lexical_similarity (Py.strip a) (Py.strip b) = lexical_similarity a b.
Proof.
  unfold lexical_similarity. rewrite !normalize_text_strip. reflexivity.
Qed.

Lemma lexical_cases a b :
  lexical_similarity a b =
  if is_blank a && is_blank b then Ok 1%Q
  else if is_blank a || is_blank b then Ok 0%Q
  else lexical_similarity a b.
Proof.
  unfold lexical_similarity at 1. rewrite !normalize_text_empty.
  destruct (is_blank a) eqn:A, (is_blank b) eqn:B; cbn [andb orb];
    try reflexivity.
  unfold lexical_similarity. rewrite !normalize_text_empty, A, B. reflexivity.
Qed.

Lemma semantic_offline a b :
  semantic_similarity offline a b = lexical_similarity a b.
Proof.
  rewrite (lexical_cases a b). unfold semantic_similarity, is_blank.
  destruct (Py.is_empty (Py.strip a) && Py.is_empty (Py.strip b));
    [reflexivity|].
  destruct (Py.is_empty (Py.strip a) || Py.is_empty (Py.strip b));
    [reflexivity|].
  unfold offline. cbn [_embedding_similarity]. rewrite lexical_strip.
  destruct (lexical_similarity a b); reflexivity.
Qed.

(** C6, as the code has it: the order of the arguments matters, and a text
    of white space counts as empty.  The lexical score of "tide" and "diet"
    is 0.1375 one way and 0.275 the other; the empty string and a single
    space score 1. *)
Lemma similarity_not_symmetric :
  lexical_similarity "tide" "diet" = Ok (22000 # 160000)%Q
  /\ lexical_similarity "diet" "tide" = Ok (44000 # 160000)%Q
  /\ semantic_similarity offline "tide" "diet" = Ok (22000 # 160000)%Q
  /\ semantic_similarity offline "diet" "tide" = Ok (44000 # 160000)%Q
  /\ Qeq_bool (22000 # 160000) (44000 # 160000) = false
  /\ lexical_similarity "" " " = Ok 1%Q
  /\ semantic_similarity offline "" " " = Ok 1%Q.
Proof. vm_compute. repeat split. Qed.

(** C6, amended: both scores are returned and lie between 0 and 1; they are
    1 when both texts are blank (empty once stripped of white space) and 0
    when exactly one is; without the embedding backend the semantic score is
    the lexical score. *)
Theorem similarity_contract
  (emb : option (string -> string -> option Q)) (a b : string) :
  returns (lexical_similarity a b) in_unit
  /\ returns (semantic_similarity emb a b) in_unit
  /\ (is_blank a = true -> is_blank b = true ->
      lexical_similarity a b = Ok 1%Q /\ semantic_similarity emb a b = Ok 1%Q)
  /\ (is_blank a <> is_blank b ->
      lexical_similarity a b = Ok 0%Q /\ semantic_similarity emb a b = Ok 0%Q)
  /\ lexical_similarity "" "" = Ok 1%Q
  /\ semantic_similarity emb "" "" = Ok 1%Q
  /\ semantic_similarity offline a b = lexical_similarity a b.
Proof.
  split; [apply lexical_unit|]. split; [apply semantic_unit|].
  split; [|split; [|split; [reflexivity|split; [reflexivity|]]]].
  - intros A B. rewrite lexical_cases. unfold semantic_similarity.
    unfold is_blank in *. rewrite A, B. split; reflexivity.
  - intros N. rewrite lexical_cases. unfold semantic_similarity.
    unfold is_blank in *.
    destruct (Py.is_empty (Py.strip a)), (Py.is_empty (Py.strip b));
      try congruence; split; reflexivity.
  - apply semantic_offline.
Qed.

Section TopFirst.
Variables (A : Type) (key : A -> Q).

Lemma insert_desc_front x l :
  (forall y, In y l -> (key y <= key x)%Q) ->
  Py.insert_desc key Qle_bool x l = x :: l.
Proof.
  destruct l as [|y l]; [reflexivity|]. intros H. cbn [Py.insert_desc].
  rewrite (proj2 (Qle_bool_iff _ _) (H y (or_introl eq_refl))). reflexivity.
Qed.

Lemma insert_desc_skip x t r :
  (forall y, In y t -> Qle_bool (key y) (key x) = false) ->
  Py.insert_desc key Qle_bool x (t ++ r)
  = (t ++ Py.insert_desc key Qle_bool x r)%list.
Proof.
  induction t as [|y t IH]; intros H; [reflexivity|].
  cbn [app Py.insert_desc]. rewrite (H y (or_introl eq_refl)).
  rewrite IH; [reflexivity|]. intros z Hz. apply H. right. exact Hz.
Qed.

(** A stable descending sort puts the elements of greatest key first, in
    their original order. *)
Lemma sorted_top_first (l : list A) :
  (forall x, In x l -> (key x <= 1)%Q) ->
  Py.sorted_by_reverse key Qle_bool l
  = (filter (fun x => Qle_bool 1 (key x)) l
     ++ Py.sorted_by_reverse key Qle_bool
          (filter (fun x => negb (Qle_bool 1 (key x))) l))%list.
Proof.
  induction l as [|x l IH]; intros H; [reflexivity|].
  cbn [Py.sorted_by_reverse filter].
  rewrite IH by (intros y Hy; apply H; right; exact Hy).
  destruct (Qle_bool 1 (key x)) eqn:E; cbn [negb].
  - apply Qle_bool_iff in E. cbn [app]. apply insert_desc_front.
    intros y Hy. apply Qle_trans with 1%Q; [|exact E].
    apply H. right.
    apply in_app_or in Hy. destruct Hy as [Hy|Hy].
    + apply filter_In in Hy. tauto.
    + apply (Permutation_in _ (sorted_by_reverse_perm key Qle_bool _)) in Hy.
      apply filter_In in Hy. tauto.
  - cbn [Py.sorted_by_reverse]. apply insert_desc_skip.
    intros y Hy. apply filter_In in Hy. destruct Hy as [_ T].
    apply Qle_bool_iff in T.
    destruct (Qle_bool (key y) (key x)) eqn:E'; [|reflexivity].
    apply Qle_bool_iff in E'.
    assert (C : Qle_bool 1 (key x) = true)
      by (apply Qle_bool_iff; apply Qle_trans with (key y); assumption).
    congruence.
Qed.
End TopFirst.

Section Greedy.
Variables (thr : Q) (eff : Q -> Q).

Lemma greedy_app l1 l2 m :
  Forall (fun x => Qltb (score_of x) thr = false) l1 ->
  greedy thr eff (l1 ++ l2) m = greedy thr eff l2 (greedy thr eff l1 m).
Proof.
  intros F. revert m. induction F as [|[[s o] n] l1 H _ IH]; intros m;
    [reflexivity|].
  cbn [app greedy]. unfold score_of in H. cbn [fst] in H. rewrite H.
  destruct (Py.mem o (matched_old m) || Py.mem n (matched_new m)); apply IH.
Qed.

Lemma greedy_blocked l m :
  Forall (fun x => In (oid_of x) (matched_old m)
                   \/ In (nid_of x) (matched_new m)) l ->
  greedy thr eff l m = m.
Proof.
  induction 1 as [|[[s o] n] l H _ IH]; [reflexivity|].
  cbn [greedy]. destruct (Qltb s thr); [reflexivity|].
  unfold oid_of, nid_of in H. cbn [fst snd] in H.
  assert (E : Py.mem o (matched_old m) || Py.mem n (matched_new m) = true).
  { apply orb_true_iff. destruct H as [H|H]; [left | right]; apply mem_In, H. }
  rewrite E. exact IH.
Qed.

Hypothesis thr_le_1 : (thr <= 1)%Q.

Lemma top_not_below x : top x = true -> Qltb (score_of x) thr = false.
Proof.
  unfold top, Qltb. intros H. apply Qle_bool_iff in H.
  apply negb_false_iff, Qle_bool_iff. apply Qle_trans with 1%Q; assumption.
Qed.

Lemma Forall_top_not_below l :
  Forall (fun x => Qltb (score_of x) thr = false) (filter top l).
Proof.
  apply Forall_forall. intros x H. apply filter_In in H.
  apply top_not_below, H.
Qed.

(** One row of the pairs: the section [k] against every section. *)
Lemma greedy_row k pre post xs m :
  Forall2 self_scored (map (pair k) (pre ++ k :: post)) xs ->
  paired_with_self pre m ->
  paired_with_self (pre ++ [k]) (greedy thr eff (filter top xs) m)
  /\ incl (matched_old m) (matched_old (greedy thr eff (filter top xs) m)).
Proof.
  intros F (E & I & D).
  rewrite map_app in F. apply Forall2_app_inv_l in F.
  destruct F as (xs1 & xs2 & F1 & F2 & ->).
  cbn [map] in F2. inversion F2 as [|p x ps xs3 Hx F3]; subst.
  rewrite filter_app, greedy_app by apply Forall_top_not_below.
  rewrite (@greedy_blocked (filter top xs1) m).
  2:{ apply Forall_forall. intros y Hy. apply filter_In in Hy.
      destruct Hy as [Hy _]. right.
      assert (G : forall cols ys,
                 Forall2 self_scored (map (pair k) cols) ys ->
                 forall y, In y ys -> In (nid_of y) cols).
      { clear. induction cols as [|c cols IH]; intros ys F y Hy;
          inversion F; subst; [destruct Hy|].
        destruct Hy as [<-|Hy].
        - left. symmetry.
          match goal with H : self_scored _ _ |- _ => apply H end.
        - right. eapply IH; eassumption. }
      rewrite <- E. apply I. eapply G; eassumption. }
  cbn [filter].
  destruct Hx as (Ho & Hn & Hle & Hge). cbn [fst snd] in Ho, Hn, Hge.
  assert (T : top x = true) by (apply Qle_bool_iff, Hge; reflexivity).
  rewrite T. change (x :: filter top xs3) with ([x] ++ filter top xs3)%list.
  rewrite greedy_app by (constructor; [apply top_not_below, T | constructor]).
  assert (P : forall m', paired_with_self (pre ++ [k]) m' ->
                         incl (matched_old m) (matched_old m') ->
                         paired_with_self (pre ++ [k])
                           (greedy thr eff (filter top xs3) m')
                         /\ incl (matched_old m)
                              (matched_old (greedy thr eff (filter top xs3) m'))).
  { intros m' Pm Im. rewrite greedy_blocked; [auto|].
    apply Forall_forall. intros y Hy. apply filter_In in Hy.
    destruct Hy as [Hy _]. left.
    assert (G : forall cols ys,
               Forall2 self_scored (map (pair k) cols) ys ->
               forall y, In y ys -> oid_of y = k).
    { clear. induction cols as [|c cols IH]; intros ys F y Hy;
        inversion F; subst; [destruct Hy|].
      destruct Hy as [<-|Hy].
      - match goal with H : self_scored _ _ |- _ => apply H end.
      - eapply IH; eassumption. }
    rewrite (G _ _ F3 _ Hy). destruct Pm as (_ & Ik & _).
    apply Ik, in_or_app. right. left. reflexivity. }
  destruct x as [[s o] n]. unfold oid_of, nid_of in Ho, Hn.
  cbn [fst snd] in Ho, Hn. subst o n.
  cbn [greedy app].
  pose proof (top_not_below _ T) as B. unfold score_of in B. cbn [fst] in B.
  rewrite B.
  destruct (Py.mem k (matched_old m) || Py.mem k (matched_new m)) eqn:M.
  - apply P; [|apply incl_refl].
    repeat split; try assumption.
    intros id Hid. apply in_app_or in Hid. destruct Hid as [Hid|[<-|[]]].
    + apply I, Hid.
    + apply orb_true_iff in M. destruct M as [M|M]; apply mem_In in M.
      * exact M.
      * rewrite E. exact M.
  - apply P.
    + unfold paired_with_self. cbn [matched_old matched_new matches].
      repeat split.
      * rewrite E. reflexivity.
      * intros id Hid. apply in_app_or in Hid.
        destruct Hid as [Hid|[<-|[]]]; [right; apply I, Hid | left; reflexivity].
      * apply Forall_app. split; [exact D|]. constructor; [reflexivity|].
        constructor.
    + cbn [matched_old]. intros id Hid. right. exact Hid.
Qed.

(** All the rows. *)
Lemma greedy_rows ks :
  forall rows pre xs m,
    ks = (pre ++ rows)%list ->
    Forall2 self_scored (list_prod rows ks) xs ->
    paired_with_self pre m ->
    paired_with_self ks (greedy thr eff (filter top xs) m).
Proof.
  induction rows as [|k rows IH]; intros pre xs m E F P.
  - inversion F; subst. rewrite app_nil_r. exact P.
  - cbn [list_prod] in F. apply Forall2_app_inv_l in F.
    destruct F as (xs1 & xs2 & F1 & F2 & ->).
    rewrite filter_app, greedy_app by apply Forall_top_not_below.
    destruct (@greedy_row k pre rows xs1 m) as [P1 _].
    + rewrite <- E. exact F1.
    + exact P.
    + apply (IH (pre ++ [k])%list); [|exact F2|exact P1].
      rewrite <- app_assoc. exact E.
Qed.
End Greedy.

Lemma Forall2_In_r {A B : Type} (R : A -> B -> Prop) l l' y :
  Forall2 R l l' -> In y l' -> exists x, In x l /\ R x y.
Proof.
  induction 1 as [|a b l l' H F IH]; intros Hy; [destruct Hy|].
  destruct Hy as [<-|Hy].
  - exists a. split; [left; reflexivity | exact H].
  - destruct (IH Hy) as (x & Hx & Hr). exists x. split; [right|]; assumption.
Qed.

Lemma self_scored_ids rows ks xs :
  Forall2 self_scored (list_prod rows ks) xs ->
  Forall (fun x => In (oid_of x) rows /\ In (nid_of x) ks) xs.
Proof.
  intros F. apply Forall_forall. intros x Hx.
  destruct (@Forall2_In_r _ _ _ _ _ x F Hx) as ([o n] & Hp & Ho & Hn & _).
  apply in_prod_iff in Hp. rewrite Ho, Hn. exact Hp.
Qed.

Lemma paired_with_self_start : paired_with_self [] (mk_matching [] [] []).
Proof.
  unfold paired_with_self. cbn. repeat split; [intros x [] | constructor].
Qed.

(** On the pairs of a mapping with itself, the greedy loop pairs every
    section with itself. *)
Lemma greedy_self ks thr eff xs :
  (thr <= 1)%Q ->
  Forall2 self_scored (list_prod ks ks) xs ->
  paired_with_self ks (greedy thr eff (sort_pairs xs) (mk_matching [] [] [])).
Proof.
  intros T F. unfold sort_pairs.
  rewrite (sorted_top_first (fun x : scored => fst (fst x))).
  2:{ intros x Hx. destruct (@Forall2_In_r _ _ _ _ _ x F Hx) as (p & _ & _ & _ & L & _).
      exact L. }
  change (fun x : scored => Qle_bool 1 (fst (fst x))) with top.
  rewrite greedy_app by (apply Forall_top_not_below, T).
  pose proof (@greedy_rows thr eff T ks ks [] xs (mk_matching [] [] [])
                eq_refl F paired_with_self_start) as P.
  rewrite greedy_blocked; [exact P|].
  apply Forall_forall. intros x Hx. left.
  apply (Permutation_in _ (sorted_by_reverse_perm _ Qle_bool _)) in Hx.
  apply filter_In in Hx. destruct Hx as [Hx _].
  pose proof (@self_scored_ids ks ks xs F) as I. rewrite Forall_forall in I.
  destruct P as (_ & Inc & _). apply Inc, I, Hx.
Qed.

Lemma unmatched_all ids matched :
  incl ids matched -> unmatched ids matched = [].
Proof.
  intros I. unfold unmatched.
  induction ids as [|x ids IH]; [reflexivity|].
  cbn [filter].
  rewrite (proj2 (mem_In x matched)) by (apply I; left; reflexivity).
  cbn [negb]. apply IH. intros y Hy. apply I. right. exact Hy.
Qed.

Lemma scored_from_self d p x :
  scored_from offline d d p x -> self_scored p x.
Proof.
  intros (Ho & Hn & o & n & Eo & En & Es & U).
  unfold self_scored, oid_of, nid_of, score_of.
  repeat split; [exact Ho | exact Hn | apply U |].
  intros E. rewrite E in Eo. rewrite Eo in En. injection En as <-.
  pose proof (pair_score_self o) as S1. rewrite Es in S1. cbn [returns] in S1.
  rewrite S1. apply Qle_refl.
Qed.

Lemma Forall2_weaken {A B : Type} (R R' : A -> B -> Prop) l l' :
  (forall a b, R a b -> R' a b) -> Forall2 R l l' -> Forall2 R' l l'.
Proof. intros H. induction 1; constructor; auto. Qed.

(** The matching stage on a mapping against itself. *)
Lemma match_sections_self cfg d :
  (match_threshold cfg <= 1)%Q ->
  returns (match_sections offline cfg d d) (paired_with_self (keys d)).
Proof.
  intros T. unfold match_sections.
  eapply returns_bind; [apply score_pairs_returns|]. intros sp Hsp.
  apply (@Forall2_weaken _ _ _ self_scored _ _ (@scored_from_self d)) in Hsp.
  pose proof (@greedy_self (keys d) _ (fun score => score) sp T Hsp) as P.
  destruct P as (E & Inc & D).
  unfold heading_pairs.
  rewrite (unmatched_all Inc). cbn [list_prod mapM bind returns].
  cbn [sort_pairs Py.sorted_by_reverse greedy].
  repeat split; assumption.
Qed.

Lemma pyval_eqb_refl v : pyval_eqb v v = true.
Proof. destruct v; [reflexivity | apply String.eqb_refl]. Qed.

(** A section matched with itself is not reported. *)
Lemma classify_matched_self emb gen s score thr :
  _classify_matched_change emb gen s s score thr = Ok (None, gen).
Proof.
  unfold _classify_matched_change.
  destruct (returns_ok _ _ (lexical_unit (heading_of s) (heading_of s)))
    as (h & -> & _).
  cbn [bind].
  destruct (returns_ok _ _ (semantic_unit emb (_comparison_text s)
                              (_comparison_text s))) as (t & -> & _).
  cbn [bind].
  rewrite String.eqb_refl. cbn [orb].
  unfold old_id_differs. rewrite pyval_eqb_refl. reflexivity.
Qed.

Lemma classify_matches_self emb d gen ms :
  Forall (fun mt => old_of mt = new_of mt /\ In (old_of mt) (keys d)) ms ->
  classify_matches emb d d ms ([], gen) = Ok ([], gen).
Proof.
  unfold classify_matches.
  induction 1 as [|[[o n] s] ms [E I] _ IH]; [reflexivity|].
  cbn [old_of new_of fst snd] in E, I. subst n. cbn [foldM].
  destruct (getitem_in _ _ I) as (v & -> & _). cbn [bind].
  rewrite classify_matched_self. cbn [bind]. exact IH.
Qed.

Lemma compare_sections_self cfg d gen :
  (match_threshold cfg <= 1)%Q ->
  compare_sections offline cfg d d gen
  = Ok (mk_outcome [] gen (stamp d) (stamp d)).
Proof.
  intros T. unfold compare_sections.
  destruct (returns_ok _ _
              (returns_and _ _ _
                 (@match_sections_self cfg (stamp d) T)
                 (@match_sections_returns offline cfg (stamp d) (stamp d))))
    as (m & -> & (E & Inc & D) & (_ & _ & M1 & _ & I1 & _)).
  cbn [bind]. unfold classify_all.
  rewrite classify_matches_self.
  2:{ rewrite Forall_forall in *. intros mt Hmt. split; [apply D, Hmt|].
      apply I1, in_rev. rewrite <- M1. apply in_map, Hmt. }
  cbn [bind]. rewrite <- E, (unmatched_all Inc).
  reflexivity.
Qed.

(** C2, as the code has it: two mappings with the same keys and the same
    record under each key, listed in different orders.  The three sections
    have the same text, so every pair scores 1 and the greedy loop pairs 1
    with 3, 2 with 1 and 3 with 2; the three STRUCTURAL_MOVE records are
    merged into one, which is returned when [include_non_true] is set or
    [strict_mode] is off. *)
Lemma reordered_mappings_report_a_move :
  Permutation rest_old rest_new
  /\ map (getitem rest_new) (keys rest_old)
     = map (getitem rest_old) (keys rest_old)
  /\ returns
       (match_sections offline (mk_config 0.58 0.82 0.78 true true)
          (stamp rest_old) (stamp rest_new))
       (fun m => map fst (matches m)
                 = [("1", "3"); ("2", "1"); ("3", "2")]%string)
  /\ compare_sections offline (mk_config 0.58 0.82 0.78 true true)
       rest_old rest_new 0
     = Ok (mk_outcome [rest_moved] 3 (stamp rest_old) (stamp rest_new))
  /\ compare_sections offline (mk_config 0.58 0.82 0.78 false false)
       rest_old rest_new 0
     = Ok (mk_outcome [rest_moved] 3 (stamp rest_old) (stamp rest_new))
  /\ Change.type rest_moved = "STRUCTURAL_CHANGE"%string
  /\ String.eqb (Change.old_section rest_moved)
       (Change.new_section rest_moved) = false.
Proof.
  split.
  { unfold rest_old, rest_new.
    apply Permutation_sym.
    apply (@Permutation_cons_app _ _
             [("1"%string, rest_rule); ("2"%string, rest_rule)] []).
    apply Permutation_refl. }
  vm_compute. repeat split.
Qed.

Lemma subseq_filter {A : Type} (p : A -> bool) (l : list A) :
  subseq (filter p l) l.
Proof.
  induction l as [|x l IH]; cbn [filter]; [constructor|].
  destruct (p x); constructor; exact IH.
Qed.

Lemma capped_ids l l' :
  Forall2 kept_or_capped l l' ->
  map Change.change_id l' = map Change.change_id l.
Proof.
  induction 1 as [|b a l l' H _ IH]; [reflexivity|].
  cbn [map]. rewrite IH. f_equal.
  destruct H as [->|(_ & E & _)]; [reflexivity | exact E].
Qed.

Lemma subseq_trans {A : Type} (l1 l2 l3 : list A) :
  subseq l1 l2 -> subseq l2 l3 -> subseq l1 l3.
Proof.
  intros H12 H23. revert l1 H12.
  induction H23 as [|x l2 l3 _ IH|x l2 l3 _ IH]; intros l1 H12.
  - exact H12.
  - apply subseq_skip. apply IH, H12.
  - inversion H12; subst.
    + apply subseq_skip. apply IH. assumption.
    + apply subseq_take. apply IH. assumption.
Qed.

(** The identifiers that come out of the validator are some of those that
    went in, in their order. *)
Lemma validated_ids changes strict include out :
  validated changes strict include out ->
  subseq (map Change.change_id out) (map Change.change_id changes).
Proof.
  intros (v1 & v2 & H1 & H2 & ->).
  rewrite <- (impact_ids H1).
  eapply subseq_trans; [|apply survivors_ids, H2].
  rewrite <- (capped_ids (cap_pointwise v2 35)).
  apply subseq_map, subseq_filter.
Qed.

(** X1: the records returned by a call of [compare_sections] carry
    identifiers that the call itself took from the generator, each at most
    once: the generator only moves forward, every returned identifier is
    [C%04d] of a number between its state before and after the call, and no
    two returned records share one. *)
Theorem returned_ids_are_fresh
  (emb : option (string -> string -> option Q)) (cfg : config)
  (old_sections new_sections : sections) (gen : nat) :
  returns (compare_sections emb cfg old_sections new_sections gen)
    (fresh_ids gen).
Proof.
  eapply returns_weaken; [apply compare_sections_returns|].
  intros o (m & st & changes & _ & _ & _ & (_ & Ids & G) & V & ->).
  apply validated_ids in V. rewrite Ids in V.
  set (n := List.length (fst st)) in *.
  assert (P : Permutation
                (map Change.change_id (Py.sorted_by sort_key key_le changes))
                (map Change.change_id changes))
    by apply Permutation_map, sorted_by_perm.
  assert (D : NoDup (map Change.change_id changes)).
  { eapply subseq_NoDup; [exact V|].
    apply Injective_map_NoDup; [|apply seq_NoDup].
    intros x y. apply format_change_id_inj. }
  assert (I : forall id, In id (map Change.change_id changes) ->
                         exists k, gen <= k < gen + n /\ id = format_change_id k).
  { intros id H. apply (@subseq_In _ _ _ id V) in H. apply in_map_iff in H.
    destruct H as (k & <- & H). apply in_seq in H. exists k. auto. }
  unfold fresh_ids. cbn [returned gen_after]. rewrite G.
  split; [lia|]. split; [|split].
  - eapply Permutation_NoDup; [symmetry; exact P | exact D].
  - apply Forall_forall. intros c Hc.
    apply I. eapply Permutation_in; [exact P|]. apply in_map, Hc.
  - pose proof (Permutation_length P) as LP. rewrite !length_map in LP.
    assert (L : forall (A : Type) (l l' : list A),
               subseq l l' -> List.length l <= List.length l').
    { intros A l l' H. induction H; cbn [List.length]; lia. }
    apply L in V. rewrite !length_map, length_seq in V. lia.
Qed.

Lemma write_section_fields h a k a' :
  Sec.heading (write_section h a k a') = Sec.heading (h a')
  /\ Sec.body (write_section h a k a') = Sec.body (h a')
  /\ Sec.meaning (write_section h a k a') = Sec.meaning (h a').
Proof.
  unfold write_section. destruct (Nat.eqb a' a); cbn; auto.
Qed.

Lemma stamp_refs_fields m : forall h a,
  Sec.heading (stamp_refs m h a) = Sec.heading (h a)
  /\ Sec.body (stamp_refs m h a) = Sec.body (h a)
  /\ Sec.meaning (stamp_refs m h a) = Sec.meaning (h a).
Proof.
  unfold stamp_refs. induction m as [|[k a'] m IH]; intros h a;
    cbn [fold_left fst snd]; [auto|].
  destruct (IH (write_section h a' k) a) as (H1 & H2 & H3).
  destruct (write_section_fields h a' k a) as (W1 & W2 & W3).
  rewrite H1, H2, H3. auto.
Qed.

Lemma stamp_refs_section m : forall h a,
  Sec.section (stamp_refs m h a)
  = match last_key m a with
    | Some k => Some (PyStr k)
    | None => Sec.section (h a)
    end.
Proof.
  unfold stamp_refs. induction m as [|[k a'] m IH]; intros h a;
    cbn [fold_left fst snd last_key]; [reflexivity|].
  rewrite IH. destruct (last_key m a); [reflexivity|].
  unfold write_section. destruct (Nat.eqb a a'); reflexivity.
Qed.

Lemma stamp_in_place_app old_sections new_sections h :
  stamp_in_place old_sections new_sections h
  = stamp_refs (old_sections ++ new_sections) h.
Proof.
  unfold stamp_in_place, stamp_refs. rewrite fold_left_app. reflexivity.
Qed.

Lemma last_key_In m a k : last_key m a = Some k -> In (k, a) m.
Proof.
  induction m as [|[k0 a0] m IH]; cbn [last_key]; [discriminate|].
  destruct (last_key m a) as [k'|].
  - intros H. injection H as ->. right. apply IH. reflexivity.
  - destruct (Nat.eqb a a0) eqn:E; [|discriminate].
    intros H. injection H as ->. apply Nat.eqb_eq in E. subst a0.
    left. reflexivity.
Qed.

Lemma In_last_key m a k : In (k, a) m -> exists k', last_key m a = Some k'.
Proof.
  induction m as [|[k0 a0] m IH]; cbn [last_key]; [intros []|].
  intros [E|H].
  - injection E as -> ->. rewrite Nat.eqb_refl.
    destruct (last_key m a) as [k'|]; eauto.
  - destruct (IH H) as (k' & ->). eauto.
Qed.

Lemma stamp_deref h m :
  stamp (deref h m)
  = map (fun item => (fst item, Sec.set_section (h (snd item)) (fst item))) m.
Proof. unfold stamp, deref. rewrite map_map. reflexivity. Qed.

Lemma sec_eta (s t : Sec.t) :
  Sec.heading s = Sec.heading t -> Sec.body s = Sec.body t ->
  Sec.meaning s = Sec.meaning t -> Sec.section s = Sec.section t -> s = t.
Proof. destruct s, t. cbn. congruence. Qed.

Lemma deref_unshared m h part :
  unshared m -> incl part m ->
  deref (stamp_refs m h) part = stamp (deref h part).
Proof.
  intros U I. rewrite stamp_deref. unfold deref. apply map_ext_in.
  intros [k a] H. cbn [fst snd]. f_equal.
  destruct (stamp_refs_fields m h a) as (H1 & H2 & H3).
  apply sec_eta; cbn [Sec.set_section Sec.heading Sec.body Sec.meaning
                      Sec.section]; try assumption.
  rewrite stamp_refs_section.
  destruct (In_last_key _ _ _ (I _ H)) as (k' & E). rewrite E.
  rewrite (U k k' a (I _ H) (last_key_In _ _ E)). reflexivity.
Qed.

(** X2: the two loops at the head of [compare_sections] write the key
    ["section"] into the record objects that the two mappings refer to, and
    nothing else.  Heading, body and meaning of every object stay as they
    were; an object that no key refers to is untouched; an object that is
    referred to carries the last key that refers to it, the old mapping
    being written first.  When no object sits under two different keys, the
    mappings read after the loops are the mappings read before with each
    record carrying its own key, which is what a call of [compare_sections]
    on records held by value leaves behind.  When an object of the old
    mapping ends up with a key other than the one it sits under, the
    mapping read after the loops is not that. *)
Theorem section_keys_written_in_place
  (old_sections new_sections : refs) (h : store) :
  (forall a,
      Sec.heading (stamp_in_place old_sections new_sections h a)
      = Sec.heading (h a)
      /\ Sec.body (stamp_in_place old_sections new_sections h a)
         = Sec.body (h a)
      /\ Sec.meaning (stamp_in_place old_sections new_sections h a)
         = Sec.meaning (h a))
  /\ (forall a,
        Sec.section (stamp_in_place old_sections new_sections h a)
        = match last_key (old_sections ++ new_sections) a with
          | Some k => Some (PyStr k)
          | None => Sec.section (h a)
          end)
  /\ (forall a,
        ~ In a (map snd (old_sections ++ new_sections)) ->
        stamp_in_place old_sections new_sections h a = h a)
  /\ (unshared (old_sections ++ new_sections) ->
      deref (stamp_in_place old_sections new_sections h) old_sections
      = stamp (deref h old_sections)
      /\ deref (stamp_in_place old_sections new_sections h) new_sections
         = stamp (deref h new_sections)
      /\ forall emb cfg gen,
           returns
             (compare_sections emb cfg (deref h old_sections)
                (deref h new_sections) gen)
             (fun o =>
                old_after o
                = deref (stamp_in_place old_sections new_sections h)
                    old_sections
                /\ new_after o
                   = deref (stamp_in_place old_sections new_sections h)
                       new_sections))
  /\ (forall k k' a,
        In (k, a) old_sections ->
        last_key (old_sections ++ new_sections) a = Some k' ->
        k <> k' ->
        deref (stamp_in_place old_sections new_sections h) old_sections
        <> stamp (deref h old_sections)).
Proof.
  rewrite stamp_in_place_app.
  split; [|split; [|split; [|split]]].
  - intros a. apply stamp_refs_fields.
  - intros a. apply stamp_refs_section.
  - intros a N.
    destruct (stamp_refs_fields (old_sections ++ new_sections) h a)
      as (H1 & H2 & H3).
    apply sec_eta; try assumption.
    rewrite stamp_refs_section.
    destruct (last_key (old_sections ++ new_sections) a) as [k|] eqn:E;
      [|reflexivity].
    exfalso. apply N. apply last_key_In in E.
    apply in_map_iff. exists (k, a). auto.
  - intros U.
    assert (Eo : deref (stamp_refs (old_sections ++ new_sections) h)
                   old_sections = stamp (deref h old_sections))
      by (apply deref_unshared; [exact U | apply incl_appl, incl_refl]).
    assert (En : deref (stamp_refs (old_sections ++ new_sections) h)
                   new_sections = stamp (deref h new_sections))
      by (apply deref_unshared; [exact U | apply incl_appr, incl_refl]).
    split; [exact Eo|]. split; [exact En|].
    intros emb cfg gen.
    eapply returns_weaken; [apply compare_sections_returns|].
    intros o (m & st & changes & _ & _ & _ & _ & _ & ->).
    cbn [old_after new_after]. rewrite Eo, En. auto.
  - intros k k' a I L D E.
    rewrite stamp_deref in E. unfold deref in E.
    assert (P : forall item, In item old_sections ->
                 (fst item,
                  stamp_refs (old_sections ++ new_sections) h (snd item))
                 = (fst item,
                    Sec.set_section (h (snd item)) (fst item))).
    { apply map_ext_in_iff. exact E. }
    specialize (P _ I). cbn [fst snd] in P.
    injection P as P. apply (f_equal Sec.section) in P.
    rewrite stamp_refs_section, L in P. cbn in P. congruence.
Qed.

(** ** Token sets *)

Lemma set_of_NoDup xs : NoDup (Py.set_of xs).
Proof.
  induction xs as [|x xs IH]; cbn [Py.set_of]; [constructor|].
  destruct (Py.mem x (Py.set_of xs)) eqn:E; [exact IH|].
  constructor; [apply mem_false, E | exact IH].
Qed.

Lemma set_inter_In x a b : In x (Py.set_inter a b) <-> In x a /\ In x b.
Proof.
  unfold Py.set_inter. rewrite filter_In, mem_In. tauto.
Qed.

Lemma set_diff_In x a b : In x (Py.set_diff a b) <-> In x a /\ ~ In x b.
Proof.
  unfold Py.set_diff. rewrite filter_In, negb_true_iff.
  split; intros [H1 H2]; split; try exact H1.
  - apply mem_false, H2.
  - destruct (Py.mem x b) eqn:E; [|reflexivity].
    apply mem_In in E. contradiction.
Qed.

Lemma set_inter_length_sym a b :
  NoDup a -> NoDup b ->
  List.length (Py.set_inter a b) = List.length (Py.set_inter b a).
Proof.
  intros Ha Hb. apply Permutation_length, NoDup_Permutation.
  - apply NoDup_filter, Ha.
  - apply NoDup_filter, Hb.
  - intros x. rewrite !set_inter_In. tauto.
Qed.

Lemma set_diff_inter_length a b :
  List.length (Py.set_diff a b) + List.length (Py.set_inter a b)
  = List.length a.
Proof.
  unfold Py.set_diff, Py.set_inter.
  rewrite Nat.add_comm. apply filter_length.
Qed.

Lemma set_union_length_sym a b :
  NoDup a -> NoDup b ->
  List.length (Py.set_union a b) = List.length (Py.set_union b a).
Proof.
  intros Ha Hb. unfold Py.set_union. rewrite !length_app.
  pose proof (set_diff_inter_length a b).
  pose proof (set_diff_inter_length b a).
  pose proof (set_inter_length_sym Ha Hb). lia.
Qed.

(** X3: [jaccard_similarity] does not depend on the order of its two
    arguments, and lies between 0 and 1; to score 1 the two texts must have
    the same set of tokens. *)
Theorem jaccard_similarity_symmetric (text_a text_b : string) :
  jaccard_similarity text_a text_b = jaccard_similarity text_b text_a
  /\ returns (jaccard_similarity text_a text_b)
       (fun q => in_unit q
                 /\ (q == 1 ->
                     forall t, In t (tokenize text_a) <-> In t (tokenize text_b))%Q).
Proof.
  split.
  - unfold jaccard_similarity.
    set (a := Py.set_of (tokenize text_a)).
    set (b := Py.set_of (tokenize text_b)).
    rewrite (andb_comm (is_nil b)), (orb_comm (is_nil b)).
    rewrite (@set_inter_length_sym a b), (@set_union_length_sym a b)
      by apply set_of_NoDup.
    reflexivity.
  - apply returns_and; [apply jaccard_unit|].
    unfold jaccard_similarity.
    assert (S : forall xs t, In t (Py.set_of xs) <-> In t xs).
    { induction xs as [|x xs IH]; intros t; cbn [Py.set_of]; [tauto|].
      destruct (Py.mem x (Py.set_of xs)) eqn:E; cbn [In]; rewrite IH.
      - apply mem_In, IH in E. split; [auto|]. intros [<-|H]; auto.
      - tauto. }
    pose proof (set_of_NoDup (tokenize text_a)) as Da.
    pose proof (set_of_NoDup (tokenize text_b)) as Db.
    revert Da Db.
    generalize (S (tokenize text_a)) (S (tokenize text_b)).
    generalize (Py.set_of (tokenize text_a)) (Py.set_of (tokenize text_b)).
    intros a b Sa Sb Da Db.
    destruct a as [|x a], b as [|y b]; cbn [is_nil andb orb returns].
    + intros _ t. rewrite <- Sa, <- Sb. tauto.
    + intros H. exfalso. revert H. unfold Qeq. cbn. lia.
    + intros H. exfalso. revert H. unfold Qeq. cbn. lia.
    + set (A := x :: a) in *. set (B := y :: b) in *.
      unfold pydiv.
      destruct (Qeq_bool (Qnat (List.length (Py.set_union A B))) 0) eqn:Z;
        cbn [returns].
      * apply Qeq_bool_iff in Z. unfold Qnat, Qeq in Z. cbn in Z.
        unfold Py.set_union in Z. rewrite length_app in Z.
        subst A. cbn [List.length] in Z. lia.
      * intros H t. rewrite <- Sa, <- Sb.
        assert (L : List.length (Py.set_inter A B)
                    = List.length (Py.set_union A B)).
        { apply Qeq_bool_neq in Z.
          assert (Q1 : (Qnat (List.length (Py.set_inter A B))
                        == Qnat (List.length (Py.set_union A B)))%Q).
          { rewrite <- (Qmult_1_l (Qnat (List.length (Py.set_union A B)))).
            rewrite <- H. field. exact Z. }
          unfold Qnat, Qeq, inject_Z in Q1. cbn [Qnum Qden] in Q1. lia. }
        unfold Py.set_union in L. rewrite length_app in L.
        pose proof (set_diff_inter_length A B) as L1.
        pose proof (set_diff_inter_length B A) as L2.
        pose proof (set_inter_length_sym Da Db) as L3.
        assert (E1 : List.length (Py.set_diff A B) = 0) by lia.
        assert (E2 : List.length (Py.set_diff B A) = 0) by lia.
        apply length_zero_iff_nil in E1, E2.
        split; intros Ht.
        -- destruct (in_dec string_dec t B) as [I|I]; [exact I|].
           assert (F : In t (Py.set_diff A B)) by (apply set_diff_In; auto).
           rewrite E1 in F. destruct F.
        -- destruct (in_dec string_dec t A) as [I|I]; [exact I|].
           assert (F : In t (Py.set_diff B A)) by (apply set_diff_In; auto).
           rewrite E2 in F. destruct F.
Qed.

(** ** The numeric delta *)

Lemma sorted_strings_In x l : In x (Py.sorted_strings l) <-> In x l.
Proof.
  unfold Py.sorted_strings.
  split; apply Permutation_in;
    [|symmetry]; apply sorted_by_perm.
Qed.

Lemma set_diff_nil_r (l : list string) : Py.set_diff l [] = l.
Proof.
  unfold Py.set_diff. induction l as [|x l IH]; [reflexivity|].
  cbn [filter Py.mem existsb negb]. f_equal. exact IH.
Qed.

(** X4: the two lists of [_numeric_delta]: [added] holds the numbers of the
    new text that the old text lacks, [removed] those of the old text that
    the new lacks; no number is in both, neither list repeats a number,
    both are in increasing order of strings; exchanging the two texts
    exchanges the two lists, and a text against itself gives two empty
    lists. *)
Theorem numeric_delta_partitions (old_text new_text : string) :
  let added := fst (_numeric_delta old_text new_text) in
  let removed := snd (_numeric_delta old_text new_text) in
  (forall x, In x added <->
             In x (_extract_numbers new_text)
             /\ ~ In x (_extract_numbers old_text))
  /\ (forall x, In x removed <->
                In x (_extract_numbers old_text)
                /\ ~ In x (_extract_numbers new_text))
  /\ (forall x, In x added -> ~ In x removed)
  /\ NoDup added /\ NoDup removed
  /\ Sorted (fun x y => String.leb x y = true) added
  /\ Sorted (fun x y => String.leb x y = true) removed
  /\ _numeric_delta new_text old_text = (removed, added)
  /\ _numeric_delta old_text old_text = ([], []).
Proof.
  unfold _numeric_delta. cbn [fst snd].
  set (o := _extract_numbers old_text). set (n := _extract_numbers new_text).
  assert (Do : NoDup o) by apply set_of_NoDup.
  assert (Dn : NoDup n) by apply set_of_NoDup.
  assert (A : forall x, In x (Py.sorted_strings (Py.set_diff n o)) <->
                        In x n /\ ~ In x o)
    by (intros x; rewrite sorted_strings_In; apply set_diff_In).
  assert (R : forall x, In x (Py.sorted_strings (Py.set_diff o n)) <->
                        In x o /\ ~ In x n)
    by (intros x; rewrite sorted_strings_In; apply set_diff_In).
  assert (P : forall l : list string,
             NoDup l -> NoDup (Py.sorted_strings l)).
  { intros l D. eapply Permutation_NoDup; [|exact D].
    symmetry. apply sorted_by_perm. }
  split; [exact A|]. split; [exact R|].
  split; [intros x Ha Hr; apply A in Ha; apply R in Hr; tauto|].
  split; [apply P, NoDup_filter, Dn|].
  split; [apply P, NoDup_filter, Do|].
  split; [|split; [|split; [reflexivity|]]].
  - apply (@sorted_by_sorted _ _ (fun x : string => x) String.leb
             String.leb_total).
  - apply (@sorted_by_sorted _ _ (fun x : string => x) String.leb
             String.leb_total).
  - rewrite set_diff_self. reflexivity.
Qed.

(** ** The validator passes *)

Lemma operational_impact_step_fixed emb ch ch' :
  operational_impact_step emb ch = Ok ch' ->
  operational_impact_step emb ch' = Ok ch'.
Proof.
  intros H. pose proof (operational_impact_step_returns emb ch) as K.
  rewrite H in K. cbn [returns] in K.
  destruct K as [->|(_ & d & w & ->)]; [exact H|].
  unfold operational_impact_step.
  replace (is_true_change (downgrade ch d w)) with false by reflexivity.
  reflexivity.
Qed.

Lemma mapM_fixed {A : Type} (f : A -> result A) :
  (forall x y, f x = Ok y -> f y = Ok y) ->
  forall l out, mapM f l = Ok out -> mapM f out = Ok out.
Proof.
  intros F. induction l as [|x l IH]; intros out H; cbn [mapM] in H.
  - injection H as <-. reflexivity.
  - apply bind_ok in H. destruct H as (y & Hy & H).
    apply bind_ok in H. destruct H as (ys & Hys & H).
    injection H as <-. cbn [mapM].
    rewrite (F _ _ Hy). cbn [bind]. rewrite (IH _ Hys). reflexivity.
Qed.

(** What the operational-impact pass does to one record. *)
Lemma kept_or_downgraded_untouched before after :
  kept_or_downgraded before after ->
  Change.change_id after = Change.change_id before
  /\ (Change.type before <> "TRUE_CHANGE"%string -> after = before)
  /\ Change.old_text after = Change.old_text before
  /\ Change.new_text after = Change.new_text before.
Proof.
  intros [->|(T & d & w & ->)]; [tauto|].
  cbn. repeat split; try reflexivity. intros N. contradiction.
Qed.

(** X5: [_operational_impact_pass] returns as many records as it is given,
    in the same order and with the same identifiers and texts; a record that
    is not a TRUE_CHANGE comes out as it went in; and the pass run on its
    own result changes nothing. *)
Theorem operational_impact_pass_settles
  (emb : option (string -> string -> option Q)) (changes : list Change.t) :
  returns (_operational_impact_pass emb changes)
    (fun out =>
       _operational_impact_pass emb out = Ok out
       /\ List.length out = List.length changes
       /\ Forall2
            (fun before after =>
               Change.change_id after = Change.change_id before
               /\ (Change.type before <> "TRUE_CHANGE"%string -> after = before)
               /\ Change.old_text after = Change.old_text before
               /\ Change.new_text after = Change.new_text before)
            changes out).
Proof.
  pose proof (operational_impact_pass_returns emb changes) as R.
  destruct (returns_ok _ _ R) as (out & E & F).
  rewrite E. cbn [returns]. split; [|split].
  - unfold _operational_impact_pass in *.
    eapply mapM_fixed; [|exact E].
    intros x y. apply operational_impact_step_fixed.
  - symmetry. eapply Forall2_length, F.
  - clear E R. induction F as [|b a l l' H _ IH]; constructor.
    + apply kept_or_downgraded_untouched, H.
    + exact IH.
Qed.

Lemma capped_count l l' :
  Forall2 kept_or_capped l l' -> count_true l' <= count_true l.
Proof.
  unfold count_true.
  induction 1 as [|b a l l' H _ IH]; [reflexivity|].
  cbn [filter].
  assert (T : is_true_change a = true -> is_true_change b = true).
  { destruct H as [->|(T & _)]; [auto|].
    intros _. apply is_true_change_iff, T. }
  destruct (is_true_change a), (is_true_change b); cbn [List.length];
    try lia; discriminate (T eq_refl).
Qed.

(** X6: on records with distinct identifiers the volume cap settles in one
    run: capping the capped list changes nothing, and the list keeps its
    length, order and identifiers. *)
Theorem volume_cap_settles (changes : list Change.t) :
  NoDup (map Change.change_id changes) ->
  _cap_over_detection (_cap_over_detection changes 35) 35
  = _cap_over_detection changes 35
  /\ map Change.change_id (_cap_over_detection changes 35)
     = map Change.change_id changes
  /\ count_true (_cap_over_detection changes 35) <= count_true changes
  /\ count_true (_cap_over_detection changes 35) <= 50.
Proof.
  intros D.
  pose proof (capped_ids (cap_pointwise changes 35)) as I.
  pose proof (capped_count (cap_pointwise changes 35)) as M.
  destruct (Nat.le_gt_cases (count_true changes) 50) as [S|L].
  - rewrite !(@cap_small changes 35 S).
    repeat split; [lia | exact S].
  - pose proof (@cap_large changes 35 D L) as C.
    repeat split; [|exact I|exact M|lia].
    apply cap_small. lia.
Qed.

Lemma volume_cap_settles_witness :
  NoDup (map Change.change_id fifty_one)
  /\ _cap_over_detection (_cap_over_detection fifty_one 35) 35
     = _cap_over_detection fifty_one 35.
Proof.
  assert (D : NoDup (map Change.change_id fifty_one))
    by (apply distinct_NoDup; vm_compute; reflexivity).
  split; [exact D|].
  apply (volume_cap_settles fifty_one D).
Defined.

(** X7: [_true_change_confidence] lies between 0.4 and 1; a change of a
    numeric limit has confidence 1, a change of applicability 0.95. *)
Theorem true_change_confidence_range (ch : Change.t) :
  (0.4 <= _true_change_confidence ch)%Q
  /\ (_true_change_confidence ch <= 1)%Q
  /\ (Change.subtype ch = "Numeric limit changed"%string ->
      _true_change_confidence ch = 1%Q)
  /\ (Change.subtype ch = "Applicability changed"%string ->
      _true_change_confidence ch = 0.95%Q).
Proof.
  unfold _true_change_confidence.
  destruct (String.eqb_spec (Change.subtype ch) "Numeric limit changed")
    as [E1|N1].
  { split; [unfold Qle; cbn; lia|]. split; [unfold Qle; cbn; lia|].
    split; [reflexivity|]. rewrite E1. discriminate. }
  destruct (String.eqb_spec (Change.subtype ch) "Applicability changed")
    as [E2|N2].
  { split; [unfold Qle; cbn; lia|]. split; [unfold Qle; cbn; lia|].
    split; [contradiction | reflexivity]. }
  set (sim := Change.similarity_score ch).
  pose proof (pymax_ge 0 (0.1 - sim * 0.05)) as B.
  set (extra := pymax 0 (0.1 - sim * 0.05)) in *.
  set (text := spaced (Change.old_text ch) (Change.new_text ch)).
  split; [|split; [apply pymin_le | split; intros; contradiction]].
  unfold pymin, Qltb.
  destruct (_is_substantive_rule text),
           (_contains_regulatory_signal text),
           (Re.search true TIME_OR_UNIT_PATTERN text);
    match goal with
    | |- context [Qle_bool ?x ?y] =>
        destruct (Qle_bool x y) eqn:Q; cbn [negb]; cbv iota;
        [unfold Qle; cbn; lia | lra]
    end.
Qed.

Lemma settled_from_trans a b c :
  settled_from a b -> settled_from b c -> settled_from a c.
Proof.
  intros (I1 & H1) (I2 & H2). split; [congruence|].
  destruct H1 as [(T1 & S1 & V1)|(T1 & T1' & S1 & V1)],
           H2 as [(T2 & S2 & V2)|(T2 & T2' & S2 & V2)].
  - left. repeat split; congruence.
  - right. repeat split; congruence.
  - right. repeat split; congruence.
  - rewrite T1' in T2. discriminate.
Qed.

Lemma kept_or_downgraded_settled a b :
  kept_or_downgraded a b -> settled_from a b.
Proof.
  intros [->|(T & d & w & ->)]; split; try reflexivity.
  - left. auto.
  - right. cbn. auto.
Qed.

Lemma kept_or_capped_settled a b : kept_or_capped a b -> settled_from a b.
Proof.
  intros [->|(T & I & H)]; split; try reflexivity; try exact I.
  - left. auto.
  - right. tauto.
Qed.

Lemma same_identity_settled a b : same_identity a b -> settled_from a b.
Proof.
  intros (I & T & S & V). split; [exact I|]. left. auto.
Qed.

(** X8: [_validate_changes] makes no record and promotes none: each record
    it returns has the identifier of a record it was given, with the type,
    subtype and severity of that record, or, that record being a
    TRUE_CHANGE, as a SEMANTIC_MINOR clarification of severity MINOR.  So a
    TRUE_CHANGE that comes out went in as a TRUE_CHANGE, with the severity it
    comes out with. *)
Theorem validation_never_promotes
  (emb : option (string -> string -> option Q)) (changes : list Change.t)
  (strict include : bool) :
  returns (_validate_changes emb changes strict include)
    (fun out =>
       Forall (fun c => exists c0, In c0 changes /\ settled_from c0 c) out
       /\ Forall (fun c =>
                    Change.type c = "TRUE_CHANGE"%string ->
                    exists c0, In c0 changes
                               /\ Change.change_id c0 = Change.change_id c
                               /\ Change.type c0 = "TRUE_CHANGE"%string
                               /\ Change.severity c0 = Change.severity c)
            out).
Proof.
  eapply returns_weaken; [apply validate_returns|].
  intros out (v1 & v2 & H1 & (kept & Sub & H2) & ->).
  assert (A : Forall (fun c => exists c0, In c0 changes /\ settled_from c0 c)
                (filter (visible strict include) (_cap_over_detection v2 35))).
  { apply Forall_forall. intros c Hc. apply filter_In in Hc.
    destruct Hc as [Hc _].
    destruct (@Forall2_In_r _ _ _ _ _ c (cap_pointwise v2 35) Hc)
      as (c2 & I2 & R2).
    destruct (@Forall2_In_r _ _ _ _ _ c2 H2 I2) as (k & Ik & Rk).
    apply (@subseq_In _ _ _ k Sub) in Ik.
    destruct (@Forall2_In_r _ _ _ _ _ k H1 Ik) as (c0 & I0 & R0).
    exists c0. split; [exact I0|].
    eapply settled_from_trans; [apply kept_or_downgraded_settled, R0|].
    eapply settled_from_trans; [apply same_identity_settled, Rk|].
    apply kept_or_capped_settled, R2. }
  split; [exact A|].
  eapply Forall_impl; [|exact A].
  intros c (c0 & I0 & Id & H) T. exists c0.
  destruct H as [(T0 & _ & V0)|(_ & T' & _)].
  - repeat split; congruence.
  - rewrite T in T'. discriminate.
Qed.

(** ** Accepted pairs *)

Lemma greedy_recorded (P : string * string * Q -> Prop) (G : scored -> Prop)
  thr eff pairs :
  Forall G pairs ->
  (forall x, G x -> (thr <= score_of x)%Q ->
             P (oid_of x, nid_of x, eff (score_of x))) ->
  forall m, Forall P (matches m) ->
            Forall P (matches (greedy thr eff pairs m)).
Proof.
  intros HG HP. induction HG as [|[[s o] n] pairs Hx _ IH]; intros m Hm.
  - exact Hm.
  - cbn [greedy]. unfold Qltb.
    destruct (Qle_bool thr s) eqn:E; cbn [negb]; [|exact Hm].
    destruct (Py.mem o (matched_old m) || Py.mem n (matched_new m));
      [apply IH, Hm|].
    apply IH. cbn [matches]. apply Forall_app. split; [exact Hm|].
    constructor; [|constructor].
    apply (HP _ Hx). apply Qle_bool_iff, E.
Qed.

Lemma sort_pairs_Forall (G : scored -> Prop) xs :
  Forall G xs -> Forall G (sort_pairs xs).
Proof.
  intros H. apply Forall_forall. intros x Hx.
  rewrite Forall_forall in H. apply H.
  eapply Permutation_in; [|exact Hx]. apply sorted_by_reverse_perm.
Qed.

Lemma Forall2_Forall_r {A B : Type} (R : A -> B -> Prop) (G : B -> Prop)
  l l' :
  (forall a b, R a b -> G b) -> Forall2 R l l' -> Forall G l'.
Proof. intros H. induction 1; constructor; eauto. Qed.

(** X9: every pair [(oid, nid, score)] that the matching stage of
    [compare_sections] accepts is recorded with the score of these two
    sections, which met the threshold of its pass and lies between 0 and 1:
    for a pair of the first pass, [score] is [_pair_score] of the sections
    under [oid] and [nid] and is at least [match_threshold]; for a pair of
    the heading fallback, [score] is 0.92 times [lexical_similarity] of the
    two headings, which is at least [heading_fallback_threshold]. *)
Theorem accepted_pairs_meet_threshold
  (emb : option (string -> string -> option Q)) (cfg : config)
  (old_sections new_sections : sections) :
  returns (match_sections emb cfg old_sections new_sections)
    (fun m => Forall (accepted emb cfg old_sections new_sections) (matches m)).
Proof.
  unfold match_sections.
  eapply returns_bind; [apply score_pairs_returns|]. intros sp Hsp.
  eapply returns_bind; [apply heading_pairs_returns|]. intros hp Hhp.
  cbn [returns].
  apply (@greedy_recorded _
           (fun x => exists p, heading_from old_sections new_sections p x)).
  - apply sort_pairs_Forall.
    eapply Forall2_Forall_r; [|exact Hhp].
    intros p x H. exists p. exact H.
  - intros x (p & Ho & Hn & o & n & Eo & En & Eh & U0 & U1) T.
    unfold oid_of, nid_of, score_of in *.
    exists o, n. cbn [old_of new_of fst snd].
    rewrite Ho, Hn. split; [exact Eo|]. split; [exact En|]. split.
    + unfold in_unit. split; lra.
    + right. exists (fst (fst x)). split; [exact Eh|].
      split; [reflexivity | exact T].
  - apply (@greedy_recorded _
             (fun x => exists p, scored_from emb old_sections new_sections p x)).
    + apply sort_pairs_Forall.
      eapply Forall2_Forall_r; [|exact Hsp].
      intros p x H. exists p. exact H.
    + intros x (p & Ho & Hn & o & n & Eo & En & Es & U) T.
      unfold oid_of, nid_of, score_of in *.
      exists o, n. cbn [old_of new_of fst snd].
      rewrite Ho, Hn. split; [exact Eo|]. split; [exact En|].
      split; [exact U|]. left. split; [exact Es | exact T].
    + constructor.
Qed.

Lemma best_of_step emb section done st cid cand :
  best_of emb section done st ->
  returns
    ((fun (st : best) (item : string * Sec.t) =>
        let '(best_id, best_sem, best_head, best_combo) := st in
        let '(cid, cand) := item in
        let cand_text := _comparison_text cand in
        let cand_heading := heading_of cand in
        sem <- semantic_similarity emb (_comparison_text section) cand_text ;;
        head <- lexical_similarity (heading_of section) cand_heading ;;
        let combo := (0.75 * sem + 0.25 * head)%Q in
        if Qgtb combo best_combo
        then Ok (Some cid, sem, head, combo)
        else Ok st) st (cid, cand))
    (best_of emb section (done ++ [(cid, cand)])).
Proof.
  intros J. destruct st as [[[bid bsem] bhead] bcombo].
  destruct (returns_ok _ _ (semantic_unit emb (_comparison_text section)
                              (_comparison_text cand)))
    as (sem & Es & Us0 & Us1).
  destruct (returns_ok _ _ (lexical_unit (heading_of section)
                              (heading_of cand)))
    as (head & Eh & Uh0 & Uh1).
  cbv beta iota zeta.
  rewrite Es. cbn [bind]. rewrite Eh. cbn [bind].
  assert (C : combo_with emb section cand = Ok (0.75 * sem + 0.25 * head)%Q).
  { unfold combo_with. rewrite Es. cbn [bind]. rewrite Eh. reflexivity. }
  unfold Qgtb.
  destruct (Qle_bool (0.75 * sem + 0.25 * head) bcombo) eqn:Q; cbn [negb].
  - (* the state is kept *)
    apply Qle_bool_iff in Q.
    unfold best_of in *. cbn [fst snd] in *.
    destruct bid as [id|].
    + destruct J as (c0 & I0 & S0 & H0 & C0 & F0).
      exists c0. split; [apply in_or_app; left; exact I0|].
      repeat split; try assumption.
      apply Forall_app. split; [exact F0|].
      constructor; [|constructor]. cbn [snd]. rewrite C. exact Q.
    + destruct J as (_ & J). injection J as _ _ J. subst bcombo.
      exfalso. lra.
  - (* the candidate is taken *)
    assert (L : (bcombo < 0.75 * sem + 0.25 * head)%Q).
    { apply Qnot_le_lt. intros H. apply Qle_bool_iff in H. congruence. }
    unfold best_of in *. cbn [fst snd] in *.
    exists cand. split; [apply in_or_app; right; left; reflexivity|].
    repeat split; try assumption.
    apply Forall_app. split.
    + destruct bid as [id|].
      * destruct J as (c0 & _ & _ & _ & _ & F0).
        eapply Forall_impl; [|exact F0].
        intros item H. eapply returns_weaken; [exact H|].
        cbn beta. intros c Hc. cbn [snd]. lra.
      * destruct J as (-> & _). constructor.
    + constructor; [|constructor]. cbn [snd]. rewrite C. cbn [returns].
      apply Qle_refl.
Qed.

(** X10: [_best_persistence_match] returns; with no candidates it returns
    [(None, -1.0, -1.0, -1.0)]; otherwise [best_id] is the key of a
    candidate, [best_sem] and [best_head] are the two scores of that
    candidate, [best_combo] is its [0.75 * sem + 0.25 * head], and no
    candidate has a greater combined score. *)
Theorem best_persistence_match_is_a_maximum
  (emb : option (string -> string -> option Q)) (section : Sec.t)
  (candidates : sections) :
  returns (_best_persistence_match emb section candidates)
    (best_of emb section candidates)
  /\ _best_persistence_match emb section []
     = Ok (None, (-1)%Q, (-1)%Q, (-1)%Q).
Proof.
  split; [|reflexivity].
  unfold _best_persistence_match.
  match goal with
  | |- returns (foldM ?F _ _) _ => set (step := F)
  end.
  assert (G : forall rest done st,
             best_of emb section done st ->
             returns (foldM step rest st)
               (best_of emb section (done ++ rest))).
  { induction rest as [|[cid cand] rest IH]; intros done st J.
    - rewrite app_nil_r. exact J.
    - cbn [foldM]. eapply returns_bind.
      + exact (@best_of_step emb section done st cid cand J).
      + intros st' J'. cbn beta.
        replace (done ++ (cid, cand) :: rest)%list
          with ((done ++ [(cid, cand)]) ++ rest)%list
          by (rewrite <- app_assoc; reflexivity).
        apply IH, J'. }
  apply (G candidates [] (None, (-1)%Q, (-1)%Q, (-1)%Q)).
  unfold best_of. cbn [fst snd]. auto.
Qed.

(** ** The final sort and the final filter *)

Lemma string_leb_trans s1 s2 s3 :
  String.leb s1 s2 = true -> String.leb s2 s3 = true ->
  String.leb s1 s3 = true.
Proof.
  unfold String.leb. revert s2 s3.
  induction s1 as [|c1 s1 IH]; intros [|c2 s2] [|c3 s3];
    cbn [String.compare]; try reflexivity; try discriminate.
  unfold Ascii.compare.
  destruct (N.compare_spec (N_of_ascii c1) (N_of_ascii c2)) as [E12|L12|G12];
    destruct (N.compare_spec (N_of_ascii c2) (N_of_ascii c3)) as [E23|L23|G23];
    destruct (N.compare_spec (N_of_ascii c1) (N_of_ascii c3)) as [E13|L13|G13];
    try discriminate; try reflexivity; try lia; try (intros; reflexivity).
  apply IH.
Qed.

Lemma key_le_trans k1 k2 k3 :
  key_le k1 k2 = true -> key_le k2 k3 = true -> key_le k1 k3 = true.
Proof.
  unfold key_le. destruct k1 as [r1 s1], k2 as [r2 s2], k3 as [r3 s3].
  cbn [fst snd].
  rewrite !orb_true_iff, !andb_true_iff, !Nat.ltb_lt, !Nat.eqb_eq.
  intros [H1|[H1 L1]] [H2|[H2 L2]].
  - left. lia.
  - left. lia.
  - left. lia.
  - right. split; [lia|]. eapply string_leb_trans; eassumption.
Qed.

Section SortFilter.
Variables (A K : Type) (key : A -> K) (le : K -> K -> bool).
Hypothesis le_total : forall k1 k2, le k1 k2 = true \/ le k2 k1 = true.
Hypothesis le_trans :
  forall k1 k2 k3, le k1 k2 = true -> le k2 k3 = true -> le k1 k3 = true.
Variable p : A -> bool.

Lemma insert_asc_first x l :
  (forall y, In y l -> le (key x) (key y) = true) ->
  Py.insert_asc key le x l = x :: l.
Proof.
  destruct l as [|y l]; intros H; cbn [Py.insert_asc]; [reflexivity|].
  rewrite (H y) by (left; reflexivity). reflexivity.
Qed.

Lemma filter_insert_asc x l :
  StronglySorted (fun a b => le (key a) (key b) = true) l ->
  filter p (Py.insert_asc key le x l)
  = if p x then Py.insert_asc key le x (filter p l) else filter p l.
Proof.
  induction 1 as [|y l S IH F]; cbn [Py.insert_asc filter].
  - destruct (p x); reflexivity.
  - destruct (le (key x) (key y)) eqn:E; cbn [filter].
    + destruct (p x); [|reflexivity].
      symmetry. apply insert_asc_first.
      intros z Hz.
      assert (Hz' : In z (y :: l)).
      { destruct (p y); [|right; apply filter_In in Hz; tauto].
        destruct Hz as [<-|Hz]; [left; reflexivity|].
        right. apply filter_In in Hz. tauto. }
      destruct Hz' as [<-|Hz']; [exact E|].
      rewrite Forall_forall in F. eapply le_trans; [exact E|].
      apply F, Hz'.
    + rewrite IH. destruct (p y), (p x); cbn [Py.insert_asc];
        rewrite ?E; reflexivity.
Qed.

Lemma filter_sorted_by l :
  filter p (Py.sorted_by key le l) = Py.sorted_by key le (filter p l).
Proof.
  induction l as [|x l IH]; [reflexivity|].
  cbn [Py.sorted_by filter]. rewrite filter_insert_asc.
  - rewrite IH. destruct (p x); reflexivity.
  - apply Sorted_StronglySorted.
    + intros a b c. apply le_trans.
    + apply sorted_by_sorted, le_total.
Qed.
End SortFilter.

Lemma filter_filter_weaker {A : Type} (p q : A -> bool) l :
  (forall x, p x = true -> q x = true) ->
  filter p (filter q l) = filter p l.
Proof.
  intros H. induction l as [|x l IH]; [reflexivity|].
  cbn [filter]. destruct (q x) eqn:Q; cbn [filter]; rewrite IH.
  - reflexivity.
  - destruct (p x) eqn:P; [|reflexivity].
    apply H in P. congruence.
Qed.

Lemma visible_weakest strict include c :
  visible strict include c = true -> visible false false c = true.
Proof.
  unfold visible. destruct (String.eqb (Change.type c) "NOISE"); [auto|].
  reflexivity.
Qed.

Lemma visible_strict c : visible true false c = is_true_change c.
Proof.
  unfold visible, is_true_change.
  destruct (String.eqb_spec (Change.type c) "NOISE") as [E|N].
  - rewrite E. reflexivity.
  - cbn [andb negb].
    destruct (String.eqb (Change.type c) "TRUE_CHANGE"); reflexivity.
Qed.

(** X11: the two flags of [compare_sections] only select among the records
    of one full report.  With the thresholds fixed, whatever [strict_mode]
    and [include_non_true] are, the call leaves the generator and the
    mappings as the call without the flags does, and returns the records of
    that call's list that the flags let through, in the same order; in
    strict mode without [include_non_true] these are its TRUE_CHANGE
    records. *)
Theorem flags_only_select
  (emb : option (string -> string -> option Q)) (cfg : config)
  (old_sections new_sections : sections) (gen : nat) :
  returns
    (compare_sections emb (with_flags cfg false false)
       old_sections new_sections gen)
    (fun full =>
       (forall strict include,
          compare_sections emb (with_flags cfg strict include)
            old_sections new_sections gen
          = Ok (mk_outcome
                  (filter (visible strict include) (returned full))
                  (gen_after full) (old_after full) (new_after full)))
       /\ compare_sections emb (with_flags cfg true false)
            old_sections new_sections gen
          = Ok (mk_outcome (filter is_true_change (returned full))
                  (gen_after full) (old_after full) (new_after full))).
Proof.
  assert (G : returns
    (compare_sections emb (with_flags cfg false false)
       old_sections new_sections gen)
    (fun full =>
       forall strict include,
          compare_sections emb (with_flags cfg strict include)
            old_sections new_sections gen
          = Ok (mk_outcome
                  (filter (visible strict include) (returned full))
                  (gen_after full) (old_after full) (new_after full)))).
  { unfold compare_sections.
    change (match_sections emb (with_flags cfg false false))
      with (match_sections emb cfg).
    destruct (match_sections emb cfg (stamp old_sections)
                (stamp new_sections)) as [m|e] eqn:Em.
    2:{ pose proof (match_sections_returns emb cfg (stamp old_sections)
                      (stamp new_sections)) as R.
        rewrite Em in R. destruct R. }
    cbn [bind].
    change (classify_all emb (with_flags cfg false false))
      with (classify_all emb cfg).
    destruct (classify_all emb cfg (stamp old_sections) (stamp new_sections)
                m gen) as [st|e] eqn:Ec.
    2:{ pose proof (compare_sections_returns emb cfg old_sections
                      new_sections gen) as R.
        unfold compare_sections in R. rewrite Em in R. cbn [bind] in R.
        rewrite Ec in R. destruct R. }
    cbn [bind]. unfold _validate_changes.
    destruct (_operational_impact_pass emb (fst st)) as [v1|e] eqn:E1.
    2:{ pose proof (operational_impact_pass_returns emb (fst st)) as R.
        rewrite E1 in R. destruct R. }
    cbn [bind].
    destruct (_dedupe_by_topic emb v1) as [v2|e] eqn:E2.
    2:{ pose proof (dedupe_returns emb v1) as R.
        rewrite E2 in R. destruct R. }
    cbn [bind returns returned gen_after old_after new_after].
    intros strict include.
    change (match_sections emb (with_flags cfg strict include))
      with (match_sections emb cfg).
    rewrite Em. cbn [bind].
    change (classify_all emb (with_flags cfg strict include))
      with (classify_all emb cfg).
    rewrite Ec. cbn [bind]. rewrite E1. cbn [bind]. rewrite E2.
    cbn [bind with_flags strict_mode include_non_true].
    f_equal. f_equal.
    rewrite (@filter_sorted_by _ _ sort_key key_le key_le_total key_le_trans).
    rewrite filter_filter_weaker by apply visible_weakest.
    reflexivity. }
  eapply returns_weaken; [exact G|].
  intros full H. split; [exact H|].
  rewrite H. do 2 f_equal. apply filter_ext, visible_strict.
Qed.

(** ** Vocabulary of the regular expressions *)

Lemma span_le p s : span p s <= List.length s.
Proof.
  induction s as [|c s IH]; cbn [span List.length]; [lia|].
  destruct (p c); lia.
Qed.

Lemma plus_span (p : ascii -> bool) (n0 : nat) s c :
  p c = true ->
  Re.plus p (fun _ rest => Some (n0 - List.length rest)) (c :: s)
  = Some (n0 - (List.length s - span p s)).
Proof.
  revert c. induction s as [|d s IH]; intros c Hc.
  - cbn [Re.plus]. rewrite Hc. reflexivity.
  - specialize (IH d). cbn [Re.plus] in *. rewrite Hc.
    destruct (p d) eqn:Hd.
    + rewrite (IH eq_refl). cbn [span List.length]. rewrite Hd.
      f_equal; try lia.
    + cbn [span List.length]. rewrite Hd. f_equal; try lia.
Qed.

Lemma match_len_plus icase p prev c s :
  Re.match_len icase (Re.Plus p) prev (c :: s)
  = if p c then Some (S (span p s)) else None.
Proof.
  unfold Re.match_len. cbn [Re.run].
  destruct (p c) eqn:Hc.
  - rewrite plus_span by exact Hc. f_equal. cbn [List.length].
    pose proof (span_le p s). lia.
  - cbn [Re.plus]. rewrite Hc. reflexivity.
Qed.

Lemma written_matched repl m ps :
  written repl (Re.Matched m :: ps) = (Py.chars repl ++ written repl ps)%list.
Proof. reflexivity. Qed.

Lemma written_other repl c ps :
  written repl (Re.Other c :: ps) = c :: written repl ps.
Proof. reflexivity. Qed.

Lemma scan_squeeze s :
  (forall prev,
     written " " (Re.scan false (Re.Plus Py.isspace) 0 prev s)
     = squeeze false s)
  /\ (forall prev,
        written " " (Re.scan false (Re.Plus Py.isspace)
                       (span Py.isspace s) prev s)
        = squeeze true s).
Proof.
  induction s as [|c s [IH0 IH1]]; [split; reflexivity|].
  assert (A : forall prev,
             written " " (Re.scan false (Re.Plus Py.isspace) 0 prev (c :: s))
             = squeeze false (c :: s)).
  { intros prev. cbn [Re.scan]. rewrite match_len_plus.
    cbn [squeeze]. destruct (Py.isspace c); cbv beta iota.
    - rewrite written_matched, IH1. reflexivity.
    - rewrite written_other, IH0. reflexivity. }
  split; [exact A|].
  intros prev. cbn [span]. destruct (Py.isspace c) eqn:E.
  - cbn [Re.scan squeeze]. rewrite E. apply IH1.
  - rewrite A. cbn [squeeze]. rewrite E. reflexivity.
Qed.

(** [SPACE_RE.sub(" ", s)] squeezes every run of white space. *)
Lemma sub_space s :
  Re.sub false (Re.Plus Py.isspace) " " s
  = Py.str (squeeze false (Py.chars s)).
Proof.
  unfold Re.sub, Re.pieces. f_equal.
  apply (proj1 (scan_squeeze (Py.chars s)) None).
Qed.

Lemma squeeze_single_spaced b s : single_spaced b (squeeze b s) = true.
Proof.
  revert b. induction s as [|c s IH]; intros b; [reflexivity|].
  cbn [squeeze]. destruct (Py.isspace c) eqn:E.
  - destruct b; [apply IH|].
    cbn [single_spaced]. replace (Py.isspace " ") with true by reflexivity.
    rewrite IH. reflexivity.
  - cbn [single_spaced]. rewrite E. apply IH.
Qed.

Lemma isspace_eqb_space c :
  Ascii.eqb c " "%char = true -> Py.isspace c = true.
Proof.
  intros H. apply Ascii.eqb_eq in H. subst c. reflexivity.
Qed.

Lemma squeeze_fixed b s : single_spaced b s = true -> squeeze b s = s.
Proof.
  revert b. induction s as [|c s IH]; intros b H; [reflexivity|].
  cbn [single_spaced squeeze] in *. destruct (Py.isspace c) eqn:E.
  - apply andb_true_iff in H. destruct H as [H H2].
    apply andb_true_iff in H. destruct H as [H0 H1].
    apply Ascii.eqb_eq in H0. subst c.
    destruct b; [discriminate|]. rewrite (IH _ H2). reflexivity.
  - rewrite (IH _ H). reflexivity.
Qed.

Lemma single_spaced_weaken s :
  single_spaced true s = true -> single_spaced false s = true.
Proof.
  destruct s as [|c s]; [reflexivity|]. cbn [single_spaced].
  destruct (Py.isspace c); [|auto].
  rewrite andb_false_r. discriminate.
Qed.

Lemma squeeze_idempotent s :
  squeeze false (squeeze false s) = squeeze false s.
Proof. apply squeeze_fixed, squeeze_single_spaced. Qed.

Lemma squeeze_lower b s :
  squeeze b (Py.lower_chars s) = Py.lower_chars (squeeze b s).
Proof.
  revert b. induction s as [|c s IH]; intros b; [reflexivity|].
  cbn [Py.lower_chars map squeeze]. rewrite isspace_lower.
  destruct (Py.isspace c).
  - destruct b; [apply IH|]. cbn [map]. f_equal. apply IH.
  - cbn [map]. f_equal. apply IH.
Qed.

Lemma lower_char_idempotent c :
  Py.lower_char (Py.lower_char c) = Py.lower_char c.
Proof.
  destruct c as [[] [] [] [] [] [] [] []]; vm_compute; reflexivity.
Qed.

Lemma lower_chars_idempotent s :
  Py.lower_chars (Py.lower_chars s) = Py.lower_chars s.
Proof.
  unfold Py.lower_chars. rewrite map_map. apply map_ext.
  intros c. apply lower_char_idempotent.
Qed.

Lemma lstrip_squeeze b s :
  Py.lstrip_chars (squeeze b s) = squeeze false (Py.lstrip_chars s).
Proof.
  revert b. induction s as [|c s IH]; intros b; [reflexivity|].
  cbn [squeeze Py.lstrip_chars]. destruct (Py.isspace c) eqn:E.
  - destruct b; [apply IH|].
    cbn [Py.lstrip_chars]. replace (Py.isspace " ") with true by reflexivity.
    apply IH.
  - cbn [Py.lstrip_chars squeeze]. rewrite E. reflexivity.
Qed.

Lemma lstrip_app_cases y z :
  Py.lstrip_chars (y ++ z)
  = match Py.lstrip_chars y with
    | [] => Py.lstrip_chars z
    | r => r ++ z
    end.
Proof.
  induction y as [|c y IH]; cbn [app Py.lstrip_chars].
  - destruct (Py.lstrip_chars z); reflexivity.
  - destruct (Py.isspace c); [exact IH | reflexivity].
Qed.

Lemma rstrip_cons c t :
  Py.rstrip_chars (c :: t)
  = match Py.rstrip_chars t with
    | [] => if Py.isspace c then [] else [c]
    | r => c :: r
    end.
Proof.
  unfold Py.rstrip_chars. cbn [rev]. rewrite lstrip_app_cases.
  destruct (Py.lstrip_chars (rev t)) as [|x r] eqn:E.
  - cbn [rev Py.lstrip_chars]. destruct (Py.isspace c); reflexivity.
  - rewrite rev_app_distr. cbn [rev app].
    destruct (rev r ++ [x])%list eqn:E'; [|reflexivity].
    apply app_eq_nil in E'. destruct E' as [_ E']. discriminate.
Qed.

Lemma squeeze_true_nil s :
  squeeze true s = [] -> Py.rstrip_chars s = [].
Proof.
  induction s as [|c s IH]; [reflexivity|].
  cbn [squeeze]. destruct (Py.isspace c) eqn:E; [|discriminate].
  intros H. rewrite rstrip_cons, (IH H), E. reflexivity.
Qed.

Lemma rstrip_squeeze b s :
  Py.rstrip_chars (squeeze b s) = squeeze b (Py.rstrip_chars s).
Proof.
  revert b. induction s as [|c s IH]; intros b; [reflexivity|].
  cbn [squeeze]. rewrite (rstrip_cons c s).
  destruct (Py.isspace c) eqn:E.
  - destruct b.
    + rewrite IH. destruct (Py.rstrip_chars s) as [|x r] eqn:R;
        [reflexivity|].
      cbn [squeeze]. rewrite E. reflexivity.
    + rewrite rstrip_cons, IH.
      replace (Py.isspace " ") with true by reflexivity.
      destruct (Py.rstrip_chars s) as [|x r] eqn:R; [reflexivity|].
      set (Y := x :: r) in *.
      assert (H : squeeze false (c :: Y) = " "%char :: squeeze true Y)
        by (cbn [squeeze]; rewrite E; reflexivity).
      rewrite H.
      destruct (squeeze true Y) as [|y q] eqn:Q; [|reflexivity].
      apply squeeze_true_nil in Q.
      assert (F : Py.rstrip_chars (Py.rstrip_chars s) = []) by
        (rewrite R; exact Q).
      rewrite rstrip_idempotent, R in F. discriminate.
  - rewrite rstrip_cons_nonspace by exact E. rewrite IH.
    destruct (Py.rstrip_chars s) as [|x r] eqn:R; cbn [squeeze]; rewrite E;
      reflexivity.
Qed.

Lemma strip_squeeze s :
  Py.strip_chars (squeeze false s) = squeeze false (Py.strip_chars s).
Proof.
  unfold Py.strip_chars. rewrite lstrip_squeeze, rstrip_squeeze. reflexivity.
Qed.

(** [normalize_text] through [squeeze]. *)
Lemma normalize_text_chars text :
  normalize_text text
  = Py.str (squeeze false (Py.strip_chars (Py.lower_chars (Py.chars text)))).
Proof.
  unfold normalize_text, SemanticUtils.SPACE_RE. rewrite sub_space.
  unfold Py.strip, Py.lower. rewrite !chars_str. reflexivity.
Qed.

Lemma normalize_text_idempotent text :
  normalize_text (normalize_text text) = normalize_text text.
Proof.
  rewrite (normalize_text_chars (normalize_text text)).
  rewrite normalize_text_chars, chars_str.
  set (L := Py.lower_chars (Py.chars text)).
  rewrite <- squeeze_lower, strip_squeeze, squeeze_idempotent.
  rewrite (strip_lower (Py.strip_chars L)), strip_idempotent, <- strip_lower.
  unfold L. rewrite lower_chars_idempotent. reflexivity.
Qed.

Lemma normalize_agree text : _normalize text = normalize_text text.
Proof.
  unfold _normalize, normalize_text, SPACE_RE, SemanticUtils.SPACE_RE.
  f_equal. unfold Py.strip, Py.lower. rewrite !chars_str, strip_lower.
  reflexivity.
Qed.

(** X12: [normalize_text] computes a normal form, and [_normalize] of
    [compare_sections.py] computes the same one: the result has no
    upper-case letter, no white space at either end and no white space but
    single spaces; a text in that form is returned as it is, so that
    normalising twice is normalising once. *)
Theorem normalize_text_is_a_normal_form (text : string) :
  normal (normalize_text text)
  /\ normalize_text (normalize_text text) = normalize_text text
  /\ _normalize text = normalize_text text
  /\ (forall s, normal s -> normalize_text s = s).
Proof.
  split; [|split; [apply normalize_text_idempotent
                  |split; [apply normalize_agree|]]].
  - unfold normal. rewrite normalize_text_chars.
    unfold Py.lower, Py.strip. rewrite !chars_str.
    split; [|split].
    + rewrite <- squeeze_lower, strip_lower, lower_chars_idempotent.
      reflexivity.
    + rewrite strip_squeeze, strip_idempotent. reflexivity.
    + set (l := Py.strip_chars (Py.lower_chars (Py.chars text))).
      assert (T : Py.lstrip_chars l = l).
      { unfold l, Py.strip_chars.
        destruct (lstrip_head (Py.lower_chars (Py.chars text)))
          as [E|(c & t & E & Hc)]; rewrite E; [reflexivity|].
        rewrite rstrip_cons_nonspace by exact Hc.
        cbn [Py.lstrip_chars]. rewrite Hc. reflexivity. }
      destruct l as [|c l]; [reflexivity|].
      cbn [Py.lstrip_chars] in T. cbn [squeeze].
      destruct (Py.isspace c) eqn:E.
      * exfalso.
        assert (L : List.length (Py.lstrip_chars l) <= List.length l).
        { clear. induction l as [|x l IH]; cbn [Py.lstrip_chars];
            [lia|]. destruct (Py.isspace x); cbn [List.length]; lia. }
        rewrite T in L. cbn [List.length] in L. lia.
      * cbn [single_spaced]. rewrite E. apply squeeze_single_spaced.
  - intros s (L & S & T). rewrite normalize_text_chars.
    unfold Py.lower in L. unfold Py.strip in S.
    apply (f_equal Py.chars) in L, S. rewrite chars_str in L, S.
    rewrite L, S.
    rewrite squeeze_fixed by apply single_spaced_weaken, T.
    apply str_chars.
Qed.

Lemma tokenize_normal text : tokenize (normalize_text text) = tokenize text.
Proof.
  unfold tokenize. rewrite normalize_text_idempotent. reflexivity.
Qed.

Lemma jaccard_reads_normal a a' b b' :
  normalize_text a = normalize_text a' ->
  normalize_text b = normalize_text b' ->
  jaccard_similarity a b = jaccard_similarity a' b'.
Proof.
  intros Ha Hb. unfold jaccard_similarity, tokenize.
  rewrite Ha, Hb. reflexivity.
Qed.

Lemma lexical_reads_normal a a' b b' :
  normalize_text a = normalize_text a' ->
  normalize_text b = normalize_text b' ->
  lexical_similarity a b = lexical_similarity a' b'.
Proof.
  intros Ha Hb. unfold lexical_similarity. rewrite Ha, Hb. reflexivity.
Qed.

Lemma normalize_text_lower text :
  normalize_text (Py.lower text) = normalize_text text.
Proof.
  rewrite !normalize_text_chars. unfold Py.lower.
  rewrite chars_str, lower_chars_idempotent. reflexivity.
Qed.

(** X13: the similarity scores read their arguments through
    [normalize_text] only: two pairs of texts with the same normal forms
    get the same [lexical_similarity], the same [jaccard_similarity] and,
    without the embedding backend, the same [semantic_similarity]; so the
    scores do not change when letters change case, when runs of white space
    change length, or when a text is replaced by its normal form. *)
Theorem similarity_reads_normal_forms (a a' b b' : string) :
  normalize_text a = normalize_text a' ->
  normalize_text b = normalize_text b' ->
  lexical_similarity a b = lexical_similarity a' b'
  /\ jaccard_similarity a b = jaccard_similarity a' b'
  /\ semantic_similarity offline a b = semantic_similarity offline a' b'
  /\ tokenize a = tokenize a'
  /\ lexical_similarity (Py.lower a) (normalize_text b)
     = lexical_similarity a b.
Proof.
  intros Ha Hb.
  split; [apply lexical_reads_normal; assumption|].
  split; [apply jaccard_reads_normal; assumption|].
  split; [rewrite !semantic_offline; apply lexical_reads_normal; assumption|].
  split; [unfold tokenize; rewrite Ha; reflexivity|].
  apply lexical_reads_normal.
  - apply normalize_text_lower.
  - apply normalize_text_idempotent.
Qed.

Lemma similarity_reads_normal_forms_witness :
  normalize_text "Flight  DUTY period " = normalize_text "flight duty period"
  /\ normalize_text "Rest" = normalize_text " rest"
  /\ lexical_similarity "Flight  DUTY period " "Rest"
     = lexical_similarity "flight duty period" " rest".
Proof.
  assert (Ha : normalize_text "Flight  DUTY period "
               = normalize_text "flight duty period")
    by (vm_compute; reflexivity).
  assert (Hb : normalize_text "Rest" = normalize_text " rest")
    by (vm_compute; reflexivity).
  split; [exact Ha|]. split; [exact Hb|].
  apply (@similarity_reads_normal_forms _ _ _ _ Ha Hb).
Defined.

Lemma normalize_idempotent text : _normalize (_normalize text) = _normalize text.
Proof. rewrite !normalize_agree. apply normalize_text_idempotent. Qed.

(** X14: the signals that drive the classification read a text through
    [_normalize] only: [_contains_regulatory_signal],
    [_contains_scope_signal], [_is_substantive_rule] and [_looks_like_noise]
    give the same answer on a text and on its normal form, whatever the case
    of its letters and the length of its runs of white space. *)
Theorem signals_read_normal_forms (text : string) :
  _contains_regulatory_signal (_normalize text)
  = _contains_regulatory_signal text
  /\ _contains_scope_signal (_normalize text) = _contains_scope_signal text
  /\ _is_substantive_rule (_normalize text) = _is_substantive_rule text
  /\ _looks_like_noise (_normalize text) = _looks_like_noise text
  /\ _looks_like_noise (Py.lower text) = _looks_like_noise text.
Proof.
  assert (N : forall t, _looks_like_noise (_normalize t) = _looks_like_noise t).
  { intros t. unfold _looks_like_noise. rewrite normalize_idempotent.
    destruct (Py.is_empty (_normalize t)) eqn:E.
    - destruct (_normalize t); [|discriminate].
      destruct (Py.is_empty t); reflexivity.
    - destruct (Py.is_empty t) eqn:E'; [|reflexivity].
      destruct t; [|discriminate]. discriminate. }
  split; [|split; [|split; [|split]]].
  - unfold _contains_regulatory_signal. rewrite normalize_idempotent.
    reflexivity.
  - unfold _contains_scope_signal. rewrite normalize_idempotent.
    reflexivity.
  - unfold _is_substantive_rule. rewrite normalize_idempotent. reflexivity.
  - apply N.
  - rewrite <- (N (Py.lower text)), <- (N text). f_equal.
    rewrite !normalize_agree. apply normalize_text_lower.
Qed.

Lemma fold_left_invariant {A B : Type} (f : A -> B -> A) (I : A -> Prop)
  (l : list B) :
  (forall a b, I a -> I (f a b)) -> forall a, I a -> I (fold_left f l a).
Proof.
  intros H. induction l as [|b l IH]; intros a Ha; [exact Ha|].
  cbn [fold_left]. apply IH, H, Ha.
Qed.

Lemma drop_while_idempotent p s :
  PyText.drop_while p (PyText.drop_while p s) = PyText.drop_while p s.
Proof.
  induction s as [|c s IH]; [reflexivity|].
  cbn [PyText.drop_while]. destruct (p c) eqn:E; [exact IH|].
  cbn [PyText.drop_while]. rewrite E. reflexivity.
Qed.

Lemma rstrip_of_idempotent p s :
  PyText.rstrip_of p (PyText.rstrip_of p s) = PyText.rstrip_of p s.
Proof.
  unfold PyText.rstrip_of. rewrite chars_str, rev_involutive.
  rewrite drop_while_idempotent. reflexivity.
Qed.

Lemma strip_strip s : Py.strip (Py.strip s) = Py.strip s.
Proof.
  unfold Py.strip. rewrite chars_str, strip_idempotent. reflexivity.
Qed.

Lemma is_empty_false s : Py.is_empty s = false -> s <> ""%string.
Proof. intros H ->. discriminate. Qed.

Lemma keys_setitem d k v :
  keys (ParseSections.setitem d k v)
  = if Py.mem k (keys d) then keys d else (keys d ++ [k])%list.
Proof.
  induction d as [|[k' v'] d IH]; [reflexivity|].
  cbn [ParseSections.setitem keys map fst Py.mem existsb].
  rewrite (String.eqb_sym k k').
  destruct (String.eqb k' k) eqn:E; cbn [orb keys map fst].
  - reflexivity.
  - fold (keys (ParseSections.setitem d k v)). fold (keys d).
    rewrite IH. unfold Py.mem. destruct (existsb (String.eqb k) (keys d));
      reflexivity.
Qed.

Lemma setitem_NoDup d k v :
  NoDup (keys d) -> NoDup (keys (ParseSections.setitem d k v)).
Proof.
  intros H. rewrite keys_setitem.
  destruct (Py.mem k (keys d)) eqn:E; [exact H|].
  apply NoDup_app; [exact H | constructor; [intros []|constructor] |].
  intros x Hx [<-|[]]. apply mem_false in E. contradiction.
Qed.

Lemma setitem_Forall (P : string * Sec.t -> Prop) d k v :
  Forall P d -> P (k, v) -> Forall P (ParseSections.setitem d k v).
Proof.
  intros H Hk. induction H as [|[k' v'] d Hx Hd IH];
    cbn [ParseSections.setitem].
  - constructor; [exact Hk | constructor].
  - destruct (String.eqb_spec k' k) as [->|N].
    + constructor; [exact Hk | exact Hd].
    + constructor; [exact Hx | exact IH].
Qed.

Lemma flush_ok nlp st :
  parser_ok nlp st ->
  Forall (parsed_record nlp) (ParseSections.flush nlp st)
  /\ NoDup (keys (ParseSections.flush nlp st)).
Proof.
  intros (F & D & H). unfold ParseSections.flush.
  destruct (ParseSections.current_section_id st) as [id|]; [|auto].
  destruct (ParseSections.current_heading st) as [h|] eqn:Eh; [|auto].
  unfold ParseSections.truthy.
  destruct (Py.is_empty id) eqn:Ei; cbn [negb andb]; [auto|].
  destruct (Py.is_empty h) eqn:Ehh; cbn [negb]; [auto|].
  split; [|apply setitem_NoDup, D].
  apply setitem_Forall; [exact F|].
  eexists h, _. cbn [fst snd]. split; [reflexivity|].
  repeat split.
  - apply is_empty_false, Ei.
  - apply is_empty_false, Ehh.
  - apply H. reflexivity.
  - apply strip_strip.
Qed.

Lemma heading_of_line_stripped line counter id h counter' :
  ParseSections.heading_of_line line counter = Some (id, h, counter') ->
  ParseSections.rstrip_heading h = h.
Proof.
  unfold ParseSections.heading_of_line.
  destruct (ParseSections.section_match line) as [[sid title]|].
  - destruct (ParseSections._looks_like_heading_title (Py.strip title)).
    + intros E. injection E as _ <- _. apply rstrip_of_idempotent.
    + destruct (ParseSections.all_caps_match line); [|discriminate].
      intros E. injection E as _ <- _. apply rstrip_of_idempotent.
  - destruct (ParseSections.all_caps_match line); [|discriminate].
    intros E. injection E as _ <- _. apply rstrip_of_idempotent.
Qed.

Lemma step_ok nlp st raw_line :
  parser_ok nlp st -> parser_ok nlp (ParseSections.step nlp st raw_line).
Proof.
  intros Hst. unfold ParseSections.step.
  destruct (ParseSections._is_noise (ParseSections._normalize_line raw_line));
    [exact Hst|].
  destruct (ParseSections.heading_of_line
              (ParseSections._normalize_line raw_line)
              (ParseSections.synthetic_counter st))
    as [[[id h] counter]|] eqn:E.
  - destruct (flush_ok Hst) as [F D].
    unfold parser_ok. cbn [ParseSections.parsed ParseSections.current_heading].
    split; [exact F|]. split; [exact D|].
    intros h' Eh. injection Eh as <-.
    eapply heading_of_line_stripped, E.
  - destruct (ParseSections.truthy (ParseSections.current_section_id st));
      [|exact Hst].
    destruct Hst as (F & D & H). unfold parser_ok.
    cbn [ParseSections.parsed ParseSections.current_heading]. auto.
Qed.

Lemma parse_sections_ok nlp text :
  Forall (parsed_record nlp) (ParseSections.parse_sections nlp text)
  /\ NoDup (keys (ParseSections.parse_sections nlp text)).
Proof.
  unfold ParseSections.parse_sections. apply flush_ok.
  apply fold_left_invariant.
  - intros st raw. apply step_ok.
  - unfold parser_ok. cbn. split; [constructor|].
    split; [constructor | discriminate].
Qed.

Lemma stamp_parsed nlp d : Forall (parsed_record nlp) d -> stamp d = d.
Proof.
  induction 1 as [|[k v] d (h & b & E & _) _ IH]; [reflexivity|].
  cbn [stamp map fst snd] in *. fold (stamp d). rewrite IH. f_equal.
  rewrite E. reflexivity.
Qed.

(** X15: every record that [parse_sections] returns is complete and tidy:
    it is stored under its own identifier, which is also its ["section"]
    field and is not empty; its heading is not empty and does not end in a
    space or a full stop; its body has no white space at either end; its
    meaning is [build_meaning_block] of its heading and body; and no
    identifier occurs twice in the mapping. *)
Theorem parsed_sections_are_well_formed
  (nlp : option (string -> list string)) (text : string) :
  Forall (parsed_record nlp) (ParseSections.parse_sections nlp text)
  /\ NoDup (keys (ParseSections.parse_sections nlp text))
  /\ Forall (fun item => Sec.section (snd item) = Some (PyStr (fst item))
                         /\ Sec.nonempty (snd item) = true)
       (ParseSections.parse_sections nlp text).
Proof.
  destruct (parse_sections_ok nlp text) as [F D].
  split; [exact F|]. split; [exact D|].
  eapply Forall_impl; [|exact F].
  intros [k v] (h & b & E & _). cbn [fst snd] in *. rewrite E.
  split; reflexivity.
Qed.

(** X16: [compare_sections] composed with [parse_sections]: the call
    leaves two parsed documents as they are, since their records already
    carry their key; and a parsed document compared with itself, without
    the embedding backend and with a match threshold of at most 1 (the
    default is 0.58), gives the empty report and takes no identifier. *)
Theorem parsed_documents_compare_cleanly
  (nlp : option (string -> list string))
  (emb : option (string -> string -> option Q)) (cfg : config)
  (old_text new_text : string) (gen : nat) :
  returns
    (compare_sections emb cfg (ParseSections.parse_sections nlp old_text)
       (ParseSections.parse_sections nlp new_text) gen)
    (fun o => old_after o = ParseSections.parse_sections nlp old_text
              /\ new_after o = ParseSections.parse_sections nlp new_text)
  /\ (forall strict include,
        compare_sections offline (mk_config 0.58 0.82 0.78 strict include)
          (ParseSections.parse_sections nlp old_text)
          (ParseSections.parse_sections nlp old_text) gen
        = Ok (mk_outcome [] gen (ParseSections.parse_sections nlp old_text)
                (ParseSections.parse_sections nlp old_text)))
  /\ ((match_threshold cfg <= 1)%Q ->
      compare_sections offline cfg
        (ParseSections.parse_sections nlp old_text)
        (ParseSections.parse_sections nlp old_text) gen
      = Ok (mk_outcome [] gen (ParseSections.parse_sections nlp old_text)
              (ParseSections.parse_sections nlp old_text))).
Proof.
  pose proof (stamp_parsed (proj1 (parse_sections_ok nlp old_text))) as So.
  pose proof (stamp_parsed (proj1 (parse_sections_ok nlp new_text))) as Sn.
  assert (G : forall c : config,
             (match_threshold c <= 1)%Q ->
             compare_sections offline c
               (ParseSections.parse_sections nlp old_text)
               (ParseSections.parse_sections nlp old_text) gen
             = Ok (mk_outcome [] gen
                     (ParseSections.parse_sections nlp old_text)
                     (ParseSections.parse_sections nlp old_text))).
  { intros c T. rewrite (@compare_sections_self c _ gen T), So.
    reflexivity. }
  split; [|split].
  - eapply returns_weaken; [apply compare_sections_returns|].
    intros o (m & st & changes & _ & _ & _ & _ & _ & ->).
    cbn [old_after new_after]. rewrite So, Sn. auto.
  - intros strict include. apply G. cbn [match_threshold].
    unfold Qle. cbn. lia.
  - apply G.
Qed.

Section RunSound.
Variable icase : bool.
Variable R : Type.
Variable P : ascii -> Prop.

Lemma entered_here (k : Re.cont R) prev s x :
  k prev s = Some x -> entered P k s x.
Proof. intros H. exists [], s, prev. auto. Qed.

Lemma entered_cons (k : Re.cont R) c s x :
  P c -> entered P k s x -> entered P k (c :: s) x.
Proof.
  intros Hc (m & rest & prev & -> & F & H).
  exists (c :: m), rest, prev. auto.
Qed.

Lemma entered_chain (k k' : Re.cont R) s x :
  entered P k' s x ->
  (forall prev rest, k' prev rest = Some x -> entered P k rest x) ->
  entered P k s x.
Proof.
  intros (m & rest & prev & -> & F & H) K.
  destruct (K _ _ H) as (m' & rest' & prev' & -> & F' & H').
  exists (m ++ m')%list, rest', prev'. rewrite app_assoc.
  split; [reflexivity|]. split; [apply Forall_app; auto | exact H'].
Qed.

Lemma lit_sound l (k : Re.cont R) prev s x :
  (forall y c, In y l -> Re.char_eq icase y c = true -> P c) ->
  Re.lit icase l k prev s = Some x -> entered P k s x.
Proof.
  revert prev s. induction l as [|y l IH]; intros prev s O H;
    cbn [Re.lit] in H.
  - eapply entered_here, H.
  - destruct s as [|c s]; [discriminate|].
    destruct (Re.char_eq icase y c) eqn:E; [|discriminate].
    apply entered_cons; [apply (O y c); [left; reflexivity | exact E]|].
    eapply IH; [|exact H]. intros y' c' I. apply O. right. exact I.
Qed.

Lemma plus_sound p (k : Re.cont R) s x :
  (forall c, p c = true -> P c) ->
  Re.plus p k s = Some x ->
  exists c s', s = c :: s' /\ p c = true /\ entered P k s' x.
Proof.
  intros O. induction s as [|c s IH]; intros H; cbn [Re.plus] in H;
    [discriminate|].
  destruct (p c) eqn:E; [|discriminate].
  exists c, s. split; [reflexivity|]. split; [exact E|].
  destruct (Re.plus p k s) as [y|] eqn:Q.
  - injection H as ->.
    destruct (IH eq_refl) as (d & s' & -> & Hd & En).
    apply entered_cons; [apply O, Hd | exact En].
  - eapply entered_here, H.
Qed.

Lemma run_sound r :
  over icase P r ->
  forall (k : Re.cont R) prev s x,
    Re.run icase r k prev s = Some x -> entered P k s x.
Proof.
  induction r as [|p|l|r1 IH1 r2 IH2|r1 IH1 r2 IH2|r IH|p|p|];
    intros O k prev s x H; cbn [Re.run over] in *.
  - eapply entered_here, H.
  - destruct s as [|c s]; [discriminate|].
    destruct (p c) eqn:E; [|discriminate].
    apply entered_cons; [apply O, E|]. eapply entered_here, H.
  - eapply lit_sound; [|exact H]. exact O.
  - destruct O as [O1 O2].
    eapply entered_chain; [eapply IH1; [exact O1 | exact H]|].
    intros prev' rest. apply IH2, O2.
  - destruct O as [O1 O2].
    destruct (Re.run icase r1 k prev s) as [y|] eqn:Q.
    + injection H as ->. eapply IH1; [exact O1 | exact Q].
    + eapply IH2; [exact O2 | exact H].
  - destruct (Re.run icase r k prev s) as [y|] eqn:Q.
    + injection H as ->. eapply IH; [exact O | exact Q].
    + eapply entered_here, H.
  - destruct (@plus_sound p k s x O H) as (c & s' & -> & Hc & En).
    apply entered_cons; [apply O, Hc | exact En].
  - destruct (Re.plus p k s) as [y|] eqn:Q.
    + injection H as ->.
      destruct (@plus_sound p k s x O Q) as (c & s' & -> & Hc & En).
      apply entered_cons; [apply O, Hc | exact En].
    + eapply entered_here, H.
  - destruct (Re.at_boundary prev s); [|discriminate].
    eapply entered_here, H.
Qed.

Lemma star_sound r fuel :
  over icase P r ->
  forall (k : Re.cont R) prev s x,
    ReMore.star icase r fuel k prev s = Some x -> entered P k s x.
Proof.
  intros O. induction fuel as [|fuel IH]; intros k prev s x H;
    cbn [ReMore.star] in H.
  - eapply entered_here, H.
  - match type of H with
    | match ?c with _ => _ end = _ => destruct c as [y|] eqn:Q
    end.
    + injection H as ->.
      eapply entered_chain; [eapply run_sound; [exact O | exact Q]|].
      intros prev' rest. cbn beta.
      destruct (List.length rest <? List.length s); [|discriminate].
      apply IH.
    + eapply entered_here, H.
Qed.
End RunSound.

Lemma dotted_number_sound icase (R : Type) (k : Re.cont R) prev s x :
  ReMore.dotted_number icase k prev s = Some x ->
  exists c s', s = c :: s' /\ Py.isdigit c = true
               /\ entered number_char k s' x.
Proof.
  unfold ReMore.dotted_number. cbn [Re.run]. intros H.
  assert (D : forall c, Py.isdigit c = true -> number_char c)
    by (intros c Hc; left; exact Hc).
  destruct (@plus_sound R number_char _ _ _ _ D H)
    as (c & s' & -> & Hc & En).
  exists c, s'. split; [reflexivity|]. split; [exact Hc|].
  eapply entered_chain; [exact En|].
  intros prev' rest. apply star_sound.
  cbn [over]. split; [|exact D].
  intros y c' [<-|[]] E. right.
  unfold Re.char_eq in E. destruct icase.
  - revert E. clear.
    destruct c' as [[] [] [] [] [] [] [] []]; vm_compute; intros E;
      try discriminate; reflexivity.
  - apply Ascii.eqb_eq in E. symmetry. exact E.
Qed.

Lemma firstn_app_exact {A : Type} (m rest : list A) :
  firstn (List.length (m ++ rest) - List.length rest) (m ++ rest) = m.
Proof.
  rewrite length_app. replace (List.length m + List.length rest
                               - List.length rest) with (List.length m) by lia.
  rewrite firstn_app, Nat.sub_diag, firstn_all. cbn [firstn].
  apply app_nil_r.
Qed.

Lemma firstn_app_exact_eq {A : Type} (m rest : list A) n :
  n = List.length (m ++ rest) - List.length rest ->
  firstn n (m ++ rest) = m.
Proof. intros ->. apply firstn_app_exact. Qed.

Lemma run_seq icase (R : Type) a b (k : Re.cont R) prev s :
  Re.run icase (Re.Seq a b) k prev s
  = Re.run icase a (Re.run icase b k) prev s.
Proof. reflexivity. Qed.

(** The path of a match of [SECTION_PATTERN] through the line. *)
Lemma section_match_parts line id title :
  ParseSections.section_match line = Some (id, title) ->
  exists c m m1 c0 m2 t0 t rest3,
    Py.chars line
    = ((c :: m) ++ (m1 ++ c0 :: m2) ++ (t0 :: t) ++ rest3)%list
    /\ Py.isdigit c = true /\ Forall number_char m
    /\ Forall separator_char m1 /\ Py.isspace c0 = true
    /\ Forall separator_char m2
    /\ ReMore.dot t0 = true /\ Forall (fun x => ReMore.dot x = true) t
    /\ ReMore.at_end rest3 = true
    /\ id = Py.str (c :: m) /\ title = Py.str (t0 :: t).
Proof.
  unfold ParseSections.section_match. intros H.
  apply dotted_number_sound in H.
  destruct H as (c & s' & Es & Hc & m & rest1 & prev1 & -> & Fm & H).
  unfold ParseSections.after_id in H. rewrite run_seq in H.
  apply (@run_sound false _ separator_char) in H.
  2:{ cbn [over]. intros x Hx. apply orb_true_iff in Hx.
      destruct Hx as [Hx|Hx]; apply Ascii.eqb_eq in Hx; subst x;
        unfold separator_char; auto. }
  destruct H as (m1 & rest & prev & -> & F1 & H).
  cbn [Re.run] in H.
  apply (@plus_sound _ separator_char) in H.
  2:{ intros x Hx. left. exact Hx. }
  destruct H as (c0 & s0 & -> & Hc0 & m2 & rest2 & prev2 & -> & F2 & H).
  apply (@plus_sound _ (fun x => ReMore.dot x = true)) in H; [|auto].
  destruct H as (t0 & s3 & -> & Ht0 & t & rest3 & prev3 & -> & Ft & H3).
  cbn beta in H3.
  destruct (ReMore.at_end rest3) eqn:End; [|discriminate].
  injection H3 as Hid Htitle.
  rewrite Es in Hid.
  change (c :: m ++ m1 ++ c0 :: m2 ++ t0 :: t ++ rest3)%list
    with ((c :: m) ++ (m1 ++ c0 :: m2 ++ t0 :: t ++ rest3))%list in Hid.
  rewrite (@firstn_app_exact_eq _ (c :: m)) in Hid by reflexivity.
  change (t0 :: t ++ rest3)%list with ((t0 :: t) ++ rest3)%list in Htitle.
  rewrite (@firstn_app_exact_eq _ (t0 :: t)) in Htitle by reflexivity.
  exists c, m, m1, c0, m2, t0, t, rest3.
  rewrite Es. repeat split; auto.
  cbn [app]. rewrite <- !app_assoc. reflexivity.
Qed.

Lemma opt_cls_cases icase (R : Type) p (k : Re.cont R) prev s x :
  Re.run icase (Re.Opt (Re.Cls p)) k prev s = Some x ->
  (exists c s', s = c :: s' /\ p c = true /\ k (Some c) s' = Some x)
  \/ k prev s = Some x.
Proof.
  cbn [Re.run]. destruct s as [|c s]; [auto|].
  destruct (p c) eqn:E; [|auto].
  destruct (k (Some c) s) as [y|] eqn:Q; [|auto].
  intros H. injection H as ->. left. exists c, s. auto.
Qed.

(** The path of a match of [SECTION_PATTERN] through the line, with the
    separator taken apart. *)
Lemma section_match_path line id title :
  ParseSections.section_match line = Some (id, title) ->
  exists c m punct w ws t0 t rest3,
    Py.chars line
    = ((c :: m) ++ punct ++ (w :: ws) ++ (t0 :: t) ++ rest3)%list
    /\ Py.isdigit c = true /\ Forall number_char m
    /\ (punct = [] \/ punct = ["."%char] \/ punct = [")"%char])
    /\ Forall (fun x => Py.isspace x = true) (w :: ws)
    /\ ReMore.dot t0 = true /\ Forall (fun x => ReMore.dot x = true) t
    /\ ReMore.at_end rest3 = true
    /\ id = Py.str (c :: m) /\ title = Py.str (t0 :: t).
Proof.
  unfold ParseSections.section_match. intros H.
  apply dotted_number_sound in H.
  destruct H as (c & s' & Es & Hc & m & rest1 & prev1 & -> & Fm & H).
  unfold ParseSections.after_id in H. rewrite run_seq in H.
  assert (S : exists punct rest prev,
             rest1 = (punct ++ rest)%list
             /\ (punct = [] \/ punct = ["."%char] \/ punct = [")"%char])
             /\ Re.run false (Re.Plus Py.isspace)
                  (fun prev2 rest2 =>
                     Re.run false (Re.Plus ReMore.dot)
                       (fun _ rest3 =>
                          if ReMore.at_end rest3
                          then Some
                                 (Py.str (firstn (List.length (Py.chars line)
                                                  - List.length rest1)
                                            (Py.chars line)),
                                  Py.str (firstn (List.length rest2
                                                  - List.length rest3) rest2))
                          else None)
                       prev2 rest2)
                  prev rest = Some (id, title)).
  { apply opt_cls_cases in H.
    destruct H as [(p & r & -> & Hp & H)|H].
    - exists [p], r, (Some p). split; [reflexivity|]. split; [|exact H].
      apply orb_true_iff in Hp.
      destruct Hp as [Hp|Hp]; apply Ascii.eqb_eq in Hp; subst p; auto.
    - exists [], rest1, prev1. auto. }
  clear H. destruct S as (punct & rest & prev & E1 & Hp & H).
  cbn [Re.run] in H.
  apply (@plus_sound _ (fun x => Py.isspace x = true)) in H; [|auto].
  destruct H as (w & s0 & -> & Hw & ws & rest2 & prev2 & -> & Fw & H).
  apply (@plus_sound _ (fun x => ReMore.dot x = true)) in H; [|auto].
  destruct H as (t0 & s3 & -> & Ht0 & t & rest3 & prev3 & -> & Ft & H3).
  cbn beta in H3.
  destruct (ReMore.at_end rest3) eqn:End; [|discriminate].
  injection H3 as Hid Htitle.
  rewrite Es in Hid. subst rest1.
  change (c :: m ++ punct ++ w :: ws ++ t0 :: t ++ rest3)%list
    with ((c :: m) ++ (punct ++ w :: ws ++ t0 :: t ++ rest3))%list in Hid.
  rewrite (@firstn_app_exact_eq _ (c :: m)) in Hid by reflexivity.
  change (t0 :: t ++ rest3)%list with ((t0 :: t) ++ rest3)%list in Htitle.
  rewrite (@firstn_app_exact_eq _ (t0 :: t)) in Htitle by reflexivity.
  exists c, m, punct, w, ws, t0, t, rest3.
  rewrite Es. repeat split; auto.
Qed.

(** X17: what [SECTION_PATTERN] captures.  When the pattern matches a
    line, the line is the group [id], a separator, the group [title] and at
    most a final line feed: [id] starts with a digit and holds digits and
    full stops only; the separator is nothing or one [.] or one [)],
    followed by one or more characters of white space and nothing else; and
    [title] is not empty and holds no line feed. *)
Theorem section_pattern_groups (line id title : string) :
  ParseSections.section_match line = Some (id, title) ->
  dotted id
  /\ title <> ""%string
  /\ Forall (fun c => ReMore.dot c = true) (Py.chars title)
  /\ exists punct space tail,
       Py.chars line
       = (Py.chars id ++ punct ++ space ++ Py.chars title ++ tail)%list
       /\ (punct = [] \/ punct = ["."%char] \/ punct = [")"%char])
       /\ space <> []
       /\ Forall (fun c => Py.isspace c = true) space
       /\ ReMore.at_end tail = true.
Proof.
  intros H. apply section_match_path in H.
  destruct H as (c & m & punct & w & ws & t0 & t & rest3 & E & Hc & Fm & Hp
                 & Fw & Ht0 & Ft & End & -> & ->).
  split; [|split; [|split]].
  - exists c, m. rewrite chars_str. auto.
  - discriminate.
  - rewrite chars_str. constructor; assumption.
  - exists punct, (w :: ws), rest3. rewrite !chars_str.
    split; [exact E|]. split; [exact Hp|]. split; [discriminate|].
    split; [exact Fw | exact End].
Qed.

Lemma section_pattern_groups_witness :
  ParseSections.section_match "1.2) Scope of the rule"
  = Some ("1.2"%string, "Scope of the rule"%string)
  /\ dotted "1.2".
Proof.
  assert (H : ParseSections.section_match "1.2) Scope of the rule"
              = Some ("1.2"%string, "Scope of the rule"%string))
    by (vm_compute; reflexivity).
  split; [exact H|].
  apply (@section_pattern_groups _ _ _ H).
Defined.

(** ** The identifiers of a parsed document *)

Lemma section_key_mono j j' id :
  j <= j' -> section_key j id -> section_key j' id.
Proof.
  intros L [D|(n & B & E)]; [left; exact D|].
  right. exists n. split; [lia | exact E].
Qed.

Lemma heading_of_line_key line counter id h counter' :
  ParseSections.heading_of_line line counter = Some (id, h, counter') ->
  (dotted id /\ counter' = counter)
  \/ (id = ("H" ++ PyText.of_nat (S counter))%string
      /\ counter' = S counter).
Proof.
  unfold ParseSections.heading_of_line.
  assert (C : (if ParseSections.all_caps_match line
               then Some (("H" ++ PyText.of_nat (S counter))%string,
                          ParseSections.rstrip_heading line, S counter)
               else None) = Some (id, h, counter') ->
              id = ("H" ++ PyText.of_nat (S counter))%string
              /\ counter' = S counter).
  { destruct (ParseSections.all_caps_match line); [|discriminate].
    intros E. injection E as <- _ <-. auto. }
  destruct (ParseSections.section_match line) as [[sid title]|] eqn:M.
  - destruct (ParseSections._looks_like_heading_title (Py.strip title)).
    + intros E. injection E as <- _ <-. left.
      split; [|reflexivity]. apply section_match_parts in M.
      destruct M as (c & m & _ & _ & _ & _ & _ & _ & _ & Hc & Fm & _ & _ & _
                     & _ & _ & _ & -> & _).
      exists c, m. rewrite chars_str. auto.
    + intros E. right. apply C, E.
  - intros E. right. apply C, E.
Qed.

Lemma length_setitem d k v :
  List.length (ParseSections.setitem d k v) <= S (List.length d).
Proof.
  induction d as [|[k' v'] d IH]; cbn [ParseSections.setitem List.length];
    [lia|].
  destruct (String.eqb k' k); cbn [List.length]; lia.
Qed.

Lemma flush_keys nlp j st :
  keys_ok j st ->
  Forall (section_key j) (keys (ParseSections.flush nlp st))
  /\ List.length (ParseSections.flush nlp st) <= j.
Proof.
  intros (F & C & _ & L). unfold ParseSections.flush.
  destruct (ParseSections.current_section_id st) as [id|];
    [|split; [exact F | lia]].
  destruct (ParseSections.current_heading st) as [h|];
    [|split; [exact F | lia]].
  destruct (ParseSections.truthy (Some id) && ParseSections.truthy (Some h));
    [|split; [exact F | lia]].
  split.
  - rewrite keys_setitem.
    destruct (Py.mem id (keys (ParseSections.parsed st))); [exact F|].
    apply Forall_app. split; [exact F|].
    constructor; [apply C; reflexivity | constructor].
  - match goal with
    | |- List.length (ParseSections.setitem ?d ?k ?v) <= _ =>
        pose proof (length_setitem d k v)
    end. lia.
Qed.

Lemma step_keys nlp j st raw_line :
  keys_ok j st -> keys_ok (S j) (ParseSections.step nlp st raw_line).
Proof.
  intros Hst.
  assert (W : keys_ok (S j) st).
  { destruct Hst as (F & C & N & L). unfold keys_ok.
    split; [|split; [|split; lia]].
    - eapply Forall_impl; [|exact F].
      intros id. apply section_key_mono. lia.
    - intros id E. eapply section_key_mono; [|apply C, E]. lia. }
  unfold ParseSections.step.
  destruct (ParseSections._is_noise (ParseSections._normalize_line raw_line));
    [exact W|].
  destruct (ParseSections.heading_of_line
              (ParseSections._normalize_line raw_line)
              (ParseSections.synthetic_counter st))
    as [[[id h] counter]|] eqn:E.
  - destruct (flush_keys nlp Hst) as [F L].
    destruct Hst as (_ & _ & N & _).
    apply heading_of_line_key in E.
    unfold keys_ok.
    cbn [ParseSections.parsed ParseSections.current_section_id
         ParseSections.synthetic_counter].
    split; [|split; [|split]].
    + eapply Forall_impl; [|exact F].
      intros k. apply section_key_mono. lia.
    + intros id' Eid. injection Eid as <-.
      destruct E as [[D _]|[-> _]]; [left; exact D|].
      right. exists (S (ParseSections.synthetic_counter st)).
      split; [lia | reflexivity].
    + destruct E as [[_ ->]|[_ ->]]; lia.
    + lia.
  - destruct (ParseSections.truthy (ParseSections.current_section_id st));
      [|exact W].
    destruct W as (F & C & N & L). unfold keys_ok.
    cbn [ParseSections.parsed ParseSections.current_section_id
         ParseSections.synthetic_counter]. auto.
Qed.

Lemma fold_step_keys nlp l :
  forall st j, keys_ok j st ->
               keys_ok (j + List.length l)
                 (fold_left (ParseSections.step nlp) l st).
Proof.
  induction l as [|raw l IH]; intros st j H; cbn [fold_left List.length].
  - rewrite Nat.add_0_r. exact H.
  - replace (j + S (List.length l)) with (S j + List.length l) by lia.
    apply IH, step_keys, H.
Qed.

(** X18: the identifiers of a parsed document.  Each key that
    [parse_sections] returns is a section number, a digit followed by
    digits and full stops, or [H] and a number between 1 and the number of
    lines of the text; and the document has at most one section per
    line. *)
Theorem parsed_keys_are_section_numbers
  (nlp : option (string -> list string)) (text : string) :
  Forall (section_key (List.length (PyText.splitlines text)))
    (keys (ParseSections.parse_sections nlp text))
  /\ List.length (ParseSections.parse_sections nlp text)
     <= List.length (PyText.splitlines text).
Proof.
  unfold ParseSections.parse_sections.
  apply flush_keys.
  apply (@fold_step_keys nlp (PyText.splitlines text) _ 0).
  unfold keys_ok. cbn. split; [constructor|].
  split; [discriminate | lia].
Qed.

Lemma lstrip_fixed_head l :
  Py.lstrip_chars l = l ->
  match l with
  | [] => True
  | c :: _ => Py.isspace c = false
  end.
Proof.
  destruct l as [|c l]; [auto|]. cbn [Py.lstrip_chars].
  destruct (Py.isspace c) eqn:E; [|reflexivity].
  intros H. exfalso.
  assert (L : forall s, List.length (Py.lstrip_chars s) <= List.length s).
  { induction s as [|x s IH]; cbn [Py.lstrip_chars]; [lia|].
    destruct (Py.isspace x); cbn [List.length]; lia. }
  specialize (L l). rewrite H in L. cbn [List.length] in L. lia.
Qed.

Lemma strip_chars_lstrip_fixed l :
  Py.lstrip_chars (Py.strip_chars l) = Py.strip_chars l.
Proof.
  unfold Py.strip_chars.
  destruct (lstrip_head l) as [E|(c & t & E & Hc)]; rewrite E;
    [reflexivity|].
  rewrite rstrip_cons_nonspace by exact Hc.
  cbn [Py.lstrip_chars]. rewrite Hc. reflexivity.
Qed.

Lemma squeeze_stripped_single_spaced l :
  single_spaced true (squeeze false (Py.strip_chars l)) = true.
Proof.
  pose proof (lstrip_fixed_head (strip_chars_lstrip_fixed l)) as H.
  destruct (Py.strip_chars l) as [|c t]; [reflexivity|].
  cbn [squeeze]. rewrite H. cbn [single_spaced]. rewrite H.
  apply squeeze_single_spaced.
Qed.

Lemma single_spaced_no_linebreak b l :
  single_spaced b l = true ->
  Forall (fun c => PyText.is_linebreak c = false) l.
Proof.
  revert b. induction l as [|c l IH]; intros b H; [constructor|].
  cbn [single_spaced] in H. destruct (Py.isspace c) eqn:E.
  - apply andb_true_iff in H. destruct H as [H H2].
    apply andb_true_iff in H. destruct H as [H0 _].
    apply Ascii.eqb_eq in H0. subst c.
    constructor; [reflexivity | eapply IH, H2].
  - constructor; [|eapply IH, H].
    revert E. clear.
    destruct c as [[] [] [] [] [] [] [] []]; vm_compute; intros E;
      try discriminate; reflexivity.
Qed.

Lemma normalize_line_chars line :
  ParseSections._normalize_line line
  = Py.str (squeeze false (Py.strip_chars (Py.chars line))).
Proof.
  unfold ParseSections._normalize_line. rewrite sub_space.
  unfold Py.strip. rewrite chars_str, strip_squeeze. reflexivity.
Qed.

(** X19: [_normalize_line] of [parse_sections.py] returns a tidy line: no
    white space at either end, single spaces as the only white space, no
    line boundary; a tidy line is returned as it is; lower-cased, the
    result is [normalize_text] of the line; and a line of white space only
    becomes the empty line, which [_is_noise] discards. *)
Theorem normalize_line_is_tidy (line : string) :
  Py.strip (ParseSections._normalize_line line)
  = ParseSections._normalize_line line
  /\ single_spaced true (Py.chars (ParseSections._normalize_line line)) = true
  /\ ParseSections._normalize_line (ParseSections._normalize_line line)
     = ParseSections._normalize_line line
  /\ Py.lower (ParseSections._normalize_line line) = normalize_text line
  /\ Forall (fun c => PyText.is_linebreak c = false)
       (Py.chars (ParseSections._normalize_line line))
  /\ (is_blank line = true ->
      ParseSections._normalize_line line = ""%string
      /\ ParseSections._is_noise (ParseSections._normalize_line line) = true).
Proof.
  assert (T : single_spaced true
                (Py.chars (ParseSections._normalize_line line)) = true).
  { rewrite normalize_line_chars, chars_str.
    apply squeeze_stripped_single_spaced. }
  split; [|split; [exact T|split; [|split; [|split]]]].
  - rewrite normalize_line_chars. unfold Py.strip.
    rewrite chars_str, strip_squeeze, strip_idempotent. reflexivity.
  - rewrite (normalize_line_chars (ParseSections._normalize_line line)).
    rewrite normalize_line_chars, chars_str.
    rewrite strip_squeeze, strip_idempotent, squeeze_idempotent.
    reflexivity.
  - rewrite normalize_line_chars, normalize_text_chars. unfold Py.lower.
    rewrite chars_str, <- squeeze_lower, strip_lower. reflexivity.
  - eapply single_spaced_no_linebreak, T.
  - unfold is_blank, Py.strip. rewrite is_empty_str. intros B.
    assert (E : ParseSections._normalize_line line = ""%string).
    { rewrite normalize_line_chars.
      destruct (Py.strip_chars (Py.chars line)); [reflexivity|discriminate]. }
    rewrite E. split; reflexivity.
Qed.

(** ** Lines and trimmed texts *)

Lemma trimmed_strip l : trimmed (Py.strip_chars l).
Proof.
  split; [apply strip_chars_lstrip_fixed|].
  unfold Py.strip_chars, Py.rstrip_chars.
  rewrite rev_involutive. apply lstrip_idempotent.
Qed.

Lemma trimmed_fixed l : trimmed l -> Py.strip_chars l = l.
Proof.
  intros [H1 H2]. unfold Py.strip_chars, Py.rstrip_chars.
  rewrite H1, H2. apply rev_involutive.
Qed.

Lemma lstrip_nonspace c l :
  Py.isspace c = false -> Py.lstrip_chars (c :: l) = c :: l.
Proof. intros H. cbn [Py.lstrip_chars]. rewrite H. reflexivity. Qed.

Lemma trimmed_app a m b :
  trimmed a -> a <> [] -> trimmed b -> b <> [] -> trimmed (a ++ m ++ b).
Proof.
  intros [A1 A2] Na [B1 B2] Nb. split.
  - pose proof (lstrip_fixed_head A1) as H.
    destruct a as [|c a]; [contradiction|].
    cbn [app]. apply lstrip_nonspace, H.
  - rewrite !rev_app_distr.
    pose proof (lstrip_fixed_head B2) as H.
    destruct (rev b) as [|c r] eqn:E.
    + apply (f_equal (@rev ascii)) in E. rewrite rev_involutive in E.
      contradiction.
    + rewrite <- app_assoc. cbn [app]. apply lstrip_nonspace, H.
Qed.

Lemma chars_append a b :
  Py.chars (a ++ b)%string = (Py.chars a ++ Py.chars b)%list.
Proof.
  induction a as [|c a IH]; [reflexivity|].
  cbn [append]. unfold Py.chars in *. cbn [list_ascii_of_string app].
  rewrite IH. reflexivity.
Qed.

Lemma chars_nil s : Py.chars s = [] -> s = ""%string.
Proof. destruct s; [reflexivity | discriminate]. Qed.

Lemma join_cons sep x y xs :
  Py.join sep (x :: y :: xs) = (x ++ sep ++ Py.join sep (y :: xs))%string.
Proof. reflexivity. Qed.

Lemma join_trimmed xs :
  Forall (fun x => trimmed (Py.chars x) /\ x <> ""%string) xs ->
  trimmed (Py.chars (Py.join " " xs))
  /\ (xs <> [] -> Py.join " " xs <> ""%string).
Proof.
  induction 1 as [|x xs [T N] F IH].
  - split; [split; reflexivity | contradiction].
  - destruct xs as [|y xs].
    + cbn [Py.join]. split; [exact T | intros _; exact N].
    + rewrite join_cons. destruct IH as [IT IN].
      split.
      * rewrite !chars_append. apply trimmed_app; try assumption.
        -- intros E. apply N, chars_nil, E.
        -- intros E. apply IN; [discriminate | apply chars_nil, E].
      * intros _ E. destruct x; [contradiction | discriminate].
Qed.

Lemma join_Forall (P : ascii -> Prop) sep xs :
  Forall P (Py.chars sep) ->
  Forall (fun x => Forall P (Py.chars x)) xs ->
  Forall P (Py.chars (Py.join sep xs)).
Proof.
  intros S. induction 1 as [|x xs Hx F IH]; [constructor|].
  destruct xs as [|y xs]; [exact Hx|].
  rewrite join_cons, !chars_append. rewrite !Forall_app. auto.
Qed.

Lemma lstrip_Forall (P : ascii -> Prop) l :
  Forall P l -> Forall P (Py.lstrip_chars l).
Proof.
  induction 1 as [|c l Hc F IH]; cbn [Py.lstrip_chars]; [constructor|].
  destruct (Py.isspace c); [exact IH | constructor; assumption].
Qed.

Lemma strip_Forall (P : ascii -> Prop) l :
  Forall P l -> Forall P (Py.strip_chars l).
Proof.
  intros H. unfold Py.strip_chars, Py.rstrip_chars.
  apply Forall_rev, lstrip_Forall, Forall_rev, lstrip_Forall, H.
Qed.

Lemma splitlines_no_linebreak n :
  forall s cur,
    List.length s <= n ->
    Forall (fun c => PyText.is_linebreak c = false) cur ->
    Forall (Forall (fun c => PyText.is_linebreak c = false))
      (PyText.splitlines_chars cur s).
Proof.
  induction n as [|n IH]; intros s cur L C.
  - destruct s; [|cbn [List.length] in L; lia].
    cbn [PyText.splitlines_chars].
    destruct cur; constructor; [apply Forall_rev, C | constructor].
  - destruct s as [|c s].
    + cbn [PyText.splitlines_chars].
      destruct cur; constructor; [apply Forall_rev, C | constructor].
    + cbn [List.length] in L. cbn [PyText.splitlines_chars].
      destruct (PyText.is_linebreak c) eqn:E.
      * constructor; [apply Forall_rev, C|].
        destruct s as [|d s]; [constructor|].
        cbn [List.length] in L.
        destruct ((Py.code c =? 13) && (Py.code d =? 10));
          apply IH; try constructor; cbn [List.length]; lia.
      * apply IH; [lia|]. constructor; assumption.
Qed.

Lemma kept_line_nonempty l : MeaningBlock.kept_line l = true -> l <> ""%string.
Proof.
  unfold MeaningBlock.kept_line. destruct l; [discriminate|discriminate].
Qed.

(** X20: [clean_text] returns one tidy line: the lines it keeps are not
    empty and have no white space at either end, and so its result has no
    line boundary in it and no white space at either end. *)
Theorem clean_text_is_one_line (text : string) :
  Forall (fun c => PyText.is_linebreak c = false)
    (Py.chars (MeaningBlock.clean_text text))
  /\ Py.strip (MeaningBlock.clean_text text) = MeaningBlock.clean_text text
  /\ Forall (fun l => l <> ""%string /\ Py.strip l = l)
       (filter MeaningBlock.kept_line
          (map Py.strip (PyText.splitlines text))).
Proof.
  unfold MeaningBlock.clean_text.
  set (kept := filter MeaningBlock.kept_line
                 (map Py.strip (PyText.splitlines text))).
  assert (K : Forall (fun l => trimmed (Py.chars l) /\ l <> ""%string
                               /\ Forall (fun c => PyText.is_linebreak c = false)
                                    (Py.chars l)) kept).
  { apply Forall_forall. intros l Hl. apply filter_In in Hl.
    destruct Hl as [Hl Kl]. apply in_map_iff in Hl.
    destruct Hl as (raw & <- & Hraw).
    unfold Py.strip. rewrite chars_str.
    split; [apply trimmed_strip|]. split; [apply kept_line_nonempty, Kl|].
    apply strip_Forall. unfold PyText.splitlines in Hraw.
    apply in_map_iff in Hraw. destruct Hraw as (cs & <- & Hcs).
    rewrite chars_str.
    pose proof (@splitlines_no_linebreak (List.length (Py.chars text))
                  (Py.chars text) [] (le_n _) (Forall_nil _)) as F.
    rewrite Forall_forall in F. apply F, Hcs. }
  split; [|split].
  - apply join_Forall; [repeat constructor|].
    eapply Forall_impl; [|exact K]. cbn beta. tauto.
  - assert (T : trimmed (Py.chars (Py.join " " kept))).
    { apply join_trimmed. eapply Forall_impl; [|exact K]. cbn beta. tauto. }
    unfold Py.strip. rewrite (trimmed_fixed T). apply str_chars.
  - eapply Forall_impl; [|exact K]. cbn beta.
    intros l (T & N & _). split; [exact N|].
    unfold Py.strip. rewrite (trimmed_fixed T). apply str_chars.
Qed.

(** ** The meaning block of a parsed record *)

Lemma lstrip_nil_all l :
  Py.lstrip_chars l = [] -> Forall (fun c => Py.isspace c = true) l.
Proof.
  induction l as [|c l IH]; [constructor|]. cbn [Py.lstrip_chars].
  destruct (Py.isspace c) eqn:E; [|discriminate].
  intros H. constructor; [exact E | apply IH, H].
Qed.

Lemma strip_nil_all l :
  Py.strip_chars l = [] -> Forall (fun c => Py.isspace c = true) l.
Proof.
  unfold Py.strip_chars, Py.rstrip_chars. intros H.
  apply (f_equal (@rev ascii)) in H. rewrite rev_involutive in H.
  cbn [rev] in H. apply lstrip_nil_all in H.
  apply Forall_rev in H. rewrite rev_involutive in H.
  destruct (lstrip_head l) as [E|(c & t & E & Hc)].
  - apply lstrip_nil_all, E.
  - rewrite E in H. inversion H; subst. congruence.
Qed.

Lemma strip_nonempty s c :
  In c (Py.chars s) -> Py.isspace c = false -> Py.strip s <> ""%string.
Proof.
  intros I N E. unfold Py.strip in E.
  apply (f_equal Py.chars) in E. rewrite chars_str in E. cbn in E.
  apply strip_nil_all in E. rewrite Forall_forall in E.
  rewrite (E c I) in N. discriminate.
Qed.

Lemma join_head_nonempty sep x xs :
  x <> ""%string -> Py.join sep (x :: xs) <> ""%string.
Proof.
  intros N. destruct xs as [|y xs]; [exact N|].
  rewrite join_cons. destruct x; [contradiction | discriminate].
Qed.

Lemma meaning_block_nonempty nlp heading body :
  heading <> ""%string ->
  MeaningBlock.build_meaning_block nlp heading body <> ""%string.
Proof.
  intros N. unfold MeaningBlock.build_meaning_block.
  destruct (Py.is_empty heading) eqn:E;
    [destruct heading; [contradiction | discriminate]|].
  set (cleaned := Py.strip (Py.strip heading ++ ". "
                            ++ MeaningBlock.clean_text body)).
  assert (C : cleaned <> ""%string).
  { apply (@strip_nonempty _ "."%char); [|reflexivity].
    rewrite !chars_append. apply in_or_app. right. left. reflexivity. }
  destruct (filter (MeaningBlock.important)
              (MeaningBlock.split_sentences nlp cleaned)) as [|x xs] eqn:F.
  - unfold PyText.prefix. destruct cleaned as [|c r]; [contradiction|].
    discriminate.
  - cbn [firstn]. apply join_head_nonempty.
    assert (I : In x (filter MeaningBlock.important
                        (MeaningBlock.split_sentences nlp cleaned)))
      by (rewrite F; left; reflexivity).
    apply filter_In in I. destruct I as [I _].
    unfold MeaningBlock.split_sentences in I.
    destruct (Py.is_empty cleaned); [destruct I|].
    apply filter_In in I. destruct I as [_ I].
    destruct x; [discriminate | discriminate].
Qed.

(** X21: the text that [compare_sections] compares for a record of
    [parse_sections] is its meaning block.  The heading of a parsed record
    is not empty, so [build_meaning_block] gives it a meaning that is not
    empty, and [_comparison_text] reads the stripped meaning, never falling
    back on the body or the heading. *)
Theorem parsed_records_compare_by_meaning
  (nlp : option (string -> list string)) (text : string) :
  Forall (compared_by_meaning nlp) (ParseSections.parse_sections nlp text).
Proof.
  eapply Forall_impl; [|apply parse_sections_ok].
  intros [k v] (h & b & E & _ & Nh & _). cbn [fst snd] in *.
  exists h, b. rewrite E.
  pose proof (@meaning_block_nonempty nlp h b Nh) as M.
  split; [reflexivity|]. split; [reflexivity|]. split; [exact M|].
  unfold _comparison_text.
  cbn [Sec.meaning Sec.body Sec.heading get py_or truthy].
  destruct (MeaningBlock.build_meaning_block nlp h b) as [|c r] eqn:B;
    [contradiction|].
  reflexivity.
Qed.

Lemma match_len_sound icase P r prev s n :
  over icase P r ->
  Re.match_len icase r prev s = Some n ->
  n <= List.length s /\ Forall P (firstn n s).
Proof.
  intros O H. unfold Re.match_len in H.
  apply (@run_sound icase _ P r O) in H.
  destruct H as (m & rest & prev' & -> & F & H).
  injection H as <-. rewrite firstn_app_exact, length_app.
  split; [lia | exact F].
Qed.

Lemma scan_over icase P r :
  over icase P r ->
  forall s skip prev, Forall (piece_over P) (Re.scan icase r skip prev s).
Proof.
  intros O. induction s as [|c s IH]; intros skip prev; cbn [Re.scan];
    [constructor|].
  destruct skip as [|k]; [|apply IH].
  destruct (Re.match_len icase r prev (c :: s)) as [[|n]|] eqn:M.
  - constructor; [exact I | apply IH].
  - constructor; [|apply IH].
    destruct (@match_len_sound icase P r prev (c :: s) (S n) O M) as [L F].
    split; [|exact F]. cbn [firstn]. discriminate.
  - constructor; [exact I | apply IH].
Qed.

Lemma findall_over icase P r s :
  over icase P r -> Forall (word_over P) (Re.findall icase r s).
Proof.
  intros O. unfold Re.findall, Re.pieces.
  pose proof (@scan_over icase P r O (Py.chars s) 0 None) as F.
  induction F as [|p ps Hp _ IH]; [constructor|].
  cbn [flat_map]. destruct p as [m|c]; cbn [app]; [|exact IH].
  constructor; [|exact IH].
  destruct Hp as [N Fm]. split.
  - intros E. apply (f_equal Py.chars) in E. rewrite chars_str in E.
    apply N, E.
  - rewrite chars_str. exact Fm.
Qed.

Lemma set_of_In t xs : In t (Py.set_of xs) <-> In t xs.
Proof.
  revert t. induction xs as [|x xs IH]; intros t; cbn [Py.set_of];
    [tauto|].
  destruct (Py.mem x (Py.set_of xs)) eqn:E; cbn [In]; rewrite IH.
  - apply mem_In, IH in E. split; [auto|]. intros [<-|H]; auto.
  - tauto.
Qed.

(** X22: what the two scanning patterns collect.  Every token of
    [tokenize] is a non-empty word of lower-case letters and digits,
    whatever the case of the text; every number of [_extract_numbers] is a
    non-empty word of digits, colons and full stops, and no number is
    collected twice. *)
Theorem tokens_and_numbers_are_words (text : string) :
  Forall (word_over token_char) (tokenize text)
  /\ Forall (word_over numeral_char) (_extract_numbers text)
  /\ NoDup (_extract_numbers text)
  /\ Forall (fun t => Py.lower t = t) (tokenize text).
Proof.
  assert (T : Forall (word_over token_char) (tokenize text)).
  { unfold tokenize, TOKEN_RE. apply findall_over. cbn [over].
    intros c H. apply orb_true_iff in H. exact H. }
  split; [exact T|]. split; [|split].
  - unfold _extract_numbers.
    assert (F : Forall (word_over numeral_char)
                  (Re.findall false NUMBER_PATTERN text)).
    { apply findall_over. unfold NUMBER_PATTERN, number_body.
      assert (D : forall c, Py.isdigit c = true -> numeral_char c)
        by (intros c H; left; exact H).
      assert (L : forall s x c,
                 (s = ":" \/ s = ".")%string ->
                 In x (Py.chars s) -> Re.char_eq false x c = true ->
                 numeral_char c).
      { intros s x c Hs Hx E. unfold Re.char_eq in E.
        apply Ascii.eqb_eq in E. subst c.
        destruct Hs as [-> | ->]; destruct Hx as [<-|[]];
          unfold numeral_char; auto. }
      cbn [over]. repeat split; try exact D.
      - intros x c. apply (L ":"%string). auto.
      - intros x c. apply (L "."%string). auto. }
    rewrite Forall_forall in *. intros x Hx. apply F, set_of_In, Hx.
  - apply set_of_NoDup.
  - eapply Forall_impl; [|exact T].
    intros t [_ F]. unfold Py.lower.
    rewrite <- (str_chars t) at 2. f_equal.
    induction F as [|c l Hc _ IH]; [reflexivity|].
    cbn [Py.lower_chars map]. fold (Py.lower_chars l). rewrite IH.
    f_equal. revert Hc. unfold token_char. clear.
    destruct c as [[] [] [] [] [] [] [] []]; vm_compute;
      intros [H|H]; try discriminate; reflexivity.
Qed.

Section Dedupe.
Variable emb : option (string -> string -> option Q).

Lemma takes_returns ex ch : exists b, takes emb ex ch = Ok b.
Proof.
  unfold takes.
  destruct (returns_ok _ _ (lexical_unit (_normalize (Change.topic ch))
                              (_normalize (Change.topic ex))))
    as (t & -> & _).
  destruct (returns_ok _ _ (semantic_unit emb
                              (spaced (Change.old_text ch) (Change.new_text ch))
                              (spaced (Change.old_text ex) (Change.new_text ex))))
    as (x & -> & _).
  cbn [bind]. eauto.
Qed.

Lemma takes_key ex ex' ch ch' :
  topic_key ex' = topic_key ex -> topic_key ch' = topic_key ch ->
  takes emb ex' ch' = takes emb ex ch.
Proof.
  unfold topic_key, takes. intros E C.
  injection E as -> -> -> -> ->. injection C as -> -> -> -> ->.
  reflexivity.
Qed.

Lemma merge_into_step ch ex rest :
  merge_into emb ch (ex :: rest)
  = (b <- takes emb ex ch ;;
     if b then Ok (Some (merge ex ch :: rest))
     else r <- merge_into emb ch rest ;; Ok (option_map (cons ex) r)).
Proof.
  cbn [merge_into]. unfold takes.
  destruct (lexical_similarity (_normalize (Change.topic ch))
              (_normalize (Change.topic ex))) as [t|e]; [|reflexivity].
  cbn [bind].
  destruct (semantic_similarity emb
              (spaced (Change.old_text ch) (Change.new_text ch))
              (spaced (Change.old_text ex) (Change.new_text ex)))
    as [x|e]; reflexivity.
Qed.

Lemma merge_into_cases ch deduped :
  (merge_into emb ch deduped = Ok None
   /\ Forall (fun ex => takes emb ex ch = Ok false) deduped)
  \/ (exists deduped',
        merge_into emb ch deduped = Ok (Some deduped')
        /\ Forall2 (fun a b => topic_key b = topic_key a) deduped deduped').
Proof.
  induction deduped as [|ex rest IH]; [left; split; [reflexivity|constructor]|].
  rewrite merge_into_step.
  destruct (takes_returns ex ch) as ([|] & E); rewrite E; cbn [bind].
  - right. eexists. split; [reflexivity|].
    constructor; [reflexivity|].
    clear. induction rest; constructor; [reflexivity | assumption].
  - destruct IH as [[-> F]|(d' & -> & F)]; cbn [bind option_map].
    + left. split; [reflexivity|]. constructor; assumption.
    + right. eexists. split; [reflexivity|].
      constructor; [reflexivity | exact F].
Qed.

Lemma merge_into_none ch deduped :
  Forall (fun ex => takes emb ex ch = Ok false) deduped ->
  merge_into emb ch deduped = Ok None.
Proof.
  induction 1 as [|ex rest E _ IH]; [reflexivity|].
  rewrite merge_into_step, E. cbn [bind]. rewrite IH. reflexivity.
Qed.

Lemma separated_snoc before l c :
  separated_from emb before l ->
  Forall (fun ex => takes emb ex c = Ok false) (before ++ l) ->
  separated_from emb before (l ++ [c]).
Proof.
  revert before. induction l as [|x l IH]; intros before S F;
    cbn [app separated_from] in *.
  - rewrite app_nil_r in F. auto.
  - destruct S as [S1 S2]. split; [exact S1|].
    apply IH; [exact S2|]. rewrite <- app_assoc. exact F.
Qed.

Lemma separated_key before before' l l' :
  Forall2 (fun a b => topic_key b = topic_key a) l l' ->
  Forall2 (fun a b => topic_key b = topic_key a) before before' ->
  separated_from emb before l -> separated_from emb before' l'.
Proof.
  intros H. revert before before'.
  induction H as [|x y l l' K _ IH]; intros before before' B S;
    cbn [separated_from] in *; [exact I|].
  destruct S as [S1 S2]. split.
  - clear - B S1 K. induction B as [|a b p q Kab _ IHB]; [constructor|].
    inversion S1; subst.
    constructor; [|apply IHB; assumption].
    rewrite (@takes_key a b x y Kab K). assumption.
  - eapply IH; [|exact S2].
    apply Forall2_app; [exact B|]. constructor; [exact K | constructor].
Qed.

Lemma Forall2_key_refl (l : list Change.t) :
  Forall2 (fun a b => topic_key b = topic_key a) l l.
Proof. induction l; constructor; [reflexivity | assumption]. Qed.

Lemma dedupe_fold_separated changes :
  forall deduped,
    separated_from emb [] deduped ->
    returns
      (foldM
         (fun deduped ch =>
            r <- merge_into emb ch deduped ;;
            match r with
            | Some deduped' => Ok deduped'
            | None => Ok (deduped ++ [ch])%list
            end)
         changes deduped)
      (fun out => separated_from emb [] out
                  /\ List.length out
                     <= List.length deduped + List.length changes).
Proof.
  induction changes as [|ch rest IH]; intros deduped S; cbn [foldM].
  - cbn [returns List.length]. split; [exact S | lia].
  - destruct (merge_into_cases ch deduped) as [[-> F]|(d' & -> & F)];
      cbn [bind].
    + eapply returns_weaken; [apply IH, separated_snoc; assumption|].
      cbn beta. intros out [S' L]. split; [exact S'|].
      rewrite length_app in L. cbn [List.length] in *. lia.
    + eapply returns_weaken.
      * apply IH. eapply separated_key; [exact F | constructor | exact S].
      * cbn beta. intros out [S' L]. split; [exact S'|].
        apply Forall2_length in F. cbn [List.length]. lia.
Qed.

Lemma dedupe_fold_fixed rest :
  forall deduped,
    separated_from emb deduped rest ->
    foldM
      (fun deduped ch =>
         r <- merge_into emb ch deduped ;;
         match r with
         | Some deduped' => Ok deduped'
         | None => Ok (deduped ++ [ch])%list
         end)
      rest deduped
    = Ok (deduped ++ rest)%list.
Proof.
  induction rest as [|c rest IH]; intros deduped S; cbn [foldM].
  - rewrite app_nil_r. reflexivity.
  - destruct S as [F S]. rewrite (@merge_into_none c deduped F). cbn [bind].
    rewrite (IH _ S), <- app_assoc. reflexivity.
Qed.
End Dedupe.

(** X23: [_dedupe_by_topic] settles in one run.  In the list it returns no
    record takes a later one (same type and subtype, and topic similarity
    at least 0.92 or text similarity at least 0.94), the list is no longer
    than the list given, and the pass run on its own result returns that
    result; a list in which no record takes a later one is returned as it
    is. *)
Theorem dedupe_settles
  (emb : option (string -> string -> option Q)) (changes : list Change.t) :
  returns (_dedupe_by_topic emb changes)
    (fun out =>
       separated_from emb [] out
       /\ List.length out <= List.length changes
       /\ _dedupe_by_topic emb out = Ok out)
  /\ (separated_from emb [] changes ->
      _dedupe_by_topic emb changes = Ok changes).
Proof.
  split.
  - unfold _dedupe_by_topic.
    eapply returns_weaken; [apply (@dedupe_fold_separated emb changes [] I)|].
    cbn beta. intros out [S L]. split; [exact S|]. split; [exact L|].
    apply (@dedupe_fold_fixed emb out [] S).
  - intros S. apply (@dedupe_fold_fixed emb changes [] S).
Qed.

Section Summaries.
Import GenerateAiSummary.

Lemma clean_chars text :
  _clean text = Py.str (squeeze false (Py.strip_chars (Py.chars text))).
Proof.
  unfold _clean, GenerateAiSummary.SPACE_RE. rewrite sub_space.
  unfold Py.strip. rewrite chars_str. reflexivity.
Qed.

Lemma clean_idempotent text : _clean (_clean text) = _clean text.
Proof.
  rewrite (clean_chars (_clean text)), clean_chars, chars_str.
  rewrite strip_squeeze, strip_idempotent, squeeze_idempotent. reflexivity.
Qed.

Lemma clean_is_empty text : Py.is_empty (_clean text) = is_blank text.
Proof.
  rewrite clean_chars, is_empty_str. unfold is_blank, Py.strip.
  rewrite is_empty_str.
  destruct (Py.strip_chars (Py.chars text)) as [|c l] eqn:E;
    [reflexivity|].
  pose proof (lstrip_fixed_head (strip_chars_lstrip_fixed (Py.chars text)))
    as H.
  rewrite E in H. cbn [squeeze]. rewrite H. reflexivity.
Qed.

(** X24: the four modules normalise white space in the same way:
    [_clean] of [generate_ai_summary.py] is [_normalize_line] of
    [parse_sections.py], and [_lower] is [normalize_text] of
    [semantic_utils.py] and [_normalize] of [compare_sections.py]; [_clean]
    and [_lower] applied to their own result change nothing, and [_clean]
    gives the empty text exactly for a text of white space only. *)
Theorem summary_normalisers_agree (text : string) :
  _clean text = ParseSections._normalize_line text
  /\ _lower text = normalize_text text
  /\ _lower text = _normalize text
  /\ _clean (_clean text) = _clean text
  /\ _lower (_lower text) = _lower text
  /\ Py.is_empty (_clean text) = is_blank text.
Proof.
  assert (L : _lower text = normalize_text text).
  { unfold _lower. rewrite clean_chars, normalize_text_chars.
    unfold Py.lower. rewrite chars_str, <- squeeze_lower, strip_lower.
    reflexivity. }
  split; [rewrite clean_chars, normalize_line_chars; reflexivity|].
  split; [exact L|].
  split; [rewrite normalize_agree; exact L|].
  split; [apply clean_idempotent|].
  split.
  - unfold _lower at 1. rewrite L.
    replace (_clean (normalize_text text)) with (normalize_text text).
    + unfold Py.lower. rewrite normalize_text_chars, chars_str.
      rewrite <- squeeze_lower, strip_lower, lower_chars_idempotent.
      reflexivity.
    + rewrite clean_chars, normalize_text_chars, chars_str.
      rewrite strip_squeeze, strip_idempotent, squeeze_idempotent.
      reflexivity.
  - apply clean_is_empty.
Qed.

Lemma isupper_facts c :
  Py.isupper c = true -> Py.isspace c = false /\ upper_char c = c.
Proof.
  destruct c as [[] [] [] [] [] [] [] []]; vm_compute; intros H;
    try discriminate; split; reflexivity.
Qed.

Lemma sentence_case_capitalised s :
  capitalised s -> sentence (_sentence_case s).
Proof.
  intros (c & rest & -> & U). destruct (isupper_facts _ U) as [N V].
  assert (E : exists r, _clean (String c rest) = String c r).
  { rewrite clean_chars.
    change (Py.chars (String c rest)) with (c :: Py.chars rest).
    unfold Py.strip_chars. rewrite lstrip_nonspace by exact N.
    rewrite rstrip_cons_nonspace by exact N.
    cbn [squeeze]. rewrite N. eexists. reflexivity. }
  destruct E as (r & E). unfold _sentence_case. rewrite E, V.
  exists c, r. split; [reflexivity|]. split; [exact U|].
  rewrite <- E. apply clean_idempotent.
Qed.

Ltac capital :=
  repeat match goal with
         | |- context [if ?b then _ else _] => destruct b
         end;
  eexists _, _; split; reflexivity.

(** X25: [generate_change_summary] always returns a sentence: a text that
    is not empty, starts with a capital letter, and has no white space at
    either end and single spaces as its only white space (it is left as it
    is by [_clean]), whatever the two texts and the subtype are. *)
Theorem change_summary_is_a_sentence (old_text new_text subtype : string) :
  sentence (generate_change_summary old_text new_text subtype)
  /\ generate_change_summary old_text new_text subtype <> ""%string
  /\ Py.strip (generate_change_summary old_text new_text subtype)
     = generate_change_summary old_text new_text subtype.
Proof.
  assert (S : sentence (generate_change_summary old_text new_text subtype)).
  { unfold generate_change_summary. apply sentence_case_capitalised.
    destruct (String.eqb (_clean subtype) "Numeric limit changed").
    { unfold _numeric_summary. capital. }
    destruct (String.eqb (_clean subtype) "Applicability changed").
    { unfold _applicability_summary. capital. }
    destruct (String.eqb (_clean subtype) "New rule added").
    { unfold _added_summary. capital. }
    destruct (String.eqb (_clean subtype) "Rule removed").
    { unfold _removed_summary. capital. }
    unfold _modified_summary. capital. }
  split; [exact S|].
  destruct S as (c & rest & E & U & C). rewrite E in *.
  split; [discriminate|].
  rewrite <- C at 2. rewrite <- C at 1. rewrite clean_chars.
  unfold Py.strip. rewrite chars_str, strip_squeeze, strip_idempotent.
  rewrite <- strip_squeeze. reflexivity.
Qed.

(** ** The first sentence *)

Lemma split_first_nonempty m s :
  forall cur prev,
    cur <> [] ->
    exists p ps, ReMore.split_chars m cur 0 prev s = p :: ps /\ p <> [].
Proof.
  induction s as [|c s IH]; intros cur prev N; cbn [ReMore.split_chars].
  - exists (rev cur), []. split; [reflexivity|].
    intros E. apply (f_equal (@rev ascii)) in E.
    rewrite rev_involutive in E. apply N, E.
  - destruct (m prev (c :: s)) as [[|n]|].
    + apply IH. discriminate.
    + exists (rev cur), (ReMore.split_chars m [] n (Some c) s).
      split; [reflexivity|].
      intros E. apply (f_equal (@rev ascii)) in E.
      rewrite rev_involutive in E. apply N, E.
    + apply IH. discriminate.
Qed.

Lemma first_part_nonempty c r :
  exists p ps,
    ReMore.split MeaningBlock.sentence_break (String c r) = p :: ps
    /\ p <> ""%string.
Proof.
  unfold ReMore.split.
  change (Py.chars (String c r)) with (c :: Py.chars r).
  cbn [ReMore.split_chars MeaningBlock.sentence_break].
  destruct (@split_first_nonempty MeaningBlock.sentence_break (Py.chars r)
              [c] (Some c)) as (p & ps & E & N); [discriminate|].
  rewrite E. cbn [map]. eexists _, _. split; [reflexivity|].
  intros F. apply (f_equal Py.chars) in F. rewrite chars_str in F.
  apply N, F.
Qed.

Lemma py_split_word w :
  Forall (fun c => Py.isspace c = false) w ->
  forall cur rest,
    Py.split_chars cur (w ++ rest) = Py.split_chars (rev w ++ cur) rest.
Proof.
  induction 1 as [|c w Hc _ IH]; intros cur rest; [reflexivity|].
  cbn [app Py.split_chars rev]. rewrite Hc, IH, <- app_assoc. reflexivity.
Qed.

Lemma py_split_space cur c rest :
  Py.isspace c = true -> cur <> [] ->
  Py.split_chars cur (c :: rest) = rev cur :: Py.split_chars [] rest.
Proof.
  intros H N. cbn [Py.split_chars]. rewrite H.
  destruct cur; [contradiction | reflexivity].
Qed.

Lemma py_split_words s :
  forall cur,
    Forall (fun c => Py.isspace c = false) cur ->
    Forall (fun w => w <> [] /\ Forall (fun c => Py.isspace c = false) w)
      (Py.split_chars cur s).
Proof.
  induction s as [|c s IH]; intros cur C; cbn [Py.split_chars].
  - destruct cur as [|x cur]; constructor; [|constructor].
    split; [|apply Forall_rev, C].
    intros E. apply (f_equal (@rev ascii)) in E.
    rewrite rev_involutive in E. discriminate.
  - destruct (Py.isspace c) eqn:E.
    + destruct cur as [|x cur]; [apply IH; constructor|].
      constructor; [|apply IH; constructor].
      split; [|apply Forall_rev, C].
      intros F. apply (f_equal (@rev ascii)) in F.
      rewrite rev_involutive in F. discriminate.
    + apply IH. constructor; assumption.
Qed.

Lemma split_join_length ws tail :
  Forall (fun w => Py.chars w <> []
                   /\ Forall (fun c => Py.isspace c = false) (Py.chars w)) ws ->
  Forall (fun c => Py.isspace c = false) tail -> tail <> [] ->
  List.length (Py.split_chars [] (Py.chars (Py.join " " ws) ++ tail))
  = Nat.max 1 (List.length ws).
Proof.
  intros W T N.
  assert (E : forall w : list ascii,
             Forall (fun c => Py.isspace c = false) w -> w <> [] ->
             Py.split_chars [] (w ++ []) = [w]).
  { intros w Fw Nw. rewrite (py_split_word Fw), app_nil_r.
    cbn [Py.split_chars]. destruct (rev w) eqn:R.
    - apply (f_equal (@rev ascii)) in R. rewrite rev_involutive in R.
      contradiction.
    - rewrite <- R, rev_involutive. reflexivity. }
  induction W as [|w ws [Nw Fw] _ IH].
  - cbn [Py.join Py.chars list_ascii_of_string app List.length].
    rewrite <- (app_nil_r tail), (E tail T N). reflexivity.
  - destruct ws as [|w' ws].
    + cbn [Py.join List.length].
      rewrite <- (app_nil_r (Py.chars w ++ tail)), E; [reflexivity| |].
      * apply Forall_app. auto.
      * intros F. apply app_eq_nil in F. destruct F as [F _]. contradiction.
    + rewrite join_cons, !chars_append, <- !app_assoc.
      rewrite (py_split_word Fw), app_nil_r.
      change (Py.chars " " ++ Py.chars (Py.join " " (w' :: ws)) ++ tail)%list
        with (" "%char :: (Py.chars (Py.join " " (w' :: ws)) ++ tail))%list.
      rewrite py_split_space; [|reflexivity|].
      * cbn [List.length] in *. rewrite IH. lia.
      * intros F. apply (f_equal (@rev ascii)) in F.
        rewrite rev_involutive in F. contradiction.
Qed.

Lemma append_nonempty a b : b <> ""%string -> (a ++ b)%string <> ""%string.
Proof.
  intros N E. apply (f_equal Py.chars) in E. rewrite chars_append in E.
  apply app_eq_nil in E. destruct E as [_ E]. apply N, chars_nil, E.
Qed.

Lemma first_sentence_is_empty text n :
  Py.is_empty (_first_sentence text n) = is_blank text.
Proof.
  rewrite <- clean_is_empty. unfold _first_sentence.
  destruct (_clean text) as [|c r] eqn:E; [reflexivity|].
  cbn [Py.is_empty].
  destruct (first_part_nonempty c r) as (p & ps & -> & N).
  destruct (n <? List.length (Py.split p)).
  - match goal with
    | |- Py.is_empty ?s = false => destruct s eqn:Q; [|reflexivity]
    end.
    exfalso. revert Q. apply append_nonempty. discriminate.
  - destruct p; [contradiction | reflexivity].
Qed.

(** X26: [_first_sentence] gives the empty text exactly for a text of
    white space only, and otherwise a text of at most [max_words] words (of
    one word when [max_words] is 0); [generate_summary] never returns the
    empty text, and returns its fixed message for a text of white space
    only. *)
Theorem first_sentence_is_short (text : string) (max_words : nat) :
  Py.is_empty (_first_sentence text max_words) = is_blank text
  /\ List.length (Py.split (_first_sentence text max_words))
     <= Nat.max 1 max_words
  /\ generate_summary text <> ""%string
  /\ (is_blank text = true ->
      generate_summary text
      = "No substantive text available for summary."%string).
Proof.
  split; [apply first_sentence_is_empty|]. split; [|split].
  - unfold _first_sentence.
    destruct (Py.is_empty (_clean text)); [cbn; lia|].
    set (sent := match ReMore.split MeaningBlock.sentence_break (_clean text)
                 with
                 | p :: _ => p
                 | [] => _clean text
                 end).
    destruct (max_words <? List.length (Py.split sent)) eqn:L.
    + apply Nat.ltb_lt in L.
      unfold Py.split at 1. rewrite length_map, chars_append.
      rewrite split_join_length.
      * rewrite length_firstn. lia.
      * apply Forall_forall. intros w Hw.
        assert (Hw' : In w (Py.split sent)).
        { rewrite <- (firstn_skipn max_words (Py.split sent)).
          apply in_or_app. left. exact Hw. }
        clear Hw. rename Hw' into Hw. unfold Py.split in Hw.
        apply in_map_iff in Hw. destruct Hw as (cs & <- & Hcs).
        rewrite chars_str.
        pose proof (@py_split_words (Py.chars sent) [] (Forall_nil _)) as F.
        rewrite Forall_forall in F. apply F, Hcs.
      * repeat constructor.
      * discriminate.
    + apply Nat.ltb_ge in L. lia.
  - unfold generate_summary.
    destruct (Py.is_empty (_clean text)) eqn:E; [discriminate|].
    intros F.
    pose proof (first_sentence_is_empty (_clean text) 30) as H.
    rewrite F in H. cbn [Py.is_empty] in H.
    rewrite <- clean_is_empty, clean_idempotent, E in H. discriminate.
  - intros B. unfold generate_summary.
    rewrite clean_is_empty, B. reflexivity.
Qed.

End Summaries.

(** * Identical mappings, in any order *)

Section DifflibExact.
Import Difflib.
Variables a b : list ascii.

Lemma table_true_nil i : table_true a b i [].
Proof. intros j t H. unfold j2len_get in H. simpl in H. lia. Qed.

Lemma scan_row_genuine alo blo bhi i j2len :
  table_ok alo blo i j2len -> table_true a b i j2len ->
  forall js newj2len best,
    Forall (fun j => at_b b j = at_a a i) js ->
    table_true a b (S i) newj2len ->
    genuine a b best ->
    table_true a b (S i) (fst (scan_row i blo bhi j2len js newj2len best))
    /\ genuine a b (snd (scan_row i blo bhi j2len js newj2len best)).
Proof.
  intros Hok Htab. induction js as [|j js IH]; intros newj2len best Hjs Hnew Hbest.
  - simpl. auto.
  - inversion Hjs as [|? ? Hj Hjs']; subst.
    simpl. destruct (j <? blo) eqn:Ejb; [apply IH; assumption|].
    destruct (bhi <=? j) eqn:Ebj; [simpl; auto|].
    set (k := j2len_get_pred j2len j + 1).
    assert (Hk : k <= S i /\ k <= j + 1
                 /\ forall t, t < k ->
                      at_a a (S i - k + t) = at_b b (j + 1 - k + t)).
    { unfold k. destruct j as [|j']; unfold j2len_get_pred.
      - split; [lia|]. split; [lia|]. intros t Ht.
        assert (t = 0) by lia. subst t.
        replace (S i - (0 + 1) + 0) with i by lia.
        replace (0 + 1 - (0 + 1) + 0) with 0 by lia. symmetry. exact Hj.
      - destruct (Hok j') as [H1 H2].
        split; [lia|]. split; [lia|]. intros t Ht.
        destruct (Nat.eq_dec t (j2len_get j2len j')) as [->|N].
        + replace (S i - (j2len_get j2len j' + 1) + j2len_get j2len j')
            with i by lia.
          replace (S j' + 1 - (j2len_get j2len j' + 1) + j2len_get j2len j')
            with (S j') by lia.
          symmetry. exact Hj.
        + pose proof (Htab j' t ltac:(lia)) as E.
          replace (S i - (j2len_get j2len j' + 1) + t)
            with (i - j2len_get j2len j' + t) by lia.
          replace (S j' + 1 - (j2len_get j2len j' + 1) + t)
            with (j' + 1 - j2len_get j2len j' + t) by lia.
          exact E. }
    destruct Hk as (K1 & K2 & K3).
    apply IH; [assumption| |].
    + intros j' t. rewrite j2len_get_cons.
      destruct (j =? j') eqn:E.
      * apply Nat.eqb_eq in E. subst j'. apply K3.
      * apply Hnew.
    + destruct (size best <? k); [|assumption].
      unfold genuine. intros t Ht.
      replace (i + 1 - k + t) with (S i - k + t) by lia. apply K3, Ht.
Qed.

Lemma b2j_get_spec c : Forall (fun j => at_b b j = c) (b2j_get b c).
Proof.
  unfold b2j_get. destruct (popular b c); [constructor|].
  apply Forall_forall. intros j H. apply indices_of_spec in H. apply H.
Qed.

Lemma scan_rows_genuine alo ahi blo bhi :
  forall n i j2len best,
    alo <= i -> i + n <= ahi ->
    table_ok alo blo i j2len -> table_true a b i j2len ->
    within alo ahi blo bhi best -> genuine a b best ->
    genuine a b (scan_rows a b (seq i n) blo bhi j2len best).
Proof.
  induction n as [|n IH]; intros i j2len best Hlo Hhi Hok Htab Hw Hbest; simpl.
  - assumption.
  - destruct (scan_row i blo bhi j2len (b2j_get b (at_a a i)) [] best)
      as [nj best'] eqn:E.
    pose proof (@scan_row_within alo ahi blo bhi i j2len Hlo ltac:(lia) Hok
                  (b2j_get b (at_a a i)) [] best
                  (table_ok_nil alo blo (S i)) Hw) as H.
    pose proof (@scan_row_genuine alo blo bhi i j2len Hok Htab
                  (b2j_get b (at_a a i)) [] best
                  (b2j_get_spec (at_a a i)) (table_true_nil (S i)) Hbest) as G.
    rewrite E in H, G. simpl in H, G. destruct H as [H1 H2], G as [G1 G2].
    apply IH; try assumption; lia.
Qed.

Lemma extend_back_genuine alo blo :
  forall besti bestj bestsize,
    genuine a b (besti, bestj, bestsize) ->
    genuine a b (extend_back a b alo blo besti bestj bestsize).
Proof.
  induction besti as [|besti IH]; intros bestj bestsize H; simpl.
  - assumption.
  - destruct ((alo <? S besti) && (blo <? bestj)
              && Ascii.eqb (at_a a besti) (at_b b (bestj - 1))) eqn:E;
      [|assumption].
    apply andb_prop in E. destruct E as [E E3].
    apply andb_prop in E. destruct E as [E1 E2].
    apply Nat.ltb_lt in E1, E2. apply Ascii.eqb_eq in E3.
    apply IH. unfold genuine in *. intros t Ht.
    destruct t as [|t].
    + rewrite !Nat.add_0_r. exact E3.
    + replace (besti + S t) with (S besti + t) by lia.
      replace (bestj - 1 + S t) with (bestj + t) by lia.
      apply H. lia.
Qed.

Lemma extend_fwd_genuine ahi bhi :
  forall room besti bestj bestsize,
    genuine a b (besti, bestj, bestsize) ->
    genuine a b (extend_fwd a b room ahi bhi besti bestj bestsize).
Proof.
  induction room as [|room IH]; intros besti bestj bestsize H; simpl.
  - assumption.
  - destruct ((besti + bestsize <? ahi) && (bestj + bestsize <? bhi)
              && Ascii.eqb (at_a a (besti + bestsize))
                           (at_b b (bestj + bestsize))) eqn:E;
      [|assumption].
    apply andb_prop in E. destruct E as [_ E3]. apply Ascii.eqb_eq in E3.
    apply IH. unfold genuine in *. intros t Ht.
    destruct (Nat.eq_dec t bestsize) as [->|N]; [exact E3|].
    apply H. lia.
Qed.

Lemma find_longest_match_genuine alo ahi blo bhi :
  alo <= ahi -> blo <= bhi ->
  genuine a b (find_longest_match a b alo ahi blo bhi).
Proof.
  intros Ha Hb. unfold find_longest_match.
  pose proof (@scan_rows_genuine alo ahi blo bhi (ahi - alo) alo []
                (alo, blo, 0) (le_n _) ltac:(lia) (table_ok_nil _ _ _)
                (table_true_nil _) ltac:(unfold within; lia)
                ltac:(intros t Ht; lia)) as H.
  destruct (scan_rows a b (seq alo (ahi - alo)) blo bhi [] (alo, blo, 0))
    as [[bi bj] bs].
  apply (extend_back_genuine alo blo) in H.
  destruct (extend_back a b alo blo bi bj bs) as [[bi' bj'] bs'].
  apply extend_fwd_genuine. assumption.
Qed.

Lemma same_on_empty alo ahi blo bhi :
  ahi - alo = 0 -> bhi - blo = 0 -> same_on a b (alo, ahi, blo, bhi).
Proof. intros Ha Hb. unfold same_on. split; [lia|]. intros t Ht. lia. Qed.

Lemma total_zero f q r : total f q = 0 -> In r q -> f r = 0.
Proof.
  induction q as [|x q IH]; intros H I; [destruct I|].
  rewrite total_cons in H. destruct I as [<-|I]; [lia|]. apply IH; [lia|exact I].
Qed.

Lemma blocks_loop_nil fuel acc : blocks_loop a b fuel [] acc = acc.
Proof. destruct fuel; reflexivity. Qed.

(** When the blocks found cover both sequences, the sequences agree on
    every rectangle of the queue. *)
Lemma blocks_loop_full :
  forall fuel queue acc,
    Forall rect_ok queue ->
    sizes acc + total width_a queue <= sizes (blocks_loop a b fuel queue acc) ->
    sizes acc + total width_b queue <= sizes (blocks_loop a b fuel queue acc) ->
    Forall (same_on a b) queue.
Proof.
  induction fuel as [|fuel IH]; intros queue acc Hq Ha Hb.
  - assert (E : blocks_loop a b 0 queue acc = acc)
      by (destruct queue as [|[[[? ?] ?] ?] ?]; reflexivity).
    rewrite E in Ha, Hb.
    apply Forall_forall. intros [[[alo ahi] blo] bhi] I.
    pose proof (@total_zero width_a queue _ ltac:(lia) I) as Wa.
    pose proof (@total_zero width_b queue _ ltac:(lia) I) as Wb.
    apply same_on_empty; assumption.
  - destruct queue as [|r queue']; [constructor|].
    rewrite blocks_loop_step in Ha, Hb.
    inversion Hq as [|? ? Hr Hq']; subst.
    pose proof (pushed_facts a b r Hr Hq') as H. cbv zeta in H.
    destruct r as [[[alo ahi] blo] bhi].
    destruct H as (F & A & B & _).
    pose proof (find_longest_match_within a b (proj1 Hr) (proj2 Hr)) as W.
    pose proof (find_longest_match_genuine (proj1 Hr) (proj2 Hr)) as G.
    cbv zeta in Ha, Hb.
    unfold pushed in *.
    destruct (find_longest_match a b alo ahi blo bhi) as [[i j] k] eqn:Em.
    unfold within in W. destruct W as (W1 & W2 & W3 & W4).
    cbn [size snd] in *.
    rewrite total_cons in Ha, Hb, A, B.
    change (width_a (alo, ahi, blo, bhi)) with (ahi - alo) in *.
    change (width_b (alo, ahi, blo, bhi)) with (bhi - blo) in *.
    destruct (k =? 0) eqn:E.
    + apply Nat.eqb_eq in E. subst k.
      destruct (@blocks_loop_sizes a b fuel queue' acc Hq') as [Sa Sb].
      constructor.
      * apply same_on_empty; lia.
      * apply (IH queue' acc Hq'); lia.
    + apply Nat.eqb_neq in E.
      match type of Ha with
      | _ <= sizes (blocks_loop _ _ _ ?q ?ac) =>
          destruct (@blocks_loop_sizes a b fuel q ac F) as [Sa Sb];
          assert (Hs : sizes ac = k + sizes acc) by reflexivity;
          assert (P : Forall (same_on a b) q)
            by (apply (IH q ac F); rewrite Hs; lia)
      end.
      rewrite Hs in Sa, Sb. clear Hs.
      match type of Ha with
      | _ <= ?r => set (res := r) in *; clearbody res
      end.
      assert (L : same_on a b (alo, i, blo, j)
                  /\ same_on a b (i + k, ahi, j + k, bhi)
                  /\ Forall (same_on a b) queue').
      { destruct ((alo <? i) && (blo <? j)) eqn:E1;
          destruct ((i + k <? ahi) && (j + k <? bhi)) eqn:E2;
          rewrite ?total_cons in *;
          change (width_a (alo, i, blo, j)) with (i - alo) in *;
          change (width_b (alo, i, blo, j)) with (j - blo) in *;
          change (width_a (i + k, ahi, j + k, bhi)) with (ahi - (i + k)) in *;
          change (width_b (i + k, ahi, j + k, bhi)) with (bhi - (j + k)) in *;
          repeat match goal with
            | H : Forall (same_on a b) (_ :: _) |- _ =>
                let P1 := fresh "P1" in
                let P2 := fresh "P2" in
                inversion H as [|? ? P1 P2]; subst; clear H
            end;
          (split; [|split]);
          first [assumption | apply same_on_empty; lia]. }
      destruct L as ((L1 & L2) & (R1 & R2) & Q').
      constructor; [|exact Q'].
      unfold same_on. split; [lia|]. intros t Ht.
      destruct (Nat.lt_ge_cases t (i - alo)) as [C|C]; [apply L2, C|].
      destruct (Nat.lt_ge_cases t (i - alo + k)) as [C'|C'].
      * replace (alo + t) with (i + (t - (i - alo))) by lia.
        replace (blo + t) with (j + (t - (i - alo))) by lia.
        apply G. lia.
      * replace (alo + t) with (i + k + (t - (i - alo + k))) by lia.
        replace (blo + t) with (j + k + (t - (i - alo + k))) by lia.
        apply R2. lia.
Qed.

(** The sum of the sizes of the matching blocks is the length of both
    sequences only when the two are the same. *)
Lemma matches_full :
  List.length a <= matches a b -> List.length b <= matches a b -> a = b.
Proof.
  unfold matches, get_matching_blocks. intros Ha Hb.
  pose proof (@blocks_loop_full (2 * List.length a + 1)
                [(0, List.length a, 0, List.length b)] []
                ltac:(constructor; [unfold rect_ok; lia | constructor])) as H.
  rewrite !total_cons in H. unfold sizes at 1 3, total, width_a, width_b in H.
  cbn [list_sum map fold_right] in H.
  specialize (H ltac:(unfold sizes; lia) ltac:(unfold sizes; lia)).
  inversion H as [|? ? H1 _]; subst. unfold same_on in H1.
  destruct H1 as [E S].
  rewrite !Nat.sub_0_r in *.
  apply (nth_ext a b zero zero E). intros n Hn.
  apply (S n Hn).
Qed.
End DifflibExact.

Lemma pydiv_top (x y q : Q) :
  (0 < y)%Q -> pydiv x y = Ok q -> (1 <= q)%Q -> (y <= x)%Q.
Proof.
  intros Hy E Hq. unfold pydiv in E.
  destruct (Qeq_bool y 0); [discriminate|]. injection E as <-.
  assert (N : ~ (y == 0)%Q) by lra.
  assert (Ex : (x == y * (x / y))%Q) by (field; exact N).
  set (t := (x / y)%Q) in *. clearbody t. rewrite Ex. nra.
Qed.

(** [ratio()] is 1 only for equal sequences. *)
Lemma ratio_top (a b : list ascii) (q : Q) :
  Difflib.ratio a b = Ok q -> (1 <= q)%Q -> a = b.
Proof.
  unfold Difflib.ratio, Difflib._calculate_ratio. intros E Hq.
  destruct (Nat.eqb_spec (List.length a + List.length b) 0) as [Z|NZ];
    cbn [negb] in E.
  - destruct a, b; try reflexivity; simpl in Z; lia.
  - destruct (matches_le a b) as [La Lb].
    apply pydiv_top in E; [|apply Qnat_pos; lia | exact Hq].
    assert (H : List.length a + List.length b
                <= Difflib.matches a b + Difflib.matches a b).
    { unfold Qle, Qmult, inject_Z in E. cbn [Qnum Qden] in E. lia. }
    apply matches_full; lia.
Qed.

Lemma is_empty_true s : Py.is_empty s = true -> s = ""%string.
Proof. destruct s; [reflexivity | discriminate]. Qed.

(** The lexical score is 1 only for texts of the same normal form. *)
Lemma lexical_top a b q :
  lexical_similarity a b = Ok q -> (1 <= q)%Q ->
  normalize_text a = normalize_text b.
Proof.
  unfold lexical_similarity. intros E Hq.
  destruct (Py.is_empty (normalize_text a)) eqn:Ea;
    destruct (Py.is_empty (normalize_text b)) eqn:Eb; cbn [andb orb] in E.
  - apply is_empty_true in Ea, Eb. congruence.
  - injection E as <-. lra.
  - injection E as <-. lra.
  - destruct (returns_ok _ _ (returns_eq _ _
                (ratio_unit (Py.chars (normalize_text a))
                   (Py.chars (normalize_text b)))))
      as (r & Er & _ & R0 & R1).
    rewrite Er in E. cbn [bind] in E.
    destruct (returns_ok _ _ (returns_eq _ _
                (jaccard_unit (normalize_text a) (normalize_text b))))
      as (j & Ej & _ & J0 & J1).
    rewrite Ej in E. cbn [bind] in E. injection E as <-.
    assert (T : (1 <= r)%Q) by lra.
    pose proof (ratio_top _ _ Er T) as C.
    rewrite <- (str_chars (normalize_text a)), C. apply str_chars.
Qed.

(** Without the embedding backend the pair score of two sections is 1
    exactly when they have the same signature. *)
Lemma pair_score_top o n q :
  _pair_score offline o n = Ok q -> (1 <= q)%Q -> signature o = signature n.
Proof.
  unfold _pair_score. rewrite semantic_offline. intros E Hq.
  destruct (returns_ok _ _ (returns_eq _ _
              (lexical_unit (heading_of o) (heading_of n))))
    as (h & Eh & _ & H0 & H1).
  rewrite Eh in E. cbn [bind] in E.
  destruct (returns_ok _ _ (returns_eq _ _
              (lexical_unit (_comparison_text o) (_comparison_text n))))
    as (m & Em & _ & M0 & M1).
  rewrite Em in E. cbn [bind] in E.
  destruct (returns_ok _ _ (returns_eq _ _
              (lexical_unit (body_of o) (body_of n))))
    as (b & Eb & _ & B0 & B1).
  rewrite Eb in E. cbn [bind] in E. injection E as <-.
  unfold signature.
  rewrite (lexical_top _ _ Eh) by lra.
  rewrite (lexical_top _ _ Em) by lra.
  rewrite (lexical_top _ _ Eb) by lra.
  reflexivity.
Qed.

Lemma pair_score_alike o n :
  signature o = signature n ->
  returns (_pair_score offline o n) (fun q => 1 <= q)%Q.
Proof.
  unfold signature. intros E. injection E as Eh Em Eb.
  pose proof (pair_score_self n) as S. unfold _pair_score in *.
  rewrite semantic_offline in *.
  rewrite (lexical_reads_normal _ _ _ _ Eh eq_refl).
  rewrite (lexical_reads_normal _ _ _ _ Em eq_refl).
  rewrite (lexical_reads_normal _ _ _ _ Eb eq_refl).
  eapply returns_weaken; [exact S|]. intros q Hq. cbn beta in Hq. lra.
Qed.

Lemma Permutation_filter_same {A : Type} (p : A -> bool) (l l' : list A) :
  Permutation l l' -> Permutation (filter p l) (filter p l').
Proof.
  induction 1 as [|x l l' _ IH|x y l|l l' l'' _ IH1 _ IH2]; cbn [filter].
  - constructor.
  - destruct (p x); [constructor|]; exact IH.
  - destruct (p x), (p y); try apply Permutation_refl. apply perm_swap.
  - eapply Permutation_trans; eassumption.
Qed.

(** The sections kept by a filter have distinct images when all have. *)
Lemma kept_images_distinct {A B : Type} (image : A -> B) (keep : A -> bool)
  (xs : list A) (D : NoDup (map image xs)) :
  NoDup (map image (filter keep xs)).
Proof.
  revert D. induction xs as [|x xs IH]; cbn [map filter]; intros D;
    [constructor|].
  inversion D as [|? ? Fresh D']; subst.
  destruct (keep x); [|apply IH, D'].
  cbn [map]. constructor; [|apply IH, D'].
  intros I. apply Fresh. apply in_map_iff in I. destruct I as (y & E & I).
  apply filter_In in I. apply in_map_iff. exists y. tauto.
Qed.

Lemma filter_length_strict {A : Type} (p q : A -> bool) (l : list A) (x : A) :
  In x l -> p x = true -> q x = false ->
  List.length (filter (fun y => p y && q y) l) < List.length (filter p l).
Proof.
  assert (W : forall l', List.length (filter (fun y => p y && q y) l')
                         <= List.length (filter p l')).
  { induction l' as [|y l' IH]; cbn [filter]; [lia|].
    destruct (p y), (q y); cbn [andb List.length]; lia. }
  induction l as [|y l IH]; intros I Hp Hq; [destruct I|].
  cbn [filter]. destruct I as [->|I].
  - rewrite Hp, Hq. cbn [andb List.length]. specialize (W l). lia.
  - specialize (IH I Hp Hq).
    destruct (p y), (q y); cbn [andb List.length]; lia.
Qed.

Section GreedyMaximal.
Variables (thr : Q) (eff : Q -> Q).

Lemma greedy_grows l : forall m,
  incl (matched_old m) (matched_old (greedy thr eff l m))
  /\ incl (matched_new m) (matched_new (greedy thr eff l m)).
Proof.
  induction l as [|[[s o] n] l IH]; intros m; cbn [greedy].
  - split; apply incl_refl.
  - destruct (Qltb s thr); [split; apply incl_refl|].
    destruct (Py.mem o (matched_old m) || Py.mem n (matched_new m));
      [apply IH|].
    destruct (IH (mk_matching (o :: matched_old m) (n :: matched_new m)
                    (matches m ++ [(o, n, eff s)]))) as [I1 I2].
    cbn [matched_old matched_new] in I1, I2.
    split; intros x Hx; [apply I1 | apply I2]; right; exact Hx.
Qed.

(** After the loop, every pair it went through has a section that is
    matched. *)
Lemma greedy_maximal l :
  Forall (fun x => Qltb (score_of x) thr = false) l ->
  forall m x, In x l ->
    In (oid_of x) (matched_old (greedy thr eff l m))
    \/ In (nid_of x) (matched_new (greedy thr eff l m)).
Proof.
  induction 1 as [|[[s o] n] l H _ IH]; intros m x Hx; [destruct Hx|].
  cbn [greedy]. unfold score_of in H. cbn [fst] in H. rewrite H.
  destruct Hx as [<-|Hx].
  - unfold oid_of, nid_of. cbn [fst snd].
    destruct (Py.mem o (matched_old m) || Py.mem n (matched_new m)) eqn:E.
    + apply orb_true_iff in E.
      destruct (greedy_grows l m) as [I1 I2].
      destruct E as [E|E]; apply mem_In in E; [left; apply I1 | right; apply I2];
        exact E.
    + left.
      apply (proj1 (greedy_grows l
                      (mk_matching (o :: matched_old m) (n :: matched_new m)
                         (matches m ++ [(o, n, eff s)])))).
      left. reflexivity.
  - destruct (Py.mem o (matched_old m) || Py.mem n (matched_new m));
      apply IH, Hx.
Qed.
End GreedyMaximal.

Section PerfectMatching.
Variables (X : Type) (X_dec : forall x y : X, {x = y} + {x <> y}).
Variable cls : string -> X.
Variables K K' : list string.
Hypothesis K_nodup : NoDup K.
Hypothesis K_perm : Permutation K K'.
Variable m : matching.
Hypothesis m_ok : matching_ok K K' m.
Hypothesis m_alike :
  Forall (fun mt => cls (old_of mt) = cls (new_of mt)) (matches m).
Hypothesis m_maximal :
  forall o n, In o K -> In n K' -> cls o = cls n ->
              In o (matched_old m) \/ In n (matched_new m).

Let same (k x : string) : bool := if X_dec (cls k) (cls x) then true else false.

Lemma same_iff k x : same k x = true <-> cls k = cls x.
Proof.
  unfold same. destruct (X_dec (cls k) (cls x)); split; congruence.
Qed.

(** A matching between the sections of two mappings with the same keys that
    pairs only sections alike, and that leaves no two sections alike
    unmatched, leaves no section unmatched. *)
Lemma all_old_matched : incl K (matched_old m).
Proof.
  intros k Hk.
  destruct (in_dec string_dec k (matched_old m)) as [I|N]; [exact I|].
  exfalso.
  destruct m_ok as (N1 & N2 & M1 & M2 & I1 & I2).
  assert (K'_nodup : NoDup K') by (eapply Permutation_NoDup; eassumption).
  set (Nk := filter (same k) K').
  set (Ck := filter (same k) K).
  set (Mk := filter (fun mt => same k (new_of mt)) (matches m)).
  set (Rk := filter (fun o => same k o && negb (String.eqb o k)) K).
  assert (L1 : List.length Ck = List.length Nk)
    by (apply Permutation_length, Permutation_filter_same, K_perm).
  assert (L2 : List.length Nk <= List.length Mk).
  { rewrite <- (length_map new_of Mk).
    apply NoDup_incl_length; [apply NoDup_filter, K'_nodup|].
    intros n Hn. apply filter_In in Hn. destruct Hn as [Hn S].
    destruct (m_maximal Hk Hn (proj1 (same_iff k n) S)) as [C|C];
      [contradiction|].
    apply in_rev in C. rewrite <- M2 in C.
    apply in_map_iff in C. destruct C as (mt & E & C).
    apply in_map_iff. exists mt. split; [exact E|].
    apply filter_In. split; [exact C|]. rewrite E. exact S. }
  assert (L3 : List.length Mk <= List.length Rk).
  { rewrite <- (length_map old_of Mk).
    apply NoDup_incl_length.
    - apply kept_images_distinct. rewrite M1. apply NoDup_rev, N1.
    - intros o Ho. apply in_map_iff in Ho. destruct Ho as (mt & E & Hmt).
      apply filter_In in Hmt. destruct Hmt as [Hmt S].
      assert (Io : In o (matched_old m)).
      { apply in_rev. rewrite <- M1, <- E. apply in_map, Hmt. }
      apply filter_In. split; [apply I1, Io|].
      apply andb_true_iff. split.
      + apply same_iff. rewrite <- E.
        rewrite Forall_forall in m_alike. rewrite (m_alike _ Hmt).
        apply same_iff, S.
      + apply negb_true_iff. apply String.eqb_neq. intros ->. contradiction. }
  assert (L4 : List.length Rk < List.length Ck).
  { apply (@filter_length_strict _ (same k)
             (fun o => negb (String.eqb o k)) K k Hk).
    - apply same_iff. reflexivity.
    - rewrite String.eqb_refl. reflexivity. }
  lia.
Qed.

Lemma all_new_matched : incl K' (matched_new m).
Proof.
  pose proof all_old_matched as A.
  destruct m_ok as (N1 & N2 & M1 & M2 & I1 & I2).
  apply NoDup_length_incl; [exact N2| |exact I2].
  rewrite <- (Permutation_length K_perm).
  pose proof (NoDup_incl_length K_nodup A) as L.
  assert (E : List.length (matched_old m) = List.length (matched_new m)).
  { rewrite <- (length_rev (matched_old m)), <- M1.
    rewrite <- (length_rev (matched_new m)), <- M2.
    rewrite !length_map. reflexivity. }
  lia.
Qed.
End PerfectMatching.

Lemma signature_dec (x y : option (string * string * string)) :
  {x = y} + {x <> y}.
Proof. repeat decide equality; apply string_dec. Qed.

Lemma keys_unique (d : sections) k v v' :
  NoDup (keys d) -> In (k, v) d -> In (k, v') d -> v = v'.
Proof.
  induction d as [|[k0 v0] d IH]; intros N I I'; [destruct I|].
  cbn [keys map fst] in N. inversion N as [|? ? N0 N']; subst.
  assert (Out : forall w, In (k0, w) d -> False).
  { intros w Hw. apply N0. apply in_map_iff. exists (k0, w). auto. }
  destruct I as [E|I], I' as [E'|I'].
  - congruence.
  - injection E as -> ->. destruct (Out _ I').
  - injection E' as -> ->. destruct (Out _ I).
  - apply IH; assumption.
Qed.

Lemma getitem_not_in (d : sections) k :
  ~ In k (keys d) -> getitem d k = Raise (KeyError k).
Proof.
  induction d as [|[k0 v0] d IH]; intros N; [reflexivity|].
  cbn [getitem]. destruct (String.eqb_spec k0 k) as [->|Ne].
  - exfalso. apply N. left. reflexivity.
  - apply IH. intros I. apply N. right. exact I.
Qed.

(** Reading a mapping does not depend on the order of its keys. *)
Lemma getitem_perm (d d' : sections) k :
  NoDup (keys d) -> Permutation d d' -> getitem d' k = getitem d k.
Proof.
  intros N P.
  assert (Pk : Permutation (keys d) (keys d')) by apply Permutation_map, P.
  destruct (in_dec string_dec k (keys d)) as [I|O].
  - destruct (getitem_in _ _ I) as (v & -> & Iv).
    destruct (getitem_in _ _ (Permutation_in _ Pk I)) as (v' & -> & Iv').
    apply (Permutation_in _ (Permutation_sym P)) in Iv'.
    rewrite (@keys_unique d k v v' N Iv Iv'). reflexivity.
  - rewrite (@getitem_not_in d k O). apply getitem_not_in.
    intros I. apply O. apply (Permutation_in _ (Permutation_sym Pk) I).
Qed.

Lemma Forall2_In_l {A B : Type} (R : A -> B -> Prop) l l' x :
  Forall2 R l l' -> In x l -> exists y, In y l' /\ R x y.
Proof.
  induction 1 as [|a b l l' H F IH]; intros Hx; [destruct Hx|].
  destruct Hx as [<-|Hx].
  - exists b. split; [left; reflexivity | exact H].
  - destruct (IH Hx) as (y & Hy & Hr). exists y. split; [right|]; assumption.
Qed.

Section Reordered.
Variable cfg : config.
Variables old new : sections.
Hypothesis thr_le_1 : (match_threshold cfg <= 1)%Q.
Hypothesis old_nodup : NoDup (keys old).
Hypothesis old_new : Permutation old new.

Lemma new_reads_old k : getitem new k = getitem old k.
Proof. apply getitem_perm; assumption. Qed.

Lemma keys_perm : Permutation (keys old) (keys new).
Proof. apply Permutation_map, old_new. Qed.

(** The first greedy loop, on the pairs of score 1. *)
Lemma greedy_top_perfect sp :
  Forall2 (scored_from offline old new)
    (list_prod (keys old) (keys new)) sp ->
  let m := greedy (match_threshold cfg) (fun score => score) (filter top sp)
             (mk_matching [] [] []) in
  matching_ok (keys old) (keys new) m
  /\ incl (keys old) (matched_old m)
  /\ incl (keys new) (matched_new m)
  /\ Forall (fun mt => (1 <= snd mt)%Q
                       /\ signature_at old (old_of mt)
                          = signature_at old (new_of mt)) (matches m).
Proof.
  intros F m.
  assert (G : Forall (fun x => top x = true
                               /\ exists p, scored_from offline old new p x)
                (filter top sp)).
  { apply Forall_forall. intros x Hx. apply filter_In in Hx.
    destruct Hx as [Hx T]. split; [exact T|].
    destruct (@Forall2_In_r _ _ _ _ _ x F Hx) as (p & _ & Hp).
    exists p. exact Hp. }
  assert (Ok1 : matching_ok (keys old) (keys new) m).
  { apply greedy_ok; [|apply matching_ok_empty].
    eapply Forall_impl; [|exact G].
    intros x (_ & p & Ho & Hn & o & n & Eo & En & _). unfold pair_in.
    rewrite Ho, Hn. split.
    - destruct (in_dec string_dec (fst p) (keys old)) as [I|O]; [exact I|].
      rewrite (@getitem_not_in _ _ O) in Eo. discriminate.
    - destruct (in_dec string_dec (snd p) (keys new)) as [I|O]; [exact I|].
      rewrite (@getitem_not_in _ _ O) in En. discriminate. }
  assert (Al : Forall (fun mt => (1 <= snd mt)%Q
                                 /\ signature_at old (old_of mt)
                                    = signature_at old (new_of mt))
                 (matches m)).
  { apply (@greedy_recorded _
             (fun x => top x = true
                       /\ exists p, scored_from offline old new p x));
      [exact G| |constructor].
    intros x (T & p & Ho & Hn & o & n & Eo & En & Es & _) _.
    cbn [snd old_of new_of fst].
    unfold top in T. apply Qle_bool_iff in T. split; [exact T|].
    unfold signature_at, oid_of, nid_of. rewrite Ho, Hn, Eo.
    rewrite <- new_reads_old, En.
    f_equal. apply (@pair_score_top o n _ Es). exact T. }
  assert (Mx : forall o n, In o (keys old) -> In n (keys new) ->
                 signature_at old o = signature_at old n ->
                 In o (matched_old m) \/ In n (matched_new m)).
  { intros o n Ho Hn E.
    assert (Ip : In (o, n) (list_prod (keys old) (keys new)))
      by (apply in_prod; assumption).
    destruct (@Forall2_In_l _ _ _ _ _ (o, n) F Ip)
      as (x & Hx & Exo & Exn & vo & vn & Eo & En & Es & _).
    cbn [fst snd] in *.
    assert (T : top x = true).
    { unfold top, score_of. apply Qle_bool_iff.
      unfold signature_at in E. rewrite Eo, <- new_reads_old, En in E.
      apply (f_equal (fun x => match x with
                               | Some s => s
                               | None => signature vo
                               end)) in E.
      cbv beta iota in E.
      pose proof (@pair_score_alike vo vn E) as S. rewrite Es in S. exact S. }
    assert (Ix : In x (filter top sp)) by (apply filter_In; auto).
    destruct (@greedy_maximal (match_threshold cfg) (fun score => score)
                (filter top sp)
                (@Forall_top_not_below _ thr_le_1 sp)
                (mk_matching [] [] []) x Ix) as [H|H].
    - left. unfold oid_of in H. rewrite Exo in H. exact H.
    - right. unfold nid_of in H. rewrite Exn in H. exact H. }
  split; [exact Ok1|].
  assert (Al' : Forall (fun mt => signature_at old (old_of mt)
                                  = signature_at old (new_of mt)) (matches m))
    by (eapply Forall_impl; [|exact Al]; intros mt [_ H]; exact H).
  split; [|split; [|exact Al]].
  - apply (@all_old_matched _ signature_dec (signature_at old) (keys old)
             (keys new) old_nodup keys_perm m Ok1 Al' Mx).
  - apply (@all_new_matched _ signature_dec (signature_at old) (keys old)
             (keys new) old_nodup keys_perm m Ok1 Al' Mx).
Qed.

(** The matching stage on two mappings that hold the same sections: every
    section is matched, in the first pass, with a section of the same
    signature. *)
Lemma match_sections_reordered :
  returns (match_sections offline cfg old new)
    (fun m =>
       matching_ok (keys old) (keys new) m
       /\ incl (keys old) (matched_old m)
       /\ incl (keys new) (matched_new m)
       /\ Forall (fun mt => (1 <= snd mt)%Q
                            /\ signature_at old (old_of mt)
                               = signature_at old (new_of mt)) (matches m)).
Proof.
  unfold match_sections.
  eapply returns_bind; [apply score_pairs_returns|]. intros sp Hsp.
  pose proof (@greedy_top_perfect sp Hsp) as P. cbv zeta in P.
  destruct P as (Ok1 & Io & In' & Al).
  unfold sort_pairs.
  rewrite (sorted_top_first (fun x : scored => fst (fst x))).
  2:{ intros x Hx.
      destruct (@Forall2_In_r _ _ _ _ _ x Hsp Hx)
        as (p & _ & _ & _ & o & n & _ & _ & _ & _ & L).
      exact L. }
  change (fun x : scored => Qle_bool 1 (fst (fst x))) with top.
  rewrite greedy_app by (apply Forall_top_not_below, thr_le_1).
  set (m := greedy (match_threshold cfg) (fun score => score) (filter top sp)
              (mk_matching [] [] [])) in *.
  rewrite greedy_blocked.
  2:{ apply Forall_forall. intros x Hx. left.
      apply (Permutation_in _ (sorted_by_reverse_perm _ Qle_bool _)) in Hx.
      apply filter_In in Hx. destruct Hx as [Hx _].
      destruct (@Forall2_In_r _ _ _ _ _ x Hsp Hx)
        as (p & _ & Ho & _ & o & n & Eo & _).
      apply Io. unfold oid_of. rewrite Ho.
      destruct (in_dec string_dec (fst p) (keys old)) as [I|O]; [exact I|].
      rewrite (@getitem_not_in _ _ O) in Eo. discriminate. }
  unfold heading_pairs.
  rewrite (unmatched_all Io). cbn [list_prod mapM bind returns].
  cbn [sort_pairs Py.sorted_by_reverse greedy].
  auto.
Qed.
End Reordered.

Lemma classify_matched_top emb gen o n score :
  (1 <= score)%Q ->
  (exists c, _classify_matched_change emb gen o n score 0.95
             = Ok (Some c, S gen)
             /\ only_moved c)
  \/ (_classify_matched_change emb gen o n score 0.95 = Ok (None, gen)
      /\ old_id_differs o n = false).
Proof.
  intros T. unfold _classify_matched_change.
  destruct (returns_ok _ _ (lexical_unit (heading_of o) (heading_of n)))
    as (h & -> & _).
  cbn [bind].
  destruct (returns_ok _ _ (semantic_unit emb (_comparison_text o)
                              (_comparison_text n))) as (t & -> & _).
  cbn [bind].
  assert (G : Qgeb score 0.95 = true)
    by (unfold Qgeb; apply Qle_bool_iff; lra).
  rewrite G, orb_true_r.
  destruct (old_id_differs o n); [|right; auto].
  left.
  destruct (build_change_made gen (Some o) (Some n) "STRUCTURAL_CHANGE"
              "MINOR" "STRUCTURAL_MOVE" "Section was renumbered/moved."
              "Rule text is materially the same; only numbering/location changed."
              score) as (c & E & _ & Ty & Sv & St).
  rewrite E. exists c. split; [reflexivity|]. unfold only_moved. auto.
Qed.

Section ReorderedCall.
Variable cfg : config.
Variables old new : sections.
Hypothesis thr_le_1 : (match_threshold cfg <= 1)%Q.
Hypothesis old_nodup : NoDup (keys old).
Hypothesis old_new : Permutation old new.

(** The records classified for matches of score 1. *)
Lemma classify_matches_top emb ms :
  Forall (fun mt => In (old_of mt) (keys old) /\ In (new_of mt) (keys new)
                    /\ (1 <= snd mt)%Q) ms ->
  forall st, Forall only_moved (fst st) ->
    returns (classify_matches emb old new ms st)
      (fun st' => Forall only_moved (fst st')).
Proof.
  intros F. unfold classify_matches.
  apply (@returns_foldM _ _ _
           (fun mt => In (old_of mt) (keys old) /\ In (new_of mt) (keys new)
                      /\ (1 <= snd mt)%Q)
           (fun st => Forall only_moved (fst st)) ms F).
  intros [cs g] [[oid nid] score] Hs (Ho & Hn & T).
  cbn [old_of new_of fst snd] in *.
  destruct (getitem_in _ _ Ho) as (o & -> & _).
  destruct (getitem_in _ _ Hn) as (n & -> & _).
  cbn [bind].
  destruct (@classify_matched_top emb g o n score T) as [(c & -> & M)|[-> _]];
    cbn [bind returns fst].
  - apply Forall_app. split; [exact Hs|]. constructor; [exact M | constructor].
  - exact Hs.
Qed.

(** With no two sections alike, every match pairs a section with itself
    and nothing is classified. *)
Lemma classify_matches_distinct emb ms gen :
  (forall k k', In k (keys old) -> In k' (keys old) ->
                signature_at old k = signature_at old k' -> k = k') ->
  Forall (fun mt => In (old_of mt) (keys old) /\ In (new_of mt) (keys new)
                    /\ signature_at old (old_of mt)
                       = signature_at old (new_of mt)) ms ->
  classify_matches emb old new ms ([], gen) = Ok ([], gen).
Proof.
  intros D. unfold classify_matches.
  induction 1 as [|[[o n] s] ms (Ho & Hn & E) _ IH]; [reflexivity|].
  cbn [old_of new_of fst snd] in *. cbn [foldM].
  assert (Hn' : In n (keys old))
    by (apply (Permutation_in _ (Permutation_sym
                                   (Permutation_map fst old_new))), Hn).
  pose proof (D o n Ho Hn' E) as <-.
  rewrite (@getitem_perm old new o old_nodup old_new).
  destruct (getitem_in _ _ Ho) as (v & -> & _). cbn [bind].
  rewrite classify_matched_self. cbn [bind]. exact IH.
Qed.

Lemma classify_all_reordered emb m gen :
  matching_ok (keys old) (keys new) m ->
  incl (keys old) (matched_old m) ->
  incl (keys new) (matched_new m) ->
  Forall (fun mt => (1 <= snd mt)%Q
                    /\ signature_at old (old_of mt)
                       = signature_at old (new_of mt)) (matches m) ->
  returns (classify_all emb cfg old new m gen)
    (fun st =>
       Forall only_moved (fst st)
       /\ ((forall k k', In k (keys old) -> In k' (keys old) ->
                         signature_at old k = signature_at old k' -> k = k') ->
           fst st = [])).
Proof.
  intros (N1 & N2 & M1 & M2 & I1 & I2) Io In' Al. unfold classify_all.
  rewrite (unmatched_all Io), (unmatched_all In').
  assert (Keys : Forall (fun mt => In (old_of mt) (keys old)
                                   /\ In (new_of mt) (keys new)) (matches m)).
  { apply Forall_forall. intros mt Hmt. split.
    - apply I1, in_rev. rewrite <- M1. apply in_map, Hmt.
    - apply I2, in_rev. rewrite <- M2. apply in_map, Hmt. }
  assert (F1 : Forall (fun mt => In (old_of mt) (keys old)
                                 /\ In (new_of mt) (keys new)
                                 /\ (1 <= snd mt)%Q) (matches m)).
  { rewrite Forall_forall in *. intros mt Hmt.
    destruct (Keys _ Hmt), (Al _ Hmt). auto. }
  assert (F2 : Forall (fun mt => In (old_of mt) (keys old)
                                 /\ In (new_of mt) (keys new)
                                 /\ signature_at old (old_of mt)
                                    = signature_at old (new_of mt))
                 (matches m)).
  { rewrite Forall_forall in *. intros mt Hmt.
    destruct (Keys _ Hmt), (Al _ Hmt). auto. }
  destruct (returns_ok _ _ (returns_eq _ _
              (@classify_matches_top emb (matches m) F1 ([], gen)
                 (Forall_nil _)))) as (st & E & _ & Hst).
  rewrite E. cbn [bind classify_unmatched foldM returns].
  split; [exact Hst|].
  intros D. rewrite (@classify_matches_distinct emb (matches m) gen D F2) in E.
  injection E as <-. reflexivity.
Qed.
End ReorderedCall.

Lemma only_moved_settled c0 c :
  only_moved c0 -> settled_from c0 c -> only_moved c.
Proof.
  intros (T & S & V) (_ & [(T' & S' & V')|(T' & _)]).
  - unfold only_moved. rewrite T', S', V'. auto.
  - rewrite T in T'. discriminate.
Qed.

(** The validator, given records of renumbered sections only, returns such
    records only, and none under the default flags. *)
Lemma validated_only_moved changes strict include out :
  validated changes strict include out ->
  Forall only_moved changes ->
  Forall only_moved out
  /\ (strict = true -> include = false -> out = [])
  /\ (changes = [] -> out = []).
Proof.
  intros (v1 & v2 & H1 & (kept & Sub & H2) & ->) F.
  assert (A : Forall only_moved (_cap_over_detection v2 35)).
  { apply Forall_forall. intros c Hc.
    destruct (@Forall2_In_r _ _ _ _ _ c (cap_pointwise v2 35) Hc)
      as (c2 & I2 & R2).
    destruct (@Forall2_In_r _ _ _ _ _ c2 H2 I2) as (k & Ik & Rk).
    apply (@subseq_In _ _ _ k Sub) in Ik.
    destruct (@Forall2_In_r _ _ _ _ _ k H1 Ik) as (c0 & I0 & R0).
    rewrite Forall_forall in F.
    apply (@only_moved_settled c0 c (F _ I0)).
    eapply settled_from_trans; [apply kept_or_downgraded_settled, R0|].
    eapply settled_from_trans; [apply same_identity_settled, Rk|].
    apply kept_or_capped_settled, R2. }
  split; [|split].
  - apply Forall_forall. intros c Hc. apply filter_In in Hc.
    rewrite Forall_forall in A. apply A, Hc.
  - intros -> ->.
    induction A as [|c l (T & _) _ IH]; [reflexivity|].
    cbn [filter]. rewrite visible_strict. unfold is_true_change.
    rewrite T. cbn. exact IH.
  - intros ->. inversion H1; subst. inversion Sub; subst.
    inversion H2; subst. reflexivity.
Qed.

Lemma signature_set_section v k :
  signature (Sec.set_section v k) = signature v.
Proof. reflexivity. Qed.

Lemma stamp_In d k v : In (k, v) (stamp d) ->
  exists v0, In (k, v0) d /\ v = Sec.set_section v0 k.
Proof.
  unfold stamp. intros H. apply in_map_iff in H.
  destruct H as ([k0 v0] & E & H). cbn [fst snd] in E. injection E as <- <-.
  exists v0. auto.
Qed.

(** Two mappings that hold the same sections, in any order. *)
Lemma compare_sections_reordered cfg d d' gen :
  (match_threshold cfg <= 1)%Q -> same_sections d d' ->
  returns (compare_sections offline cfg d d' gen)
    (fun o =>
       Forall only_moved (returned o)
       /\ (strict_mode cfg = true -> include_non_true cfg = false ->
           returned o = [])
       /\ (all_distinct d -> returned o = [])).
Proof.
  intros T [N P]. unfold compare_sections.
  assert (N' : NoDup (keys (stamp d))) by (rewrite keys_stamp; exact N).
  destruct (returns_ok _ _ (returns_eq _ _
              (@match_sections_reordered cfg (stamp d) (stamp d') T N' P)))
    as (m & -> & _ & Ok1 & Io & In' & Al).
  cbn [bind].
  destruct (returns_ok _ _ (returns_eq _ _
              (@classify_all_reordered cfg (stamp d) (stamp d') N' P offline
                 m gen Ok1 Io In' Al)))
    as (st & -> & _ & Hst & Hd).
  cbn [bind].
  destruct (returns_ok _ _ (returns_eq _ _
              (validate_returns offline (fst st) (strict_mode cfg)
                 (include_non_true cfg)))) as (out & -> & _ & V).
  cbn [bind returns returned].
  destruct (validated_only_moved V Hst) as (A & B & C).
  split; [|split].
  - apply Forall_forall. intros c Hc.
    apply (Permutation_in _ (sorted_by_perm sort_key key_le out)) in Hc.
    rewrite Forall_forall in A. apply A, Hc.
  - intros S I. rewrite (B S I). reflexivity.
  - intros D. rewrite C; [reflexivity|]. apply Hd.
    intros k k' Hk Hk' E.
    destruct (getitem_in _ _ Hk) as (v & Ev & Iv).
    destruct (getitem_in _ _ Hk') as (v' & Ev' & Iv').
    unfold signature_at in E. rewrite Ev, Ev' in E.
    apply stamp_In in Iv, Iv'.
    destruct Iv as (v0 & Iv0 & ->), Iv' as (v0' & Iv0' & ->).
    rewrite !signature_set_section in E.
    apply (D k k' v0 v0' Iv0 Iv0'). congruence.
Qed.

(** C2, amended: [compare_sections] run without the embedding backend, with
    a match threshold of at most 1 (the default is 0.58), on two mappings
    that hold the same sections.  When both list the keys in the same order
    the call returns the empty list, whatever [strict_mode] and
    [include_non_true] are.  In any order of the keys, every section is
    matched with a section of the same normalised heading, text and body,
    so that no record returned is a TRUE_CHANGE: each is a STRUCTURAL_CHANGE
    that reports a renumbering; the list is empty under the default flags,
    and it is empty under any flags when no two sections have the same
    normalised heading, text and body. *)
Theorem identical_mappings_report_nothing (strict include : bool)
  (d : sections) (gen : nat) :
  returns
    (compare_sections offline (mk_config 0.58 0.82 0.78 strict include) d d gen)
    (fun o => returned o = [] /\ Forall harmless (returned o))
  /\ (forall cfg : config,
        (match_threshold cfg <= 1)%Q ->
        returns (compare_sections offline cfg d d gen)
          (fun o => returned o = [] /\ Forall harmless (returned o)))
  /\ (forall (cfg : config) (d' : sections),
        (match_threshold cfg <= 1)%Q ->
        same_sections d d' ->
        returns (compare_sections offline cfg d d' gen)
          (fun o =>
             Forall (fun c => Change.type c <> "TRUE_CHANGE"%string
                              /\ only_moved c) (returned o)
             /\ (strict_mode cfg = true -> include_non_true cfg = false ->
                 returned o = [])
             /\ (all_distinct d -> returned o = []))).
Proof.
  assert (G : forall cfg : config,
             (match_threshold cfg <= 1)%Q ->
             returns (compare_sections offline cfg d d gen)
               (fun o => returned o = [] /\ Forall harmless (returned o))).
  { intros cfg T. rewrite (@compare_sections_self cfg d gen T).
    cbn [returns returned]. split; [reflexivity | constructor]. }
  split; [|split; [exact G|]].
  - apply G. cbn [match_threshold]. unfold Qle. cbn. lia.
  - intros cfg d' T S.
    eapply returns_weaken; [apply (@compare_sections_reordered cfg d d' gen T S)|].
    intros o (A & B & C). split; [|split; assumption].
    eapply Forall_impl; [|exact A].
    intros c M. split; [|exact M].
    destruct M as (Ty & _). rewrite Ty. discriminate.
Qed.

Lemma identical_mappings_report_nothing_witness :
  same_sections rest_old rest_new
  /\ returns (compare_sections offline default_config rest_old rest_new 0)
       (fun o => returned o = []).
Proof.
  assert (S : same_sections rest_old rest_new).
  { split.
    - cbn. repeat constructor; cbn; intuition discriminate.
    - cbn. apply Permutation_sym.
      apply (@Permutation_cons_app _ _
               [("1"%string, Sec.set_section rest_rule "1");
                ("2"%string, Sec.set_section rest_rule "2")] []).
      apply Permutation_refl. }
  split; [exact S|].
  destruct (identical_mappings_report_nothing true false rest_old 0)
    as (_ & _ & H).
  eapply returns_weaken.
  - apply (H default_config rest_new); [|exact S].
    cbn [match_threshold default_config]. unfold Qle. cbn. lia.
  - intros o (_ & E & _). apply E; reflexivity.
Defined.
